(** * Workflow builder: graph validation and the real execution engine

    A shallow embedding of
    - [src/components/wf-builder/workflowUtils.ts]  (class [WorkflowUtils]),
    - [src/components/wf-builder/components/WorkflowNode.tsx]  (class [TreeValidator]),
    - [src/components/wf-builder/realExecution.ts]  (class [RealWorkflowExecutor]),
    - [src/components/wf-builder/components/ExecutionModal.tsx]  (the job document it runs),
    - [src/components/wf-builder/hooks/useWorkflow.ts]  (the edge and node operations),
    together with the properties the specification states about them
    and further properties of the same code: connections, reachability,
    the topological order, the canvas, the trace of a run, and the path
    from the canvas to the run. *)

From Stdlib Require Import Floats.
From stdpp Require Import gmap strings list sets relations pretty.

Local Set Warnings "-register-all".
Local Set Warnings "-clear-no-such-hyp".

(** ** Part I.  [WorkflowUtils]: edges, cycle detection, validation *)

Module WorkflowUtils.

(** [interface WorkflowEdge] of [types.ts]. *)
Record WorkflowEdge := {
  eid : string;
  efrom : string;
  eoutput : string;
  eto : string;
  einput : string
}.

(** [Map<string, Set<string>>]: both the map and the sets iterate in
    insertion order, so the adjacency list is an association list whose
    keys and neighbour lists carry no duplicates. *)
Definition AdjList := list (string * list string).

(** [set.add(v)]: appended unless already a member. *)
Fixpoint set_add (v : string) (s : list string) : list string :=
  match s with
  | [] => [v]
  | x :: s' => if String.eqb x v then x :: s' else x :: set_add v s'
  end.

(** [if (!graph.has(u)) graph.set(u, new Set()); graph.get(u)!.add(v)] *)
Fixpoint graph_add (g : AdjList) (u v : string) : AdjList :=
  match g with
  | [] => [(u, [v])]
  | (k, ns) :: g' =>
      if String.eqb k u then (k, set_add v ns) :: g'
      else (k, ns) :: graph_add g' u v
  end.

(** [graph.get(nodeId) || new Set()] *)
Fixpoint neighbors (g : AdjList) (nodeId : string) : list string :=
  match g with
  | [] => []
  | (k, ns) :: g' => if String.eqb k nodeId then ns else neighbors g' nodeId
  end.

(** [graph.keys()] *)
Definition keys (g : AdjList) : list string := map fst g.

(** The adjacency list of the existing edges plus the proposed edge. *)
Definition buildGraph (fromNodeId toNodeId : string)
    (existingEdges : list WorkflowEdge) : AdjList :=
  graph_add
    (fold_left (fun g edge => graph_add g (efrom edge) (eto edge)) existingEdges [])
    fromNodeId toNodeId.

(** The two mutable sets closed over by [hasCycle]. *)
Record DfsState := {
  visited : gset string;
  recursionStack : gset string
}.

(** [for (const x of xs) { if (f(x)) return true; }  return false], with
    the state threaded through the calls. *)
Fixpoint forSome (f : string -> DfsState -> option (bool * DfsState))
    (xs : list string) (s : DfsState) : option (bool * DfsState) :=
  match xs with
  | [] => Some (false, s)
  | x :: xs' =>
      match f x s with
      | None => None
      | Some (true, s') => Some (true, s')
      | Some (false, s') => forSome f xs' s'
      end
  end.

(** The inner closure [hasCycle].  JavaScript recursion becomes recursion
    on [fuel]; [None] means the fuel ran out.  When a cycle is reported the
    recursion stack is left as it is, exactly as the early [return true]
    does. *)
Fixpoint hasCycle (fuel : nat) (graph : AdjList) (nodeId : string)
    (s : DfsState) : option (bool * DfsState) :=
  match fuel with
  | O => None
  | S fuel' =>
      if bool_decide (nodeId ∈ recursionStack s) then Some (true, s)
      else if bool_decide (nodeId ∈ visited s) then Some (false, s)
      else
        let s1 := {| visited := {[nodeId]} ∪ visited s;
                     recursionStack := {[nodeId]} ∪ recursionStack s |} in
        match forSome (hasCycle fuel' graph) (neighbors graph nodeId) s1 with
        | None => None
        | Some (true, s2) => Some (true, s2)
        | Some (false, s2) =>
            Some (false, {| visited := visited s2;
                            recursionStack := recursionStack s2 ∖ {[nodeId]} |})
        end
  end.

(** Every node id mentioned by the adjacency list. *)
Definition graphNodes (g : AdjList) : gset string :=
  list_to_set (keys g) ∪ list_to_set (concat (map snd g)).

(** The outer loop [for (const nodeId of graph.keys())]. *)
Definition checkAll (fuel : nat) (graph : AdjList) : option (bool * DfsState) :=
  forSome
    (fun nodeId s =>
       if bool_decide (nodeId ∈ visited s) then Some (false, s)
       else hasCycle fuel graph nodeId s)
    (keys graph)
    {| visited := ∅; recursionStack := ∅ |}.

(** [WorkflowUtils.wouldCreateCycle].  The recursion depth never exceeds
    the number of nodes, so that many units of fuel (plus one) are given;
    [checkAll_total] below shows none is ever missing. *)
Definition wouldCreateCycle (fromNodeId toNodeId : string)
    (existingEdges : list WorkflowEdge) : bool :=
  let graph := buildGraph fromNodeId toNodeId existingEdges in
  match checkAll (S (size (graphNodes graph))) graph with
  | Some (b, _) => b
  | None => false
  end.

(** The edge relation of the augmented edge set. *)
Definition augmented (fromNodeId toNodeId : string)
    (existingEdges : list WorkflowEdge) (u v : string) : Prop :=
  (∃ edge, edge ∈ existingEdges ∧ efrom edge = u ∧ eto edge = v)
  ∨ (u = fromNodeId ∧ v = toNodeId).

(** A directed cycle: some node reaches itself along at least one edge. *)
Definition hasDirectedCycle (R : string -> string -> Prop) : Prop :=
  ∃ v, tc R v v.

(** [interface Handle] and [interface WorkflowNode] of [types.ts], as
    far as validation reads them ([required] absent counts as false). *)
Inductive HandleType := Input | Output.

Record Handle := {
  hid : string;
  htype : HandleType;
  required : bool
}.

Record WorkflowNode := {
  id : string;
  ntype : string;
  nlabel : string;
  handles : list Handle
}.

Record ValidationResult := {
  isValid : bool;
  errors : list string;
  warnings : list string
}.

Definition isInput (h : Handle) : bool :=
  match htype h with Input => true | Output => false end.

Definition isOutput (h : Handle) : bool :=
  match htype h with Input => false | Output => true end.

Definition isStartNode (node : WorkflowNode) : bool := String.eqb (ntype node) "StartNode".

(** The [while (queue.length > 0)] loop of [getReachableNodes]; [None]
    when the fuel runs out. *)
Fixpoint reachLoop (fuel : nat) (edges : list WorkflowEdge) (queue : list string)
    (reachable : gset string) : option (gset string) :=
  match queue with
  | [] => Some reachable
  | currentId :: rest =>
      match fuel with
      | O => None
      | S fuel' =>
          if bool_decide (currentId ∈ reachable) then reachLoop fuel' edges rest reachable
          else
            let reachable' := {[currentId]} ∪ reachable in
            let outgoingEdges :=
              List.filter (fun edge => String.eqb (efrom edge) currentId) edges in
            reachLoop fuel' edges
              (rest ++ map eto
                         (List.filter (fun edge => negb (bool_decide (eto edge ∈ reachable')))
                            outgoingEdges))
              reachable'
      end
  end.

(** [getReachableNodes]: every queue entry is either a start node or was
    pushed for an edge whose source had just been reached, so the loop
    body runs at most [|startNodes| + |edges|] times. *)
Definition getReachableNodes (startNodes : list WorkflowNode)
    (edges : list WorkflowEdge) : gset string :=
  default ∅ (reachLoop (length startNodes + length edges) edges (map id startNodes) ∅).

(** The double-quote character. *)
Definition quote : string := String (Ascii.ascii_of_nat 34) EmptyString.

(** The errors pushed by the loop over the required input handles. *)
Definition missingInputErrors (nodes : list WorkflowNode) (edges : list WorkflowEdge)
    : list string :=
  flat_map
    (fun node =>
       flat_map
         (fun requiredInput =>
            if existsb (fun edge => String.eqb (eto edge) (id node)
                                    && String.eqb (einput edge) (hid requiredInput)) edges
            then []
            else ["Node " +:+ quote +:+ nlabel node +:+ quote
                    +:+ " is missing required input connection"])
         (List.filter (fun h => isInput h && required h) (handles node)))
    nodes.

(** [WorkflowUtils.validateWorkflow] *)
Definition validateWorkflow (nodes : list WorkflowNode) (edges : list WorkflowEdge)
    : ValidationResult :=
  let startNodes := List.filter isStartNode nodes in
  let startErrors :=
    match startNodes with
    | [] => ["Workflow must have at least one Start node"]
    | _ => []
    end in
  let connectedNodeIds : gset string :=
    list_to_set (flat_map (fun edge => [efrom edge; eto edge]) edges) in
  let isolatedNodes :=
    List.filter (fun node => negb (isStartNode node)
                             && negb (bool_decide (id node ∈ connectedNodeIds))) nodes in
  let isolatedWarnings :=
    match isolatedNodes with
    | [] => []
    | _ => [pretty (length isolatedNodes) +:+ " isolated node(s) found"]
    end in
  let unreachableWarnings :=
    match startNodes with
    | [] => []
    | _ =>
        let reachableNodes := getReachableNodes startNodes edges in
        let unreachableNodes :=
          List.filter (fun node => negb (isStartNode node)
                                   && negb (bool_decide (id node ∈ reachableNodes))) nodes in
        match unreachableNodes with
        | [] => []
        | _ => [pretty (length unreachableNodes) +:+ " unreachable node(s) found"]
        end
    end in
  let danglingOutputs :=
    List.filter
      (fun node =>
         existsb
           (fun output =>
              negb (existsb (fun edge => String.eqb (efrom edge) (id node)
                                         && String.eqb (eoutput edge) (hid output)) edges))
           (List.filter isOutput (handles node)))
      nodes in
  let danglingWarnings :=
    match danglingOutputs with
    | [] => []
    | _ => [pretty (length danglingOutputs) +:+ " node(s) have unconnected outputs"]
    end in
  let errors := startErrors ++ missingInputErrors nodes edges in
  {| isValid := match errors with [] => true | _ => false end;
     errors := errors;
     warnings := isolatedWarnings ++ unreachableWarnings ++ danglingWarnings |}.

(** [interface ConnectionValidation] of [types.ts]. *)
Record ConnectionValidation := {
  canConnect : bool;
  reason : option string
}.

Definition refused (why : string) : ConnectionValidation :=
  {| canConnect := false; reason := Some why |}.

(** [WorkflowUtils.createEdge]; [generated] is what [generateId] returns
    for this call (the clock and a random suffix). *)
Definition createEdge (generated fromNodeId outputHandle toNodeId inputHandle : string)
    : WorkflowEdge :=
  {| eid := generated; efrom := fromNodeId; eoutput := outputHandle;
     eto := toNodeId; einput := inputHandle |}.

(** [WorkflowUtils.validateConnection] *)
Definition validateConnection (sourceNode : WorkflowNode) (sourceHandle : string)
    (targetNode : WorkflowNode) (targetHandle : string)
    (existingEdges : list WorkflowEdge) : ConnectionValidation :=
  let sourceHandleExists :=
    List.find (fun h => String.eqb (hid h) sourceHandle && isOutput h)
      (handles sourceNode) in
  let targetHandleExists :=
    List.find (fun h => String.eqb (hid h) targetHandle && isInput h)
      (handles targetNode) in
  match sourceHandleExists with
  | None => refused "Source handle does not exist"
  | Some _ =>
      match targetHandleExists with
      | None => refused "Target handle does not exist"
      | Some _ =>
          if String.eqb (id sourceNode) (id targetNode)
          then refused "Cannot connect node to itself"
          else
            let existingConnection :=
              List.find (fun edge => String.eqb (eto edge) (id targetNode)
                                     && String.eqb (einput edge) targetHandle)
                existingEdges in
            match existingConnection with
            | Some _ => refused "Target input is already connected"
            | None =>
                if wouldCreateCycle (id sourceNode) (id targetNode) existingEdges
                then refused "Connection would create a cycle (DAG violation)"
                else {| canConnect := true; reason := None |}
            end
      end
  end.

(** The entries of the list that [findNodesNeedingConnections] returns. *)
Record NeedsConnection := {
  nodeId : string;
  missingHandles : list string
}.

(** [WorkflowUtils.findNodesNeedingConnections] *)
Definition findNodesNeedingConnections (nodes : list WorkflowNode)
    (edges : list WorkflowEdge) : list NeedsConnection :=
  flat_map
    (fun node =>
       let requiredInputs :=
         List.filter (fun h => isInput h && required h) (handles node) in
       let missingHandles :=
         map hid
           (List.filter
              (fun handle =>
                 negb (existsb (fun edge => String.eqb (eto edge) (id node)
                                            && String.eqb (einput edge) (hid handle))
                         edges))
              requiredInputs) in
       match missingHandles with
       | [] => []
       | _ => [{| nodeId := id node; missingHandles := missingHandles |}]
       end)
    nodes.

(** The entries of the list that [findCompatibleConnections] returns. *)
Record HandlePair := {
  sourceHandle : string;
  targetHandle : string
}.

(** [WorkflowUtils.findCompatibleConnections] *)
Definition findCompatibleConnections (sourceNode targetNode : WorkflowNode)
    (edges : list WorkflowEdge) : list HandlePair :=
  let sourceOutputs := List.filter isOutput (handles sourceNode) in
  let targetInputs := List.filter isInput (handles targetNode) in
  flat_map
    (fun sourceHandle =>
       flat_map
         (fun targetHandle =>
            let validation :=
              validateConnection sourceNode (hid sourceHandle)
                targetNode (hid targetHandle) edges in
            if canConnect validation
            then [{| sourceHandle := hid sourceHandle;
                     targetHandle := hid targetHandle |}]
            else [])
         targetInputs)
    sourceOutputs.

(** [Map<string, number>], in insertion order. *)
Definition Degrees := list (string * Z).

(** [inDegree.get(k)] *)
Fixpoint degree (m : Degrees) (k : string) : option Z :=
  match m with
  | [] => None
  | (k', n) :: m' => if String.eqb k' k then Some n else degree m' k
  end.

(** [inDegree.set(k, n)]: an existing key keeps its place. *)
Fixpoint setDegree (k : string) (n : Z) (m : Degrees) : Degrees :=
  match m with
  | [] => [(k, n)]
  | (k', n') :: m' =>
      if String.eqb k' k then (k', n) :: m' else (k', n') :: setDegree k n m'
  end.

(** [graph.set(k, [])] *)
Fixpoint clearNeighbors (g : AdjList) (k : string) : AdjList :=
  match g with
  | [] => [(k, [])]
  | (k', ns) :: g' =>
      if String.eqb k' k then (k', []) :: g' else (k', ns) :: clearNeighbors g' k
  end.

(** [graph.get(u)!.push(v)]: [None] when [graph.get(u)] is [undefined]
    and the call of [push] on it throws a [TypeError]. *)
Fixpoint pushNeighbor (g : AdjList) (u v : string) : option AdjList :=
  match g with
  | [] => None
  | (k, ns) :: g' =>
      if String.eqb k u then Some ((k, ns ++ [v]) :: g')
      else match pushNeighbor g' u v with
           | Some g'' => Some ((k, ns) :: g'')
           | None => None
           end
  end.

(** The two maps of [getTopologicalOrder] after [nodes.forEach]. *)
Definition initialMaps (nodes : list WorkflowNode) : Degrees * AdjList :=
  fold_left
    (fun maps node =>
       (setDegree (id node) 0%Z (fst maps), clearNeighbors (snd maps) (id node)))
    nodes ([], []).

(** [edges.forEach]: the graph and the in-degrees; [None] when an edge
    leaves an id that is not the id of a node. *)
Fixpoint countEdges (edges : list WorkflowEdge) (maps : Degrees * AdjList)
    : option (Degrees * AdjList) :=
  match edges with
  | [] => Some maps
  | edge :: rest =>
      match pushNeighbor (snd maps) (efrom edge) (eto edge) with
      | None => None
      | Some graph =>
          countEdges rest
            (setDegree (eto edge) (default 0 (degree (fst maps) (eto edge)) + 1)%Z
               (fst maps),
             graph)
      end
  end.

(** [neighbors.forEach] inside the loop: the in-degrees and the queue.
    Every neighbour is the target of an edge and so has an entry in
    [inDegree]; [degree_neighbors] shows the default is never taken. *)
Definition visitNeighbors (neighbors : list string) (state : Degrees * list string)
    : Degrees * list string :=
  fold_left
    (fun state neighbor =>
       let newDegree := (default 0 (degree (fst state) neighbor) - 1)%Z in
       (setDegree neighbor newDegree (fst state),
        if Z.eqb newDegree 0 then snd state ++ [neighbor] else snd state))
    neighbors state.

(** The [while (queue.length > 0)] loop of Kahn's algorithm; [None] when
    the fuel runs out. *)
Fixpoint kahnLoop (fuel : nat) (graph : AdjList) (inDegree : Degrees)
    (queue result : list string) : option (list string) :=
  match queue with
  | [] => Some result
  | current :: rest =>
      match fuel with
      | O => None
      | S fuel' =>
          let state := visitNeighbors (neighbors graph current) (inDegree, rest) in
          kahnLoop fuel' graph (fst state) (snd state) (result ++ [current])
      end
  end.

(** How a call of [getTopologicalOrder] ends. *)
Inductive TopologicalOrder :=
| Ordered (result : list string)
| ThrowsTypeError
| OutOfFuel.

(** [WorkflowUtils.getTopologicalOrder].  Every id enters the queue at
    most once, so the loop body runs at most once for each key of
    [inDegree]. *)
Definition getTopologicalOrder (nodes : list WorkflowNode) (edges : list WorkflowEdge)
    : TopologicalOrder :=
  match countEdges edges (initialMaps nodes) with
  | None => ThrowsTypeError
  | Some (inDegree, graph) =>
      let queue := map fst (List.filter (fun entry => Z.eqb (snd entry) 0) inDegree) in
      match kahnLoop (length inDegree) graph inDegree queue [] with
      | Some result => Ordered result
      | None => OutOfFuel
      end
  end.

End WorkflowUtils.

(** ** Part I, continued.  [TreeValidator] ([components/WorkflowNode.tsx]) *)

Module TreeValidator.
Import WorkflowUtils.

(** [Node] and [Edge] of the canvas library, as far as the validator
    reads them: [node.data.label] is a string, empty when there is none;
    [edge.sourceHandle] may be absent. *)
Record FlowNode := {
  nodeId : string;
  nodeType : string;
  nodeLabel : string
}.

Record FlowEdge := {
  source : string;
  target : string;
  sourceHandle : option string
}.

(** [targetCounts.set(k, (targetCounts.get(k) || 0) + 1)] on a
    [Map<string, number>] kept in insertion order. *)
Fixpoint increment (k : string) (m : list (string * nat)) : list (string * nat) :=
  match m with
  | [] => [(k, 1)]
  | (k', n) :: m' =>
      if String.eqb k' k then (k', S n) :: m' else (k', n) :: increment k m'
  end.

Definition targetCounts (edges : list FlowEdge) : list (string * nat) :=
  fold_left (fun m edge => increment (target edge) m) edges [].

(** [sourceNode?.type === "ConditionNode" &&
     (edge.sourceHandle === "true" || edge.sourceHandle === "false")] *)
Definition fromConditionBranch (nodes : list FlowNode) (edge : FlowEdge) : bool :=
  match List.find (fun n => String.eqb (nodeId n) (source edge)) nodes with
  | Some sourceNode =>
      String.eqb (nodeType sourceNode) "ConditionNode"
      && match sourceHandle edge with
         | Some h => String.eqb h "true" || String.eqb h "false"
         | None => false
         end
  | None => false
  end.

Definition conditionalTargets (nodes : list FlowNode) (edges : list FlowEdge)
    : gset string :=
  list_to_set (map target (List.filter (fromConditionBranch nodes) edges)).

(** [s.slice(-n)] *)
Definition sliceLast (n : nat) (s : string) : string :=
  String.substring (String.length s - n) n s.

(** The error pushed for a node with several parents. *)
Definition multipleParentsError (nodes : list FlowNode) (id : string) : string :=
  let shown :=
    match List.find (fun n => String.eqb (nodeId n) id) nodes with
    | Some node => if String.eqb (nodeLabel node) "" then sliceLast 8 id else nodeLabel node
    | None => sliceLast 8 id
    end in
  "Node " +:+ quote +:+ shown +:+ quote
    +:+ " has multiple parents from non-conditional sources. Each node can only have one parent, unless connected through conditional branching.".

Definition cyclesError : string :=
  "Workflow contains cycles. Tree structure must be acyclic.".

(** [graph.set(k, [])] on a [Map<string, string[]>]. *)
Fixpoint graph_reset (g : AdjList) (k : string) : AdjList :=
  match g with
  | [] => [(k, [])]
  | (k', ns) :: g' =>
      if String.eqb k' k then (k', []) :: g' else (k', ns) :: graph_reset g' k
  end.

(** [if (!graph.has(u)) graph.set(u, []); graph.get(u)!.push(v)] *)
Fixpoint graph_push (g : AdjList) (u v : string) : AdjList :=
  match g with
  | [] => [(u, [v])]
  | (k, ns) :: g' =>
      if String.eqb k u then (k, ns ++ [v]) :: g' else (k, ns) :: graph_push g' u v
  end.

(** The adjacency list of [detectCycles]. *)
Definition treeGraph (nodes : list FlowNode) (edges : list FlowEdge) : AdjList :=
  fold_left (fun g edge => graph_push g (source edge) (target edge)) edges
    (fold_left (fun g node => graph_reset g (nodeId node)) nodes []).

(** [TreeValidator.detectCycles]: its closure [hasCycle] and its outer
    loop have the text of those of [wouldCreateCycle]. *)
Definition detectCycles (nodes : list FlowNode) (edges : list FlowEdge) : bool :=
  let graph := treeGraph nodes edges in
  match checkAll (S (size (graphNodes graph))) graph with
  | Some (b, _) => b
  | None => false
  end.

Record TreeValidation := {
  treeValid : bool;
  treeErrors : list string
}.

(** [TreeValidator.validateTree] *)
Definition validateTree (nodes : list FlowNode) (edges : list FlowEdge) : TreeValidation :=
  match nodes with
  | [] => {| treeValid := true; treeErrors := [] |}
  | _ =>
      let parentErrors :=
        map (fun entry => multipleParentsError nodes (fst entry))
          (List.filter
             (fun entry => (1 <? snd entry)%nat
                           && negb (bool_decide (fst entry ∈ conditionalTargets nodes edges)))
             (targetCounts edges)) in
      let errors :=
        parentErrors ++ (if detectCycles nodes edges then [cyclesError] else []) in
      {| treeValid := match errors with [] => true | _ => false end;
         treeErrors := errors |}
  end.

(** [TreeValidator.wouldCreateCycle]: the adjacency list holds arrays
    here, so an edge listed twice is a neighbour twice. *)
Definition wouldCreateCycle (edges : list FlowEdge) (sourceId targetId : string) : bool :=
  let graph :=
    graph_push
      (fold_left (fun g edge => graph_push g (source edge) (target edge)) edges [])
      sourceId targetId in
  match checkAll (S (size (graphNodes graph))) graph with
  | Some (b, _) => b
  | None => false
  end.

(** [TreeValidator.hasParent] *)
Definition hasParent (edges : list FlowEdge) (targetId : string) : bool :=
  existsb (fun edge => String.eqb (target edge) targetId) edges.

(** [TreeValidator.findRootNodes] *)
Definition findRootNodes (nodes : list FlowNode) (edges : list FlowEdge) : list string :=
  let nodesWithParents : gset string := list_to_set (map target edges) in
  map nodeId
    (List.filter (fun node => negb (bool_decide (nodeId node ∈ nodesWithParents))) nodes).

End TreeValidator.

(** ** Part I, continued.  [WorkflowCanvas] ([components/WorkflowNode.tsx]) *)

Module WorkflowCanvas.
Import WorkflowUtils.

(** [Connection] of the canvas library: each field is a string or
    [null]. *)
Record Connection := {
  source : option string;
  target : option string;
  sourceHandle : option string;
  targetHandle : option string
}.

(** [!!s] for a field that is a string or [null]. *)
Definition given (s : option string) : bool :=
  match s with
  | Some v => negb (String.eqb v "")
  | None => false
  end.

(** [s || d] for such a field. *)
Definition orDefault (s : option string) (d : string) : string :=
  match s with
  | Some v => if String.eqb v "" then d else v
  | None => d
  end.

(** [sourceNode?.type === "ConditionNode"] *)
Definition isConditionNode (sourceNode : option TreeValidator.FlowNode) : bool :=
  match sourceNode with
  | Some node => String.eqb (TreeValidator.nodeType node) "ConditionNode"
  | None => false
  end.

(** [h === "true" || h === "false"] *)
Definition isBranch (h : option string) : bool :=
  match h with
  | Some v => String.eqb v "true" || String.eqb v "false"
  | None => false
  end.

(** [targetNode?.data?.label || params.target.slice(-8)] *)
Definition shownLabel (targetNode : option TreeValidator.FlowNode) (targetId : string)
    : string :=
  match targetNode with
  | Some node =>
      if String.eqb (TreeValidator.nodeLabel node) ""
      then TreeValidator.sliceLast 8 targetId
      else TreeValidator.nodeLabel node
  | None => TreeValidator.sliceLast 8 targetId
  end.

(** The [errors] that [onConnect] collects for a connection from
    [sourceId] to [targetId]. *)
Definition connectionErrors (nodes : list TreeValidator.FlowNode)
    (edges : list TreeValidator.FlowEdge) (sourceId targetId : string)
    (handle : option string) : list string :=
  let sourceNode :=
    List.find (fun n => String.eqb (TreeValidator.nodeId n) sourceId) nodes in
  let targetNode :=
    List.find (fun n => String.eqb (TreeValidator.nodeId n) targetId) nodes in
  let targetHasParent := TreeValidator.hasParent edges targetId in
  let parentErrors :=
    if targetHasParent then
      let isFromConditionalNode := isConditionNode sourceNode && isBranch handle in
      if negb isFromConditionalNode then
        ["Cannot connect: Node " +:+ shownLabel targetNode targetId
           +:+ " already has a parent. Use conditional branching instead."]
      else []
    else [] in
  let cycleErrors :=
    if TreeValidator.wouldCreateCycle edges sourceId targetId
    then ["Cannot connect: This connection would create a cycle."]
    else [] in
  let selfErrors :=
    if String.eqb sourceId targetId
    then ["Cannot connect: Node cannot connect to itself."]
    else [] in
  let branchErrors :=
    if isConditionNode sourceNode && given handle then
      let existingConnectionsFromSameHandle :=
        List.filter
          (fun edge => String.eqb (TreeValidator.source edge) sourceId
                       && bool_decide (TreeValidator.sourceHandle edge = handle))
          edges in
      match existingConnectionsFromSameHandle with
      | _ :: _ =>
          let branchName :=
            if bool_decide (handle = Some "true") then "Yes" else "No" in
          ["Cannot connect: The " +:+ branchName
             +:+ " branch of this conditional already has a connection."]
      | [] => []
      end
    else [] in
  parentErrors ++ cycleErrors ++ selfErrors ++ branchErrors.

(** How a call of [onConnect] ends: it returns at once, it shows the
    errors, or it calls [onEdgeAdd]. *)
Inductive Connected :=
| Ignored
| Invalid (errors : list string)
| EdgeAdd (fromNodeId outputHandle toNodeId inputHandle : string).

(** The callback [onConnect] of the canvas. *)
Definition onConnect (nodes : list TreeValidator.FlowNode)
    (edges : list TreeValidator.FlowEdge) (params : Connection) : Connected :=
  if negb (given (source params)) || negb (given (target params)) then Ignored
  else
    let sourceId := orDefault (source params) "" in
    let targetId := orDefault (target params) "" in
    match connectionErrors nodes edges sourceId targetId (sourceHandle params) with
    | _ :: _ as errors => Invalid errors
    | [] =>
        EdgeAdd sourceId (orDefault (sourceHandle params) "out")
          targetId (orDefault (targetHandle params) "in")
    end.

(** The canvas edge that stands for a workflow edge ([reactFlowEdges]). *)
Definition toFlowEdge (edge : WorkflowEdge) : TreeValidator.FlowEdge :=
  {| TreeValidator.source := efrom edge; TreeValidator.target := eto edge;
     TreeValidator.sourceHandle := Some (eoutput edge) |}.

End WorkflowCanvas.

(** ** Part II.  JavaScript values as the engine uses them *)

Module JS.

(** Strings are the bytes of their UTF-8 text: lengths and indices are
    those of JavaScript for ASCII text. *)

(** The [any] values that travel through job attributes and results. *)
Inductive JSValue :=
| JUndefined
| JNull
| JBool (b : bool)
| JNumber (x : float)
| JString (s : string)
| JArray (items : list JSValue)
| JObject (fields : list (string * JSValue)).

(** An [Error] object, and anything a [throw] may carry. *)
Record JSError := { name : string; message : string }.

Inductive Thrown :=
| ThrowError (e : JSError)
| ThrowValue (v : JSValue).

(** What the host gives and the model does not compute: number
    formatting and parsing, Unicode case mapping and trimming, JSON
    serialisation, the clock, the text of the [TypeError] raised by a
    property access on [null] or [undefined], the delay [setTimeout]
    takes for a value that is not a whole number of milliseconds from 1
    to 2^31 - 1 (hosts differ: 0, 1, or the value wrapped to 32 bits),
    the text that [String] gives for a built-in function of a given
    name, and the name of the function that [Array.prototype] holds under
    a given key (its methods vary with the edition of the language). *)
Record Runtime := {
  numberToString : float -> string;
  stringToNumber : string -> float;
  toLowerCase : string -> string;
  trim : string -> string;
  JSON_stringify : JSValue -> string;
  JSON_parse : string -> JSValue + string;
  toISOString : string;
  Date_now : float;
  typeErrorMessage : string;
  timerOutOfRange : float -> float;
  nativeText : string -> string;
  arrayMethod : string -> option string
}.

(** The whole number that a float is, if it is one and not negative. *)
Definition wholeNumber (x : float) : option Z :=
  match Prim2SF x with
  | S754_zero _ => Some 0%Z
  | S754_finite false m e =>
      if (0 <=? e)%Z then Some (Z.pos m * 2 ^ e)%Z
      else if (Z.pos m mod 2 ^ (- e) =? 0)%Z then Some (Z.pos m / 2 ^ (- e))%Z
      else None
  | _ => None
  end.

(** The delays that every host's [setTimeout] takes as they are. *)
Definition inTimerRange (x : float) : bool :=
  match wholeNumber x with
  | Some n => (1 <=? n)%Z && (n <=? 2147483647)%Z
  | None => false
  end.

Definition ofNat (n : nat) : JSValue :=
  JNumber (PrimFloat.of_uint63 (Uint63.of_Z (Z.of_nat n))).

Definition boolText (b : bool) : string := if b then "true" else "false".

Section WithRuntime.
Context (rt : Runtime).

(** [String(v)] and template-literal interpolation. *)
Fixpoint ToString (v : JSValue) : string :=
  match v with
  | JUndefined => "undefined"
  | JNull => "null"
  | JBool b => boolText b
  | JNumber x => numberToString rt x
  | JString s => s
  | JArray items =>
      String.concat ","
        (map (fun i => match i with
                       | JUndefined | JNull => ""
                       | _ => ToString i
                       end) items)
  | JObject _ => "[object Object]"
  end.

(** [Number(v)]: objects and arrays go through their string form. *)
Definition ToNumber (v : JSValue) : float :=
  match v with
  | JUndefined => PrimFloat.nan
  | JNull => 0%float
  | JBool b => if b then 1%float else 0%float
  | JNumber x => x
  | JString s => stringToNumber rt s
  | JArray _ | JObject _ => stringToNumber rt (ToString v)
  end.

End WithRuntime.

(** [!!v] *)
Definition truthy (v : JSValue) : bool :=
  match v with
  | JUndefined | JNull => false
  | JBool b => b
  | JNumber x => negb (PrimFloat.eqb x 0%float || PrimFloat.is_nan x)
  | JString s => negb (String.eqb s "")
  | JArray _ | JObject _ => true
  end.

(** [a || b] *)
Definition orElse (a b : JSValue) : JSValue := if truthy a then a else b.

(** [a ?? b] *)
Definition nullish (a b : JSValue) : JSValue :=
  match a with
  | JUndefined | JNull => b
  | _ => a
  end.

(** Lookup in a record of fields; an absent key reads as [undefined]. *)
Fixpoint field (k : string) (fields : list (string * JSValue)) : JSValue :=
  match fields with
  | [] => JUndefined
  | (k', v) :: rest => if String.eqb k' k then v else field k rest
  end.

(** [obj[k] = v]: an existing key keeps its place. *)
Fixpoint setField (k : string) (v : JSValue) (fields : list (string * JSValue))
    : list (string * JSValue) :=
  match fields with
  | [] => [(k, v)]
  | (k', v') :: rest =>
      if String.eqb k' k then (k', v) :: rest else (k', v') :: setField k v rest
  end.

(** [v?.k] : [undefined] on [null] and [undefined], own data properties
    of objects, [length] of arrays and strings. *)
Definition optGet (v : JSValue) (k : string) : JSValue :=
  match v with
  | JObject fields => field k fields
  | JArray items => if String.eqb k "length" then ofNat (length items) else JUndefined
  | JString s => if String.eqb k "length" then ofNat (String.length s) else JUndefined
  | _ => JUndefined
  end.

(** [v.k] : as [v?.k], but a [TypeError] on [null] and [undefined]. *)
Definition get (v : JSValue) (k : string) : option JSValue :=
  match v with
  | JUndefined | JNull => None
  | _ => Some (optGet v k)
  end.

(** The entries of an array-like value under their indices. *)
Definition indexed (items : list JSValue) : list (string * JSValue) :=
  imap (fun i item => (pretty i, item)) items.

(** [k in fields], for own keys. *)
Definition hasKey (k : string) (fields : list (string * JSValue)) : bool :=
  existsb (fun kv => String.eqb (fst kv) k) fields.

(** What reading a property of an object can give: a value of the kinds
    above, or a built-in function that the object inherits, known by
    its name. *)
Inductive Property :=
| Data (v : JSValue)
| Native (function : string).

(** The methods that every object inherits from [Object.prototype]: the
    key and the name of the function. *)
Definition objectMethods : list (string * string) :=
  [("constructor", "Object");
   ("__defineGetter__", "__defineGetter__");
   ("__defineSetter__", "__defineSetter__");
   ("hasOwnProperty", "hasOwnProperty");
   ("__lookupGetter__", "__lookupGetter__");
   ("__lookupSetter__", "__lookupSetter__");
   ("isPrototypeOf", "isPrototypeOf");
   ("propertyIsEnumerable", "propertyIsEnumerable");
   ("toString", "toString");
   ("valueOf", "valueOf");
   ("toLocaleString", "toLocaleString")].

Definition objectMethod (k : string) : option string :=
  snd <$> List.find (fun entry => String.eqb (fst entry) k) objectMethods.

(** An object created as [{}] and filled by assignments [obj[k] = v]:
    its own properties, and the value that an assignment to [__proto__]
    has made its prototype ([None]: it is still [Object.prototype]). *)
Record Context := {
  own : list (string * JSValue);
  proto : option JSValue
}.

Definition emptyContext : Context := {| own := []; proto := None |}.

(** The own data properties of a value that serves as a prototype. *)
Definition ownOf (v : JSValue) : list (string * JSValue) :=
  match v with
  | JObject fields => fields
  | JArray items => indexed items ++ [("length", ofNat (length items))]
  | _ => []
  end.

(** The data properties that the object inherits from the value that was
    made its prototype. *)
Definition inheritedData (c : Context) : list (string * JSValue) :=
  from_option ownOf [] (proto c).

(** [obj[k] = v] for a [v] that is neither [null] nor [undefined].  A key
    that the object has, or inherits as a data property, becomes or stays
    an own property.  [__proto__] is otherwise the accessor of
    [Object.prototype]: its setter makes an object or array [v] the
    prototype and ignores a primitive. *)
Definition assign (k : string) (v : JSValue) (c : Context) : Context :=
  if String.eqb k "__proto__" && negb (hasKey k (own c)) && negb (hasKey k (inheritedData c))
  then match v with
       | JObject _ | JArray _ => {| own := own c; proto := Some v |}
       | _ => c
       end
  else {| own := setField k v (own c); proto := proto c |}.

Section Lookup.
Context (rt : Runtime).

(** The built-in function that the object inherits under [k]. *)
Definition inheritedMethod (c : Context) (k : string) : option string :=
  match proto c with
  | Some (JArray _) =>
      match arrayMethod rt k with
      | Some f => Some f
      | None => objectMethod k
      end
  | _ => objectMethod k
  end.

(** [obj[k]]: an own property, then a data property of the prototype,
    then the getter of [__proto__], which gives the prototype, then the
    inherited methods; [None] stands for [undefined]. *)
Definition lookup (c : Context) (k : string) : option Property :=
  if hasKey k (own c) then Some (Data (field k (own c)))
  else if hasKey k (inheritedData c) then Some (Data (field k (inheritedData c)))
  else if String.eqb k "__proto__" then Some (Data (default (JObject []) (proto c)))
  else Native <$> inheritedMethod c k.

(** [String(p)], [Number(p)] and [!!p] for what a property read gave. *)
Definition propertyText (p : Property) : string :=
  match p with
  | Data v => ToString rt v
  | Native f => nativeText rt f
  end.

Definition propertyNumber (p : Property) : float :=
  match p with
  | Data v => ToNumber rt v
  | Native _ => PrimFloat.nan
  end.

Definition propertyTruthy (p : Property) : bool :=
  match p with
  | Data v => truthy v
  | Native _ => true
  end.

End Lookup.

(** [s.includes(sub)] *)
Fixpoint includes (s sub : string) : bool :=
  if String.prefix sub s then true
  else match s with
       | EmptyString => false
       | String _ s' => includes s' sub
       end.

End JS.

(** ** Part III.  [RealWorkflowExecutor] *)

(** The executor is modelled without its observers: the options
    [onJobUpdate] and [onWorkflowUpdate] are taken to be absent, or to
    read what they are handed and return.  Every promise handed out by a
    collaborator ([fetch], the mail service) is taken to settle, and
    every script to return: a run in which a script loops, or in which
    such a promise stays pending, never settles and is outside the
    model.  What is stated of a run below is stated of the runs within
    this scope. *)

Module Engine.
Import JS.

(** *** The compiled job document ([types.ts]) *)

Record JobConnection := { targetJobId : string; condition : string }.

Record JobDependency := { sourceJobId : string; dependsOn : string }.

(** [interface BackendJob].  [attributes.nodeId] and [attributes.label],
    which every compiled job carries as strings, are fields of their own;
    [attributes] holds the remaining entries of the record. *)
Record BackendJob := {
  type : string;
  nodeId : string;
  label : string;
  attributes : list (string * JSValue);
  connections : list JobConnection;
  dependencies : list JobDependency;
  isConditional : bool
}.

Record ExecutionFlow := {
  startNode : option string;
  totalJobs : nat;
  hasConditionalFlow : bool
}.

Record BackendJobsConfig := {
  jobs : list BackendJob;
  executionFlow : ExecutionFlow
}.

(** [job.attributes] as the one record it is in the source. *)
Definition allAttributes (job : BackendJob) : list (string * JSValue) :=
  ("nodeId", JString (nodeId job)) :: ("label", JString (label job)) :: attributes job.

(** [job.attributes.k] *)
Definition attr (job : BackendJob) (k : string) : JSValue :=
  field k (allAttributes job).

(** [workflowConfig.jobs.find((j) => j.attributes.nodeId === nodeId)] *)
Definition findJob (js : list BackendJob) (id : string) : option BackendJob :=
  List.find (fun j => String.eqb (nodeId j) id) js.

(** *** Results *)

Inductive JobStatus := Pending | Running | Completed | Failed | Skipped.

Definition statusText (s : JobStatus) : string :=
  match s with
  | Pending => "pending"
  | Running => "running"
  | Completed => "completed"
  | Failed => "failed"
  | Skipped => "skipped"
  end.

Definition isStatus (a b : JobStatus) : bool :=
  String.eqb (statusText a) (statusText b).

(** [interface JobExecutionResult]; [jobType] always equals [type], and
    the two [Date] fields are left out.  Log lines are kept without the
    [[timestamp]] prefix that [logJob] and [log] put in front. *)
Record JobExecutionResult := {
  jobId : string;
  jobType : string;
  status : JobStatus;
  result : JSValue;
  error : option string;
  logs : list string;
  jobLabel : string
}.

Inductive WorkflowStatus := WRunning | WCompleted | WFailed | WCancelled.

(** [Map<string, JobExecutionResult>], in insertion order. *)
Definition ResultMap := list (string * JobExecutionResult).

Record WorkflowExecutionResult := {
  workflowId : string;
  wstatus : WorkflowStatus;
  jobResults : ResultMap;
  executionLogs : list string
}.

(** [map.get(id)] *)
Fixpoint mapGet (id : string) (m : ResultMap) : option JobExecutionResult :=
  match m with
  | [] => None
  | (k, r) :: m' => if String.eqb k id then Some r else mapGet id m'
  end.

(** [map.set(id, r)]: an existing key keeps its place. *)
Fixpoint mapSet (id : string) (r : JobExecutionResult) (m : ResultMap) : ResultMap :=
  match m with
  | [] => [(id, r)]
  | (k, r') :: m' =>
      if String.eqb k id then (k, r) :: m' else (k, r') :: mapSet id r m'
  end.

(** In-place mutation of the object stored under [id]. *)
Fixpoint mapUpdate (id : string) (f : JobExecutionResult -> JobExecutionResult)
    (m : ResultMap) : ResultMap :=
  match m with
  | [] => []
  | (k, r) :: m' =>
      if String.eqb k id then (k, f r) :: m' else (k, r) :: mapUpdate id f m'
  end.

Definition setStatus (s : JobStatus) (r : JobExecutionResult) : JobExecutionResult :=
  {| jobId := jobId r; jobType := jobType r; status := s; result := result r;
     error := error r; logs := logs r; jobLabel := jobLabel r |}.

Definition setResult (v : JSValue) (r : JobExecutionResult) : JobExecutionResult :=
  {| jobId := jobId r; jobType := jobType r; status := status r; result := v;
     error := error r; logs := logs r; jobLabel := jobLabel r |}.

Definition setError (e : string) (r : JobExecutionResult) : JobExecutionResult :=
  {| jobId := jobId r; jobType := jobType r; status := status r; result := result r;
     error := Some e; logs := logs r; jobLabel := jobLabel r |}.

(** [jobResult.logs.push(...lines)] *)
Definition pushLogs (lines : list string) (r : JobExecutionResult) : JobExecutionResult :=
  {| jobId := jobId r; jobType := jobType r; status := status r; result := result r;
     error := error r; logs := logs r ++ lines; jobLabel := jobLabel r |}.

Definition withJobs (f : ResultMap -> ResultMap) (w : WorkflowExecutionResult)
    : WorkflowExecutionResult :=
  {| workflowId := workflowId w; wstatus := wstatus w;
     jobResults := f (jobResults w); executionLogs := executionLogs w |}.

(** [this.log(workflowResult, message)] *)
Definition log (message : string) (w : WorkflowExecutionResult) : WorkflowExecutionResult :=
  {| workflowId := workflowId w; wstatus := wstatus w;
     jobResults := jobResults w; executionLogs := executionLogs w ++ [message] |}.

Definition setWStatus (s : WorkflowStatus) (w : WorkflowExecutionResult)
    : WorkflowExecutionResult :=
  {| workflowId := workflowId w; wstatus := s;
     jobResults := jobResults w; executionLogs := executionLogs w |}.

(** *** Collaborators *)

(** How a promise handed out by a collaborator settles; that it does is
    the assumption made at the head of this part. *)
Inductive Completion :=
| Resolves (value : JSValue)
| RejectsWith (e : Thrown).

(** What one call of a handler does to its [jobResult]: the log lines it
    pushes before its first [await], whether it awaits at all, the lines
    it pushes afterwards, the value it assigns to [jobResult.result] (if it
    gets that far) and the exception it ends with (if any).  A handler
    that never awaits has done all of this by the time [executeJob]
    suspends on it. *)
Record HandlerRun := {
  immediate : list string;
  awaits : bool;
  later : list string;
  written : option JSValue;
  thrown : option Thrown
}.

(** The [Response] of [fetch], as far as [executeAPICallJob] reads it. *)
Record Response := {
  ok : bool;
  statusCode : float;
  statusText_ : string;
  contentType : option string;
  text : string;
  responseHeaders : JSValue
}.

Inductive FetchSettle :=
| Responds (r : Response)
| FetchRejects (e : Thrown).

(** A request takes [latency] milliseconds to settle on its own. *)
Record FetchRun := { latency : float; settle : FetchSettle }.

(** [interface SendEmailRequest] (its module is outside the sources
    at hand; the fields are those [executeSendEmailJob] fills in). *)
Record SendEmailRequest := {
  to : JSValue;
  cc : JSValue;
  bcc : JSValue;
  subject : JSValue;
  body : JSValue;
  related_id : string;
  related_class : string;
  from_email : JSValue;
  provider : JSValue;
  template_id : JSValue;
  template_name : JSValue
}.

Record EmailRun := { processingTime : float; delivery : Completion }.

(** Calls a script makes on the bindings injected into it. *)
Inductive ScriptCall :=
| ConsoleLog (message : string)
| ConsoleError (message : string)
| ConsoleWarn (message : string)
| UtilsLog (message : string).

(** One evaluation of a script.  A script may return a value that has no
    JSON text (a BigInt, a cyclic object, an object whose [toJSON]
    throws); [serialises] is [Some e] when [JSON.stringify(scriptResult)]
    throws [e], and the value then travels on as [completion] gives it. *)
Record ScriptRun := {
  calls : list ScriptCall;
  executionTime : float;
  completion : Completion;
  serialises : option Thrown
}.

(** The network and the script evaluator. *)
Record World := {
  fetch : JSValue -> JSValue -> JSValue -> option string -> FetchRun;
  runScript : string -> Context -> ScriptRun
}.

(** The constructor's [options] and the private fields it sets. *)
Record ExecutorOptions := {
  opt_emailSendFunction : option (SendEmailRequest -> EmailRun);
  opt_scriptTimeout : option float;
  opt_apiTimeout : option float
}.

Record Executor := {
  emailSendFunction : option (SendEmailRequest -> EmailRun);
  scriptTimeout : float;
  apiTimeout : float
}.

(** [constructor(options?)] *)
Definition newExecutor (options : option ExecutorOptions) : Executor :=
  {| emailSendFunction := options ≫= opt_emailSendFunction;
     scriptTimeout := default 30000%float (options ≫= opt_scriptTimeout);
     apiTimeout := default 60000%float (options ≫= opt_apiTimeout) |}.


(** *** Job handlers *)

Section Handlers.
Context (rt : Runtime) (world : World) (executor : Executor).

Definition newError (msg : string) : Thrown :=
  ThrowError {| name := "Error"; message := msg |}.

Definition typeError : Thrown :=
  ThrowError {| name := "TypeError"; message := typeErrorMessage rt |}.

(** [error instanceof Error ? error.message : String(error)] *)
Definition errorText (e : Thrown) : string :=
  match e with
  | ThrowError err => message err
  | ThrowValue v => ToString rt v
  end.

(** [`${error}`] *)
Definition thrownText (e : Thrown) : string :=
  match e with
  | ThrowError err => name err +:+ ": " +:+ message err
  | ThrowValue v => ToString rt v
  end.

(** [`${xs.length}`]: the length of an array prints as its digits. *)
Definition countText (n : nat) : string := pretty n.

(** [const { k = d } = job.attributes]: the default applies to
    [undefined] only. *)
Definition attrOr (job : BackendJob) (k : string) (d : JSValue) : JSValue :=
  match attr job k with
  | JUndefined => d
  | v => v
  end.

(** [typeof v] *)
Definition typeOf (v : JSValue) : string :=
  match v with
  | JUndefined => "undefined"
  | JBool _ => "boolean"
  | JNumber _ => "number"
  | JString _ => "string"
  | JNull | JArray _ | JObject _ => "object"
  end.

(** The characters of a string, each a string of its own. *)
Fixpoint characters (s : string) : list JSValue :=
  match s with
  | EmptyString => []
  | String c s' => JString (String c EmptyString) :: characters s'
  end.

(** [{ ...v }]: the own fields of an object, the entries of an array and
    the characters of a string under their indices; nothing for [null],
    [undefined], numbers and booleans. *)
Definition spread (v : JSValue) : list (string * JSValue) :=
  match v with
  | JObject fields => fields
  | JArray items => indexed items
  | JString s => indexed (characters s)
  | _ => []
  end.

(** [items.join(sep)] *)
Definition join (sep : string) (items : list JSValue) : string :=
  String.concat sep
    (map (fun i => match i with
                   | JUndefined | JNull => ""
                   | _ => ToString rt i
                   end) items).

(** [getJobResultsForScript]: every job result that is truthy, under its
    job id and under ["<type in lower case>_result"]. *)
Definition getJobResultsForScript (w : WorkflowExecutionResult) : Context :=
  fold_left
    (fun context entry =>
       let jobResult := snd entry in
       if truthy (result jobResult) then
         assign (toLowerCase rt (jobType jobResult) +:+ "_result") (result jobResult)
           (assign (fst entry) (result jobResult) context)
       else context)
    (jobResults w) emptyContext.

(** [executeStartJob] *)
Definition executeStartJob (job : BackendJob) : HandlerRun :=
  {| immediate := ["Starting real workflow execution"];
     awaits := true;
     later := ["Real workflow started successfully"];
     written := Some (JObject
       [("started", JBool true);
        ("timestamp", JString (toISOString rt));
        ("triggerOnStart", attr job "triggerOnStart");
        ("executionMode", JString "REAL")]);
     thrown := None |}.

(** [executeAddTaskJob]: no [await] anywhere in its body. *)
Definition executeAddTaskJob (job : BackendJob) : HandlerRun :=
  let taskData :=
    [("title", orElse (attr job "title") (JString "Workflow Generated Task"));
     ("description", orElse (attr job "description")
                       (JString "Task created by real workflow execution"));
     ("assignee", attr job "assignee");
     ("priority", orElse (attr job "priority") (JString "medium"));
     ("dueDate", attr job "dueDate");
     ("tags", orElse (attr job "tags")
                (JArray [JString "workflow"; JString "real-execution"]))] in
  let taskId := "real_task_" +:+ ToString rt (JNumber (Date_now rt)) in
  {| immediate :=
       ["Creating REAL task: " +:+ ToString rt (field "title" taskData);
        "TODO: Integrate with real task management API";
        "Task data: " +:+ JSON_stringify rt (JObject taskData);
        "REAL task placeholder created: " +:+ taskId];
     awaits := false;
     later := [];
     written := Some (JObject
       (("taskId", JString taskId) :: taskData ++
        [("status", JString "created");
         ("createdAt", JString (toISOString rt));
         ("executionMode", JString "REAL");
         ("note", JString "This task would be created in your real task management system")]));
     thrown := None |}.

(** [executeEndJob] *)
Definition executeEndJob (job : BackendJob) : HandlerRun :=
  {| immediate := [];
     awaits := true;
     later := ["📋 Real workflow termination initiated";
               "✅ All upstream jobs completed successfully";
               "🏁 Real workflow terminated gracefully"];
     written := Some (JObject
       [("message", JString "Real workflow completed successfully");
        ("terminatedAt", JString (toISOString rt));
        ("finalStatus", JString "completed");
        ("executionMode", JString "REAL")]);
     thrown := None |}.

(** A handler that throws before any [await]. *)
Definition throwsAtOnce (lines : list string) (e : Thrown) : HandlerRun :=
  {| immediate := lines; awaits := false; later := [];
     written := None; thrown := Some e |}.

(** The [switch (operator)] of [executeConditionJob]: the value of
    [result], or [None] when the operator is none of the cases. *)
Definition evaluateOperator (operator : JSValue) (fieldValue : Property)
    (value : JSValue) : option bool :=
  match operator with
  | JString op =>
      if String.eqb op "equals" then
        Some (String.eqb (propertyText rt fieldValue) (ToString rt value))
      else if String.eqb op "not_equals" then
        Some (negb (String.eqb (propertyText rt fieldValue) (ToString rt value)))
      else if String.eqb op "greater_than" then
        Some (PrimFloat.ltb (ToNumber rt value) (propertyNumber rt fieldValue))
      else if String.eqb op "less_than" then
        Some (PrimFloat.ltb (propertyNumber rt fieldValue) (ToNumber rt value))
      else if String.eqb op "contains" then
        Some (includes (toLowerCase rt (propertyText rt fieldValue))
                       (toLowerCase rt (ToString rt value)))
      else if String.eqb op "not_contains" then
        Some (negb (includes (toLowerCase rt (propertyText rt fieldValue))
                             (toLowerCase rt (ToString rt value))))
      else if String.eqb op "is_empty" then
        Some (negb (propertyTruthy fieldValue)
              || String.eqb (trim rt (propertyText rt fieldValue)) "")
      else if String.eqb op "is_not_empty" then
        Some (propertyTruthy fieldValue
              && negb (String.eqb (trim rt (propertyText rt fieldValue)) ""))
      else None
  | _ => None
  end.

(** [contextData[field] === undefined] *)
Definition fieldMissing (context : Context) (fieldName : JSValue) : bool :=
  match lookup rt context (ToString rt fieldName) with
  | None | Some (Data JUndefined) => true
  | Some _ => false
  end.

(** [contextData[field]], with [undefined] replaced by [null]. *)
Definition fieldValueOf (context : Context) (fieldName : JSValue) : Property :=
  if fieldMissing context fieldName then Data JNull
  else default (Data JNull) (lookup rt context (ToString rt fieldName)).

(** The callback of [conditions.map], run over the list from [index] on:
    the log lines pushed, and either the booleans or what was thrown. *)
Fixpoint evaluateConditions (context : Context)
    (conditions : list JSValue) (index : nat)
    : list string * (Thrown + list bool) :=
  match conditions with
  | [] => ([], inr [])
  | c :: rest =>
      match get c "field", get c "operator", get c "value" with
      | Some fieldName, Some operator, Some value =>
          let warning :=
            if fieldMissing context fieldName then
              ["Warning: Field '" +:+ ToString rt fieldName
                 +:+ "' not found in context, using null"]
            else [] in
          let fieldValue := fieldValueOf context fieldName in
          match evaluateOperator operator fieldValue value with
          | None =>
              let msg := "Unknown operator: " +:+ ToString rt operator in
              (warning ++
                 ["Error evaluating condition " +:+ countText (S index) +:+ ": " +:+ msg],
               inl (newError msg))
          | Some r =>
              let line :=
                "Condition " +:+ countText (S index) +:+ ": "
                  +:+ ToString rt fieldName +:+ " (" +:+ propertyText rt fieldValue +:+ ") "
                  +:+ ToString rt operator +:+ " " +:+ ToString rt value
                  +:+ " → " +:+ boolText r in
              let '(lines, rs) := evaluateConditions context rest (S index) in
              (warning ++ line :: lines,
               match rs with
               | inl e => inl e
               | inr bs => inr (r :: bs)
               end)
          end
      | _, _, _ => ([], inl typeError)
      end
  end.

(** [v === 0] *)
Definition strictZero (v : JSValue) : bool :=
  match v with
  | JNumber x => PrimFloat.eqb x 0%float
  | _ => false
  end.

(** [logic === "AND" ? results.every((r) => r) : results.some((r) => r)] *)
Definition combine (logic : JSValue) (results : list bool) : bool :=
  match logic with
  | JString s => if String.eqb s "AND" then forallb id results else existsb id results
  | _ => existsb id results
  end.

(** [executeConditionJob]: no [await] anywhere in its body. *)
Definition executeConditionJob (job : BackendJob) (w : WorkflowExecutionResult)
    : HandlerRun :=
  let conditions := attr job "conditions" in
  let logic := attrOr job "logic" (JString "AND") in
  let first :=
    "Evaluating " +:+ ToString rt (orElse (optGet conditions "length") (ofNat 0))
      +:+ " REAL condition(s) with " +:+ ToString rt logic +:+ " logic" in
  match conditions with
  | JArray [] =>
      throwsAtOnce [first] (newError "Condition job requires at least one condition")
  | JArray items =>
      match evaluateConditions (getJobResultsForScript w) items 0 with
      | (lines, inl e) => throwsAtOnce (first :: lines) e
      | (lines, inr results) =>
          let conditionResult := combine logic results in
          {| immediate :=
               first :: lines ++
               ["REAL condition evaluation result: " +:+ boolText conditionResult];
             awaits := false;
             later := [];
             written := Some (JObject
               [("conditionResult", JBool conditionResult);
                ("evaluatedConditions", ofNat (length items));
                ("logic", logic);
                ("results", JArray (map JBool results));
                ("timestamp", JString (toISOString rt));
                ("executionMode", JString "REAL")]);
             thrown := None |}
      end
  | _ =>
      (* not an array: falsy, or of length 0, or without a [map] method *)
      if negb (truthy conditions) || strictZero (optGet conditions "length")
      then throwsAtOnce [first] (newError "Condition job requires at least one condition")
      else throwsAtOnce [first] typeError
  end.

(** [setTimeout(f, ms)]: the delay after which the timer fires. *)
Definition timerDelay (ms : JSValue) : float :=
  let x := ToNumber rt ms in
  if inTimerRange x then x else timerOutOfRange rt x.

(** The [catch] of [executeAPICallJob]: the lines it logs and what it
    throws instead. *)
Definition apiCallCatch (requestTimeout url : JSValue) (e : Thrown)
    : list string * Thrown :=
  match e with
  | ThrowError err =>
      if String.eqb (name err) "AbortError" then
        let timeoutMsg :=
          "API call timed out after " +:+ ToString rt requestTimeout +:+ "ms" in
        ([timeoutMsg], newError timeoutMsg)
      else if includes (message err) "Failed to fetch" then
        let corsMsg :=
          "Network error: Possible CORS issue or server unreachable. URL: "
            +:+ ToString rt url in
        ([corsMsg; "Tip: Ensure the API supports CORS or use a proxy server"],
         newError corsMsg)
      else
        (["API call error: " +:+ message err],
         newError ("API call failed: " +:+ message err))
  | ThrowValue v => ([], ThrowValue v)
  end.

(** What the aborted [fetch] rejects with. *)
Definition abortError : Thrown :=
  ThrowError {| name := "AbortError"; message := "The operation was aborted." |}.

(** [timeout || this.apiTimeout] *)
Definition requestTimeoutOf (job : BackendJob) : JSValue :=
  orElse (attr job "timeout") (JNumber (apiTimeout executor)).

(** The call [fetch(url, fetchOptions)] that [executeAPICallJob] makes. *)
Definition apiFetch (job : BackendJob) : FetchRun :=
  let url := attr job "url" in
  let method := attrOr job "method" (JString "GET") in
  let headers := attrOr job "headers" (JObject []) in
  let body := attr job "body" in
  let requestHeaders :=
    JObject (fold_left (fun acc kv => setField (fst kv) (snd kv) acc) (spread headers)
               [("Content-Type", JString "application/json");
                ("Accept", JString "application/json")]) in
  let requestBody :=
    if truthy body
       && negb (match method with
                | JString m => String.eqb m "GET"
                | _ => false
                end)
    then Some (match body with JString s => s | _ => JSON_stringify rt body end)
    else None in
  fetch world url method requestHeaders requestBody.

(** [executeAPICallJob].  The request is given up when the timer set for
    [requestTimeout] milliseconds fires before the transport settles. *)
Definition executeAPICallJob (job : BackendJob) : HandlerRun :=
  let url := attr job "url" in
  let method := attrOr job "method" (JString "GET") in
  let headers := attrOr job "headers" (JObject []) in
  let body := attr job "body" in
  if negb (truthy url) then throwsAtOnce [] (newError "API Call job requires a URL")
  else
    let requestTimeout := requestTimeoutOf job in
    let sent :=
      ["Making REAL " +:+ ToString rt method +:+ " request to: " +:+ ToString rt url;
       "Headers: " +:+ JSON_stringify rt headers]
      ++ (if truthy body then ["Body: " +:+ JSON_stringify rt body] else [])
      ++ ["Sending " +:+ ToString rt method +:+ " request..."] in
    let run := apiFetch job in
    let failWith (lines : list string) (e : Thrown) :=
      let '(more, e') := apiCallCatch requestTimeout url e in
      {| immediate := sent; awaits := true; later := lines ++ more;
         written := None; thrown := Some e' |} in
    if PrimFloat.ltb (timerDelay requestTimeout) (latency run) then failWith [] abortError
    else
      match settle run with
      | FetchRejects e => failWith [] e
      | Responds response =>
          let received :=
            "Response received in " +:+ ToString rt (JNumber (latency run))
              +:+ "ms with status " +:+ ToString rt (JNumber (statusCode response)) in
          let isJson :=
            match contentType response with
            | Some ct => negb (String.eqb ct "") && includes ct "application/json"
            | None => false
            end in
          let '(parsing, responseData) :=
            if isJson then
              match JSON_parse rt (text response) with
              | inl v => ([], v)
              | inr parseError =>
                  (["Warning: Failed to parse JSON response: " +:+ parseError],
                   JString (text response))
              end
            else ([], JString (text response)) in
          let contentTypeValue :=
            match contentType response with
            | Some ct => JString ct
            | None => JNull
            end in
          let failure :=
            "API call failed with status " +:+ ToString rt (JNumber (statusCode response))
              +:+ ": " +:+ statusText_ response in
          if negb (ok response) then
            failWith
              ([received] ++ parsing ++
               [failure; "Response: " +:+ JSON_stringify rt responseData])
              (newError failure)
          else
            {| immediate := sent;
               awaits := true;
               later :=
                 [received] ++ parsing ++
                 ["REAL API call successful with status "
                    +:+ ToString rt (JNumber (statusCode response));
                  "Response time: " +:+ ToString rt (JNumber (latency run)) +:+ "ms";
                  "Data type: " +:+ typeOf responseData +:+ ", Content-Type: "
                    +:+ ToString rt contentTypeValue];
               written := Some (JObject
                 [("success", JBool (ok response));
                  ("statusCode", JNumber (statusCode response));
                  ("statusText", JString (statusText_ response));
                  ("data", responseData);
                  ("headers", responseHeaders response);
                  ("executionDetails", JObject
                     [("duration", JNumber (latency run));
                      ("url", url);
                      ("method", method);
                      ("timestamp", JString (toISOString rt));
                      ("contentType", orElse contentTypeValue (JString "unknown"))])]);
               thrown := None |}
      end.

(** The log line and the captured console line of one script call. *)
Definition scriptCallLine (c : ScriptCall) : string :=
  match c with
  | ConsoleLog m => "Script Console: " +:+ m
  | ConsoleError m => "Script Console Error: " +:+ m
  | ConsoleWarn m => "Script Console Warn: " +:+ m
  | UtilsLog m => "Script Log: " +:+ m
  end.

Definition consoleLine (c : ScriptCall) : list string :=
  match c with
  | ConsoleLog m => [m]
  | ConsoleError m => ["ERROR: " +:+ m]
  | ConsoleWarn m => ["WARN: " +:+ m]
  | UtilsLog _ => []
  end.

Definition newline : string := String (Ascii.ascii_of_nat 10) EmptyString.

(** The [catch] of [executeScriptJob]. *)
Definition scriptCatch (e : Thrown) : Thrown :=
  match e with
  | ThrowError err => newError ("Script execution failed: " +:+ message err)
  | ThrowValue v => ThrowValue v
  end.

(** [executeScriptJob].  [executeWithTimeout] clears its timer as soon as
    the synchronous call of the script returns, so the script's own
    completion is what the handler awaits; the calls the script makes on
    [console] and [utils.log] are placed where it settles.  The result
    is assigned before the last log line evaluates
    [JSON.stringify(scriptResult)], inside the same [try]. *)
Definition executeScriptJob (job : BackendJob) (jobResult : JobExecutionResult)
    (w : WorkflowExecutionResult) : HandlerRun :=
  let script := orElse (attr job "script") (attr job "code") in
  let language := attrOr job "language" (JString "javascript") in
  let debug :=
    ["🔍 Script job attributes: " +:+ JSON_stringify rt (JObject (allAttributes job));
     "📝 Script content found: " +:+ (if truthy script then "YES" else "NO");
     "📝 Script length: "
       +:+ ToString rt (orElse (optGet script "length") (ofNat 0)) +:+ " characters"] in
  if negb (truthy script) then
    throwsAtOnce debug
      (newError ("Script job requires script content in 'script' or 'code' property. Available properties: "
                 +:+ String.concat ", " (map fst (allAttributes job))))
  else if negb (match language with
                | JString l => String.eqb l "javascript"
                | _ => false
                end) then
    throwsAtOnce debug
      (newError ("Script language '" +:+ ToString rt language
                 +:+ "' not supported. Only JavaScript is supported."))
  else
    let sent :=
      debug ++
      ["Executing REAL " +:+ ToString rt language +:+ " script";
       "Script length: " +:+ ToString rt (optGet script "length") +:+ " characters";
       "Executing script in controlled environment..."] in
    let run := runScript world (ToString rt script) (getJobResultsForScript w) in
    let callLines := map scriptCallLine (calls run) in
    let consoleOutput := flat_map consoleLine (calls run) in
    let elapsed := ToString rt (JNumber (executionTime run)) +:+ "ms" in
    match completion run with
    | RejectsWith e =>
        {| immediate := sent; awaits := true; later := callLines;
           written := None;
           thrown := Some (scriptCatch e) |}
    | Resolves scriptResult =>
        {| immediate := sent;
           awaits := true;
           later :=
             callLines ++
             ["REAL script executed successfully in " +:+ elapsed] ++
             match serialises run with
             | None => ["Script result: " +:+ JSON_stringify rt scriptResult]
             | Some _ => []
             end;
           written := Some (JObject
             [("success", JBool true);
              ("exitCode", ofNat 0);
              ("executionTime", JNumber (executionTime run));
              ("language", language);
              ("scriptResult", scriptResult);
              ("consoleOutput", JString (String.concat newline consoleOutput));
              ("output", JObject
                 [("logs", JArray (map JString
                     (filter (fun l => includes l "Script Log:" = true)
                        (logs jobResult ++ sent ++ callLines))));
                  ("consoleOutput", JArray (map JString consoleOutput));
                  ("executionMode", JString "REAL_FUNCTION")]);
              ("performance", JObject
                 [("executionTime", JString elapsed);
                  ("sandbox", JString "FUNCTION_CONSTRUCTOR")])]);
           thrown := scriptCatch <$> serialises run |}
    end.

(** The [emailData] that [executeSendEmailJob] builds from the attributes. *)
Definition emailDataOf (job : BackendJob) : SendEmailRequest :=
  {| to := orElse (attr job "to") (JArray [JString "test@example.com"]);
     cc := attr job "cc";
     bcc := attr job "bcc";
     subject := orElse (attr job "subject") (JString "Workflow Email Notification");
     body := orElse (attr job "body")
               (JString "This email was sent from a real workflow execution.");
     related_id := "workflow_" +:+ ToString rt (JNumber (Date_now rt));
     related_class := "workflow";
     from_email := attr job "fromEmail";
     provider := attr job "provider";
     template_id := attr job "templateId";
     template_name := attr job "templateName" |}.

(** [Array.isArray(v) ? v.length || 0 : 0] *)
Definition recipientCount (v : JSValue) : JSValue :=
  match v with
  | JArray items => orElse (ofNat (length items)) (ofNat 0)
  | _ => ofNat 0
  end.

(** [executeSendEmailJob] *)
Definition executeSendEmailJob (job : BackendJob) : HandlerRun :=
  let emailData := emailDataOf job in
  let prepared :=
    ["Preparing REAL email for: "
       +:+ (match to emailData with
            | JArray items => join ", " items
            | v => ToString rt v
            end);
     "Subject: " +:+ ToString rt (subject emailData)] in
  match emailSendFunction executor with
  | None =>
      throwsAtOnce prepared
        (newError "Email send function not provided to executor. Cannot send real emails.")
  | Some send =>
      let run := send emailData in
      let sent := prepared ++ ["Sending email via REAL email service..."] in
      let wrap (e : Thrown) :=
        newError ("Failed to send real email: " +:+ errorText e) in
      match delivery run with
      | RejectsWith e =>
          {| immediate := sent; awaits := true; later := [];
             written := None; thrown := Some (wrap e) |}
      | Resolves sendResult =>
          let elapsed := ToString rt (JNumber (processingTime run)) +:+ "ms" in
          let enhancedResult :=
            JObject (setField "executionDetails"
              (JObject
                 [("processingTime", JString elapsed);
                  ("timestamp", JString (toISOString rt));
                  ("executionMode", JString "REAL_API");
                  ("emailData", JObject
                     [("recipients", JObject
                         [("to", match to emailData with
                                 | JArray items => ofNat (length items)
                                 | _ => ofNat 1
                                 end);
                          ("cc", recipientCount (cc emailData));
                          ("bcc", recipientCount (bcc emailData))]);
                      ("subject", subject emailData);
                      ("bodyLength",
                        orElse (optGet (body emailData) "length") (ofNat 0))])])
              (spread sendResult)) in
          let first := "REAL email sent successfully in " +:+ elapsed in
          match get sendResult "id", get sendResult "emailId" with
          | Some id, Some emailId =>
              {| immediate := sent;
                 awaits := true;
                 later :=
                   [first;
                    "Email ID: "
                      +:+ ToString rt (orElse (orElse id emailId) (JString "unknown"))];
                 written := Some enhancedResult;
                 thrown := None |}
          | _, _ =>
              (* [result.id] on [null] or [undefined] *)
              {| immediate := sent; awaits := true; later := [first];
                 written := Some enhancedResult;
                 thrown := Some (wrap typeError) |}
          end
      end
  end.

(** The [switch (job.type)] of [executeJob]: the run of the handler it
    calls, or [None] in the [default] branch, where [executeJob] itself
    throws and no handler is called. *)
Definition runHandler (job : BackendJob) (jobResult : JobExecutionResult)
    (w : WorkflowExecutionResult) : option HandlerRun :=
  if String.eqb (type job) "Start" then Some (executeStartJob job)
  else if String.eqb (type job) "AddTask" then Some (executeAddTaskJob job)
  else if String.eqb (type job) "Condition" then Some (executeConditionJob job w)
  else if String.eqb (type job) "APICall" then Some (executeAPICallJob job)
  else if String.eqb (type job) "Script" then Some (executeScriptJob job jobResult w)
  else if String.eqb (type job) "SendEmail" then Some (executeSendEmailJob job)
  else if String.eqb (type job) "End" then Some (executeEndJob job)
  else None.

End Handlers.

(** *** The traversal *)

(** [getNextJobs] *)
Definition getNextJobs (job : BackendJob) (jobResult : JobExecutionResult)
    : list string :=
  let conditionResult := optGet (result jobResult) "conditionResult" in
  if isConditional job
     && negb (match conditionResult with JUndefined => true | _ => false end)
  then
    let targetCondition := if truthy conditionResult then "true" else "false" in
    map targetJobId
      (List.filter (fun connection => String.eqb (condition connection) targetCondition)
         (connections job))
  else
    map targetJobId
      (List.filter (fun connection =>
                      String.eqb (condition connection) "out"
                      || String.eqb (condition connection) "default")
         (connections job)).

(** An invocation of [executeFromNode] that is suspended at one of its
    [await]s:
    - [AwaitHandler]: inside [executeJob], at [await this.execute<Kind>Job(...)];
    - [AwaitJob]: at [await this.executeJob(...)], which has settled,
      normally or by rethrowing [caught];
    - [AwaitNext]: at [await this.getNextJobs(...)], which has returned.
    After the last one the invocation only waits, at [Promise.allSettled],
    for the invocations it has started. *)
Inductive Task :=
| AwaitHandler (job : BackendJob) (run : HandlerRun)
| AwaitJob (job : BackendJob) (caught : option Thrown)
| AwaitNext (job : BackendJob) (nextJobs : list string).

(** The objects shared by all invocations of one run: the workflow
    result, the [executedNodes] set, and the suspended invocations in the
    order in which they were suspended.  [dispatched] is a ghost trace: the
    job ids in the order in which [executeJob] reached its [switch]. *)
Record ExecState := {
  workflowResult : WorkflowExecutionResult;
  executedNodes : gset string;
  tasks : list Task;
  dispatched : list string
}.

Definition onResult (f : WorkflowExecutionResult -> WorkflowExecutionResult)
    (st : ExecState) : ExecState :=
  {| workflowResult := f (workflowResult st); executedNodes := executedNodes st;
     tasks := tasks st; dispatched := dispatched st |}.

Definition onJob (id : string) (f : JobExecutionResult -> JobExecutionResult)
    (st : ExecState) : ExecState :=
  onResult (withJobs (mapUpdate id f)) st.

Definition addExecuted (id : string) (st : ExecState) : ExecState :=
  {| workflowResult := workflowResult st; executedNodes := {[id]} ∪ executedNodes st;
     tasks := tasks st; dispatched := dispatched st |}.

Definition suspend (t : Task) (st : ExecState) : ExecState :=
  {| workflowResult := workflowResult st; executedNodes := executedNodes st;
     tasks := tasks st ++ [t]; dispatched := dispatched st |}.

Definition noteDispatch (id : string) (st : ExecState) : ExecState :=
  {| workflowResult := workflowResult st; executedNodes := executedNodes st;
     tasks := tasks st; dispatched := dispatched st ++ [id] |}.

Definition withTasks (ts : list Task) (st : ExecState) : ExecState :=
  {| workflowResult := workflowResult st; executedNodes := executedNodes st;
     tasks := ts; dispatched := dispatched st |}.

Section Traversal.
Context (rt : Runtime) (world : World) (executor : Executor)
        (workflowConfig : BackendJobsConfig).

(** [workflowResult.jobResults.get(dep.sourceJobId)?.status] *)
Definition dependencyStatus (st : ExecState) (dep : JobDependency) : option JobStatus :=
  status <$> mapGet (sourceJobId dep) (jobResults (workflowResult st)).

Definition hasStatus (o : option JobStatus) (s : JobStatus) : bool :=
  match o with
  | Some s' => isStatus s' s
  | None => false
  end.

(** The predicate of the [pendingDependencies] filter:
    [!isExecuted || (!isCompleted && !isFailed)]. *)
Definition isPendingDependency (st : ExecState) (dep : JobDependency) : bool :=
  let isExecuted := bool_decide (sourceJobId dep ∈ executedNodes st) in
  let isCompleted := hasStatus (dependencyStatus st dep) Completed in
  let isFailed := hasStatus (dependencyStatus st dep) Failed in
  negb isExecuted || (negb isCompleted && negb isFailed).

(** The predicate of the [failedDependencies] filter. *)
Definition isFailedDependency (st : ExecState) (dep : JobDependency) : bool :=
  hasStatus (dependencyStatus st dep) Failed.

Definition checkingLine (st : ExecState) (dep : JobDependency) : string :=
  "🔍 Checking dependency: " +:+ sourceJobId dep +:+ " - Executed: "
    +:+ boolText (bool_decide (sourceJobId dep ∈ executedNodes st))
    +:+ ", Status: "
    +:+ match dependencyStatus st dep with
        | Some s => statusText s
        | None => "undefined"
        end.

(** [`${dep.sourceJobId} (${depJobResult?.status})`], with [fallback]
    for a status that is missing. *)
Definition dependencyText (fallback : string) (st : ExecState) (dep : JobDependency)
    : string :=
  sourceJobId dep +:+ " ("
    +:+ match dependencyStatus st dep with
        | Some s => statusText s
        | None => fallback
        end +:+ ")".

(** The record of a job that was never initialised; [jobResults] holds an
    entry for every job of the document, so this is not read in a run. *)
Definition blankResult (job : BackendJob) : JobExecutionResult :=
  {| jobId := nodeId job; jobType := type job; status := Pending;
     result := JUndefined; error := None; logs := []; jobLabel := label job |}.

Definition jobResultOf (st : ExecState) (job : BackendJob) : JobExecutionResult :=
  default (blankResult job) (mapGet (nodeId job) (jobResults (workflowResult st))).

(** What a handler has done to [jobResult] once it has run up to its
    first [await] ([settled = false]) or to its end ([settled = true]). *)
Definition handlerEffects (run : HandlerRun) (settled : bool)
    (r : JobExecutionResult) : JobExecutionResult :=
  if settled then
    if awaits run
    then pushLogs (later run) (from_option setResult id (written run) r)
    else r
  else
    if awaits run
    then pushLogs (immediate run) r
    else pushLogs (immediate run ++ later run) (from_option setResult id (written run) r).

(** [executeJob] up to the point where it suspends or ends: the job is
    marked running and its handler is called, and [executeJob] waits for
    it.  For a type without a handler the [default] branch throws, the
    [catch] of [executeJob] marks the job failed at once, and it is
    [executeFromNode] that waits, for the rejected promise of
    [executeJob]. *)
Definition executeJob_call (job : BackendJob) (st : ExecState) : ExecState :=
  let st := onJob (nodeId job) (setStatus Running) st in
  let st := onResult (log ("▶️ REAL Executing " +:+ type job +:+ ": " +:+ label job)) st in
  match runHandler rt world executor job (jobResultOf st job) (workflowResult st) with
  | Some run =>
      let st := onJob (nodeId job) (handlerEffects run false) st in
      suspend (AwaitHandler job run) (noteDispatch (nodeId job) st)
  | None =>
      let e := newError ("Unknown job type: " +:+ type job) in
      let st := onJob (nodeId job)
                  (fun r => setError (errorText rt e) (setStatus Failed r)) st in
      let st := onResult (log ("❌ REAL Failed " +:+ type job +:+ ": " +:+ label job
                                 +:+ " - " +:+ errorText rt e)) st in
      suspend (AwaitJob job (Some e)) (noteDispatch (nodeId job) st)
  end.

(** How a call of [executeFromNode] leaves its synchronous part. *)
Inductive Entered :=
| AlreadyExecuted
| JobNotFound (errorMsg : string)
| Waiting
| Started.

Definition pendingDependencies (st : ExecState) (job : BackendJob) : list JobDependency :=
  List.filter (isPendingDependency st) (dependencies job).

Definition failedDependencies (st : ExecState) (job : BackendJob) : list JobDependency :=
  List.filter (isFailedDependency st) (dependencies job).

(** The lines logged between the lookup of the job and the end of the
    [pendingDependencies] filter. *)
Definition logDependencies (job : BackendJob) (st : ExecState) : ExecState :=
  let st := onResult (log ("✅ Found job: " +:+ label job
                             +:+ " (" +:+ type job +:+ ")")) st in
  let st :=
    onResult (log ("📋 Job dependencies: "
                     +:+ match dependencies job with
                         | [] => "None"
                         | deps => String.concat ", " (map sourceJobId deps)
                         end)) st in
  fold_left (fun s dep => onResult (log (checkingLine st dep)) s) (dependencies job) st.

(** [if (failedDependencies.length > 0) { ... }] *)
Definition warnFailedDependencies (job : BackendJob) (st : ExecState) : ExecState :=
  match failedDependencies st job with
  | [] => st
  | failed =>
      let failedList := String.concat ", " (map (dependencyText "undefined" st) failed) in
      onJob (nodeId job)
        (pushLogs ["Warning: Continuing despite failed dependencies: " +:+ failedList])
        (onResult
           (log ("⚠️ Job " +:+ label job
                   +:+ " has failed dependencies but will continue: " +:+ failedList)) st)
  end.

(** The body of [if (pendingDependencies.length > 0) { ... return; }] *)
Definition waitForDependencies (job : BackendJob) (pending : list JobDependency)
    (st : ExecState) : ExecState :=
  let pendingList := String.concat ", " (map (dependencyText "unknown" st) pending) in
  onJob (nodeId job)
    (pushLogs ["Waiting for dependencies: " +:+ pendingList])
    (onResult
       (log ("⏸️ Job " +:+ label job +:+ " waiting for dependencies: " +:+ pendingList))
       st).

(** [executeFromNode] from its first line to its first [await] (or to
    its [return] or [throw], if it does not get that far).  The job found
    for [nodeId_] has that id, so its record in [jobResults] is addressed
    through the job. *)
Definition executeFromNode (nodeId_ : string) (st : ExecState) : ExecState * Entered :=
  let st := onResult (log ("🎯 Attempting to execute node: " +:+ nodeId_)) st in
  if bool_decide (nodeId_ ∈ executedNodes st) then
    (onResult (log ("🔄 Node " +:+ nodeId_ +:+ " already executed, skipping")) st,
     AlreadyExecuted)
  else
    match findJob (jobs workflowConfig) nodeId_ with
    | None =>
        let errorMsg :=
          "Job with ID " +:+ nodeId_ +:+ " not found. Available jobs: "
            +:+ String.concat ", " (map nodeId (jobs workflowConfig)) in
        (onResult (log ("❌ " +:+ errorMsg)) st, JobNotFound errorMsg)
    | Some job =>
        let pending := pendingDependencies st job in
        let st := warnFailedDependencies job (logDependencies job st) in
        match pending with
        | _ :: _ => (waitForDependencies job pending st, Waiting)
        | [] => (executeJob_call job st, Started)
        end
    end.

(** [nextJobs.map((nextJobId) => this.executeFromNode(nextJobId, ...))]:
    the calls run one after the other, each up to its first [await]; a
    promise rejected with job-not-found goes to [Promise.allSettled]. *)
Definition startNext (nextJobs : list string) (st : ExecState) : ExecState :=
  fold_left (fun s nextJobId => fst (executeFromNode nextJobId s)) nextJobs st.

(** A suspended invocation runs on, up to its next [await]. *)
Definition continue (t : Task) (st : ExecState) : ExecState :=
  match t with
  | AwaitHandler job run =>
      let st := onJob (nodeId job) (handlerEffects run true) st in
      match thrown run with
      | None =>
          let st := onJob (nodeId job) (setStatus Completed) st in
          let st := onResult (log ("✅ REAL Completed " +:+ type job
                                     +:+ ": " +:+ label job)) st in
          suspend (AwaitJob job None) st
      | Some e =>
          let st := onJob (nodeId job)
                      (fun r => setError (errorText rt e) (setStatus Failed r)) st in
          let st := onResult (log ("❌ REAL Failed " +:+ type job +:+ ": " +:+ label job
                                     +:+ " - " +:+ errorText rt e)) st in
          suspend (AwaitJob job (Some e)) st
      end
  | AwaitJob job None =>
      let st := addExecuted (nodeId job) st in
      suspend (AwaitNext job (getNextJobs job (jobResultOf st job))) st
  | AwaitJob job (Some e) =>
      let st := onJob (nodeId job)
                  (fun r => setError (errorText rt e) (setStatus Failed r)) st in
      let st := addExecuted (nodeId job) st in
      let st := onResult (log ("❌ Job " +:+ label job +:+ " failed: " +:+ errorText rt e
                                 +:+ " - Continuing with other jobs")) st in
      suspend (AwaitNext job (getNextJobs job (jobResultOf st job))) st
  | AwaitNext job nextJobs => startNext nextJobs st
  end.

(** The [i]-th suspended invocation is resumed. *)
Definition resume (i : nat) (st : ExecState) : ExecState :=
  match tasks st !! i with
  | Some t => continue t (withTasks (delete i (tasks st)) st)
  | None => st
  end.

End Traversal.

(** *** [executeWorkflow] *)

Inductive RunResult :=
| Resolved (w : WorkflowExecutionResult)
| Rejected (e : Thrown) (w : WorkflowExecutionResult)
| Unfinished.

Section Run.
Context (rt : Runtime) (world : World) (executor : Executor)
        (workflowConfig : BackendJobsConfig).

(** The record created for every job before the traversal starts. *)
Definition initialJobResult (job : BackendJob) : JobExecutionResult :=
  {| jobId := nodeId job; jobType := type job; status := Pending;
     result := JUndefined; error := None; logs := []; jobLabel := label job |}.

Definition initialResult : WorkflowExecutionResult :=
  {| workflowId := "workflow_" +:+ ToString rt (JNumber (Date_now rt));
     wstatus := WRunning; jobResults := []; executionLogs := [] |}.

(** [`${j.jobId} (${j.type})`] *)
Definition jobText (id ty : string) : string := id +:+ " (" +:+ ty +:+ ")".

(** The [catch] of [executeWorkflow]. *)
Definition failRun (e : Thrown) (w : WorkflowExecutionResult)
    : Thrown * WorkflowExecutionResult :=
  (e, log ("❌ Real workflow failed: " +:+ thrownText rt e) (setWStatus WFailed w)).

(** [executeWorkflow] up to the [await] of the first [executeFromNode]:
    either the traversal is under way, or the run has been rejected. *)
Definition begin : ExecState + Thrown * WorkflowExecutionResult :=
  let w :=
    log ("🚀 Starting REAL workflow execution with "
           +:+ countText (length (jobs workflowConfig)) +:+ " jobs") initialResult in
  let w :=
    fold_left (fun w job => withJobs (mapSet (nodeId job) (initialJobResult job)) w)
      (jobs workflowConfig) w in
  match startNode (executionFlow workflowConfig) with
  | None | Some "" => inr (failRun (newError "No start node found in workflow") w)
  | Some startNodeId =>
      let w := log ("🎯 Starting execution from node: " +:+ startNodeId) w in
      let w :=
        log ("📋 Available jobs: "
               +:+ String.concat ", "
                     (map (fun j => jobText (nodeId j) (type j)) (jobs workflowConfig))) w in
      match executeFromNode rt world executor workflowConfig startNodeId
              {| workflowResult := w; executedNodes := ∅; tasks := []; dispatched := [] |}
      with
      | (st, JobNotFound errorMsg) => inr (failRun (newError errorMsg) (workflowResult st))
      | (st, _) => inl st
      end
  end.

(** The analysis of the job results after the traversal has returned. *)
Definition finish (w : WorkflowExecutionResult) : WorkflowExecutionResult :=
  let results := map snd (jobResults w) in
  let failedJobs := List.filter (fun job => isStatus (status job) Failed) results in
  let completedJobs := List.filter (fun job => isStatus (status job) Completed) results in
  let skippedJobs :=
    List.filter (fun job => isStatus (status job) Pending || isStatus (status job) Skipped)
      results in
  let listed (js : list JobExecutionResult) :=
    String.concat ", " (map (fun j => jobText (jobId j) (jobType j)) js) in
  match failedJobs with
  | _ :: _ =>
      let w := setWStatus WCompleted w in
      let w :=
        log ("⚠️ Workflow completed with " +:+ countText (length failedJobs)
               +:+ " failed job(s), " +:+ countText (length completedJobs)
               +:+ " successful job(s)") w in
      let w :=
        fold_left
          (fun w job =>
             log ("❌ Failed Job: " +:+ jobText (jobId job) (jobType job) +:+ " - "
                    +:+ default "undefined" (error job)) w)
          failedJobs w in
      let w :=
        match completedJobs with
        | _ :: _ => log ("✅ Successful Jobs: " +:+ listed completedJobs) w
        | [] => w
        end in
      match skippedJobs with
      | _ :: _ => log ("⏭️ Skipped/Pending Jobs: " +:+ listed skippedJobs) w
      | [] => w
      end
  | [] =>
      log ("✅ Real workflow completed successfully - All "
             +:+ countText (length completedJobs) +:+ " jobs executed successfully")
        (setWStatus WCompleted w)
  end.

(** An upper bound on the number of resumptions that a call of
    [executeFromNode] on [id] can cause while at most [k] jobs of the
    document are outside [executedNodes]. *)
Fixpoint subtreeCost (k : nat) (id : string) : nat :=
  match k with
  | O => 0
  | S k' =>
      match findJob (jobs workflowConfig) id with
      | None => 0
      | Some job =>
          3 + sum_list_with (fun c => subtreeCost k' (targetJobId c)) (connections job)
      end
  end.

Definition jobIds : gset string := list_to_set (map nodeId (jobs workflowConfig)).

Definition taskCost (executed : gset string) (t : Task) : nat :=
  match t with
  | AwaitHandler job _ =>
      3 + sum_list_with
            (fun c => subtreeCost (size (jobIds ∖ executed ∖ {[nodeId job]})) (targetJobId c))
            (connections job)
  | AwaitJob job _ =>
      2 + sum_list_with
            (fun c => subtreeCost (size (jobIds ∖ executed ∖ {[nodeId job]})) (targetJobId c))
            (connections job)
  | AwaitNext _ nextJobs =>
      1 + sum_list_with (subtreeCost (size (jobIds ∖ executed))) nextJobs
  end.

(** An upper bound on the number of resumptions left in a state. *)
Definition potential (st : ExecState) : nat :=
  sum_list_with (taskCost (executedNodes st)) (tasks st).

(** The event loop.  Which of the suspended invocations runs next
    depends on when timers and the network fire; [schedule] makes the
    choice at each turn.  The schedule [fun _ => 0] resumes them in the
    order in which they were suspended, which is the order of the
    microtask queue for handlers that never wait for a timer or for the
    network. *)
Fixpoint drain (schedule : nat -> nat) (fuel turn : nat) (st : ExecState)
    : option ExecState :=
  match tasks st with
  | [] => Some st
  | _ :: _ =>
      match fuel with
      | O => None
      | S fuel' =>
          drain schedule fuel' (S turn)
            (resume rt world executor workflowConfig
               (schedule turn `mod` length (tasks st)) st)
      end
  end.

(** The traversal, from the first call of [executeFromNode] until no
    invocation is left suspended. *)
Definition traverse (schedule : nat -> nat) (st : ExecState) : option ExecState :=
  drain schedule (potential st) 0 st.

(** [executeWorkflow] *)
Definition executeWorkflow (schedule : nat -> nat) : RunResult :=
  match begin with
  | inr (e, w) => Rejected e w
  | inl st0 =>
      match traverse schedule st0 with
      | Some st => Resolved (finish (workflowResult st))
      | None => Unfinished
      end
  end.

(** The ghost trace of the same run. *)
Definition dispatchedJobs (schedule : nat -> nat) : list string :=
  match begin with
  | inr _ => []
  | inl st0 => from_option dispatched [] (traverse schedule st0)
  end.

End Run.

End Engine.

(** ** Part III, continued.  From the canvas to the job document *)

Module ExportJobs.
Import JS Engine.

(** A [WorkflowNode] with the [data.config] record that validation
    leaves unread. *)
Record ConfiguredNode := {
  node : WorkflowUtils.WorkflowNode;
  config : list (string * JSValue)
}.

(** [{ nodeId: node.id, label: node.data.label, ...node.data.config }] *)
Definition attributesOf (n : ConfiguredNode) : list (string * JSValue) :=
  fold_left (fun acc kv => setField (fst kv) (snd kv) acc) (config n)
    [("nodeId", JString (WorkflowUtils.id (node n)));
     ("label", JString (WorkflowUtils.nlabel (node n)))].

(** [edge.output || fallback] *)
Definition conditionOf (fallback : string) (edge : WorkflowUtils.WorkflowEdge) : string :=
  if String.eqb (WorkflowUtils.eoutput edge) "" then fallback
  else WorkflowUtils.eoutput edge.

(** [edges.filter((edge) => edge.from === node.id).map(...)] *)
Definition connectionsOf (fallback : string) (edges : list WorkflowUtils.WorkflowEdge)
    (n : ConfiguredNode) : list JobConnection :=
  map (fun edge => {| targetJobId := WorkflowUtils.eto edge;
                      condition := conditionOf fallback edge |})
    (List.filter (fun edge => String.eqb (WorkflowUtils.efrom edge)
                                (WorkflowUtils.id (node n))) edges).

(** [edges.filter((edge) => edge.to === node.id).map(...)] *)
Definition dependenciesOf (fallback : string) (edges : list WorkflowUtils.WorkflowEdge)
    (n : ConfiguredNode) : list JobDependency :=
  map (fun edge => {| sourceJobId := WorkflowUtils.efrom edge;
                      dependsOn := conditionOf fallback edge |})
    (List.filter (fun edge => String.eqb (WorkflowUtils.eto edge)
                                (WorkflowUtils.id (node n))) edges).

(** The job built for a node, as the executor reads it: the [type] is a
    string, and so are [attributes.nodeId] and [attributes.label].
    [None] stands for a job that is not of this form, because [type] is
    [undefined] or the node's [config] puts another value under [nodeId]
    or [label]. *)
Definition jobOf (ty : option string) (fallback : string)
    (edges : list WorkflowUtils.WorkflowEdge) (n : ConfiguredNode) : option BackendJob :=
  match ty, attributesOf n with
  | Some ty, (_, JString i) :: (_, JString l) :: rest =>
      Some {| type := ty; nodeId := i; label := l; attributes := rest;
              connections := connectionsOf fallback edges n;
              dependencies := dependenciesOf fallback edges n;
              isConditional :=
                String.eqb (WorkflowUtils.ntype (node n)) "ConditionNode" |}
  | _, _ => None
  end.

(** [nodes.find((node) => node.type === "StartNode")?.id || null] *)
Definition startNodeOf (nodes : list ConfiguredNode) : option string :=
  match List.find (fun n => WorkflowUtils.isStartNode (node n)) nodes with
  | Some n =>
      if String.eqb (WorkflowUtils.id (node n)) "" then None
      else Some (WorkflowUtils.id (node n))
  | None => None
  end.

(** The object literal [typeMapping] of [exportJobsConfig]. *)
Definition typeMapping : list (string * JSValue) :=
  [("StartNode", JString "Start");
   ("AddTaskNode", JString "AddTask");
   ("ConditionNode", JString "Condition");
   ("APICallNode", JString "APICall");
   ("ScriptNode", JString "Script");
   ("SendEmailNode", JString "SendEmail");
   ("EndNode", JString "End")].

(** [typeMapping[t]]: the name filed under [t], otherwise what an object
    literal inherits under that key; [None] stands for [undefined]. *)
Definition mappedType (t : string) : option Property :=
  if hasKey t typeMapping then Some (Data (field t typeMapping))
  else if String.eqb t "__proto__" then Some (Data (JObject []))
  else Native <$> objectMethod t.

(** The [jobConfig] that [exportJobsConfig] builds for a node. *)
Record JobConfig := {
  jtype : option Property;
  jattributes : list (string * JSValue);
  jconnections : list JobConnection;
  jdependencies : list JobDependency;
  jisConditional : bool
}.

(** What [exportJobsConfig] returns. *)
Record JobsConfig := {
  jobConfigs : list JobConfig;
  flow : ExecutionFlow
}.

Definition jobConfigOf (edges : list WorkflowUtils.WorkflowEdge) (n : ConfiguredNode)
    : JobConfig :=
  {| jtype := mappedType (WorkflowUtils.ntype (node n));
     jattributes := attributesOf n;
     jconnections := connectionsOf "default" edges n;
     jdependencies := dependenciesOf "default" edges n;
     jisConditional := String.eqb (WorkflowUtils.ntype (node n)) "ConditionNode" |}.

(** [xs.map(f)] for an [f] that may leave the model. *)
Fixpoint mapJobs (f : ConfiguredNode -> option BackendJob) (nodes : list ConfiguredNode)
    : option (list BackendJob) :=
  match nodes with
  | [] => Some []
  | n :: rest =>
      match f n, mapJobs f rest with
      | Some j, Some js => Some (j :: js)
      | _, _ => None
      end
  end.

(** [WorkflowUtils.exportJobsConfig] *)
Definition exportJobsConfig (nodes : list ConfiguredNode)
    (edges : list WorkflowUtils.WorkflowEdge) : JobsConfig :=
  let jobs := map (jobConfigOf edges) nodes in
  {| jobConfigs := jobs;
     flow := {| startNode := startNodeOf nodes;
                totalJobs := length jobs;
                hasConditionalFlow := existsb jisConditional jobs |} |}.

End ExportJobs.

(** ** Part III, continued.  [ExecutionModal] ([components/ExecutionModal.tsx]) *)

Module ExecutionModal.
Import JS Engine ExportJobs.

Fixpoint dropChars (n : nat) (s : string) : string :=
  match n, s with
  | S n', String _ s' => dropChars n' s'
  | _, _ => s
  end.

(** [s.replace(pattern, "")]: the first occurrence of [pattern] goes. *)
Fixpoint removeFirst (pattern s : string) : string :=
  if String.prefix pattern s then dropChars (String.length pattern) s
  else match s with
       | EmptyString => EmptyString
       | String c s' => String c (removeFirst pattern s')
       end.

(** The [workflowConfig] that [handleExecute] hands to the executor. *)
Definition workflowConfig (nodes : list ConfiguredNode)
    (edges : list WorkflowUtils.WorkflowEdge) : option BackendJobsConfig :=
  match mapJobs (fun n => jobOf (Some (removeFirst "Node" (WorkflowUtils.ntype (node n))))
                            "out" edges n) nodes with
  | Some jobs =>
      Some {| jobs := jobs;
              executionFlow :=
                {| startNode := startNodeOf nodes;
                   totalJobs := length nodes;
                   hasConditionalFlow :=
                     existsb (fun n => String.eqb (WorkflowUtils.ntype (node n))
                                         "ConditionNode") nodes |} |}
  | None => None
  end.

End ExecutionModal.

(** ** Part III, continued.  [useWorkflow] ([hooks/useWorkflow.ts]) *)

Module UseWorkflow.
Import WorkflowUtils.

(** The state of the hook, as far as the operations below touch it. *)
Record State := {
  nodes : list WorkflowNode;
  edges : list WorkflowEdge;
  selectedNodeId : option string
}.

(** [nodesRef.current] and [edgesRef.current], which the hook refreshes
    from the state whenever it renders. *)
Record Refs := {
  nodesRef : list WorkflowNode;
  edgesRef : list WorkflowEdge
}.

(** The refs after a render of [st]. *)
Definition rendered (st : State) : Refs :=
  {| nodesRef := nodes st; edgesRef := edges st |}.

(** [nodes.find((n) => n.id === nodeId)] *)
Definition findNode (ns : list WorkflowNode) (nodeId : string) : option WorkflowNode :=
  List.find (fun n => String.eqb (id n) nodeId) ns.


(** [canConnect] *)
Definition canConnect (refs : Refs) (fromNodeId outputHandle toNodeId inputHandle : string)
    : bool :=
  match findNode (nodesRef refs) fromNodeId, findNode (nodesRef refs) toNodeId with
  | Some sourceNode, Some targetNode =>
      WorkflowUtils.canConnect
        (validateConnection sourceNode outputHandle targetNode inputHandle (edgesRef refs))
  | _, _ => false
  end.

(** [addEdge]: the value returned and the state after the update;
    [generated] is the id that [createEdge] draws. *)
Definition addEdge (refs : Refs) (generated fromNodeId outputHandle toNodeId inputHandle : string)
    (st : State) : bool * State :=
  match findNode (nodesRef refs) fromNodeId, findNode (nodesRef refs) toNodeId with
  | Some sourceNode, Some targetNode =>
      if WorkflowUtils.canConnect
           (validateConnection sourceNode outputHandle targetNode inputHandle
              (edgesRef refs))
      then (true,
            {| nodes := nodes st;
               edges := edges st
                        ++ [createEdge generated fromNodeId outputHandle toNodeId inputHandle];
               selectedNodeId := selectedNodeId st |})
      else (false, st)
  | _, _ => (false, st)
  end.

(** [deleteEdge] *)
Definition deleteEdge (edgeId : string) (st : State) : State :=
  {| nodes := nodes st;
     edges := List.filter (fun edge => negb (String.eqb (eid edge) edgeId)) (edges st);
     selectedNodeId := selectedNodeId st |}.

End UseWorkflow.

(** ** Part IV.  A host and some job documents for concrete runs *)

Module Demo.
Import JS Engine.

(** Integral numbers print as their digits. *)
Definition floatText (x : float) : string :=
  match Prim2SF x with
  | S754_zero _ => "0"
  | S754_infinity s => if s then "-Infinity" else "Infinity"
  | S754_nan => "NaN"
  | S754_finite s m e =>
      (if s then "-" else "")
        +:+ pretty (if (0 <=? e)%Z then (Z.pos m * 2 ^ e)%Z else (Z.pos m / 2 ^ (- e))%Z)
  end.

Definition asciiLower (c : Ascii.ascii) : Ascii.ascii :=
  let n := Ascii.nat_of_ascii c in
  if (65 <=? n)%nat && (n <=? 90)%nat then Ascii.ascii_of_nat (n + 32) else c.

Fixpoint lower (s : string) : string :=
  match s with
  | EmptyString => EmptyString
  | String c s' => String (asciiLower c) (lower s')
  end.

Fixpoint trimLeft (s : string) : string :=
  match s with
  | String c s' => if Ascii.eqb c (Ascii.ascii_of_nat 32) then trimLeft s' else s
  | EmptyString => s
  end.

Definition trimBoth (s : string) : string :=
  String.rev (trimLeft (String.rev (trimLeft s))).

(** The 32-bit integer that a browser makes of a timer delay. *)
Definition toInt32 (x : float) : Z :=
  match Prim2SF x with
  | S754_finite s m e =>
      let magnitude :=
        if (0 <=? e)%Z then (Z.pos m * 2 ^ e)%Z else (Z.pos m / 2 ^ (- e))%Z in
      let n := ((if s then - magnitude else magnitude) mod 2 ^ 32)%Z in
      if (2 ^ 31 <=? n)%Z then (n - 2 ^ 32)%Z else n
  | _ => 0%Z
  end.

(** The methods of [Array.prototype] in the 2023 edition. *)
Definition arrayMethods : list string :=
  ["at"; "concat"; "copyWithin"; "entries"; "every"; "fill"; "filter"; "find";
   "findIndex"; "findLast"; "findLastIndex"; "flat"; "flatMap"; "forEach";
   "includes"; "indexOf"; "join"; "keys"; "lastIndexOf"; "map"; "pop"; "push";
   "reduce"; "reduceRight"; "reverse"; "shift"; "slice"; "some"; "sort"; "splice";
   "toLocaleString"; "toReversed"; "toSorted"; "toSpliced"; "toString"; "unshift";
   "values"; "with"].

(** A stand-in host: integers print as digits, case mapping and trimming
    are those of ASCII, JSON text is not rendered or read, the clock
    stands still, timers follow the browser's rule (32-bit wrap-around,
    nothing below 0), and built-in functions print as in V8. *)
Definition host : Runtime :=
  {| numberToString := floatText;
     stringToNumber := fun _ => PrimFloat.nan;
     toLowerCase := lower;
     trim := trimBoth;
     JSON_stringify := fun _ => "{...}";
     JSON_parse := fun s => inl (JString s);
     toISOString := "2025-01-01T00:00:00.000Z";
     Date_now := 1735689600000%float;
     typeErrorMessage := "Cannot read properties of undefined";
     timerOutOfRange := fun x =>
       PrimFloat.of_uint63 (Uint63.of_Z (Z.max 0 (toInt32 x)));
     nativeText := fun f => "function " +:+ f +:+ "() { [native code] }";
     arrayMethod := fun k =>
       if String.eqb k "constructor" then Some "Array"
       else if bool_decide (k ∈ arrayMethods) then Some k else None |}.

(** A network on which nothing can be reached, and no scripts. *)
Definition offline : World :=
  {| fetch := fun _ _ _ _ =>
       {| latency := 5%float;
          settle := FetchRejects
                      (ThrowError {| name := "TypeError"; message := "Failed to fetch" |}) |};
     runScript := fun _ _ =>
       {| calls := []; executionTime := 0%float; completion := Resolves JUndefined;
          serialises := None |} |}.

Definition out (target : string) : JobConnection :=
  {| targetJobId := target; condition := "out" |}.

Definition after (source : string) : JobDependency :=
  {| sourceJobId := source; dependsOn := "out" |}.

Definition job (ty id : string) (attrs : list (string * JSValue))
    (conns : list JobConnection) (deps : list JobDependency) : BackendJob :=
  {| type := ty; nodeId := id; label := id; attributes := attrs;
     connections := conns; dependencies := deps;
     isConditional := String.eqb ty "Condition" |}.

Definition document (js : list BackendJob) (start : string) : BackendJobsConfig :=
  {| jobs := js;
     executionFlow :=
       {| startNode := Some start; totalJobs := length js;
          hasConditionalFlow := existsb isConditional js |} |}.

(** The diamond A→B, A→C, B→D, C→D; B and C create tasks. *)
Definition diamond : BackendJobsConfig :=
  document
    [job "Start" "A" [] [out "B"; out "C"] [];
     job "AddTask" "B" [] [out "D"] [after "A"];
     job "AddTask" "C" [] [out "D"] [after "A"];
     job "End" "D" [] [] [after "B"; after "C"]]
    "A".

(** Start → APICall (unreachable URL) → End. *)
Definition unreachable : BackendJobsConfig :=
  document
    [job "Start" "s" [] [out "api"] [];
     job "APICall" "api" [("url", JString "http://unreachable.invalid/")]
       [out "e"] [after "s"];
     job "End" "e" [] [] [after "api"]]
    "s".

(** A Start job whose only connection leads to an id without a job. *)
Definition dangling : BackendJobsConfig :=
  document [job "Start" "s" [] [out "ghost"] []] "s".

(** A document whose start node names no job. *)
Definition rootless : BackendJobsConfig :=
  document [job "End" "e" [] [] []] "nowhere".


(** An API call without a [timeout] attribute. *)
Definition apiJob : BackendJob :=
  job "APICall" "api" [("url", JString "http://slow.example/")] [] [].

(** A server that answers 200 after [ms] milliseconds. *)
Definition answersAfter (ms : float) : World :=
  {| fetch := fun _ _ _ _ =>
       {| latency := ms;
          settle := Responds {| ok := true; statusCode := 200%float; statusText_ := "OK";
                                contentType := None; text := "done";
                                responseHeaders := JObject [] |} |};
     runScript := runScript offline |}.



(** The run of [unreachable] at its first [await], and after the five
    resumptions that take it past the failure of the API call. *)
Definition unreachableStart : ExecState :=
  match begin host offline (newExecutor None) unreachable with
  | inl st => st
  | inr (_, w) =>
      {| workflowResult := w; executedNodes := ∅; tasks := []; dispatched := [] |}
  end.

Definition unreachableAfterFailure : ExecState :=
  Nat.iter 5 (resume host offline (newExecutor None) unreachable 0) unreachableStart.




(** Two Start nodes and nothing else. *)
Definition twoStarts : list WorkflowUtils.WorkflowNode :=
  [{| WorkflowUtils.id := "s1"; WorkflowUtils.ntype := "StartNode";
      WorkflowUtils.nlabel := "Start"; WorkflowUtils.handles := [] |};
   {| WorkflowUtils.id := "s2"; WorkflowUtils.ntype := "StartNode";
      WorkflowUtils.nlabel := "Start"; WorkflowUtils.handles := [] |}].

Definition task (i : string) : WorkflowUtils.WorkflowNode :=
  {| WorkflowUtils.id := i; WorkflowUtils.ntype := "AddTaskNode";
     WorkflowUtils.nlabel := i;
     WorkflowUtils.handles :=
       [{| WorkflowUtils.hid := "in"; WorkflowUtils.htype := WorkflowUtils.Input;
           WorkflowUtils.required := true |};
        {| WorkflowUtils.hid := "out"; WorkflowUtils.htype := WorkflowUtils.Output;
           WorkflowUtils.required := false |}] |}.

Definition wire (i a b : string) : WorkflowUtils.WorkflowEdge :=
  {| WorkflowUtils.eid := i; WorkflowUtils.efrom := a; WorkflowUtils.eoutput := "out";
     WorkflowUtils.eto := b; WorkflowUtils.einput := "in" |}.

(** A Start node feeding a loop a → b → a; a has two parents, neither a
    Condition node. *)
Definition loopNodes : list WorkflowUtils.WorkflowNode :=
  [{| WorkflowUtils.id := "s"; WorkflowUtils.ntype := "StartNode";
      WorkflowUtils.nlabel := "Start";
      WorkflowUtils.handles :=
        [{| WorkflowUtils.hid := "out"; WorkflowUtils.htype := WorkflowUtils.Output;
            WorkflowUtils.required := false |}] |};
   task "a"; task "b"].

Definition loopEdges : list WorkflowUtils.WorkflowEdge :=
  [wire "e1" "s" "a"; wire "e2" "a" "b"; wire "e3" "b" "a"].

(** The same two Start nodes on the canvas. *)
Definition twoStartsOnCanvas : list TreeValidator.FlowNode :=
  [{| TreeValidator.nodeId := "s1"; TreeValidator.nodeType := "StartNode";
      TreeValidator.nodeLabel := "Start" |};
   {| TreeValidator.nodeId := "s2"; TreeValidator.nodeType := "StartNode";
      TreeValidator.nodeLabel := "Start" |}].

Definition canvasNode (i t : string) : TreeValidator.FlowNode :=
  {| TreeValidator.nodeId := i; TreeValidator.nodeType := t;
     TreeValidator.nodeLabel := i |}.

(** A node [t] entered from the true branch of a Condition node and from
    two task nodes. *)
Definition mergeNodes : list TreeValidator.FlowNode :=
  [canvasNode "c" "ConditionNode"; canvasNode "p" "AddTaskNode";
   canvasNode "q" "AddTaskNode"; canvasNode "t" "EndNode"].

Definition mergeEdges : list TreeValidator.FlowEdge :=
  [{| TreeValidator.source := "c"; TreeValidator.target := "t";
      TreeValidator.sourceHandle := Some "true" |};
   {| TreeValidator.source := "p"; TreeValidator.target := "t";
      TreeValidator.sourceHandle := Some "out" |};
   {| TreeValidator.source := "q"; TreeValidator.target := "t";
      TreeValidator.sourceHandle := Some "out" |}].

(** Resume the invocations in the order in which they were suspended. *)
Definition inOrder : nat -> nat := fun _ => 0.

(** A server that answers 500 after ten milliseconds. *)
Definition serverError : Response :=
  {| ok := false; statusCode := 500%float; statusText_ := "Internal Server Error";
     contentType := None; text := ""; responseHeaders := JObject [] |}.

Definition failing : World :=
  {| fetch := fun _ _ _ _ => {| latency := 10%float; settle := Responds serverError |};
     runScript := runScript offline |}.

(** A Start job and an End job that nothing leads to. *)
Definition orphaned : BackendJobsConfig :=
  document [job "Start" "s" [] [] []; job "End" "e" [] [] []] "s".

(** The chain s → a → b: its nodes, its edges, and the same on the
    canvas; the nodes carry an empty [config]. *)
Definition chainEdges : list WorkflowUtils.WorkflowEdge :=
  [wire "e1" "s" "a"; wire "e2" "a" "b"].

Definition chainNodes : list ExportJobs.ConfiguredNode :=
  map (fun n => {| ExportJobs.node := n; ExportJobs.config := [] |}) loopNodes.

Definition chainOnCanvas : list TreeValidator.FlowNode :=
  [canvasNode "s" "StartNode"; canvasNode "a" "AddTaskNode"; canvasNode "b" "AddTaskNode"].

(** The job document that the execution modal builds for the chain. *)
Definition chainDocument : Engine.BackendJobsConfig :=
  default rootless (ExecutionModal.workflowConfig chainNodes chainEdges).

(** What the run of [orphaned] resolves with. *)
Definition orphanedResult : WorkflowExecutionResult :=
  match executeWorkflow host offline (newExecutor None) orphaned inOrder with
  | Resolved w => w
  | _ => initialResult host
  end.

(** The hook with the three nodes and the first edge of the chain. *)
Definition halfChain : UseWorkflow.State :=
  {| UseWorkflow.nodes := loopNodes;
     UseWorkflow.edges := [wire "e1" "s" "a"];
     UseWorkflow.selectedNodeId := Some "a" |}.

End Demo.

(** ** Part V.  Notions used in the statements *)

Module Notions.
Import JS Engine.

(** *** Cycle detection *)

(** The edge relation of an adjacency list. *)
Definition adj (g : WorkflowUtils.AdjList) (u v : string) : Prop :=
  v ∈ WorkflowUtils.neighbors g u.

(** The nodes whose visit has returned. *)
Definition finished (s : WorkflowUtils.DfsState) : gset string :=
  WorkflowUtils.visited s ∖ WorkflowUtils.recursionStack s.

(** The finished nodes are closed under the edges and lie on no cycle. *)
Definition settled (g : WorkflowUtils.AdjList) (s : WorkflowUtils.DfsState) : Prop :=
  (∀ b c, b ∈ finished s → adj g b c → c ∈ finished s)
  ∧ (∀ b, b ∈ finished s → ¬ tc (adj g) b b).

(** What a call that answers [false] does to the two sets. *)
Definition grows (s s' : WorkflowUtils.DfsState) : Prop :=
  WorkflowUtils.visited s ⊆ WorkflowUtils.visited s'
  ∧ WorkflowUtils.recursionStack s' = WorkflowUtils.recursionStack s.

(** *** The canvas validator *)

(** The edge relation of the canvas. *)
Definition flows (edges : list TreeValidator.FlowEdge) (u v : string) : Prop :=
  ∃ edge, edge ∈ edges ∧ TreeValidator.source edge = u ∧ TreeValidator.target edge = v.

(** The number of edges into [t]. *)
Definition parents (t : string) (edges : list TreeValidator.FlowEdge) : nat :=
  length (List.filter (λ edge, String.eqb (TreeValidator.target edge) t) edges).

(** [m.get(t) || 0] *)
Fixpoint getCount (t : string) (m : list (string * nat)) : nat :=
  match m with
  | [] => 0
  | (k, n) :: m' => if String.eqb k t then n else getCount t m'
  end.

(** A [Map<string, number>] of counts: one entry per key, none at zero. *)
Definition counting (m : list (string * nat)) : Prop :=
  NoDup (map fst m) ∧ ∀ k n, (k, n) ∈ m → 0 < n.

(** *** Connections *)

(** The edge relation of a list of workflow edges. *)
Definition wired (edges : list WorkflowUtils.WorkflowEdge) (u v : string) : Prop :=
  ∃ edge, edge ∈ edges ∧ WorkflowUtils.efrom edge = u ∧ WorkflowUtils.eto edge = v.

(** The input handle at which an edge arrives. *)
Definition arrival (edge : WorkflowUtils.WorkflowEdge) : string * string :=
  (WorkflowUtils.eto edge, WorkflowUtils.einput edge).

(** Node [node] has a handle [h] of kind [k]. *)
Definition hasHandle (node : WorkflowUtils.WorkflowNode) (k : WorkflowUtils.HandleType)
    (h : string) : Prop :=
  ∃ handle, handle ∈ WorkflowUtils.handles node ∧ WorkflowUtils.hid handle = h
            ∧ WorkflowUtils.htype handle = k.

(** Node id [x] can be reached from one of the nodes [startNodes] along
    the edges. *)
Definition reachableFrom (startNodes : list WorkflowUtils.WorkflowNode)
    (edges : list WorkflowUtils.WorkflowEdge) (x : string) : Prop :=
  ∃ start, start ∈ startNodes ∧ rtc (wired edges) (WorkflowUtils.id start) x.

(** Every edge joins an output handle of a node of the canvas to an
    input handle of one, no input handle receives two edges, and the
    edges form no directed cycle. *)
Definition wellFormed (nodes : list WorkflowUtils.WorkflowNode)
    (edges : list WorkflowUtils.WorkflowEdge) : Prop :=
  (∀ edge, edge ∈ edges →
     (∃ s, s ∈ nodes ∧ WorkflowUtils.id s = WorkflowUtils.efrom edge
           ∧ hasHandle s WorkflowUtils.Output (WorkflowUtils.eoutput edge))
     ∧ (∃ t, t ∈ nodes ∧ WorkflowUtils.id t = WorkflowUtils.eto edge
             ∧ hasHandle t WorkflowUtils.Input (WorkflowUtils.einput edge)))
  ∧ NoDup (map arrival edges)
  ∧ ¬ WorkflowUtils.hasDirectedCycle (wired edges).

(** *** The topological order *)

(** The number of times [x] occurs in [xs]. *)
Definition occurrences (x : string) (xs : list string) : nat :=
  length (List.filter (λ y, String.eqb y x) xs).

(** The number of edges into [v] that leave a node outside [done]. *)
Definition remaining (edges : list WorkflowUtils.WorkflowEdge) (v : string)
    (done : list string) : nat :=
  length (List.filter
            (λ edge, String.eqb (WorkflowUtils.eto edge) v
                     && negb (bool_decide (WorkflowUtils.efrom edge ∈ done)))
            edges).

(** The targets of the edges that leave [u], in the order of the edges. *)
Definition outgoing (edges : list WorkflowUtils.WorkflowEdge) (u : string) : list string :=
  map WorkflowUtils.eto (List.filter (λ edge, String.eqb (WorkflowUtils.efrom edge) u) edges).

(** The number of edges into [v]. *)
Definition indegree (edges : list WorkflowUtils.WorkflowEdge) (v : string) : nat :=
  length (List.filter (λ edge, String.eqb (WorkflowUtils.eto edge) v) edges).

(** [x] lies on a directed cycle or can be reached from one. *)
Definition behindCycle (R : string → string → Prop) (x : string) : Prop :=
  ∃ c, tc R c c ∧ rtc R c x.

(** [u] stands before [v] in the list [order]. *)
Definition before (order : list string) (u v : string) : Prop :=
  ∃ l1 l2, order = l1 ++ v :: l2 ∧ u ∈ l1.

(** Every edge into a member of [result] leaves a node that stands
    before it. *)
Definition respectsEdges (edges : list WorkflowUtils.WorkflowEdge) (result : list string)
    : Prop :=
  ∀ l1 v l2, result = l1 ++ v :: l2 →
    ∀ edge, edge ∈ edges → WorkflowUtils.eto edge = v → WorkflowUtils.efrom edge ∈ l1.

(** What holds whenever the loop of Kahn's algorithm tests its queue. *)
Definition kahnInvariant (edges : list WorkflowUtils.WorkflowEdge) (K : list string)
    (inDegree : WorkflowUtils.Degrees) (queue result : list string) : Prop :=
  map fst inDegree = K
  ∧ NoDup (result ++ queue)
  ∧ (∀ v, v ∈ K →
       WorkflowUtils.degree inDegree v = Some (Z.of_nat (remaining edges v result)))
  ∧ (∀ v, v ∈ K → v ∈ result ++ queue ↔ remaining edges v result = 0)
  ∧ (∀ x, x ∈ result ++ queue → x ∈ K)
  ∧ respectsEdges edges result.

(** *** The traversal *)

(** Two states differ in the workflow result at most. *)
Definition sameControl (st st' : ExecState) : Prop :=
  executedNodes st' = executedNodes st ∧ tasks st' = tasks st
  ∧ dispatched st' = dispatched st.

(** The invocation that a dispatch of [job] leaves suspended: it waits
    for the handler, or, when the job's type has none, for the rejected
    promise of [executeJob]. *)
Definition entered (job : BackendJob) (t : Task) : Prop :=
  (∃ run, t = AwaitHandler job run) ∨ (∃ e, t = AwaitJob job (Some e)).

(** Two states agree on the status of every job. *)
Definition sameStatuses (st st' : ExecState) : Prop :=
  ∀ id, status <$> mapGet id (jobResults (workflowResult st'))
        = status <$> mapGet id (jobResults (workflowResult st)).

(** The record of job [id] holds the log line [line]. *)
Definition logged (id line : string) (st : ExecState) : Prop :=
  ∃ r, mapGet id (jobResults (workflowResult st)) = Some r ∧ line ∈ logs r.

(** Every job that has been dispatched has all its declared dependencies
    in the executed set. *)
Definition gated (workflowConfig : BackendJobsConfig) (st : ExecState) : Prop :=
  ∀ id, id ∈ dispatched st →
    ∃ job, findJob (jobs workflowConfig) id = Some job
           ∧ ∀ dep, dep ∈ dependencies job → sourceJobId dep ∈ executedNodes st.

(** The states that a traversal starting in [st0] can reach, whatever
    the order of the resumptions. *)
Inductive reaches (rt : Runtime) (world : World) (executor : Executor)
    (workflowConfig : BackendJobsConfig) (st0 : ExecState) : ExecState → Prop :=
| reaches_here : reaches rt world executor workflowConfig st0 st0
| reaches_resume st i :
    reaches rt world executor workflowConfig st0 st →
    i < length (tasks st) →
    reaches rt world executor workflowConfig st0
      (resume rt world executor workflowConfig i st).

(** The line that [executeWorkflow] logs for a failed job. *)
Definition failedJobLine (r : JobExecutionResult) : string :=
  "❌ Failed Job: " +:+ jobText (jobId r) (jobType r) +:+ " - "
    +:+ default "undefined" (error r).

(** The message of the error thrown for an id without a job. *)
Definition notFoundMessage (workflowConfig : BackendJobsConfig) (id : string) : string :=
  "Job with ID " +:+ id +:+ " not found. Available jobs: "
    +:+ String.concat ", " (map nodeId (jobs workflowConfig)).

(** *** Statuses and paths *)

(** The status recorded for job [id]. *)
Definition statusOf (st : ExecState) (id : string) : option JobStatus :=
  status <$> mapGet id (jobResults (workflowResult st)).

(** [st'] differs from [st] in the status of [id], which is now [s]. *)
Definition setsStatus (id : string) (s : JobStatus) (st st' : ExecState) : Prop :=
  ∀ x, statusOf st' x
       = if decide (x = id) then (λ _, s) <$> statusOf st x else statusOf st x.

(** The job on which a suspended invocation works. *)
Definition taskJob (t : Task) : BackendJob :=
  match t with
  | AwaitHandler job _ | AwaitJob job _ | AwaitNext job _ => job
  end.

(** The statuses agree with the control state: a running job has an
    invocation waiting for its handler, no job is skipped, the jobs that
    have left [pending] are those that were dispatched, and every job of
    the document has a record. *)
Definition accounted (workflowConfig : BackendJobsConfig) (st : ExecState) : Prop :=
  (∀ id s, statusOf st id = Some s →
     (s = Running → ∃ job run, AwaitHandler job run ∈ tasks st ∧ nodeId job = id)
     ∧ s ≠ Skipped
     ∧ (s ≠ Pending ↔ id ∈ dispatched st))
  ∧ (∀ t, t ∈ tasks st → nodeId (taskJob t) ∈ dispatched st)
  ∧ (∀ job, job ∈ jobs workflowConfig → is_Some (statusOf st (nodeId job))).

(** Job [a] has a connection to [b]. *)
Definition follows (workflowConfig : BackendJobsConfig) (a b : string) : Prop :=
  ∃ job, findJob (jobs workflowConfig) a = Some job
         ∧ b ∈ map targetJobId (connections job).

(** Everything the traversal has dispatched or is about to visit lies
    on a path of connections from [start]. *)
Definition rooted (workflowConfig : BackendJobsConfig) (start : string) (st : ExecState)
    : Prop :=
  (∀ id, id ∈ dispatched st → rtc (follows workflowConfig) start id)
  ∧ ∀ t, t ∈ tasks st →
      match t with
      | AwaitHandler job _ | AwaitJob job _ =>
          findJob (jobs workflowConfig) (nodeId job) = Some job
          ∧ rtc (follows workflowConfig) start (nodeId job)
      | AwaitNext _ nextJobs =>
          ∀ n, n ∈ nextJobs → rtc (follows workflowConfig) start n
      end.

(** *** The dispatch trace *)

(** Whatever has been executed has been dispatched, and the
    dependencies of a dispatched job stand before it in the trace. *)
Definition chronological (workflowConfig : BackendJobsConfig) (st : ExecState) : Prop :=
  (∀ id, id ∈ executedNodes st → id ∈ dispatched st)
  ∧ ∀ l1 b l2 job dep,
      dispatched st = l1 ++ b :: l2 →
      findJob (jobs workflowConfig) b = Some job → dep ∈ dependencies job →
      sourceJobId dep ∈ l1.

(** The ids that a suspended invocation may still visit. *)
Definition futures (t : Task) : list string :=
  match t with
  | AwaitHandler job _ | AwaitJob job _ => map targetJobId (connections job)
  | AwaitNext _ nextJobs => nextJobs
  end.

(** The targets of all connections of the document. *)
Definition allTargets (workflowConfig : BackendJobsConfig) : list string :=
  flat_map (λ job, map targetJobId (connections job)) (jobs workflowConfig).

(** A document in which no id is the target of two connections, and the
    start node of none. *)
Definition treeShaped (workflowConfig : BackendJobsConfig) (start : string) : Prop :=
  NoDup (allTargets workflowConfig) ∧ start ∉ allTargets workflowConfig.

(** No id is dispatched, or about to be visited, twice; [pend] holds
    the ids that the running invocation has yet to visit. *)
Definition single (workflowConfig : BackendJobsConfig) (start : string)
    (pend : list string) (st : ExecState) : Prop :=
  NoDup (dispatched st ++ concat (map futures (tasks st)) ++ pend)
  ∧ (∀ x, x ∈ dispatched st ++ pend →
          x = start ∨ ∃ p, p ∈ dispatched st ∧ follows workflowConfig p x)
  ∧ (∀ t, t ∈ tasks st →
          findJob (jobs workflowConfig) (nodeId (taskJob t)) = Some (taskJob t)
          ∧ nodeId (taskJob t) ∈ dispatched st
          ∧ ∀ x, x ∈ futures t → x ∈ map targetJobId (connections (taskJob t))).

(** *** Progress of the traversal *)

(** The invocation of job [j] has dealt with its next job [n]: [n] has
    been dispatched, or there is no such job, or [n] declares a
    dependency on a job other than [j]. *)
Definition attended (workflowConfig : BackendJobsConfig) (j n : string) (st : ExecState)
    : Prop :=
  n ∈ dispatched st
  ∨ findJob (jobs workflowConfig) n = None
  ∨ ∃ job dep, findJob (jobs workflowConfig) n = Some job
               ∧ dep ∈ dependencies job ∧ sourceJobId dep ≠ j.

(** An invocation of job [j] is suspended, and has its next jobs still
    to start. *)
Definition inFlight (j : string) (st : ExecState) : Prop :=
  ∃ t, t ∈ tasks st ∧ nodeId (taskJob t) = j
       ∧ match t with
         | AwaitNext job nextJobs => ∃ jobResult, nextJobs = getNextJobs job jobResult
         | _ => True
         end.

(** Nothing that was started is lost sight of: a dispatched job names a
    job of the document and is executed or has an invocation that has
    not yet passed [executeJob]; the executed jobs were dispatched; and
    the suspended invocations work on jobs of the document. *)
Definition tracked (workflowConfig : BackendJobsConfig) (st : ExecState) : Prop :=
  (∀ id, id ∈ dispatched st →
     is_Some (findJob (jobs workflowConfig) id)
     ∧ (id ∈ executedNodes st
        ∨ ∃ t, t ∈ tasks st ∧ nodeId (taskJob t) = id
               ∧ match t with AwaitNext _ _ => False | _ => True end))
  ∧ (∀ id, id ∈ executedNodes st → id ∈ dispatched st)
  ∧ (∀ t, t ∈ tasks st →
       findJob (jobs workflowConfig) (nodeId (taskJob t)) = Some (taskJob t)).

(** Job [j] has dealt with all the next jobs that some result of it
    selects. *)
Definition closed (workflowConfig : BackendJobsConfig) (j : string) (st : ExecState)
    : Prop :=
  ∃ job jobResult,
    findJob (jobs workflowConfig) j = Some job
    ∧ ∀ n, n ∈ getNextJobs job jobResult → attended workflowConfig j n st.

(** The traversal goes on from every executed job: an invocation of it
    is in flight, or it has dealt with its next jobs. *)
Definition advancing (workflowConfig : BackendJobsConfig) (st : ExecState) : Prop :=
  tracked workflowConfig st
  ∧ ∀ j, j ∈ executedNodes st → inFlight j st ∨ closed workflowConfig j st.

(** *** From the canvas to the job document *)

(** The node's [config] has no entry of its own for [nodeId] or [label]. *)
Definition plain (n : ExportJobs.ConfiguredNode) : Prop :=
  ("nodeId" ∉ map fst (ExportJobs.config n)) ∧ ("label" ∉ map fst (ExportJobs.config n)).

(** *** The Condition handler *)






End Notions.

(** ** Part VI.  Cycle detection *)

Module CycleDetection.
Import WorkflowUtils Notions.

Section Search.
Context (g : AdjList).

Local Abbreviation adj := (Notions.adj g).
Local Abbreviation settled := (Notions.settled g).





Lemma grows_refl s : grows s s.
Proof. by split. Qed.

Lemma grows_trans s1 s2 s3 : grows s1 s2 → grows s2 s3 → grows s1 s3.
Proof. intros [? ?] [? ?]; split; [set_solver | congruence]. Qed.

Lemma grows_finished s s' : grows s s' → finished s ⊆ finished s'.
Proof. intros [? E]. unfold finished. rewrite E. set_solver. Qed.

Lemma forSome_false_grows f xs :
  (∀ x s s', x ∈ xs → f x s = Some (false, s') → grows s s') →
  ∀ s s', forSome f xs s = Some (false, s') → grows s s'.
Proof.
  induction xs as [|x xs IH]; intros Hf s s' H; simpl in H.
  - inversion H; subst. apply grows_refl.
  - destruct (f x s) as [[[] s1]|] eqn:E; try discriminate.
    eapply grows_trans.
    + eapply Hf; [left | exact E].
    + eapply IH; [|exact H]. intros. eapply Hf; [by right | done].
Qed.

Lemma hasCycle_false_grows fuel : ∀ n s s',
  hasCycle fuel g n s = Some (false, s') → grows s s' ∧ n ∈ visited s' ∧ n ∉ recursionStack s.
Proof.
  induction fuel as [|fuel IH]; intros n s s' H; simpl in H; [discriminate|].
  case_bool_decide as Hst; [discriminate|].
  case_bool_decide as Hv.
  { inversion H; subst. split; [apply grows_refl | done]. }
  destruct (forSome _ _ _) as [[[] s2]|] eqn:E; try discriminate.
  inversion H; subst; clear H.
  apply forSome_false_grows in E as [Hvis Hstack];
    [| intros x s0 s0' _ Hx; by apply IH in Hx as [? _]].
  simpl in *. split; [split; simpl|split; simpl]; [set_solver | | set_solver | done].
  rewrite Hstack. set_solver.
Qed.

Lemma tc_first (R : relation string) x y :
  tc R x y → ∃ z, R x z ∧ rtc R z y.
Proof.
  intros H. inversion H as [? ? Hxy|? z ? Hxz Hzy]; subst.
  - exists y. split; [done | apply rtc_refl].
  - exists z. split; [done | by apply tc_rtc].
Qed.

Lemma closed_rtc (B : gset string) x y :
  (∀ b c, b ∈ B → adj b c → c ∈ B) → x ∈ B → rtc adj x y → y ∈ B.
Proof. intros HB Hx Hr. induction Hr; eauto. Qed.

Lemma forSome_false_settled f xs :
  (∀ x s s', x ∈ xs → f x s = Some (false, s') →
             grows s s' ∧ x ∈ visited s' ∧ x ∉ recursionStack s) →
  (∀ x s s', x ∈ xs → f x s = Some (false, s') → settled s → settled s') →
  ∀ s s', forSome f xs s = Some (false, s') → settled s →
          settled s' ∧ ∀ x, x ∈ xs → x ∈ finished s'.
Proof.
  induction xs as [|x xs IH]; intros Hg Hf s s' H Hs; simpl in H.
  - inversion H; subst. split; [done | intros ? Hx; inversion Hx].
  - destruct (f x s) as [[[] s1]|] eqn:E; try discriminate.
    destruct (Hg x s s1) as ([Hv Hst] & Hx & Hnx); [by left | done |].
    assert (Hs1 : settled s1) by (eapply Hf; [by left | done | done]).
    destruct (IH (λ y a a' Hy, Hg y a a' (list_elem_of_further _ _ _ Hy))
                 (λ y a a' Hy, Hf y a a' (list_elem_of_further _ _ _ Hy))
                 s1 s' H Hs1) as [Hs' Hall].
    split; [done|].
    intros y Hy. apply elem_of_cons in Hy as [->|Hy]; [|by apply Hall].
    assert (Hgr : grows s1 s').
    { eapply forSome_false_grows; [|exact H].
      intros z a a' Hz Hfz. by destruct (Hg z a a' (list_elem_of_further _ _ _ Hz) Hfz). }
    apply (grows_finished _ _ Hgr). unfold finished.
    rewrite Hst. set_solver.
Qed.

Lemma hasCycle_false_settled fuel : ∀ n s s',
  hasCycle fuel g n s = Some (false, s') → settled s → settled s'.
Proof.
  induction fuel as [|fuel IH]; intros n s s' H Hs; simpl in H; [discriminate|].
  case_bool_decide as Hst; [discriminate|].
  case_bool_decide as Hv; [by inversion H; subst|].
  destruct (forSome _ _ _) as [[[] s2]|] eqn:E; try discriminate.
  inversion H; subst; clear H.
  set (s1 := {| visited := {[n]} ∪ visited s; recursionStack := {[n]} ∪ recursionStack s |}) in *.
  assert (Hfin1 : finished s1 = finished s) by (unfold finished, s1; simpl; set_solver).
  assert (Hs1 : settled s1) by (unfold settled; by rewrite Hfin1).
  pose proof (forSome_false_grows _ _
    (λ x a a' _ Hx, proj1 (hasCycle_false_grows fuel x a a' Hx)) _ _ E) as [Hvis Hstack].
  destruct (forSome_false_settled _ _
    (λ x a a' _ Hx, hasCycle_false_grows fuel x a a' Hx)
    (λ x a a' _ Hx, IH x a a' Hx) _ _ E Hs1) as [[Hcl Hac] Hall].
  simpl in Hvis, Hstack.
  set (s' := {| visited := visited s2; recursionStack := recursionStack s2 ∖ {[n]} |}).
  assert (Hfin' : finished s' = {[n]} ∪ finished s2).
  { unfold finished, s'; simpl. rewrite Hstack.
    apply set_eq. intros x. rewrite !elem_of_union, !elem_of_difference, !elem_of_union,
      elem_of_singleton.
    destruct (decide (x = n)) as [->|]; set_solver. }
  assert (Hn2 : n ∉ finished s2) by (unfold finished; rewrite Hstack; set_solver).
  split.
  - intros b c. rewrite !Hfin', !elem_of_union, !elem_of_singleton.
    intros [->|Hb] Hbc; right; [by apply Hall | by eapply Hcl].
  - intros b. rewrite Hfin', elem_of_union, elem_of_singleton.
    intros [->|Hb]; [|by apply Hac].
    intros Hcyc. apply tc_first in Hcyc as (c & Hnc & Hcn).
    apply Hn2. eapply closed_rtc; [exact Hcl | by apply Hall | exact Hcn].
Qed.

Lemma forSome_true f xs : ∀ s s',
  forSome f xs s = Some (true, s') →
  (∀ x a a', x ∈ xs → f x a = Some (false, a') → recursionStack a' = recursionStack a) →
  ∃ x a, x ∈ xs ∧ recursionStack a = recursionStack s ∧ f x a = Some (true, s').
Proof.
  induction xs as [|x xs IH]; intros s s' H Hf; simpl in H; [discriminate|].
  destruct (f x s) as [[[] s1]|] eqn:E; try discriminate.
  - inversion H; subst. exists x, s. split; [by left | done].
  - destruct (IH s1 s' H) as (y & a & Hy & Ha & Hfy).
    { intros z b b' Hz. apply Hf. by right. }
    exists y, a. split; [by right|]. split; [|done].
    rewrite Ha. eapply Hf; [by left | done].
Qed.

Lemma hasCycle_true fuel : ∀ n s s',
  hasCycle fuel g n s = Some (true, s') →
  (∀ x, x ∈ recursionStack s → tc adj x n) →
  ∃ v, tc adj v v.
Proof.
  induction fuel as [|fuel IH]; intros n s s' H Hpath; simpl in H; [discriminate|].
  case_bool_decide as Hst; [exists n; by apply Hpath|].
  case_bool_decide as Hv; [discriminate|].
  destruct (forSome _ _ _) as [[[] s2]|] eqn:E; try discriminate.
  apply forSome_true in E as (c & a & Hc & Ha & Hca).
  - eapply IH; [exact Hca|]. intros x. rewrite Ha. simpl.
    rewrite elem_of_union, elem_of_singleton. intros [->|Hx].
    + by apply tc_once.
    + eapply tc_r; [by apply Hpath | done].
  - intros x a a' _ Hx. by destruct (hasCycle_false_grows fuel x a a' Hx) as [[_ ?] _].
Qed.

Lemma forSome_total f xs (P : DfsState → Prop) :
  (∀ x s, x ∈ xs → P s → is_Some (f x s)) →
  (∀ x s s', x ∈ xs → P s → f x s = Some (false, s') → P s') →
  ∀ s, P s → is_Some (forSome f xs s).
Proof.
  induction xs as [|x xs IH]; intros Ht Hp s Hs; simpl; [by eexists|].
  destruct (Ht x s) as [[[] s1] E]; [by left | done | |]; rewrite E; [by eexists|].
  apply IH; [intros; apply Ht; [by right | done] | | by eapply Hp; [left | |]].
  intros y a a' Hy. apply Hp. by right.
Qed.

Lemma hasCycle_total (N : gset string) :
  (∀ u v, adj u v → v ∈ N) →
  ∀ fuel n s, n ∈ N → size (N ∖ visited s) < fuel → is_Some (hasCycle fuel g n s).
Proof.
  intros HN. induction fuel as [|fuel IH]; intros n s Hn Hsz; [lia|]. simpl.
  case_bool_decide as Hst; [by eexists|].
  case_bool_decide as Hv; [by eexists|].
  set (s1 := {| visited := {[n]} ∪ visited s; recursionStack := {[n]} ∪ recursionStack s |}).
  assert (Hlt : size (N ∖ visited s1) < fuel).
  { assert (size (N ∖ visited s1) < size (N ∖ visited s)); [|lia].
    apply subset_size. unfold s1; simpl. set_solver. }
  destruct (forSome_total (hasCycle fuel g) (neighbors g n)
              (λ a, size (N ∖ visited a) < fuel)) with (s := s1) as [[[] s2] E];
    [| | done | rewrite E; by eexists..].
  - intros x a Hx Ha. apply IH; [by eapply HN | done].
  - intros x a a' Hx Ha Hfx. simpl.
    apply hasCycle_false_grows in Hfx as [[Hsub _] _].
    eapply Nat.le_lt_trans; [|exact Ha]. apply subseteq_size. set_solver.
Qed.

End Search.

Lemma elem_of_set_add y v s : y ∈ set_add v s ↔ y = v ∨ y ∈ s.
Proof.
  induction s as [|x s IH]; simpl.
  - rewrite list_elem_of_singleton. set_solver.
  - destruct (String.eqb_spec x v) as [->|Hne].
    + rewrite elem_of_cons. naive_solver.
    + rewrite !elem_of_cons, IH. naive_solver.
Qed.

Lemma neighbors_graph_add g u v x :
  neighbors (graph_add g u v) x =
  if String.eqb u x then set_add v (neighbors g u) else neighbors g x.
Proof.
  induction g as [|[k ns] g IH]; simpl.
  - by destruct (String.eqb u x).
  - destruct (String.eqb_spec k u) as [->|Hku]; simpl.
    + by destruct (String.eqb_spec u x).
    + rewrite IH. destruct (String.eqb_spec k x) as [->|Hkx];
        destruct (String.eqb_spec u x) as [->|Hux]; congruence.
Qed.

Lemma adj_graph_add g u v x y :
  adj (graph_add g u v) x y ↔ (x = u ∧ y = v) ∨ adj g x y.
Proof.
  unfold adj. rewrite neighbors_graph_add.
  destruct (String.eqb_spec u x) as [->|Hne]; [rewrite elem_of_set_add|]; naive_solver.
Qed.

Lemma adj_fold_graph_add (edges : list WorkflowEdge) : ∀ g x y,
  adj (fold_left (λ g edge, graph_add g (efrom edge) (eto edge)) edges g) x y
  ↔ (∃ edge, edge ∈ edges ∧ efrom edge = x ∧ eto edge = y) ∨ adj g x y.
Proof.
  induction edges as [|e edges IH]; intros g x y; simpl.
  - split; [by right | intros [(? & H & _)|?]; [inversion H | done]].
  - rewrite IH, adj_graph_add. split.
    + intros [(e' & ? & ?)|[[-> ->]|?]]; [left; exists e'; set_solver | left; exists e; set_solver | by right].
    + intros [(e' & [->|?]%elem_of_cons & <- & <-)|?]; [by right; left | left; by exists e' | by right; right].
Qed.

Lemma adj_buildGraph fromNodeId toNodeId existingEdges x y :
  adj (buildGraph fromNodeId toNodeId existingEdges) x y
  ↔ augmented fromNodeId toNodeId existingEdges x y.
Proof.
  unfold buildGraph, augmented. rewrite adj_graph_add, adj_fold_graph_add.
  split.
  - intros [?|[?|H]]; [by right | by left | inversion H].
  - intros [?|?]; [right; by left | by left].
Qed.

Lemma adj_key g x y : adj g x y → x ∈ keys g.
Proof.
  unfold adj, keys. induction g as [|[k ns] g IH]; simpl; [inversion 1|].
  destruct (String.eqb_spec k x) as [->|Hne]; intros H; [by left | right; by apply IH].
Qed.

Lemma adj_graphNodes g x y : adj g x y → y ∈ graphNodes g.
Proof.
  unfold adj, graphNodes. intros H. apply elem_of_union_r, elem_of_list_to_set.
  induction g as [|[k ns] g IH]; simpl in *; [inversion H|].
  apply elem_of_app. destruct (String.eqb k x); [by left | right; by apply IH].
Qed.

Lemma forSome_ext f f' xs (J : DfsState → Prop) :
  (∀ x s, J s → f x s = f' x s) →
  (∀ x s s', J s → f' x s = Some (false, s') → J s') →
  ∀ s, J s → forSome f xs s = forSome f' xs s.
Proof.
  intros Hff HJ. induction xs as [|x xs IH]; intros s Hs; simpl; [done|].
  rewrite Hff by done. destruct (f' x s) as [[[] s1]|] eqn:E; try done.
  apply IH. by eapply HJ.
Qed.

Lemma checkAll_unfold fuel g :
  checkAll (S fuel) g
  = forSome (hasCycle (S fuel) g) (keys g) {| visited := ∅; recursionStack := ∅ |}.
Proof.
  unfold checkAll.
  apply (forSome_ext _ _ _ (λ s, recursionStack s = ∅)); [| |done].
  - intros x s Hs. simpl. rewrite Hs.
    rewrite (bool_decide_eq_false_2 (x ∈ ∅)) by set_solver. by case_bool_decide.
  - intros x s s' Hs Hx. apply hasCycle_false_grows in Hx as [[_ ->] _]. done.
Qed.

(** The depth-first search never runs out of the fuel it is given. *)
Lemma checkAll_total g : is_Some (checkAll (S (size (graphNodes g))) g).
Proof.
  rewrite checkAll_unfold.
  apply (forSome_total _ _ (λ s, True)); [|done..].
  intros x s Hx _. apply (hasCycle_total g (graphNodes g)).
  - intros u v. apply adj_graphNodes.
  - unfold graphNodes. set_solver.
  - apply Nat.lt_succ_r, subseteq_size. set_solver.
Qed.

Lemma checkAll_true fuel g s :
  checkAll (S fuel) g = Some (true, s) → hasDirectedCycle (adj g).
Proof.
  rewrite checkAll_unfold. intros H.
  apply forSome_true in H as (x & a & _ & Ha & Hx).
  - eapply hasCycle_true; [exact Hx|]. intros y. rewrite Ha. simpl. set_solver.
  - intros x a a' _ Hx. by destruct (hasCycle_false_grows g _ x a a' Hx) as [[_ ?] _].
Qed.

Lemma checkAll_false fuel g s :
  checkAll (S fuel) g = Some (false, s) → ¬ hasDirectedCycle (adj g).
Proof.
  rewrite checkAll_unfold. intros H [v Hv].
  apply forSome_false_settled with (g := g) in H as [[_ Hac] Hall].
  - apply (Hac v); [|done]. apply Hall.
    apply tc_first in Hv as (c & Hvc & _). by eapply adj_key.
  - intros x a a' _. apply hasCycle_false_grows.
  - intros x a a' _. apply hasCycle_false_settled.
  - split; unfold finished; simpl; set_solver.
Qed.

Lemma hasDirectedCycle_iff (R R' : string → string → Prop) :
  (∀ x y, R x y ↔ R' x y) → hasDirectedCycle R ↔ hasDirectedCycle R'.
Proof.
  intros H. unfold hasDirectedCycle.
  assert (Hsub : ∀ (P Q : string → string → Prop),
             (∀ x y, P x y → Q x y) → ∀ x y, tc P x y → tc Q x y).
  { intros P Q HPQ x y Hxy. induction Hxy; [apply tc_once | eapply tc_l]; eauto. }
  split; intros [v Hv]; exists v; (eapply Hsub; [|exact Hv]); intros ? ?; apply H.
Qed.

(** C8. [wouldCreateCycle] answers [true] exactly when the existing edges
    together with the proposed edge contain a directed cycle. *)
Theorem wouldCreateCycle_iff_cycle fromNodeId toNodeId existingEdges :
  wouldCreateCycle fromNodeId toNodeId existingEdges = true
  ↔ hasDirectedCycle (augmented fromNodeId toNodeId existingEdges).
Proof.
  rewrite <- (hasDirectedCycle_iff _ _ (adj_buildGraph fromNodeId toNodeId existingEdges)).
  unfold wouldCreateCycle.
  destruct (checkAll_total (buildGraph fromNodeId toNodeId existingEdges)) as [[[] s] E];
    rewrite E.
  - split; [intros _; by eapply checkAll_true | done].
  - split; [done | intros H; by apply checkAll_false in E].
Qed.

End CycleDetection.

(** ** Part VII.  The canvas validator *)

Module TreeFacts.
Import WorkflowUtils TreeValidator Notions CycleDetection.

Lemma neighbors_graph_reset g k x :
  neighbors (graph_reset g k) x = if String.eqb k x then [] else neighbors g x.
Proof.
  induction g as [|[k' ns] g IH]; simpl; [done|].
  destruct (String.eqb_spec k' k) as [->|Hne]; simpl.
  - by destruct (String.eqb k x).
  - rewrite IH. destruct (String.eqb_spec k' x) as [->|]; [|done].
    by destruct (String.eqb_spec k x) as [->|].
Qed.

Lemma neighbors_graph_push g u v x :
  neighbors (graph_push g u v) x
  = if String.eqb u x then neighbors g u ++ [v] else neighbors g x.
Proof.
  induction g as [|[k ns] g IH]; simpl.
  - by destruct (String.eqb u x).
  - destruct (String.eqb_spec k u) as [->|Hku]; simpl.
    + by destruct (String.eqb_spec u x).
    + rewrite IH. destruct (String.eqb_spec k x) as [->|Hkx];
        destruct (String.eqb_spec u x) as [->|Hux]; congruence.
Qed.

Lemma neighbors_resets (nodes : list FlowNode) : ∀ g x,
  (∀ y, neighbors g y = []) →
  neighbors (fold_left (λ g node, graph_reset g (nodeId node)) nodes g) x = [].
Proof.
  induction nodes as [|n nodes IH]; intros g x Hg; simpl; [apply Hg|].
  apply IH. intros y. rewrite neighbors_graph_reset, Hg. by destruct (String.eqb _ y).
Qed.

Lemma adj_pushes (edges : list FlowEdge) : ∀ g x y,
  adj (fold_left (λ g edge, graph_push g (source edge) (target edge)) edges g) x y
  ↔ flows edges x y ∨ adj g x y.
Proof.
  unfold flows.
  induction edges as [|e edges IH]; intros g x y; simpl.
  - split; [by right | intros [(? & H & _)|?]; [inversion H | done]].
  - rewrite IH. unfold adj. rewrite neighbors_graph_push.
    destruct (String.eqb_spec (source e) x) as [<-|Hne].
    + rewrite elem_of_app, list_elem_of_singleton. split.
      * intros [(e' & ? & ?)|[?|Hy]];
          [left; exists e'; set_solver | by right | left; exists e; set_solver].
      * intros [(e' & Hin & Hs & Ht)|?];
          [apply elem_of_cons in Hin as [Heq|Hin];
             [subst e'; right; right; by rewrite Ht | left; by exists e']
          | right; by left].
    + split.
      * intros [(e' & ? & ?)|?]; [left; exists e'; set_solver | by right].
      * intros [(e' & Hin & Hs & Ht)|?];
          [apply elem_of_cons in Hin as [Heq|Hin];
             [subst e'; done | left; by exists e']
          | by right].
Qed.

Lemma adj_treeGraph nodes edges x y :
  adj (treeGraph nodes edges) x y ↔ flows edges x y.
Proof.
  unfold treeGraph. rewrite adj_pushes. unfold adj at 1.
  rewrite neighbors_resets by done. split; [intros [?|H]; [done | inversion H] | by left].
Qed.

(** [detectCycles] answers [true] exactly when the edges contain a
    directed cycle. *)
Lemma detectCycles_iff_cycle nodes edges :
  detectCycles nodes edges = true ↔ hasDirectedCycle (flows edges).
Proof.
  rewrite <- (hasDirectedCycle_iff _ _ (adj_treeGraph nodes edges)).
  unfold detectCycles.
  destruct (checkAll_total (treeGraph nodes edges)) as [[[] s] E]; rewrite E.
  - split; [intros _; by eapply checkAll_true | done].
  - split; [done | intros H; by apply checkAll_false in E].
Qed.

Lemma getCount_increment t k m :
  getCount t (increment k m) = if String.eqb k t then S (getCount t m) else getCount t m.
Proof.
  induction m as [|[k' n] m IH]; simpl.
  - by destruct (String.eqb k t).
  - destruct (String.eqb_spec k' k) as [->|Hne]; simpl.
    + by destruct (String.eqb k t).
    + rewrite IH. destruct (String.eqb_spec k' t) as [->|]; [|done].
      by destruct (String.eqb_spec k t) as [->|].
Qed.

(** Keys are unique and counts positive. *)
Lemma increment_keys k m x :
  x ∈ map fst (increment k m) ↔ x = k ∨ x ∈ map fst m.
Proof.
  induction m as [|[k' n] m IH]; simpl.
  - rewrite list_elem_of_singleton. set_solver.
  - destruct (String.eqb_spec k' k) as [->|Hne]; simpl.
    + rewrite !elem_of_cons. naive_solver.
    + rewrite !elem_of_cons, IH. naive_solver.
Qed.

Lemma counting_increment k m : counting m → counting (increment k m).
Proof.
  intros [Hnd Hpos]. split.
  - induction m as [|[k' n] m IH]; simpl; [repeat constructor; set_solver|].
    apply NoDup_cons in Hnd as [Hk' Hnd].
    destruct (String.eqb_spec k' k) as [->|Hne]; simpl.
    + by apply NoDup_cons.
    + apply NoDup_cons. split.
      * intros Hin. apply increment_keys in Hin as [Heq|Hin]; [by subst | done].
      * apply IH; [done|]. intros k0 n0 Hin. apply (Hpos k0 n0). by right.
  - induction m as [|[k' n] m IH]; simpl.
    + intros k0 n0 Hin%list_elem_of_singleton. inversion Hin. lia.
    + destruct (String.eqb_spec k' k) as [->|Hne].
      * intros k0 n0 Hin0. apply elem_of_cons in Hin0 as [Heq|Hin]; [inversion Heq; lia|].
        apply (Hpos k0 n0). by right.
      * intros k0 n0 Hin0. apply elem_of_cons in Hin0 as [Heq|Hin];
          [inversion Heq; subst; apply (Hpos k' n); by left|].
        apply NoDup_cons in Hnd as [_ Hnd].
        eapply (IH Hnd); [|exact Hin]. intros k1 n1 H1. apply (Hpos k1 n1). by right.
Qed.

Lemma counting_member m t n : counting m → (t, n) ∈ m ↔ getCount t m = n ∧ 0 < n.
Proof.
  intros [Hnd Hpos]. induction m as [|[k' n'] m IH]; simpl.
  - split; [inversion 1 | lia].
  - apply NoDup_cons in Hnd as [Hk' Hnd].
    assert (Hpos' : ∀ k n, (k, n) ∈ m → 0 < n) by (intros k0 n0 H0; apply (Hpos k0 n0); by right).
    rewrite elem_of_cons, (IH Hnd Hpos').
    destruct (String.eqb_spec k' t) as [->|Hne].
    + split.
      * intros [Heq|[Hg Hn]].
        -- inversion Heq; subst. split; [done | apply (Hpos t n'); by left].
        -- destruct Hk'. apply list_elem_of_fmap. exists (t, n). split; [done|].
           by apply (IH Hnd Hpos').
      * intros [-> Hn]. by left.
    + split.
      * intros [Heq|?]; [inversion Heq; by subst | done].
      * intros ?. by right.
Qed.

Lemma getCount_targetCounts t (edges : list FlowEdge) : ∀ m,
  getCount t (fold_left (λ m edge, increment (target edge) m) edges m)
  = getCount t m + parents t edges.
Proof.
  unfold parents. induction edges as [|e edges IH]; intros m; simpl; [lia|].
  rewrite IH, getCount_increment. destruct (String.eqb (target e) t); simpl; lia.
Qed.

Lemma counting_targetCounts edges : counting (targetCounts edges).
Proof.
  unfold targetCounts.
  assert (H : ∀ m, counting m →
            counting (fold_left (λ m edge, increment (target edge) m) edges m)).
  { induction edges as [|e edges IH]; intros m Hm; simpl; [done|].
    by apply IH, counting_increment. }
  apply H. split; [constructor | intros k n Hin; inversion Hin].
Qed.

(** [targetCounts] holds, for every node with an incoming edge, the
    number of its incoming edges. *)
Lemma targetCounts_member edges t n :
  (t, n) ∈ targetCounts edges ↔ n = parents t edges ∧ 0 < n.
Proof.
  rewrite (counting_member _ t n (counting_targetCounts edges)).
  unfold targetCounts. rewrite getCount_targetCounts. simpl. naive_solver.
Qed.

Lemma conditionalTargets_member nodes edges t :
  t ∈ conditionalTargets nodes edges
  ↔ ∃ edge, edge ∈ edges ∧ target edge = t ∧ fromConditionBranch nodes edge = true.
Proof.
  unfold conditionalTargets. rewrite elem_of_list_to_set, list_elem_of_fmap. split.
  - intros (e & -> & Hin). apply list_elem_of_In, filter_In in Hin as [Hin Hp].
    exists e. split; [by apply list_elem_of_In | done].
  - intros (e & Hin & <- & Hp). exists e. split; [done|].
    apply list_elem_of_In, filter_In. split; [by apply list_elem_of_In | done].
Qed.

Lemma multipleParentsError_not_cyclesError nodes t :
  multipleParentsError nodes t ≠ cyclesError.
Proof. unfold multipleParentsError, cyclesError. simpl. discriminate. Qed.

(** The errors of [validateTree] for a canvas that is not empty. *)
Lemma validateTree_errors nodes edges e :
  nodes ≠ [] →
  e ∈ treeErrors (validateTree nodes edges)
  ↔ (∃ t, e = multipleParentsError nodes t ∧ 1 < parents t edges
          ∧ ∀ edge, edge ∈ edges → target edge = t →
                    fromConditionBranch nodes edge = false)
    ∨ (e = cyclesError ∧ hasDirectedCycle (flows edges)).
Proof.
  intros Hne. unfold validateTree. destruct nodes as [|n0 nodes']; [done|].
  set (nodes := n0 :: nodes'). cbn [treeErrors].
  rewrite elem_of_app, list_elem_of_fmap.
  assert (Hcyc : e ∈ (if detectCycles nodes edges then [cyclesError] else [])
                 ↔ e = cyclesError ∧ hasDirectedCycle (flows edges)).
  { rewrite <- (detectCycles_iff_cycle nodes edges). destruct (detectCycles nodes edges).
    - rewrite list_elem_of_singleton. split; [by intros -> | by intros [-> _]].
    - split; [inversion 1 | by intros [_ ?]]. }
  rewrite Hcyc. apply or_iff_compat_r. split.
  - intros ([t n] & -> & Hin). apply list_elem_of_In, filter_In in Hin as [Hin Hp].
    apply list_elem_of_In, targetCounts_member in Hin as [-> Hpos].
    apply andb_true_iff in Hp as [Hgt Hc]. simpl in Hgt, Hc.
    apply Nat.ltb_lt in Hgt. apply negb_true_iff, bool_decide_eq_false in Hc.
    exists t. split; [done|]. split; [done|].
    intros edge Hedge Ht. destruct (fromConditionBranch nodes edge) eqn:Hb; [|done].
    destruct Hc. apply conditionalTargets_member. by exists edge.
  - intros (t & -> & Hgt & Hnone). exists (t, parents t edges). split; [done|].
    apply list_elem_of_In, filter_In. split.
    + apply list_elem_of_In, targetCounts_member. split; [done | lia].
    + apply andb_true_iff. simpl. split; [by apply Nat.ltb_lt|].
      apply negb_true_iff, bool_decide_eq_false.
      intros (edge & Hedge & Ht & Hb)%conditionalTargets_member.
      by rewrite (Hnone edge Hedge Ht) in Hb.
Qed.

Lemma validateTree_valid nodes edges :
  treeValid (validateTree nodes edges) = true ↔ treeErrors (validateTree nodes edges) = [].
Proof.
  unfold validateTree. destruct nodes; [done|]. cbn [treeValid treeErrors].
  generalize (map (λ entry, multipleParentsError (f :: nodes) (fst entry))
                (List.filter
                   (λ entry, (1 <? snd entry)%nat
                             && negb (bool_decide
                                        (fst entry ∈ conditionalTargets (f :: nodes) edges)))
                   (targetCounts edges))
              ++ (if detectCycles (f :: nodes) edges then [cyclesError] else [])).
  intros [|e es]; split; intros H; (done || discriminate H).
Qed.

End TreeFacts.

(** ** Part VIII.  The execution engine *)

Import JS Engine Notions.

(** *** The traversal: frames *)


Lemma sameControl_refl st : sameControl st st.
Proof. by repeat split. Qed.

Lemma sameControl_trans st1 st2 st3 :
  sameControl st1 st2 → sameControl st2 st3 → sameControl st1 st3.
Proof. intros (?&?&?) (?&?&?). repeat split; congruence. Qed.

Lemma sameControl_onResult f st : sameControl st (onResult f st).
Proof. by repeat split. Qed.

Lemma sameControl_onJob id f st : sameControl st (onJob id f st).
Proof. by repeat split. Qed.

Lemma sameControl_fold {A} (f : A → ExecState → ExecState) (l : list A) :
  (∀ a st, sameControl st (f a st)) →
  ∀ st, sameControl st (fold_left (λ s a, f a s) l st).
Proof.
  intros Hf. induction l as [|a l IH]; intros st; simpl; [apply sameControl_refl|].
  eapply sameControl_trans; [apply Hf | apply IH].
Qed.

(** *** The result table *)

Lemma mapGet_mapUpdate id f m : mapGet id (mapUpdate id f m) = f <$> mapGet id m.
Proof.
  induction m as [|[k r] m IH]; simpl; [done|].
  destruct (String.eqb k id) eqn:E; simpl; rewrite E; [done | exact IH].
Qed.

Lemma mapGet_mapUpdate_ne id id' f m :
  id ≠ id' → mapGet id' (mapUpdate id f m) = mapGet id' m.
Proof.
  intros Hne. induction m as [|[k r] m IH]; simpl; [done|].
  destruct (String.eqb_spec k id) as [->|Hk]; simpl.
  - destruct (String.eqb_spec id id'); [done | done].
  - destruct (String.eqb k id'); [done | exact IH].
Qed.

Lemma wstatus_fold_log {A} (f : A → string) (l : list A) : ∀ w,
  wstatus (fold_left (λ w a, log (f a) w) l w) = wstatus w
  ∧ jobResults (fold_left (λ w a, log (f a) w) l w) = jobResults w.
Proof. induction l as [|a l IH]; intros w; simpl; [done|]. apply (IH (log (f a) w)). Qed.

Lemma executionLogs_fold_log {A} (f : A → string) (l : list A) : ∀ w,
  executionLogs (fold_left (λ w a, log (f a) w) l w) = executionLogs w ++ map f l.
Proof.
  induction l as [|a l IH]; intros w; simpl; [by rewrite app_nil_r|].
  rewrite IH. simpl. by rewrite <- app_assoc.
Qed.


Lemma finish_completed w :
  wstatus (finish w) = WCompleted ∧ jobResults (finish w) = jobResults w.
Proof.
  unfold finish.
  destruct (List.filter (λ job, isStatus (status job) Failed) _) as [|f fs]; [done|].
  set (w1 := fold_left _ (f :: fs) _).
  assert (H1 : wstatus w1 = WCompleted ∧ jobResults w1 = jobResults w)
    by (subst w1; by rewrite !(proj1 (wstatus_fold_log _ _ _)), !(proj2 (wstatus_fold_log _ _ _))).
  destruct (List.filter (λ job, isStatus (status job) Completed) _);
    destruct (List.filter (λ job, isStatus (status job) Pending || _) _); exact H1.
Qed.

Lemma finish_enumerates w id r :
  (id, r) ∈ jobResults w → status r = Failed →
  failedJobLine r ∈ executionLogs (finish w).
Proof.
  intros Hin Hst. unfold finish.
  assert (Hf : r ∈ List.filter (λ job, isStatus (status job) Failed) (map snd (jobResults w))).
  { apply list_elem_of_In, filter_In. split.
    - apply list_elem_of_In, list_elem_of_fmap. by exists (id, r).
    - by rewrite Hst. }
  destruct (List.filter (λ job, isStatus (status job) Failed) _) as [|f fs] eqn:E;
    [inversion Hf|].
  set (w1 := fold_left _ (f :: fs) _).
  assert (H1 : failedJobLine r ∈ executionLogs w1).
  { subst w1. rewrite executionLogs_fold_log. apply elem_of_app. right.
    apply list_elem_of_fmap. by exists r. }
  destruct (List.filter (λ job, isStatus (status job) Completed) _);
    destruct (List.filter (λ job, isStatus (status job) Pending || _) _); simpl;
    rewrite ?elem_of_app; tauto.
Qed.

Section EngineFacts.
Context (rt : Runtime) (world : World) (executor : Executor)
        (workflowConfig : BackendJobsConfig).

Local Abbreviation executeFromNode := (Engine.executeFromNode rt world executor workflowConfig).
Local Abbreviation startNext := (Engine.startNext rt world executor workflowConfig).
Local Abbreviation continue := (Engine.continue rt world executor workflowConfig).
Local Abbreviation resume := (Engine.resume rt world executor workflowConfig).
Local Abbreviation subtreeCost := (Engine.subtreeCost workflowConfig).
Local Abbreviation jobIds := (Engine.jobIds workflowConfig).
Local Abbreviation taskCost := (Engine.taskCost workflowConfig).
Local Abbreviation potential := (Engine.potential workflowConfig).
Local Abbreviation reaches := (Notions.reaches rt world executor workflowConfig).

Lemma sameControl_logDependencies job st : sameControl st (logDependencies job st).
Proof.
  unfold logDependencies.
  eapply sameControl_trans; [|apply (sameControl_fold (λ dep, onResult _))].
  - eapply sameControl_trans; apply sameControl_onResult.
  - intros. apply sameControl_onResult.
Qed.

Lemma sameControl_warnFailedDependencies job st :
  sameControl st (warnFailedDependencies job st).
Proof.
  unfold warnFailedDependencies. destruct (failedDependencies st job);
    [apply sameControl_refl|].
  eapply sameControl_trans; [apply sameControl_onResult | apply sameControl_onJob].
Qed.

Lemma sameControl_waitForDependencies job pending st :
  sameControl st (waitForDependencies job pending st).
Proof.
  unfold waitForDependencies.
  eapply sameControl_trans; [apply sameControl_onResult | apply sameControl_onJob].
Qed.

Lemma findJob_nodeId js id job : findJob js id = Some job → nodeId job = id ∧ job ∈ js.
Proof.
  unfold findJob. intros H. apply find_some in H as [Hin Heq].
  apply String.eqb_eq in Heq. split; [done | by apply list_elem_of_In].
Qed.

Lemma executeJob_call_control job st :
  let st' := executeJob_call rt world executor job st in
  ∃ t, entered job t
       ∧ executedNodes st' = executedNodes st
       ∧ tasks st' = tasks st ++ [t]
       ∧ dispatched st' = dispatched st ++ [nodeId job].
Proof.
  unfold executeJob_call. destruct (runHandler _ _ _ _ _ _) as [run|]; simpl.
  - exists (AwaitHandler job run). split; [left; by eexists | done].
  - eexists. split; [right; by eexists | done].
Qed.

(** What the synchronous part of [executeFromNode] does to the shared
    state beyond the workflow result. *)
Lemma executeFromNode_control id st st' r :
  executeFromNode id st = (st', r) →
  executedNodes st' = executedNodes st
  ∧ (match r with
     | Started =>
         ∃ job t, findJob (jobs workflowConfig) id = Some job
                  ∧ (id ∉ executedNodes st)
                  ∧ pendingDependencies st job = []
                  ∧ entered job t
                  ∧ tasks st' = tasks st ++ [t]
                  ∧ dispatched st' = dispatched st ++ [id]
     | _ => tasks st' = tasks st ∧ dispatched st' = dispatched st
     end).
Proof.
  unfold Engine.executeFromNode.
  set (st0 := onResult _ st).
  assert (H0 : sameControl st st0) by apply sameControl_onResult.
  case_bool_decide as Hex; [intros H; inversion H; subst; by destruct H0 as (?&?&?)|].
  destruct (findJob _ id) as [job|] eqn:Hjob;
    [|intros H; inversion H; subst; by destruct H0 as (?&?&?)].
  pose proof (findJob_nodeId _ _ _ Hjob) as [Hid _].
  set (st1 := warnFailedDependencies job (logDependencies job st0)).
  assert (H1 : sameControl st st1).
  { eapply sameControl_trans; [exact H0|].
    eapply sameControl_trans; [apply sameControl_logDependencies
                              |apply sameControl_warnFailedDependencies]. }
  destruct H1 as (He & Ht & Hd).
  destruct (pendingDependencies st0 job) as [|d ds] eqn:Hpend.
  - intros H; inversion H; subst st' r; clear H.
    destruct (executeJob_call_control job st1) as (t & Hent & He' & Ht' & Hd').
    split; [congruence|]. exists job, t.
    rewrite Ht', Hd', Ht, Hd, Hid. by repeat split.
  - intros H; inversion H; subst st' r; clear H.
    destruct (sameControl_waitForDependencies job (d :: ds) st1) as (?&?&?).
    repeat split; congruence.
Qed.


(** *** Termination of the traversal *)

Lemma subtreeCost_mono k k' id : k ≤ k' → subtreeCost k id ≤ subtreeCost k' id.
Proof.
  revert k' id. induction k as [|k IH]; intros k' id Hk; simpl; [lia|].
  destruct k' as [|k']; [lia|]. simpl.
  destruct (findJob _ id) as [job|]; [|lia].
  do 3 apply le_n_S.
  induction (connections job) as [|c cs IHc]; simpl; [lia|].
  apply Nat.add_le_mono; [apply IH; lia | apply IHc].
Qed.

Lemma sum_subtreeCost_mono k k' (ids : list string) :
  k ≤ k' → sum_list_with (subtreeCost k) ids ≤ sum_list_with (subtreeCost k') ids.
Proof.
  intros Hk. induction ids as [|i ids IH]; simpl; [lia|].
  apply Nat.add_le_mono; [by apply subtreeCost_mono | done].
Qed.

Lemma sum_connections_mono k k' (cs : list JobConnection) :
  k ≤ k' →
  sum_list_with (λ c, subtreeCost k (targetJobId c)) cs
  ≤ sum_list_with (λ c, subtreeCost k' (targetJobId c)) cs.
Proof.
  intros Hk. induction cs as [|c cs IH]; simpl; [lia|].
  apply Nat.add_le_mono; [by apply subtreeCost_mono | done].
Qed.

Lemma taskCost_mono (E E' : gset string) t : E ⊆ E' → taskCost E' t ≤ taskCost E t.
Proof.
  intros HE. destruct t as [job run|job caught|job nextJobs]; simpl.
  - do 3 apply le_n_S. apply sum_connections_mono, subseteq_size. set_solver.
  - do 2 apply le_n_S. apply sum_connections_mono, subseteq_size. set_solver.
  - apply le_n_S, sum_subtreeCost_mono, subseteq_size. set_solver.
Qed.

Lemma taskCost_pos E t : 0 < taskCost E t.
Proof. destruct t; simpl; lia. Qed.

Lemma sum_taskCost_mono (E E' : gset string) ts :
  E ⊆ E' → sum_list_with (taskCost E') ts ≤ sum_list_with (taskCost E) ts.
Proof.
  intros HE. induction ts as [|t ts IH]; simpl; [lia|].
  apply Nat.add_le_mono; [by apply taskCost_mono | done].
Qed.

(** A call of [executeFromNode] adds at most the cost of its subtree. *)
Lemma executeFromNode_potential id st :
  let st' := fst (executeFromNode id st) in
  executedNodes st' = executedNodes st
  ∧ potential st' ≤ potential st + subtreeCost (size (jobIds ∖ executedNodes st)) id.
Proof.
  destruct (executeFromNode id st) as [st' r] eqn:E. simpl.
  apply executeFromNode_control in E as [He Hr]. split; [done|].
  unfold Engine.potential. rewrite He.
  destruct r; try (destruct Hr as [-> _]; lia).
  destruct Hr as (job & t & Hjob & Hid & _ & Hent & -> & _).
  rewrite sum_list_with_app. simpl.
  pose proof (findJob_nodeId _ _ _ Hjob) as [Hn Hin].
  assert (Hsz : size (jobIds ∖ executedNodes st)
                = S (size (jobIds ∖ executedNodes st ∖ {[nodeId job]}))).
  { rewrite Hn.
    assert (Hmem : id ∈ jobIds ∖ executedNodes st).
    { apply elem_of_difference. split; [|done].
      unfold Engine.jobIds. apply elem_of_list_to_set, list_elem_of_fmap.
      exists job. by rewrite Hn. }
    rewrite (union_difference_singleton_L id (jobIds ∖ executedNodes st)) at 1 by done.
    rewrite size_union by set_solver. by rewrite size_singleton. }
  rewrite Hsz. simpl. rewrite Hjob.
  destruct Hent as [[run ->]|[e ->]]; simpl; lia.
Qed.

Lemma startNext_potential nextJobs : ∀ st,
  executedNodes (startNext nextJobs st) = executedNodes st
  ∧ potential (startNext nextJobs st)
    ≤ potential st
      + sum_list_with (subtreeCost (size (jobIds ∖ executedNodes st))) nextJobs.
Proof.
  unfold Engine.startNext.
  induction nextJobs as [|n ns IH]; intros st; simpl; [split; [done | lia]|].
  destruct (executeFromNode_potential n st) as [He Hp].
  destruct (IH (fst (executeFromNode n st))) as [He' Hp'].
  rewrite He in He', Hp'. split; [done | lia].
Qed.


Lemma sum_getNextJobs (f : string → nat) job jobResult :
  sum_list_with f (getNextJobs job jobResult)
  ≤ sum_list_with (λ c, f (targetJobId c)) (connections job).
Proof.
  assert (H : ∀ p cs, sum_list_with f (map targetJobId (List.filter p cs))
                      ≤ sum_list_with (λ c, f (targetJobId c)) cs).
  { intros p cs. induction cs as [|c cs IH]; simpl; [lia|].
    destruct (p c); simpl; lia. }
  unfold getNextJobs. destruct (_ && _); apply H.
Qed.

Lemma sum_delete {A} (f : A → nat) (l : list A) i x :
  l !! i = Some x → sum_list_with f l = f x + sum_list_with f (delete i l).
Proof. intros H. by rewrite (delete_Permutation l i x H) at 1. Qed.

Lemma continue_AwaitHandler_control job run st :
  let st' := continue (AwaitHandler job run) st in
  executedNodes st' = executedNodes st
  ∧ dispatched st' = dispatched st
  ∧ ∃ caught, tasks st' = tasks st ++ [AwaitJob job caught].
Proof. simpl. destruct (thrown run); simpl; eauto. Qed.

Lemma continue_AwaitJob_control job caught st :
  let st' := continue (AwaitJob job caught) st in
  executedNodes st' = {[nodeId job]} ∪ executedNodes st
  ∧ dispatched st' = dispatched st
  ∧ ∃ jobResult, tasks st' = tasks st ++ [AwaitNext job (getNextJobs job jobResult)].
Proof. simpl. destruct caught; simpl; eauto. Qed.

(** Every resumption uses up some of the potential. *)
Lemma resume_potential i st :
  i < length (tasks st) → potential (resume i st) < potential st.
Proof.
  intros Hi. unfold Engine.resume.
  destruct (tasks st !! i) as [t|] eqn:Ht; [|apply lookup_ge_None in Ht; lia].
  set (st0 := withTasks (delete i (tasks st)) st).
  assert (Hpot : potential st = taskCost (executedNodes st) t + potential st0).
  { unfold Engine.potential. simpl. by apply sum_delete. }
  rewrite Hpot. clear Hpot.
  assert (He0 : executedNodes st0 = executedNodes st) by done.
  destruct t as [job run|job caught|job nextJobs].
  - destruct (continue_AwaitHandler_control job run st0) as (He & _ & caught & Htk).
    unfold Engine.potential. rewrite He, Htk, sum_list_with_app, He0. simpl. lia.
  - destruct (continue_AwaitJob_control job caught st0) as (He & _ & jr & Htk).
    unfold Engine.potential. rewrite He, Htk, sum_list_with_app, He0. simpl.
    pose proof (sum_taskCost_mono (executedNodes st) ({[nodeId job]} ∪ executedNodes st)
                  (tasks st0) ltac:(set_solver)).
    pose proof (sum_getNextJobs
                  (subtreeCost (size (jobIds ∖ ({[nodeId job]} ∪ executedNodes st)))) job jr).
    replace (jobIds ∖ ({[nodeId job]} ∪ executedNodes st))
      with (jobIds ∖ executedNodes st ∖ {[nodeId job]}) in * by set_solver.
    change (tasks st0) with (delete i (tasks st)) in *. lia.
  - destruct (startNext_potential nextJobs st0) as [_ Hp].
    simpl. rewrite He0 in Hp. unfold Engine.potential in *.
    change (tasks st0) with (delete i (tasks st)) in *.
    change (executedNodes st0) with (executedNodes st) in *. lia.
Qed.

Lemma potential_nil st : tasks st = [] → potential st = 0.
Proof. unfold Engine.potential. by intros ->. Qed.

Lemma potential_pos st : tasks st ≠ [] → 0 < potential st.
Proof.
  unfold Engine.potential. destruct (tasks st) as [|t ts]; [done|]. intros _. simpl.
  pose proof (taskCost_pos (executedNodes st) t). lia.
Qed.


(** With fuel for its potential the event loop runs until no invocation
    is left suspended. *)
Lemma drain_terminates schedule : ∀ fuel turn st,
  potential st ≤ fuel →
  ∃ st', Engine.drain rt world executor workflowConfig schedule fuel turn st = Some st'
         ∧ tasks st' = [] ∧ reaches st st'.
Proof.
  induction fuel as [|fuel IH]; intros turn st Hp.
  - destruct (tasks st) as [|t ts] eqn:Ht.
    + exists st. simpl. rewrite Ht. split; [done|]. split; [done | constructor].
    + pose proof (potential_pos st ltac:(by rewrite Ht)). lia.
  - simpl. destruct (tasks st) as [|t ts] eqn:Ht.
    + exists st. split; [done|]. split; [done | constructor].
    + rewrite <- Ht.
      set (i := schedule turn `mod` length (tasks st)).
      assert (Hi : i < length (tasks st)).
      { apply Nat.mod_upper_bound. rewrite Ht. simpl. lia. }
      pose proof (resume_potential i st Hi).
      destruct (IH (S turn) (resume i st) ltac:(lia)) as (st' & Hd & Hnil & Hr).
      exists st'. split; [done|]. split; [done|].
      clear -Hr Hi. induction Hr; [by apply reaches_resume; [constructor|]|].
      by apply reaches_resume.
Qed.

Lemma traverse_terminates schedule st :
  ∃ st', Engine.traverse rt world executor workflowConfig schedule st = Some st'
         ∧ tasks st' = [] ∧ reaches st st'.
Proof. by apply drain_terminates. Qed.


(** A handler that throws leaves its job failed, with the message as the
    job's error, and the invocation goes on. *)
Lemma continue_thrown job run e st r :
  thrown run = Some e →
  mapGet (nodeId job) (jobResults (workflowResult st)) = Some r →
  let st' := continue (AwaitHandler job run) st in
  (∃ r', mapGet (nodeId job) (jobResults (workflowResult st')) = Some r'
         ∧ status r' = Failed ∧ error r' = Some (errorText rt e))
  ∧ tasks st' = tasks st ++ [AwaitJob job (Some e)]
  ∧ wstatus (workflowResult st') = wstatus (workflowResult st).
Proof.
  intros He Hr. simpl. rewrite He. simpl.
  rewrite !mapGet_mapUpdate, Hr. simpl.
  split; [eexists; split; [reflexivity | by split] | by split].
Qed.

(** Once the first call of [executeFromNode] has found its job, the run
    resolves, whatever the order of the resumptions. *)
Lemma executeWorkflow_resolves schedule st0 :
  begin rt world executor workflowConfig = inl st0 →
  ∃ st, reaches st0 st ∧ tasks st = []
        ∧ Engine.executeWorkflow rt world executor workflowConfig schedule
          = Resolved (finish (workflowResult st)).
Proof.
  intros Hb. unfold Engine.executeWorkflow. rewrite Hb.
  destruct (traverse_terminates schedule st0) as (st & -> & Hnil & Hr). eauto.
Qed.

End EngineFacts.


(** *** The dependency gate *)

Lemma filter_nil_false {A} (p : A → bool) (l : list A) x :
  List.filter p l = [] → x ∈ l → p x = false.
Proof.
  intros H Hx. destruct (p x) eqn:E; [|done].
  assert (Hin : In x (List.filter p l)) by (apply filter_In; split; [by apply list_elem_of_In | done]).
  rewrite H in Hin. inversion Hin.
Qed.

Lemma filter_nil_intro {A} (p : A → bool) (l : list A) :
  (∀ x, x ∈ l → p x = false) → List.filter p l = [].
Proof.
  induction l as [|a l IH]; intros H; simpl; [done|].
  rewrite (H a) by left. apply IH. intros. apply H. by right.
Qed.


Lemma sameStatuses_refl st : sameStatuses st st.
Proof. done. Qed.

Lemma sameStatuses_trans st1 st2 st3 :
  sameStatuses st1 st2 → sameStatuses st2 st3 → sameStatuses st1 st3.
Proof. intros H1 H2 id. by rewrite H2, H1. Qed.

Lemma sameStatuses_log m st : sameStatuses st (onResult (log m) st).
Proof. done. Qed.

Lemma sameStatuses_pushLogs id lines st : sameStatuses st (onJob id (pushLogs lines) st).
Proof.
  intros id'. simpl. destruct (decide (id = id')) as [->|Hne].
  - rewrite mapGet_mapUpdate. by destruct (mapGet id' _).
  - by rewrite mapGet_mapUpdate_ne.
Qed.

Lemma sameStatuses_fold {A} (f : A → ExecState → ExecState) (l : list A) :
  (∀ a st, sameStatuses st (f a st)) →
  ∀ st, sameStatuses st (fold_left (λ s a, f a s) l st).
Proof.
  intros Hf. induction l as [|a l IH]; intros st; simpl; [done|].
  eapply sameStatuses_trans; [apply Hf | apply IH].
Qed.

Lemma sameStatuses_logDependencies job st : sameStatuses st (logDependencies job st).
Proof.
  unfold logDependencies.
  eapply sameStatuses_trans; [|apply (sameStatuses_fold (λ dep, onResult _))]; [done|].
  intros. apply sameStatuses_log.
Qed.

Lemma sameStatuses_warnFailedDependencies job st :
  sameStatuses st (warnFailedDependencies job st).
Proof.
  unfold warnFailedDependencies. destruct (failedDependencies st job); [done|].
  eapply sameStatuses_trans; [apply sameStatuses_log | apply sameStatuses_pushLogs].
Qed.

Lemma sameStatuses_waitForDependencies job pending st :
  sameStatuses st (waitForDependencies job pending st).
Proof.
  unfold waitForDependencies.
  eapply sameStatuses_trans; [apply sameStatuses_log | apply sameStatuses_pushLogs].
Qed.

(** The filters read the executed set and the statuses only. *)
Lemma isPendingDependency_ext st st' dep :
  executedNodes st' = executedNodes st → sameStatuses st st' →
  isPendingDependency st' dep = isPendingDependency st dep.
Proof.
  intros He Hs. unfold isPendingDependency, dependencyStatus. by rewrite He, Hs.
Qed.

Lemma isFailedDependency_ext st st' dep :
  sameStatuses st st' → isFailedDependency st' dep = isFailedDependency st dep.
Proof. intros Hs. unfold isFailedDependency, dependencyStatus. by rewrite Hs. Qed.

Lemma failedDependencies_ext st st' job :
  sameStatuses st st' → failedDependencies st' job = failedDependencies st job.
Proof.
  intros Hs. unfold failedDependencies.
  induction (dependencies job) as [|d ds IH]; simpl; [done|].
  by rewrite IH, (isFailedDependency_ext st st').
Qed.


Lemma logged_onResult id line f st :
  (∀ w, jobResults (f w) = jobResults w) → logged id line st → logged id line (onResult f st).
Proof. intros Hf (r & Hr & Hl). exists r. simpl. by rewrite Hf. Qed.

Lemma logged_onJob id id' line f st :
  (∀ r, logs r ⊆ logs (f r)) → logged id line st → logged id line (onJob id' f st).
Proof.
  intros Hf (r & Hr & Hl). unfold logged. simpl.
  destruct (decide (id' = id)) as [->|Hne].
  - exists (f r). rewrite mapGet_mapUpdate, Hr. split; [done | by apply Hf].
  - exists r. by rewrite mapGet_mapUpdate_ne.
Qed.

Lemma logs_handlerEffects run settled r : logs r ⊆ logs (handlerEffects run settled r).
Proof.
  unfold handlerEffects.
  destruct settled, (awaits run), (written run); simpl; set_solver.
Qed.

Section Gate.
Context (rt : Runtime) (world : World) (executor : Executor)
        (workflowConfig : BackendJobsConfig).

Local Abbreviation executeFromNode := (Engine.executeFromNode rt world executor workflowConfig).
Local Abbreviation startNext := (Engine.startNext rt world executor workflowConfig).
Local Abbreviation continue := (Engine.continue rt world executor workflowConfig).
Local Abbreviation resume := (Engine.resume rt world executor workflowConfig).
Local Abbreviation gated := (Notions.gated workflowConfig).


Lemma pendingDependencies_nil st job dep :
  pendingDependencies st job = [] → dep ∈ dependencies job →
  sourceJobId dep ∈ executedNodes st
  ∧ (dependencyStatus st dep = Some Completed ∨ dependencyStatus st dep = Some Failed).
Proof.
  intros Hp Hd. pose proof (filter_nil_false _ _ dep Hp Hd) as H.
  unfold isPendingDependency in H.
  apply orb_false_iff in H as [H1 H2].
  apply negb_false_iff, bool_decide_eq_true in H1. split; [done|].
  destruct (dependencyStatus st dep) as [[]|]; simpl in H2; try discriminate; eauto.
Qed.

Lemma gated_executeFromNode id st :
  gated st → gated (fst (executeFromNode id st)).
Proof.
  intros Hg. destruct (executeFromNode id st) as [st' r] eqn:E. simpl.
  apply executeFromNode_control in E as [He Hr].
  intros j. unfold gated in Hg. rewrite He.
  destruct r; try (destruct Hr as [_ ->]; apply Hg).
  destruct Hr as (job & t & Hjob & _ & Hp & _ & _ & ->).
  rewrite elem_of_app, list_elem_of_singleton. intros [Hj| ->]; [by apply Hg|].
  exists job. split; [done|]. intros dep Hd.
  by destruct (pendingDependencies_nil st job dep Hp Hd).
Qed.

Lemma gated_startNext nextJobs : ∀ st, gated st → gated (startNext nextJobs st).
Proof.
  unfold Engine.startNext. induction nextJobs as [|n ns IH]; intros st Hg; simpl; [done|].
  by apply IH, gated_executeFromNode.
Qed.

Lemma gated_mono st st' :
  executedNodes st ⊆ executedNodes st' → dispatched st' = dispatched st →
  gated st → gated st'.
Proof.
  intros He Hd Hg id. rewrite Hd. intros Hid.
  destruct (Hg id Hid) as (job & Hjob & Hdeps). exists job. split; [done|].
  intros dep Hdep. apply He. by apply Hdeps.
Qed.

Lemma gated_resume i st : gated st → gated (resume i st).
Proof.
  intros Hg. unfold Engine.resume. destruct (tasks st !! i) as [t|]; [|done].
  set (st0 := withTasks (delete i (tasks st)) st).
  assert (Hg0 : gated st0) by (by apply (gated_mono st)).
  destruct t as [job run|job caught|job nextJobs].
  - destruct (continue_AwaitHandler_control rt world executor workflowConfig job run st0)
      as (He & Hd & _).
    apply (gated_mono st0); [by rewrite He | done | done].
  - destruct (continue_AwaitJob_control rt world executor workflowConfig job caught st0)
      as (He & Hd & _).
    apply (gated_mono st0); [rewrite He; set_solver | done | done].
  - by apply gated_startNext.
Qed.

Lemma gated_reaches st0 st :
  reaches rt world executor workflowConfig st0 st → gated st0 → gated st.
Proof. induction 1; intros Hg; [done|]. by apply gated_resume, IHreaches. Qed.

Lemma gated_begin st0 : begin rt world executor workflowConfig = inl st0 → gated st0.
Proof.
  unfold begin.
  destruct (startNode _) as [[|c s]|]; [discriminate| |discriminate].
  match goal with |- context [Engine.executeFromNode _ _ _ _ ?i ?s] =>
    pose proof (gated_executeFromNode i s) as Hg;
    destruct (Engine.executeFromNode rt world executor workflowConfig i s) as [st r]
  end.
  simpl in Hg. intros H.
  assert (st = st0) as <- by (destruct r; by inversion H).
  apply Hg. intros id Hid. inversion Hid.
Qed.


(** A visit that finds a dependency missing from the executed set
    returns without executing the job. *)
Lemma executeFromNode_waits id job st dep :
  findJob (jobs workflowConfig) id = Some job → id ∉ executedNodes st →
  dep ∈ dependencies job → sourceJobId dep ∉ executedNodes st →
  ∃ st', executeFromNode id st = (st', Waiting)
         ∧ tasks st' = tasks st ∧ dispatched st' = dispatched st
         ∧ sameStatuses st st'.
Proof.
  intros Hjob Hid Hdep Hmiss. unfold Engine.executeFromNode.
  set (st0 := onResult _ st).
  rewrite (bool_decide_eq_false_2 (id ∈ executedNodes st0)) by done.
  rewrite Hjob.
  destruct (pendingDependencies st0 job) as [|d ds] eqn:Hp.
  { destruct (pendingDependencies_nil st0 job dep Hp Hdep) as [Hin _]. by destruct Hmiss. }
  eexists. split; [reflexivity|].
  set (st1 := warnFailedDependencies job (logDependencies job st0)).
  assert (Hc : sameControl st (waitForDependencies job (d :: ds) st1)).
  { apply (sameControl_trans st st0); [apply sameControl_onResult|].
    eapply sameControl_trans; [apply sameControl_logDependencies|].
    eapply sameControl_trans; [apply sameControl_warnFailedDependencies|].
    apply sameControl_waitForDependencies. }
  destruct Hc as (_ & Ht & Hd). split; [done|]. split; [done|].
  apply (sameStatuses_trans st st0); [done|].
  eapply sameStatuses_trans; [apply sameStatuses_logDependencies|].
  eapply sameStatuses_trans; [apply sameStatuses_warnFailedDependencies|].
  apply sameStatuses_waitForDependencies.
Qed.

Lemma logged_executeJob_call id line job st :
  logged id line st → logged id line (executeJob_call rt world executor job st).
Proof.
  intros H. unfold executeJob_call.
  set (st1 := onResult _ (onJob (nodeId job) (setStatus Running) st)).
  assert (H1 : logged id line st1).
  { apply logged_onResult; [done|]. by apply logged_onJob. }
  destruct (runHandler _ _ _ _ _ _) as [run|].
  - destruct (logged_onJob id (nodeId job) line (handlerEffects run false) st1)
      as (r & Hr & Hl); [apply logs_handlerEffects | done | by exists r].
  - set (failed := λ r, setError _ (setStatus Failed r)).
    destruct (logged_onResult id line
                (log ("❌ REAL Failed " +:+ type job +:+ ": " +:+ label job +:+ " - "
                        +:+ errorText rt (newError ("Unknown job type: " +:+ type job))))
                (onJob (nodeId job) failed st1)) as (r & Hr & Hl);
      [done | by apply logged_onJob | by exists r].
Qed.

(** Dependencies that are executed, completed or failed, do not hold
    the job back; a failed one leaves a warning in the job's log. *)
Lemma executeFromNode_starts id job st :
  findJob (jobs workflowConfig) id = Some job → id ∉ executedNodes st →
  (∀ dep, dep ∈ dependencies job →
     sourceJobId dep ∈ executedNodes st
     ∧ (dependencyStatus st dep = Some Completed ∨ dependencyStatus st dep = Some Failed)) →
  ∃ st', executeFromNode id st = (st', Started)
         ∧ dispatched st' = dispatched st ++ [id]
         ∧ ∀ dep r, dep ∈ dependencies job → dependencyStatus st dep = Some Failed →
             mapGet id (jobResults (workflowResult st)) = Some r →
             ∃ failedList,
               logged id ("Warning: Continuing despite failed dependencies: " +:+ failedList) st'.
Proof.
  intros Hjob Hid Hdeps.
  destruct (executeFromNode id st) as [st' r] eqn:E. exists st'.
  pose proof (executeFromNode_control rt world executor workflowConfig _ _ _ _ E) as [_ Hr].
  revert E. unfold Engine.executeFromNode.
  set (st0 := onResult _ st).
  rewrite (bool_decide_eq_false_2 (id ∈ executedNodes st0)) by done.
  rewrite Hjob.
  assert (Hp : pendingDependencies st0 job = []).
  { apply filter_nil_intro. intros dep Hdep. destruct (Hdeps dep Hdep) as [Hex Hst].
    unfold isPendingDependency. rewrite (bool_decide_eq_true_2 _ Hex). simpl.
    change (dependencyStatus st0 dep) with (dependencyStatus st dep).
    by destruct Hst as [-> | ->]. }
  rewrite Hp. intros E. inversion E; subst st' r; clear E.
  split; [done|]. destruct Hr as (job' & t & Hjob' & _ & _ & _ & _ & Hd). split; [done|].
  intros dep r Hdep Hfail Hrec.
  pose proof (findJob_nodeId _ _ _ Hjob) as [Hn _].
  set (st1 := logDependencies job st0).
  assert (Hs1 : sameStatuses st st1).
  { apply (sameStatuses_trans st st0); [done|]. apply sameStatuses_logDependencies. }
  assert (Hf : dep ∈ failedDependencies st1 job).
  { unfold failedDependencies. apply list_elem_of_In, filter_In.
    split; [by apply list_elem_of_In|].
    rewrite (isFailedDependency_ext st st1) by done.
    unfold isFailedDependency. by rewrite Hfail. }
  unfold warnFailedDependencies.
  destruct (failedDependencies st1 job) as [|f fs] eqn:Ef; [inversion Hf|].
  eexists. apply logged_executeJob_call.
  assert (Hrec1 : ∃ r1, mapGet id (jobResults (workflowResult st1)) = Some r1).
  { pose proof (Hs1 id) as H. rewrite Hrec in H. simpl in H.
    destruct (mapGet id (jobResults (workflowResult st1))) as [r1|]; [eauto | discriminate]. }
  destruct Hrec1 as [r1 Hr1].
  eexists. simpl. rewrite Hn, mapGet_mapUpdate, Hr1. simpl. split; [reflexivity|].
  apply elem_of_app. right. left.
Qed.

End Gate.

(** C2. In every state that a run reaches, each job that has been
    dispatched has all its declared dependencies in the executed set; a
    visit that finds a dependency missing from the set returns without
    dispatching the job or touching any status; and dependencies that are
    in the set with status completed or failed let the job be dispatched,
    a failed one leaving a warning line in the job's log. *)
Theorem dependency_gate rt world executor workflowConfig :
  (∀ st0 st,
     begin rt world executor workflowConfig = inl st0 →
     reaches rt world executor workflowConfig st0 st →
     gated workflowConfig st)
  ∧ (∀ id job st dep,
       findJob (jobs workflowConfig) id = Some job → id ∉ executedNodes st →
       dep ∈ dependencies job → sourceJobId dep ∉ executedNodes st →
       ∃ st', executeFromNode rt world executor workflowConfig id st = (st', Waiting)
              ∧ tasks st' = tasks st ∧ dispatched st' = dispatched st
              ∧ sameStatuses st st')
  ∧ (∀ id job st,
       findJob (jobs workflowConfig) id = Some job → id ∉ executedNodes st →
       (∀ dep, dep ∈ dependencies job →
          sourceJobId dep ∈ executedNodes st
          ∧ (dependencyStatus st dep = Some Completed
             ∨ dependencyStatus st dep = Some Failed)) →
       ∃ st', executeFromNode rt world executor workflowConfig id st = (st', Started)
              ∧ dispatched st' = dispatched st ++ [id]
              ∧ ∀ dep r, dep ∈ dependencies job → dependencyStatus st dep = Some Failed →
                  mapGet id (jobResults (workflowResult st)) = Some r →
                  ∃ failedList,
                    logged id ("Warning: Continuing despite failed dependencies: "
                                 +:+ failedList) st').
Proof.
  split; [|split].
  - intros st0 st Hb Hr. eapply gated_reaches; [exact Hr | by eapply gated_begin].
  - apply executeFromNode_waits.
  - apply executeFromNode_starts.
Qed.
(** *** The Condition handler *)





Section ConditionFacts.
Context (rt : Runtime).




















End ConditionFacts.




(** *** Routing *)


(** *** The API call timeout *)

Lemma timerDelay_60000 rt : timerDelay rt (JNumber 60000%float) = 60000%float.
Proof. reflexivity. Qed.

(** C9 (as amended). Without a [timeout] attribute, and without an
    [apiTimeout] option given to the constructor, the request is given 60
    seconds: it is aborted, and the job fails with the message that names
    the timeout, when the transport needs longer; a successful response
    that arrives within the 60 seconds completes the job. *)
Theorem api_default_timeout rt world options job :
  attr job "timeout" = JUndefined →
  options ≫= opt_apiTimeout = None →
  truthy (attr job "url") = true →
  let executor := newExecutor options in
  let run := executeAPICallJob rt world executor job in
  requestTimeoutOf executor job = JNumber 60000%float
  ∧ (PrimFloat.ltb 60000%float (latency (apiFetch rt world job)) = true →
       thrown run
       = Some (newError ("API call timed out after "
                           +:+ numberToString rt 60000%float +:+ "ms"))
       ∧ written run = None)
  ∧ (PrimFloat.ltb 60000%float (latency (apiFetch rt world job)) = false →
       ∀ response, settle (apiFetch rt world job) = Responds response →
                   ok response = true →
                   thrown run = None ∧ ∃ v, written run = Some v).
Proof.
  intros Ht Ho Hu executor run.
  assert (Hrt : requestTimeoutOf executor job = JNumber 60000%float).
  { unfold requestTimeoutOf. rewrite Ht. simpl. unfold executor, newExecutor. simpl.
    by rewrite Ho. }
  split; [done|].
  subst run. unfold executeAPICallJob. rewrite Hu, Hrt, timerDelay_60000. simpl negb.
  cbv iota. split.
  - intros ->. done.
  - intros -> response -> Hok.
    match goal with
    | |- context [let '(_, _) := ?x in _] => destruct x as [parsing responseData]
    end.
    rewrite Hok. simpl. split; [done | by eexists].
Qed.

(** *** The SendEmail handler *)


(** *** [validateWorkflow] *)

Lemma flat_map_nil {A B} (f : A → list B) (l : list A) :
  flat_map f l = [] ↔ ∀ x, x ∈ l → f x = [].
Proof.
  induction l as [|a l IH]; simpl.
  - split; [intros _ x Hx; inversion Hx | done].
  - split.
    + intros [Ha Hl]%app_eq_nil x [->|Hx]%elem_of_cons; [done | by apply IH].
    + intros H. rewrite (H a) by left. simpl. apply IH. intros x Hx. apply H. by right.
Qed.

Lemma filter_nil_iff {A} (p : A → bool) (l : list A) :
  List.filter p l = [] ↔ ∀ x, x ∈ l → p x = false.
Proof.
  split; [intros H x; by apply filter_nil_false | apply filter_nil_intro].
Qed.

Lemma existsb_elem_of {A} (p : A → bool) (l : list A) :
  existsb p l = true ↔ ∃ x, x ∈ l ∧ p x = true.
Proof.
  rewrite existsb_exists. split; intros (x & Hx & Hp); exists x;
    (split; [by apply list_elem_of_In | done]).
Qed.

(** [validateWorkflow] answers [isValid = false] exactly when it has
    pushed an error, and it pushes one when no node is a Start node and
    one for every required input handle without an incoming edge. *)
Lemma validateWorkflow_errors nodes edges :
  let v := WorkflowUtils.validateWorkflow nodes edges in
  WorkflowUtils.errors v
  = (if existsb WorkflowUtils.isStartNode nodes then []
     else ["Workflow must have at least one Start node"])
    ++ WorkflowUtils.missingInputErrors nodes edges
  ∧ (WorkflowUtils.isValid v = true ↔ WorkflowUtils.errors v = [])
  ∧ (WorkflowUtils.isValid v = true
     ↔ (∃ node, node ∈ nodes ∧ WorkflowUtils.ntype node = "StartNode")
       ∧ ∀ node h, node ∈ nodes → h ∈ WorkflowUtils.handles node →
           WorkflowUtils.htype h = WorkflowUtils.Input →
           WorkflowUtils.required h = true →
           ∃ edge, edge ∈ edges
                   ∧ WorkflowUtils.eto edge = WorkflowUtils.id node
                   ∧ WorkflowUtils.einput edge = WorkflowUtils.hid h).
Proof.
  intros v.
  assert (Hstart : match List.filter WorkflowUtils.isStartNode nodes with
                   | [] => ["Workflow must have at least one Start node"]
                   | _ => []
                   end
                   = if existsb WorkflowUtils.isStartNode nodes then []
                     else ["Workflow must have at least one Start node"]).
  { induction nodes as [|n ns IH]; simpl; [done|].
    destruct (WorkflowUtils.isStartNode n); simpl; [done | exact IH]. }
  assert (He : WorkflowUtils.errors v
               = (if existsb WorkflowUtils.isStartNode nodes then []
                  else ["Workflow must have at least one Start node"])
                 ++ WorkflowUtils.missingInputErrors nodes edges).
  { unfold v, WorkflowUtils.validateWorkflow. cbn [WorkflowUtils.errors].
    by rewrite Hstart. }
  assert (Hv : WorkflowUtils.isValid v = true ↔ WorkflowUtils.errors v = []).
  { unfold v, WorkflowUtils.validateWorkflow.
    cbn [WorkflowUtils.isValid WorkflowUtils.errors].
    generalize (match List.filter WorkflowUtils.isStartNode nodes with
                | [] => ["Workflow must have at least one Start node"]
                | _ :: _ => []
                end ++ WorkflowUtils.missingInputErrors nodes edges).
    intros [|e es]; split; intros H; (done || discriminate H). }
  split; [done|]. split; [done|].
  rewrite Hv, He. split.
  - intros [Hs Hm]%app_eq_nil. split.
    + destruct (existsb WorkflowUtils.isStartNode nodes) eqn:E; [|discriminate].
      apply existsb_elem_of in E as (node & Hin & Hst). exists node. split; [done|].
      by apply String.eqb_eq.
    + intros node h Hnode Hh Hin Hreq.
      unfold WorkflowUtils.missingInputErrors in Hm.
      rewrite flat_map_nil in Hm. specialize (Hm node Hnode).
      rewrite flat_map_nil in Hm.
      assert (Hhf : h ∈ List.filter (λ h, WorkflowUtils.isInput h && WorkflowUtils.required h)
                          (WorkflowUtils.handles node)).
      { apply list_elem_of_In, filter_In. split; [by apply list_elem_of_In|].
        unfold WorkflowUtils.isInput. by rewrite Hin, Hreq. }
      specialize (Hm h Hhf). simpl in Hm.
      destruct (existsb _ edges) eqn:E; [|discriminate].
      apply existsb_elem_of in E as (edge & He' & Hp).
      apply andb_true_iff in Hp as [H1 H2].
      exists edge. split; [done|]. split; by apply String.eqb_eq.
  - intros [(node & Hnode & Hst) Hall]. apply app_nil. split.
    + assert (E : existsb WorkflowUtils.isStartNode nodes = true).
      { apply existsb_elem_of. exists node. split; [done|].
        unfold WorkflowUtils.isStartNode. by apply String.eqb_eq. }
      by rewrite E.
    + unfold WorkflowUtils.missingInputErrors. apply flat_map_nil. intros n Hn.
      apply flat_map_nil. intros h Hh.
      apply list_elem_of_In, filter_In in Hh as [Hh Hp].
      apply andb_true_iff in Hp as [Hi Hr].
      destruct (Hall n h Hn) as (edge & He' & Ht & Hin); [by apply list_elem_of_In | | done |].
      { unfold WorkflowUtils.isInput in Hi. by destruct (WorkflowUtils.htype h). }
      assert (E : existsb (λ edge, String.eqb (WorkflowUtils.eto edge) (WorkflowUtils.id n)
                                   && String.eqb (WorkflowUtils.einput edge)
                                        (WorkflowUtils.hid h)) edges = true).
      { apply existsb_elem_of. exists edge. split; [done|].
        apply andb_true_iff. split; by apply String.eqb_eq. }
      simpl. by rewrite E.
Qed.

(** The breadth-first search of [getReachableNodes] never runs out of
    the fuel it is given. *)
Lemma reachLoop_total edges : ∀ fuel queue (reachable : gset string),
  length queue
  + length (List.filter (λ e, negb (bool_decide (WorkflowUtils.efrom e ∈ reachable))) edges)
  ≤ fuel →
  is_Some (WorkflowUtils.reachLoop fuel edges queue reachable).
Proof.
  induction fuel as [|fuel IH]; intros queue reachable Hle.
  - destruct queue; [by eexists | simpl in Hle; lia].
  - destruct queue as [|currentId rest]; [by eexists|]. simpl.
    case_bool_decide as Hin; [apply IH; simpl in Hle; lia|].
    apply IH. rewrite length_app, length_map.
    set (outgoing := List.filter (λ e, String.eqb (WorkflowUtils.efrom e) currentId) edges).
    assert (Hsplit :
      length (List.filter (λ e, negb (bool_decide
                 (WorkflowUtils.efrom e ∈ {[currentId]} ∪ reachable))) edges)
      + length outgoing
      = length (List.filter (λ e, negb (bool_decide
                   (WorkflowUtils.efrom e ∈ reachable))) edges)).
    { subst outgoing. clear -Hin. induction edges as [|e es IHe]; simpl; [done|].
      destruct (String.eqb_spec (WorkflowUtils.efrom e) currentId) as [->|Hne].
      - rewrite (bool_decide_eq_true_2 (currentId ∈ {[currentId]} ∪ reachable))
          by set_solver.
        rewrite (bool_decide_eq_false_2 (currentId ∈ reachable)) by done.
        simpl. lia.
      - destruct (decide (WorkflowUtils.efrom e ∈ reachable)) as [Hr|Hr].
        + rewrite (bool_decide_eq_true_2 (_ ∈ {[currentId]} ∪ reachable)) by set_solver.
          rewrite (bool_decide_eq_true_2 _ Hr). simpl. lia.
        + rewrite (bool_decide_eq_false_2 (_ ∈ {[currentId]} ∪ reachable)) by set_solver.
          rewrite (bool_decide_eq_false_2 _ Hr). simpl. lia. }
    pose proof (List.filter_length_le
                  (λ e, negb (bool_decide (WorkflowUtils.eto e ∈ {[currentId]} ∪ reachable)))
                  outgoing).
    simpl in Hle. lia.
Qed.

Lemma getReachableNodes_total startNodes edges :
  is_Some (WorkflowUtils.reachLoop (length startNodes + length edges) edges
             (map WorkflowUtils.id startNodes) ∅).
Proof.
  apply reachLoop_total. rewrite length_map.
  apply Nat.add_le_mono_l, List.filter_length_le.
Qed.

Lemma parents_edge t (edges : list TreeValidator.FlowEdge) :
  0 < parents t edges → ∃ edge, edge ∈ edges ∧ TreeValidator.target edge = t.
Proof.
  unfold parents. intros Hpos.
  destruct (List.filter _ edges) as [|edge rest] eqn:Hf; [simpl in Hpos; lia|].
  assert (Hin : In edge (List.filter (λ edge, String.eqb (TreeValidator.target edge) t) edges))
    by (rewrite Hf; by left).
  apply filter_In in Hin as [Hin Ht]. exists edge.
  split; [by apply list_elem_of_In | by apply String.eqb_eq].
Qed.

(** C6 (as amended). [validateWorkflow] answers [isValid = false] exactly
    when it has pushed an error: one when no node is a Start node and one
    for every required input handle without an incoming edge; so it
    accepts a workflow as soon as some node is a Start node and all
    required inputs are connected.  [TreeValidator.validateTree] answers
    [isValid = false] exactly when it has pushed an error, which it does
    on a canvas that is not empty only: the cycle error exactly when the
    edges contain a directed cycle, and otherwise only errors that name
    a node with more than one incoming edge, one of which does not leave
    the true or false handle of a Condition node; it does report every
    node with more than one incoming edge none of which leaves such a
    handle.  The two errors are different strings.  Neither validator
    counts the Start nodes beyond the first. *)
Theorem validation_reports :
  (∀ nodes edges,
     let v := WorkflowUtils.validateWorkflow nodes edges in
     WorkflowUtils.errors v
     = (if existsb WorkflowUtils.isStartNode nodes then []
        else ["Workflow must have at least one Start node"])
       ++ WorkflowUtils.missingInputErrors nodes edges
     ∧ (WorkflowUtils.isValid v = true ↔ WorkflowUtils.errors v = [])
     ∧ (WorkflowUtils.isValid v = true
        ↔ (∃ node, node ∈ nodes ∧ WorkflowUtils.ntype node = "StartNode")
          ∧ ∀ node h, node ∈ nodes → h ∈ WorkflowUtils.handles node →
              WorkflowUtils.htype h = WorkflowUtils.Input →
              WorkflowUtils.required h = true →
              ∃ edge, edge ∈ edges
                      ∧ WorkflowUtils.eto edge = WorkflowUtils.id node
                      ∧ WorkflowUtils.einput edge = WorkflowUtils.hid h))
  ∧ (∀ nodes edges,
       let v := TreeValidator.validateTree nodes edges in
       (TreeValidator.treeValid v = true ↔ TreeValidator.treeErrors v = [])
       ∧ (nodes = [] → TreeValidator.treeErrors v = [])
       ∧ (nodes ≠ [] →
          (TreeValidator.cyclesError ∈ TreeValidator.treeErrors v
           ↔ WorkflowUtils.hasDirectedCycle (flows edges))
          ∧ (∀ e, e ∈ TreeValidator.treeErrors v →
               e = TreeValidator.cyclesError
               ∨ ∃ t, e = TreeValidator.multipleParentsError nodes t
                      ∧ 1 < parents t edges
                      ∧ ∃ edge, edge ∈ edges ∧ TreeValidator.target edge = t
                                ∧ TreeValidator.fromConditionBranch nodes edge = false)
          ∧ (∀ t, 1 < parents t edges →
               (∀ edge, edge ∈ edges → TreeValidator.target edge = t →
                        TreeValidator.fromConditionBranch nodes edge = false) →
               TreeValidator.multipleParentsError nodes t ∈ TreeValidator.treeErrors v)))
  ∧ (∀ nodes t, TreeValidator.multipleParentsError nodes t ≠ TreeValidator.cyclesError).
Proof.
  split; [intros nodes edges; apply validateWorkflow_errors|].
  split; [|apply TreeFacts.multipleParentsError_not_cyclesError].
  intros nodes edges v. split; [apply TreeFacts.validateTree_valid|].
  split; [by intros ->|]. intros Hne.
  pose proof (λ e, TreeFacts.validateTree_errors nodes edges e Hne) as Herr.
  fold v in Herr. split; [|split].
  - rewrite Herr. split.
    + intros [(t & Ht & _)|[_ Hc]]; [|done].
      symmetry in Ht. by apply TreeFacts.multipleParentsError_not_cyclesError in Ht.
    + intros Hc. by right.
  - intros e [(t & -> & Hgt & Hall)|[-> _]]%Herr; [right | by left].
    exists t. split; [done|]. split; [done|].
    destruct (parents_edge t edges ltac:(lia)) as (edge & Hin & Ht).
    exists edge. split; [done|]. split; [done|]. by apply Hall.
  - intros t Hgt Hall. apply Herr. left. by exists t.
Qed.

(** *** A job that is missing *)


(** C4 (as amended). When the start node names no job the run is
    rejected with the job-not-found error and status failed.  A call of
    [executeFromNode] for a next job that does not exist logs that error
    and rejects its own promise only, the traversal going on with the
    remaining next jobs; a run whose start job was found therefore
    resolves with status completed. *)
Theorem missing_job_confined rt world executor workflowConfig :
  (∀ schedule start,
     startNode (executionFlow workflowConfig) = Some start → start ≠ "" →
     findJob (jobs workflowConfig) start = None →
     ∃ w, executeWorkflow rt world executor workflowConfig schedule
          = Rejected (newError (notFoundMessage workflowConfig start)) w
          ∧ wstatus w = WFailed)
  ∧ (∀ id st,
       id ∉ executedNodes st → findJob (jobs workflowConfig) id = None →
       executeFromNode rt world executor workflowConfig id st
       = (onResult (log ("❌ " +:+ notFoundMessage workflowConfig id))
            (onResult (log ("🎯 Attempting to execute node: " +:+ id)) st),
          JobNotFound (notFoundMessage workflowConfig id)))
  ∧ (∀ id nextJobs st,
       startNext rt world executor workflowConfig (id :: nextJobs) st
       = startNext rt world executor workflowConfig nextJobs
           (fst (executeFromNode rt world executor workflowConfig id st)))
  ∧ (∀ schedule st0,
       begin rt world executor workflowConfig = inl st0 →
       ∃ w, executeWorkflow rt world executor workflowConfig schedule = Resolved w
            ∧ wstatus w = WCompleted).
Proof.
  assert (Hmiss : ∀ id st,
       id ∉ executedNodes st → findJob (jobs workflowConfig) id = None →
       executeFromNode rt world executor workflowConfig id st
       = (onResult (log ("❌ " +:+ notFoundMessage workflowConfig id))
            (onResult (log ("🎯 Attempting to execute node: " +:+ id)) st),
          JobNotFound (notFoundMessage workflowConfig id))).
  { intros id st Hid Hfind. unfold executeFromNode.
    rewrite (bool_decide_eq_false_2 (id ∈ executedNodes _)) by done.
    by rewrite Hfind. }
  split; [|split; [done|split; [done|]]].
  - intros schedule start Hs Hne Hfind. unfold executeWorkflow, begin. rewrite Hs.
    destruct start as [|c s]; [done|].
    rewrite Hmiss by (done || set_solver). by eexists.
  - intros schedule st0 Hb.
    destruct (executeWorkflow_resolves rt world executor workflowConfig schedule st0 Hb)
      as (st & _ & _ & ->).
    eexists. split; [done|]. apply finish_completed.
Qed.

(** C1, at the diamond whose middle jobs create tasks: resumed in the
    order of the microtask queue, the two branches both find the End job
    outside the executed set with its dependencies met, and its handler is
    called twice. *)
Theorem diamond_end_job_dispatched_twice :
  dispatchedJobs Demo.host Demo.offline (newExecutor None) Demo.diamond Demo.inOrder
  = ["A"; "B"; "C"; "D"; "D"].
Proof. vm_compute. reflexivity. Qed.

(** The run of the diamond still resolves, and the log of the End job
    holds the lines of both calls of its handler. *)
Example diamond_end_job_logs :
  match executeWorkflow Demo.host Demo.offline (newExecutor None) Demo.diamond Demo.inOrder with
  | Resolved w =>
      wstatus w = WCompleted
      ∧ (logs <$> mapGet "D" (jobResults w))
        = Some ["📋 Real workflow termination initiated";
                "✅ All upstream jobs completed successfully";
                "🏁 Real workflow terminated gracefully";
                "📋 Real workflow termination initiated";
                "✅ All upstream jobs completed successfully";
                "🏁 Real workflow terminated gracefully"]
  | _ => False
  end.
Proof. vm_compute. split; reflexivity. Qed.

(** Start → APICall (unreachable) → End: the run is completed, the API
    call has failed, the End job has completed. *)
Example unreachable_api_run :
  match executeWorkflow Demo.host Demo.offline (newExecutor None) Demo.unreachable Demo.inOrder with
  | Resolved w =>
      wstatus w = WCompleted
      ∧ (status <$> mapGet "api" (jobResults w)) = Some Failed
      ∧ (status <$> mapGet "e" (jobResults w)) = Some Completed
  | _ => False
  end.
Proof. vm_compute. repeat split; reflexivity. Qed.

(** Counterexample to C4 as stated: the traversal reaches the id [ghost],
    for which there is no job, and the run resolves with status
    completed. *)
Lemma dangling_connection_does_not_abort :
  findJob (jobs Demo.dangling) "ghost" = None
  ∧ ∃ w, executeWorkflow Demo.host Demo.offline (newExecutor None) Demo.dangling Demo.inOrder
         = Resolved w
         ∧ wstatus w = WCompleted
         ∧ "❌ Job with ID ghost not found. Available jobs: s" ∈ executionLogs w.
Proof.
  split; [reflexivity|]. eexists. split; [vm_compute; reflexivity|].
  split; [reflexivity|]. apply list_elem_of_In. simpl. tauto.
Qed.

(** Counterexample to C6 as stated: both validators accept two Start
    nodes, and [validateWorkflow] accepts a cycle through a node that has
    two parents, neither of them a Condition node. *)
Lemma validators_accept_two_starts_and_cycle :
  (length (List.filter WorkflowUtils.isStartNode Demo.twoStarts) = 2
   ∧ WorkflowUtils.validateWorkflow Demo.twoStarts []
     = {| WorkflowUtils.isValid := true; WorkflowUtils.errors := [];
          WorkflowUtils.warnings := [] |})
  ∧ (length (List.filter (λ n, String.eqb (TreeValidator.nodeType n) "StartNode")
               Demo.twoStartsOnCanvas) = 2
     ∧ TreeValidator.validateTree Demo.twoStartsOnCanvas []
       = {| TreeValidator.treeValid := true; TreeValidator.treeErrors := [] |})
  ∧ (WorkflowUtils.hasDirectedCycle
       (λ u v, ∃ edge, edge ∈ Demo.loopEdges
                       ∧ WorkflowUtils.efrom edge = u ∧ WorkflowUtils.eto edge = v)
     ∧ length (List.filter (λ edge, String.eqb (WorkflowUtils.eto edge) "a") Demo.loopEdges) = 2
     ∧ WorkflowUtils.isValid (WorkflowUtils.validateWorkflow Demo.loopNodes Demo.loopEdges) = true
     ∧ WorkflowUtils.errors (WorkflowUtils.validateWorkflow Demo.loopNodes Demo.loopEdges) = []).
Proof.
  split; [split; [reflexivity | vm_compute; reflexivity]|].
  split; [split; [reflexivity | vm_compute; reflexivity]|].
  split; [|split; [reflexivity | split; vm_compute; reflexivity]].
  exists "a". apply (tc_l _ "a" "b" "a"); [|apply tc_once].
  - exists (Demo.wire "e2" "a" "b"). split; [|done]. apply list_elem_of_In. simpl. tauto.
  - exists (Demo.wire "e3" "b" "a"). split; [|done]. apply list_elem_of_In. simpl. tauto.
Qed.

(** [validateTree] takes one edge from a Condition branch as an excuse
    for all the parents of a node: the node [t], entered from the true
    branch of a Condition node and from two other nodes, is accepted,
    where the comment on the test allows several parents only if they
    come from conditional nodes. *)
Example validateTree_excuses_mixed_parents :
  parents "t" Demo.mergeEdges = 3
  ∧ length (List.filter
              (λ edge, String.eqb (TreeValidator.target edge) "t"
                       && negb (TreeValidator.fromConditionBranch Demo.mergeNodes edge))
              Demo.mergeEdges) = 2
  ∧ TreeValidator.validateTree Demo.mergeNodes Demo.mergeEdges
    = {| TreeValidator.treeValid := true; TreeValidator.treeErrors := [] |}.
Proof. split; [reflexivity | split; vm_compute; reflexivity]. Qed.

(** Counterexample to C9 as stated: without a [timeout] attribute a
    request that takes 45 seconds is not aborted; the timer is set to 60
    seconds. *)
Lemma api_call_runs_past_30_seconds :
  attr Demo.apiJob "timeout" = JUndefined
  ∧ PrimFloat.ltb 30000%float
      (latency (apiFetch Demo.host (Demo.answersAfter 45000%float) Demo.apiJob)) = true
  ∧ requestTimeoutOf (newExecutor None) Demo.apiJob = JNumber 60000%float
  ∧ thrown (executeAPICallJob Demo.host (Demo.answersAfter 45000%float)
              (newExecutor None) Demo.apiJob) = None.
Proof. repeat split; vm_compute; reflexivity. Qed.

(** *** The theorems at concrete inputs *)

Import Demo.

Lemma not_elem_by_compute (x : string) (X : gset string) :
  bool_decide (x ∈ X) = false → x ∉ X.
Proof. apply bool_decide_eq_false. Qed.

Lemma elem_by_compute (x : string) (X : gset string) :
  bool_decide (x ∈ X) = true → x ∈ X.
Proof. apply bool_decide_eq_true. Qed.

Lemma dependency_gate_witness :
  gated unreachable unreachableStart
  ∧ (∃ st', executeFromNode host offline (newExecutor None) unreachable "e" unreachableStart
            = (st', Waiting)
            ∧ dispatched st' = dispatched unreachableStart)
  ∧ (∃ st' failedList,
       executeFromNode host offline (newExecutor None) unreachable "e" unreachableAfterFailure
       = (st', Started)
       ∧ logged "e" ("Warning: Continuing despite failed dependencies: " +:+ failedList) st').
Proof.
  destruct (dependency_gate host offline (newExecutor None) unreachable) as (H1 & H2 & H3).
  split; [|split].
  - apply (H1 unreachableStart); [vm_compute; reflexivity | constructor].
  - destruct (H2 "e" (job "End" "e" [] [] [after "api"]) unreachableStart (after "api"))
      as (st' & Hrun & _ & Hd & _).
    + vm_compute; reflexivity.
    + apply not_elem_by_compute. vm_compute. reflexivity.
    + apply list_elem_of_here.
    + apply not_elem_by_compute. vm_compute. reflexivity.
    + exists st'. split; [exact Hrun | exact Hd].
  - destruct (H3 "e" (job "End" "e" [] [] [after "api"]) unreachableAfterFailure)
      as (st' & Hrun & _ & Hwarn).
    + vm_compute; reflexivity.
    + apply not_elem_by_compute. vm_compute. reflexivity.
    + intros dep Hdep. apply list_elem_of_singleton in Hdep. subst dep. split.
      * apply elem_by_compute. vm_compute. reflexivity.
      * right. vm_compute. reflexivity.
    + destruct (Hwarn (after "api")
                  {| jobId := "e"; jobType := "End"; status := Pending; result := JUndefined;
                     error := None; logs := []; jobLabel := "e" |})
        as [failedList Hl].
      * apply list_elem_of_here.
      * vm_compute. reflexivity.
      * vm_compute. reflexivity.
      * exists st', failedList. split; [exact Hrun | exact Hl].
Defined.

Lemma missing_job_confined_witness :
  (∃ w, executeWorkflow host offline (newExecutor None) rootless inOrder
        = Rejected (newError "Job with ID nowhere not found. Available jobs: e") w
        ∧ wstatus w = WFailed)
  ∧ snd (executeFromNode host offline (newExecutor None) dangling "ghost"
           {| workflowResult := initialResult host; executedNodes := ∅;
              tasks := []; dispatched := [] |})
    = JobNotFound "Job with ID ghost not found. Available jobs: s"
  ∧ ∃ w, executeWorkflow host offline (newExecutor None) dangling inOrder = Resolved w
         ∧ wstatus w = WCompleted.
Proof.
  split; [|split].
  - destruct (missing_job_confined host offline (newExecutor None) rootless) as (H & _).
    apply (H inOrder "nowhere"); [reflexivity | discriminate | reflexivity].
  - destruct (missing_job_confined host offline (newExecutor None) dangling) as (_ & H & _).
    rewrite H; [reflexivity | | reflexivity].
    apply not_elem_by_compute. vm_compute. reflexivity.
  - destruct (missing_job_confined host offline (newExecutor None) dangling) as (_ & _ & _ & H).
    apply (H inOrder
             (match begin host offline (newExecutor None) dangling with
              | inl st => st
              | inr _ => unreachableStart
              end)).
    vm_compute. reflexivity.
Defined.



Lemma api_default_timeout_witness :
  thrown (executeAPICallJob host (answersAfter 70000%float) (newExecutor None) apiJob)
  = Some (newError "API call timed out after 60000ms")
  ∧ thrown (executeAPICallJob host (answersAfter 45000%float) (newExecutor None) apiJob)
    = None.
Proof.
  split.
  - destruct (api_default_timeout host (answersAfter 70000%float) None apiJob)
      as (_ & H & _); [reflexivity | reflexivity | reflexivity |].
    destruct H as [H _]; [reflexivity | exact H].
  - destruct (api_default_timeout host (answersAfter 45000%float) None apiJob)
      as (_ & _ & H); [reflexivity | reflexivity | reflexivity |].
    destruct (H eq_refl
                {| ok := true; statusCode := 200%float; statusText_ := "OK";
                   contentType := None; text := "done"; responseHeaders := JObject [] |}
                eq_refl eq_refl) as [Ht _].
    exact Ht.
Defined.


(** ** Part IX.  Connections *)

Module ConnectionFacts.
Import WorkflowUtils Notions CycleDetection.

Lemma find_some_iff {A} (p : A → bool) (l : list A) :
  is_Some (List.find p l) ↔ ∃ x, x ∈ l ∧ p x = true.
Proof.
  induction l as [|a l IH]; simpl.
  - split; [intros [? ?]; done | intros (x & Hx & _); inversion Hx].
  - destruct (p a) eqn:E.
    + split; [intros _; exists a; split; [by left | done] | by eexists].
    + rewrite IH. split; intros (x & Hx & Hp).
      * exists x. split; [by right | done].
      * apply elem_of_cons in Hx as [->|Hx]; [congruence | eauto].
Qed.

Lemma find_none_iff {A} (p : A → bool) (l : list A) :
  List.find p l = None ↔ ∀ x, x ∈ l → p x = false.
Proof.
  rewrite eq_None_not_Some, find_some_iff. split.
  - intros H x Hx. destruct (p x) eqn:E; [|done]. destruct H. eauto.
  - intros H (x & Hx & Hp). rewrite (H x Hx) in Hp. done.
Qed.

Lemma outputHandle_iff node h :
  is_Some (List.find (λ handle, String.eqb (hid handle) h && isOutput handle) (handles node))
  ↔ hasHandle node Output h.
Proof.
  rewrite find_some_iff. unfold hasHandle, isOutput. split.
  - intros (x & Hx & [He Ho]%andb_true_iff). exists x. split; [done|].
    split; [by apply String.eqb_eq | by destruct (htype x)].
  - intros (x & Hx & He & Ho). exists x. split; [done|].
    rewrite Ho. apply andb_true_iff. split; [by apply String.eqb_eq | done].
Qed.

Lemma inputHandle_iff node h :
  is_Some (List.find (λ handle, String.eqb (hid handle) h && isInput handle) (handles node))
  ↔ hasHandle node Input h.
Proof.
  rewrite find_some_iff. unfold hasHandle, isInput. split.
  - intros (x & Hx & [He Ho]%andb_true_iff). exists x. split; [done|].
    split; [by apply String.eqb_eq | by destruct (htype x)].
  - intros (x & Hx & He & Ho). exists x. split; [done|].
    rewrite Ho. apply andb_true_iff. split; [by apply String.eqb_eq | done].
Qed.

Lemma wouldCreateCycle_false fromNodeId toNodeId existingEdges :
  wouldCreateCycle fromNodeId toNodeId existingEdges = false
  ↔ ¬ hasDirectedCycle (augmented fromNodeId toNodeId existingEdges).
Proof.
  rewrite <- (hasDirectedCycle_iff _ _ (adj_buildGraph fromNodeId toNodeId existingEdges)).
  unfold wouldCreateCycle.
  destruct (checkAll_total (buildGraph fromNodeId toNodeId existingEdges)) as [[[] s] E];
    rewrite E.
  - split; [done | intros H; destruct H; by eapply checkAll_true].
  - split; [intros _; by eapply checkAll_false | done].
Qed.

Lemma augmented_wired fromNodeId toNodeId existingEdges generated o i x y :
  augmented fromNodeId toNodeId existingEdges x y
  ↔ wired (existingEdges ++ [createEdge generated fromNodeId o toNodeId i]) x y.
Proof.
  unfold augmented, wired. split.
  - intros [(edge & Hin & Hf & Ht)|[-> ->]].
    + exists edge. split; [apply elem_of_app; by left | done].
    + eexists. split; [apply elem_of_app; right; apply list_elem_of_singleton; reflexivity|].
      done.
  - intros (edge & [Hin| ->%list_elem_of_singleton]%elem_of_app & Hf & Ht).
    + left. eauto.
    + right. simpl in *. by subst.
Qed.

Lemma validateConnection_spec sourceNode sourceHandle targetNode targetHandle
    existingEdges :
  let v := validateConnection sourceNode sourceHandle targetNode targetHandle existingEdges in
  (canConnect v = true
   ↔ hasHandle sourceNode Output sourceHandle
     ∧ hasHandle targetNode Input targetHandle
     ∧ id sourceNode ≠ id targetNode
     ∧ (∀ edge, edge ∈ existingEdges → arrival edge ≠ (id targetNode, targetHandle))
     ∧ ¬ hasDirectedCycle (augmented (id sourceNode) (id targetNode) existingEdges))
  ∧ (canConnect v = true ↔ reason v = None).
Proof.
  intros v. subst v. unfold validateConnection.
  pose proof (outputHandle_iff sourceNode sourceHandle) as Hs.
  pose proof (inputHandle_iff targetNode targetHandle) as Ht.
  destruct (List.find _ (handles sourceNode)) as [hs|].
  2:{ split; [|done]. split; [done|]. intros [H _]. apply Hs in H. by destruct H. }
  destruct (List.find _ (handles targetNode)) as [ht|].
  2:{ split; [|done]. split; [done|]. intros (_ & H & _). apply Ht in H. by destruct H. }
  destruct (String.eqb_spec (id sourceNode) (id targetNode)) as [Heq|Hne].
  { split; [|done]. split; [done|]. by intros (_ & _ & H & _). }
  destruct (List.find _ existingEdges) as [e|] eqn:Hfind.
  { split; [|done]. split; [done|]. intros (_ & _ & _ & H & _).
    apply find_some in Hfind as [Hin [H1 H2]%andb_true_iff].
    exfalso. apply (H e); [by apply list_elem_of_In|].
    unfold arrival. apply String.eqb_eq in H1, H2. by rewrite H1, H2. }
  pose proof (wouldCreateCycle_false (id sourceNode) (id targetNode) existingEdges) as Hc.
  destruct (wouldCreateCycle _ _ _).
  { split; [|done]. split; [done|]. intros (_ & _ & _ & _ & H). by apply Hc in H. }
  split; [|done]. split; [|done]. intros _.
  split; [apply Hs; by eexists|]. split; [apply Ht; by eexists|]. split; [done|].
  split; [|by apply Hc].
  intros edge Hin Harr. rewrite find_none_iff in Hfind. specialize (Hfind edge Hin).
  unfold arrival in Harr. inversion Harr as [[H1 H2]].
  rewrite H1, H2, !String.eqb_refl in Hfind. done.
Qed.

(** X1. [validateConnection] accepts a connection exactly when the source
    node has the output handle, the target node has the input handle,
    the two nodes differ, no edge arrives at that input handle yet and
    the new edge closes no directed cycle; it gives a reason exactly
    when it refuses. *)
Theorem validateConnection_accepts sourceNode sourceHandle targetNode targetHandle
    existingEdges :
  let v := validateConnection sourceNode sourceHandle targetNode targetHandle existingEdges in
  (canConnect v = true
   ↔ hasHandle sourceNode Output sourceHandle
     ∧ hasHandle targetNode Input targetHandle
     ∧ id sourceNode ≠ id targetNode
     ∧ (∀ edge, edge ∈ existingEdges → arrival edge ≠ (id targetNode, targetHandle))
     ∧ ¬ hasDirectedCycle (augmented (id sourceNode) (id targetNode) existingEdges))
  ∧ (canConnect v = true ↔ reason v = None).
Proof. apply validateConnection_spec. Qed.


(** X2. An accepted connection keeps the graph acyclic and every input
    handle singly connected. *)
Theorem accepted_connection_keeps_dag sourceNode sourceHandle targetNode targetHandle
    existingEdges generated :
  canConnect (validateConnection sourceNode sourceHandle targetNode targetHandle
                existingEdges) = true →
  NoDup (map arrival existingEdges) →
  let edges := existingEdges
               ++ [createEdge generated (id sourceNode) sourceHandle
                     (id targetNode) targetHandle] in
  ¬ hasDirectedCycle (wired edges) ∧ NoDup (map arrival edges).
Proof.
  intros Hok Hnd edges.
  apply validateConnection_spec in Hok as (_ & _ & _ & Hfree & Hacyclic).
  split.
  - intros Hc. apply Hacyclic.
    eapply hasDirectedCycle_iff; [|exact Hc].
    intros x y. apply augmented_wired.
  - subst edges. rewrite map_app. apply NoDup_app. split; [done|]. split.
    + intros a Ha Hin. apply list_elem_of_singleton in Hin. subst a.
      apply list_elem_of_fmap in Ha as (edge & Harr & Hedge).
      by apply (Hfree edge Hedge).
    + simpl. apply NoDup_singleton.
Qed.

Lemma elem_of_flat_map {A B} (f : A → list B) (l : list A) (y : B) :
  y ∈ flat_map f l ↔ ∃ x, x ∈ l ∧ y ∈ f x.
Proof.
  rewrite list_elem_of_In, in_flat_map. split; intros (x & Hx & Hy); exists x;
    (split; [by apply list_elem_of_In | by apply list_elem_of_In]).
Qed.

Lemma elem_of_filter_list {A} (p : A → bool) (l : list A) (x : A) :
  x ∈ List.filter p l ↔ x ∈ l ∧ p x = true.
Proof. rewrite !list_elem_of_In. apply filter_In. Qed.

(** X3. [findCompatibleConnections] returns the handle pairs that
    [validateConnection] accepts, and no other. *)
Theorem findCompatibleConnections_accepted sourceNode targetNode edges pair :
  pair ∈ findCompatibleConnections sourceNode targetNode edges
  ↔ canConnect (validateConnection sourceNode (sourceHandle pair)
                  targetNode (targetHandle pair) edges) = true.
Proof.
  unfold findCompatibleConnections. rewrite elem_of_flat_map. split.
  - intros (hs & Hhs & Hin). apply elem_of_flat_map in Hin as (ht & Hht & Hin).
    destruct (canConnect _) eqn:E; [|inversion Hin].
    apply list_elem_of_singleton in Hin. by subst pair.
  - intros Hok. pose proof Hok as Hok'.
    apply validateConnection_spec in Hok' as ((hs & Hhs & Hsid & Hsty) & (ht & Hht & Htid & Htty) & _).
    exists hs. split.
    { apply elem_of_filter_list. split; [done|]. unfold isOutput. by rewrite Hsty. }
    apply elem_of_flat_map. exists ht. split.
    { apply elem_of_filter_list. split; [done|]. unfold isInput. by rewrite Htty. }
    rewrite Hsid, Htid, Hok. destruct pair. apply list_elem_of_singleton. done.
Qed.

Lemma length_flat_map_if {A B} (p : A → bool) (c : A → B) (l : list A) :
  length (flat_map (λ x, if p x then [] else [c x]) l)
  = length (List.filter (λ x, negb (p x)) l).
Proof.
  induction l as [|a l IH]; simpl; [done|].
  destruct (p a); simpl; by rewrite IH.
Qed.

(** X4. The nodes highlighted by [findNodesNeedingConnections] are those
    for which [validateWorkflow] reports a missing input. *)
Theorem findNodesNeedingConnections_errors nodes edges :
  length (missingInputErrors nodes edges)
  = sum_list_with (λ entry, length (missingHandles entry))
      (findNodesNeedingConnections nodes edges)
  ∧ (∀ entry, entry ∈ findNodesNeedingConnections nodes edges →
              missingHandles entry ≠ [])
  ∧ (isValid (validateWorkflow nodes edges) = true
     ↔ (∃ node, node ∈ nodes ∧ ntype node = "StartNode")
       ∧ findNodesNeedingConnections nodes edges = []).
Proof.
  assert (Hlen : length (missingInputErrors nodes edges)
                 = sum_list_with (λ entry, length (missingHandles entry))
                     (findNodesNeedingConnections nodes edges)).
  { unfold missingInputErrors, findNodesNeedingConnections.
    induction nodes as [|n ns IH]; simpl; [done|].
    rewrite length_app, sum_list_with_app, IH. f_equal.
    rewrite length_flat_map_if.
    destruct (List.filter _ (List.filter _ (handles n))); simpl; [done|].
    rewrite length_map. lia. }
  assert (Hne : ∀ entry, entry ∈ findNodesNeedingConnections nodes edges →
                         missingHandles entry ≠ []).
  { intros entry Hin. unfold findNodesNeedingConnections in Hin.
    apply elem_of_flat_map in Hin as (n & _ & Hin).
    destruct (map hid _) eqn:E; [inversion Hin|].
    apply list_elem_of_singleton in Hin. subst entry. simpl. done. }
  split; [done|]. split; [done|].
  destruct (validateWorkflow_errors nodes edges) as (He & Hv & _).
  rewrite Hv, He. split.
  - intros [Hs Hm]%app_eq_nil. split.
    + destruct (existsb isStartNode nodes) eqn:E; [|discriminate].
      apply existsb_elem_of in E as (node & Hin & Hst). exists node. split; [done|].
      by apply String.eqb_eq.
    + rewrite Hm in Hlen. simpl in Hlen.
      destruct (findNodesNeedingConnections nodes edges) as [|entry rest] eqn:E; [done|].
      exfalso. apply (Hne entry); [by left|].
      simpl in Hlen. destruct (missingHandles entry); [done | simpl in Hlen; lia].
  - intros [(node & Hnode & Hst) Hnone]. rewrite Hnone in Hlen. simpl in Hlen.
    apply app_nil. split.
    + assert (E : existsb isStartNode nodes = true).
      { apply existsb_elem_of. exists node. split; [done|].
        unfold isStartNode. by apply String.eqb_eq. }
      by rewrite E.
    + by apply nil_length_inv.
Qed.

End ConnectionFacts.

(** ** Part X.  Reachability and warnings *)

Module ReachFacts.
Import WorkflowUtils Notions.

(** The breadth-first search ends with the set of the ids that can be
    reached from the ids it started with. *)
Lemma reachLoop_reaches edges (Reach : string → Prop) :
  (∀ x y, Reach x → wired edges x y → Reach y) →
  ∀ fuel queue (reachable result : gset string),
    reachLoop fuel edges queue reachable = Some result →
    (∀ x, x ∈ reachable → Reach x) →
    (∀ x, x ∈ queue → Reach x) →
    (∀ x, x ∈ result → Reach x)
    ∧ ((∀ x y, x ∈ reachable → wired edges x y → y ∈ reachable ∨ y ∈ queue) →
       (∀ x, x ∈ reachable ∨ x ∈ queue → x ∈ result)
       ∧ (∀ x y, x ∈ result → wired edges x y → y ∈ result)).
Proof.
  intros Hstep. induction fuel as [|fuel IH]; intros queue reachable result Hrun HR HQ.
  - destruct queue as [|c rest]; [|done]. simpl in Hrun. inversion Hrun; subst.
    split; [done|]. intros Hcl. split.
    + intros x [?|Hx]; [done | inversion Hx].
    + intros x y Hx Hxy. destruct (Hcl x y Hx Hxy) as [?|Hy]; [done | inversion Hy].
  - destruct queue as [|c rest].
    { simpl in Hrun. inversion Hrun; subst. split; [done|]. intros Hcl. split.
      - intros x [?|Hx]; [done | inversion Hx].
      - intros x y Hx Hxy. destruct (Hcl x y Hx Hxy) as [?|Hy]; [done | inversion Hy]. }
    simpl in Hrun. case_bool_decide as Hc.
    + destruct (IH rest reachable result Hrun HR) as [Hs Hcomp].
      { intros x Hx. apply HQ. by right. }
      split; [done|]. intros Hcl.
      destruct Hcomp as [Hin Hclosed].
      { intros x y Hx Hxy. destruct (Hcl x y Hx Hxy) as [?|Hy]; [by left|].
        apply elem_of_cons in Hy as [->|Hy]; [by left | by right]. }
      split; [|done]. intros x [Hx|Hx]; [apply Hin; by left|].
      apply elem_of_cons in Hx as [->|Hx]; apply Hin; [by left | by right].
    + set (reachable' := {[c]} ∪ reachable) in *.
      set (pushed := map eto
                       (List.filter (λ edge, negb (bool_decide (eto edge ∈ reachable')))
                          (List.filter (λ edge, String.eqb (efrom edge) c) edges))) in *.
      assert (Hpushed : ∀ y, y ∈ pushed ↔ (y ∉ reachable') ∧ wired edges c y).
      { intros y. subst pushed. rewrite list_elem_of_fmap. split.
        - intros (e & -> & He). apply list_elem_of_In, filter_In in He as [He Hn].
          apply filter_In in He as [He Hf]. apply negb_true_iff, bool_decide_eq_false in Hn.
          split; [done|]. exists e. split; [by apply list_elem_of_In|].
          split; [by apply String.eqb_eq | done].
        - intros [Hn (e & He & Hf & Ht)]. exists e. split; [done|].
          apply list_elem_of_In, filter_In. split.
          + apply filter_In. split; [by apply list_elem_of_In | by apply String.eqb_eq].
          + apply negb_true_iff, bool_decide_eq_false. by rewrite Ht. }
      destruct (IH (rest ++ pushed) reachable' result Hrun) as [Hs Hcomp].
      { intros x [->%elem_of_singleton|Hx]%elem_of_union; [apply HQ; by left | by apply HR]. }
      { intros x [Hx|Hx]%elem_of_app; [apply HQ; by right|].
        apply Hpushed in Hx as [_ Hx]. eapply Hstep; [|exact Hx]. apply HQ. by left. }
      split; [done|]. intros Hcl.
      destruct Hcomp as [Hin Hclosed].
      { intros x y [->%elem_of_singleton|Hx]%elem_of_union Hxy.
        - destruct (decide (y ∈ reachable')) as [?|Hn]; [by left|].
          right. apply elem_of_app. right. by apply Hpushed.
        - destruct (Hcl x y Hx Hxy) as [?|Hy]; [left; set_solver|].
          apply elem_of_cons in Hy as [->|Hy]; [left; set_solver|].
          right. apply elem_of_app. by left. }
      split; [|done]. intros x [Hx|Hx].
      * apply Hin. left. set_solver.
      * apply elem_of_cons in Hx as [->|Hx]; apply Hin; [left; set_solver|].
        right. apply elem_of_app. by left.
Qed.

Lemma getReachableNodes_spec startNodes edges x :
  x ∈ getReachableNodes startNodes edges ↔ reachableFrom startNodes edges x.
Proof.
  unfold getReachableNodes.
  destruct (getReachableNodes_total startNodes edges) as [result Hrun]. rewrite Hrun.
  simpl.
  destruct (reachLoop_reaches edges (reachableFrom startNodes edges)) with
    (fuel := length startNodes + length edges) (queue := map id startNodes)
    (reachable := (∅ : gset string)) (result := result) as [Hs Hcomp].
  - intros a b (s & Hs & Hsa) Hab. exists s. split; [done|]. by eapply rtc_r.
  - done.
  - set_solver.
  - intros a (s & -> & Hs)%list_elem_of_fmap. exists s. split; [done | apply rtc_refl].
  - destruct Hcomp as [Hin Hclosed]; [set_solver|].
    split; [apply Hs|].
    intros (s & Hstart & Hreach).
    assert (Hid : id s ∈ result).
    { apply Hin. right. apply list_elem_of_fmap. by exists s. }
    clear Hstart. induction Hreach as [|a b c Hab Hbc IHr]; [done|].
    apply IHr. by eapply Hclosed.
Qed.

(** X5. [getReachableNodes] returns the ids that can be reached from a
    start node along the edges, and no other. *)
Theorem getReachableNodes_reachable startNodes edges x :
  x ∈ getReachableNodes startNodes edges ↔ reachableFrom startNodes edges x.
Proof. apply getReachableNodes_spec. Qed.

Lemma warning_nil {A} (l : list A) (msg : string) :
  match l with [] => [] | _ :: _ => [msg] end = [] ↔ l = [].
Proof. by destruct l. Qed.

Lemma nested_warning_nil {A B} (l : list A) (u : list B) (msg : string) :
  match l with
  | [] => []
  | _ :: _ => match u with [] => [] | _ :: _ => [msg] end
  end = [] ↔ l = [] ∨ u = [].
Proof. destruct l, u; simpl; split; try done; try (intros [?|?]; done); intros _; (by left) || (by right). Qed.

(** X6. [validateWorkflow] has no warning exactly when every node other
    than a Start node touches an edge, every such node can be reached
    from a Start node if there is one, and every output handle has an
    edge. *)
Theorem validateWorkflow_no_warnings nodes edges :
  warnings (validateWorkflow nodes edges) = []
  ↔ (∀ node, node ∈ nodes → ntype node ≠ "StartNode" →
       ∃ edge, edge ∈ edges ∧ (efrom edge = id node ∨ eto edge = id node))
    ∧ ((∃ start, start ∈ nodes ∧ ntype start = "StartNode") →
       ∀ node, node ∈ nodes → ntype node ≠ "StartNode" →
         reachableFrom (List.filter isStartNode nodes) edges (id node))
    ∧ (∀ node h, node ∈ nodes → hasHandle node Output h →
         ∃ edge, edge ∈ edges ∧ efrom edge = id node ∧ eoutput edge = h).
Proof.
  unfold validateWorkflow. cbn [warnings].
  rewrite !app_nil, !warning_nil.
  assert (Hstart : ∀ node, isStartNode node = false ↔ ntype node ≠ "StartNode").
  { intros node. unfold isStartNode. by destruct (String.eqb_spec (ntype node) "StartNode"). }
  assert (Hconn : ∀ x, x ∈ (list_to_set (flat_map (λ edge, [efrom edge; eto edge]) edges)
                             : gset string)
                       ↔ ∃ edge, edge ∈ edges ∧ (efrom edge = x ∨ eto edge = x)).
  { intros x. rewrite elem_of_list_to_set, ConnectionFacts.elem_of_flat_map. split.
    - intros (e & He & Hx). exists e. split; [done|].
      apply elem_of_cons in Hx as [->|Hx]; [by left|].
      apply list_elem_of_singleton in Hx. by right.
    - intros (e & He & [<-|<-]); exists e; (split; [done|]); [by left | right; by left]. }
  assert (H1 : List.filter (λ node, negb (isStartNode node)
                 && negb (bool_decide (id node ∈ (list_to_set
                      (flat_map (λ edge, [efrom edge; eto edge]) edges) : gset string)))) nodes = []
               ↔ ∀ node, node ∈ nodes → ntype node ≠ "StartNode" →
                   ∃ edge, edge ∈ edges ∧ (efrom edge = id node ∨ eto edge = id node)).
  { rewrite filter_nil_iff. split.
    - intros H node Hnode Hty. specialize (H node Hnode).
      apply Hstart in Hty. rewrite Hty in H. simpl in H.
      apply negb_false_iff, bool_decide_eq_true in H. by apply Hconn.
    - intros H node Hnode. destruct (isStartNode node) eqn:E; [done|]. simpl.
      apply negb_false_iff, bool_decide_eq_true, Hconn, H; [done|]. by apply Hstart. }
  assert (H2 : (List.filter isStartNode nodes = []
                ∨ List.filter (λ node, negb (isStartNode node)
                      && negb (bool_decide (id node ∈ getReachableNodes
                                 (List.filter isStartNode nodes) edges))) nodes = [])
               ↔ ((∃ start, start ∈ nodes ∧ ntype start = "StartNode") →
                  ∀ node, node ∈ nodes → ntype node ≠ "StartNode" →
                    reachableFrom (List.filter isStartNode nodes) edges (id node))).
  { rewrite !filter_nil_iff. split.
    - intros [Hno|H] (start & Hin & Hst) node Hnode Hty.
      + specialize (Hno start Hin). by apply Hstart in Hno.
      + specialize (H node Hnode). apply Hstart in Hty. rewrite Hty in H. simpl in H.
        apply negb_false_iff, bool_decide_eq_true in H.
        by apply getReachableNodes_spec.
    - intros H. destruct (existsb isStartNode nodes) eqn:E.
      + right. intros node Hnode. destruct (isStartNode node) eqn:En; [done|]. simpl.
        apply negb_false_iff, bool_decide_eq_true, getReachableNodes_spec.
        apply existsb_elem_of in E as (start & Hin & Hst).
        apply H; [|done|by apply Hstart].
        exists start. split; [done|]. by apply String.eqb_eq.
      + left. intros node Hnode. apply not_true_iff_false. intros En.
        apply not_true_iff_false in E. apply E. apply existsb_elem_of. eauto. }
  assert (H3 : List.filter
                 (λ node, existsb
                    (λ output, negb (existsb (λ edge, String.eqb (efrom edge) (id node)
                                               && String.eqb (eoutput edge) (hid output)) edges))
                    (List.filter isOutput (handles node))) nodes = []
               ↔ ∀ node h, node ∈ nodes → hasHandle node Output h →
                   ∃ edge, edge ∈ edges ∧ efrom edge = id node ∧ eoutput edge = h).
  { rewrite filter_nil_iff. split.
    - intros H node h Hnode (handle & Hh & Hid & Hty). specialize (H node Hnode).
      destruct (existsb (λ edge, String.eqb (efrom edge) (id node)
                                 && String.eqb (eoutput edge) h) edges) eqn:E.
      + apply existsb_elem_of in E as (edge & He & [Hf Ho]%andb_true_iff).
        exists edge. split; [done|]. split; by apply String.eqb_eq.
      + exfalso. apply not_true_iff_false in H. apply H.
        apply existsb_elem_of. exists handle. split.
        * apply ConnectionFacts.elem_of_filter_list. split; [done|].
          unfold isOutput. by rewrite Hty.
        * rewrite Hid, E. done.
    - intros H node Hnode. apply not_true_iff_false. intros E.
      apply existsb_elem_of in E as (handle & Hh & Hn).
      apply ConnectionFacts.elem_of_filter_list in Hh as [Hh Ho].
      destruct (H node (hid handle) Hnode) as (edge & He & Hf & Hout).
      { exists handle. split; [done|]. split; [done|].
        unfold isOutput in Ho. by destruct (htype handle). }
      apply negb_true_iff, not_true_iff_false in Hn. apply Hn.
      apply existsb_elem_of. exists edge. split; [done|].
      apply andb_true_iff. split; by apply String.eqb_eq. }
  rewrite nested_warning_nil, H1, H2, H3. reflexivity.
Qed.

End ReachFacts.

(** ** Part XI.  The topological order *)

Module OrderFacts.
Import WorkflowUtils Notions CycleDetection.

Lemma degree_setDegree k n m x :
  degree (setDegree k n m) x = if String.eqb k x then Some n else degree m x.
Proof.
  induction m as [|[k' n'] m IH]; simpl.
  - by destruct (String.eqb k x).
  - destruct (String.eqb_spec k' k) as [->|Hne]; simpl.
    + by destruct (String.eqb k x).
    + rewrite IH. destruct (String.eqb_spec k' x) as [->|]; [|done].
      by destruct (String.eqb_spec k x) as [->|].
Qed.

Lemma degree_Some_keys m x : is_Some (degree m x) ↔ x ∈ map fst m.
Proof.
  induction m as [|[k n] m IH]; simpl.
  - split; [intros [? ?]; done | inversion 1].
  - destruct (String.eqb_spec k x) as [->|Hne].
    + split; [intros _; by left | by eexists].
    + rewrite IH. split; [by right | intros [?|?]%elem_of_cons; [congruence | done]].
Qed.

Lemma keys_setDegree_in k n m :
  k ∈ map fst m → map fst (setDegree k n m) = map fst m.
Proof.
  induction m as [|[k' n'] m IH]; simpl; [inversion 1|].
  destruct (String.eqb_spec k' k) as [->|Hne]; simpl; [done|].
  intros [?|H]%elem_of_cons; [congruence|]. by rewrite IH.
Qed.

Lemma keys_setDegree_new k n m :
  k ∉ map fst m → map fst (setDegree k n m) = map fst m ++ [k].
Proof.
  induction m as [|[k' n'] m IH]; simpl; [done|].
  destruct (String.eqb_spec k' k) as [->|Hne]; simpl.
  - intros H. destruct H. by left.
  - intros H. rewrite IH; [done|]. intros ?. apply H. by right.
Qed.

Lemma NoDup_keys_setDegree k n m :
  NoDup (map fst m) → NoDup (map fst (setDegree k n m)).
Proof.
  intros H. destruct (decide (k ∈ map fst m)) as [Hk|Hk].
  - by rewrite keys_setDegree_in.
  - rewrite keys_setDegree_new by done.
    apply NoDup_app. split; [done|]. split; [|apply NoDup_singleton].
    intros x Hx ->%list_elem_of_singleton. done.
Qed.

Lemma neighbors_clearNeighbors g k x :
  neighbors (clearNeighbors g k) x = if String.eqb k x then [] else neighbors g x.
Proof.
  induction g as [|[k' ns] g IH]; simpl.
  - by destruct (String.eqb k x).
  - destruct (String.eqb_spec k' k) as [->|Hne]; simpl.
    + by destruct (String.eqb k x).
    + rewrite IH. destruct (String.eqb_spec k' x) as [->|]; [|done].
      by destruct (String.eqb_spec k x) as [->|].
Qed.

Lemma keys_clearNeighbors g k x :
  x ∈ keys (clearNeighbors g k) ↔ x = k ∨ x ∈ keys g.
Proof.
  unfold keys. induction g as [|[k' ns] g IH]; simpl.
  - rewrite list_elem_of_singleton. split; [by left | intros [?|H]; [done|inversion H]].
  - destruct (String.eqb_spec k' k) as [->|Hne]; simpl.
    + rewrite !elem_of_cons. naive_solver.
    + rewrite !elem_of_cons, IH. naive_solver.
Qed.

Lemma pushNeighbor_Some g u v :
  is_Some (pushNeighbor g u v) ↔ u ∈ keys g.
Proof.
  unfold keys. induction g as [|[k ns] g IH]; simpl.
  - split; [intros [? ?]; done | inversion 1].
  - destruct (String.eqb_spec k u) as [->|Hne].
    + split; [intros _; by left | by eexists].
    + destruct (pushNeighbor g u v) eqn:E.
      * split; [intros _; right; apply IH; by eexists | by eexists].
      * split; [intros [? ?]; done|].
        intros [?|H]%elem_of_cons; [congruence|]. apply IH in H as [? ?]. done.
Qed.

Lemma pushNeighbor_spec g u v g' :
  pushNeighbor g u v = Some g' →
  keys g' = keys g
  ∧ ∀ x, neighbors g' x
         = if String.eqb u x then neighbors g x ++ [v] else neighbors g x.
Proof.
  unfold keys. revert g'. induction g as [|[k ns] g IH]; intros g'; simpl; [done|].
  destruct (String.eqb_spec k u) as [->|Hne].
  - intros H. inversion H; subst. simpl. split; [done|]. intros x.
    by destruct (String.eqb_spec u x).
  - destruct (pushNeighbor g u v) as [g''|] eqn:E; [|done].
    intros H. inversion H; subst. destruct (IH g'' eq_refl) as [Hk Hn].
    simpl. split; [by rewrite Hk|]. intros x. rewrite Hn.
    destruct (String.eqb_spec k x) as [->|]; [|done].
    by destruct (String.eqb_spec u x) as [->|].
Qed.

(** The maps after [nodes.forEach]. *)
Lemma initialMaps_spec nodes :
  let maps := initialMaps nodes in
  NoDup (map fst (fst maps))
  ∧ (∀ x, degree (fst maps) x = if bool_decide (x ∈ map id nodes) then Some 0%Z else None)
  ∧ (∀ x, neighbors (snd maps) x = [])
  ∧ (∀ x, x ∈ keys (snd maps) ↔ x ∈ map id nodes).
Proof.
  unfold initialMaps.
  assert (H : ∀ (maps : Degrees * AdjList) (seen : list string),
            NoDup (map fst (fst maps)) →
            (∀ x, degree (fst maps) x = if bool_decide (x ∈ seen) then Some 0%Z else None) →
            (∀ x, neighbors (snd maps) x = []) →
            (∀ x, x ∈ keys (snd maps) ↔ x ∈ seen) →
            let maps' := fold_left
                 (λ maps node, (setDegree (id node) 0%Z (fst maps),
                                clearNeighbors (snd maps) (id node))) nodes maps in
            NoDup (map fst (fst maps'))
            ∧ (∀ x, degree (fst maps') x
                    = if bool_decide (x ∈ seen ++ map id nodes) then Some 0%Z else None)
            ∧ (∀ x, neighbors (snd maps') x = [])
            ∧ (∀ x, x ∈ keys (snd maps') ↔ x ∈ seen ++ map id nodes)).
  { induction nodes as [|n nodes IH]; intros maps seen Hnd Hd Hn Hk;
      cbn [fold_left map].
    - rewrite app_nil_r. done.
    - specialize (IH (setDegree (id n) 0%Z (fst maps), clearNeighbors (snd maps) (id n))
                    (seen ++ [id n])).
      cbn [fst snd] in IH. rewrite <- !app_assoc in IH. cbn [app] in IH. apply IH.
      + by apply NoDup_keys_setDegree.
      + intros x. rewrite degree_setDegree, Hd.
        destruct (String.eqb_spec (id n) x) as [->|Hne].
        * rewrite bool_decide_eq_true_2; [done|]. apply elem_of_app. right. by left.
        * case_bool_decide as H1.
          -- rewrite bool_decide_eq_true_2; [done|]. apply elem_of_app. by left.
          -- rewrite bool_decide_eq_false_2; [done|].
             intros [?|Hx%list_elem_of_singleton]%elem_of_app; [done | congruence].
      + intros x. rewrite neighbors_clearNeighbors, Hn. by destruct (String.eqb _ x).
      + intros x. rewrite keys_clearNeighbors, Hk, elem_of_app, list_elem_of_singleton.
        naive_solver. }
  specialize (H ([], []) []). cbn [app] in H. apply H; cbn [fst snd].
  - constructor.
  - intros x. rewrite bool_decide_eq_false_2; [done | inversion 1].
  - done.
  - intros x. unfold keys. simpl. done.
Qed.


Lemma countEdges_spec edges : ∀ d g d' g',
  countEdges edges (d, g) = Some (d', g') →
  NoDup (map fst d) →
  keys g' = keys g
  ∧ (∀ x, neighbors g' x = neighbors g x ++ outgoing edges x)
  ∧ NoDup (map fst d')
  ∧ (∀ x, degree d' x
          = match indegree edges x with
            | O => degree d x
            | S _ as c => Some (default 0 (degree d x) + Z.of_nat c)%Z
            end).
Proof.
  unfold outgoing, indegree.
  induction edges as [|e edges IH]; intros d g d' g' Hrun Hnd.
  - simpl in Hrun. inversion Hrun; subst. simpl. split; [done|].
    split; [intros x; by rewrite app_nil_r | done].
  - cbn [countEdges fst snd] in Hrun.
    destruct (pushNeighbor g (efrom e) (eto e)) as [g1|] eqn:Hpush; [|done].
    destruct (pushNeighbor_spec _ _ _ _ Hpush) as [Hk1 Hn1].
    destruct (IH _ _ _ _ Hrun) as (Hk & Hn & Hnd' & Hd); [by apply NoDup_keys_setDegree|].
    split; [congruence|]. split; [|split; [done|]].
    + intros x. rewrite Hn, Hn1. simpl.
      destruct (String.eqb_spec (efrom e) x) as [Heq|]; [|done].
      simpl. by rewrite <- app_assoc.
    + intros x. rewrite Hd, degree_setDegree. simpl.
      destruct (String.eqb_spec (eto e) x) as [Heq|]; simpl.
      * subst x. destruct (length _); simpl; f_equal; lia.
      * done.
Qed.

Lemma countEdges_None edges : ∀ d g,
  countEdges edges (d, g) = None
  ↔ ∃ edge, edge ∈ edges ∧ efrom edge ∉ keys g.
Proof.
  induction edges as [|e edges IH]; intros d g.
  - simpl. split; [done | intros (? & H & _); inversion H].
  - cbn [countEdges fst snd].
    destruct (pushNeighbor g (efrom e) (eto e)) as [g1|] eqn:Hpush.
    + destruct (pushNeighbor_spec _ _ _ _ Hpush) as [Hk1 _].
      rewrite IH, Hk1. split.
      * intros (edge & Hin & Hn). exists edge. split; [by right | done].
      * intros (edge & [->|Hin]%elem_of_cons & Hn).
        -- destruct Hn. apply pushNeighbor_Some with (v := eto e). by eexists.
        -- eauto.
    + split; [|done]. intros _. exists e. split; [by left|].
      intros Hin. apply pushNeighbor_Some with (v := eto e) in Hin as [? ?]. congruence.
Qed.


Lemma occurrences_cons w ws x :
  occurrences x (w :: ws) = (if String.eqb w x then 1 else 0) + occurrences x ws.
Proof. unfold occurrences. simpl. by destruct (String.eqb w x). Qed.

Lemma visitNeighbors_cons w ws (d : Degrees) (q : list string) :
  visitNeighbors (w :: ws) (d, q)
  = visitNeighbors ws
      (setDegree w (default 0 (degree d w) - 1)%Z d,
       if (default 0 (degree d w) - 1 =? 0)%Z then q ++ [w] else q).
Proof. reflexivity. Qed.

(** One pass over the neighbours of a node: every in-degree falls by
    the number of edges from the node, and the ids whose in-degree reaches
    zero on the way join the queue, once each. *)
Lemma visitNeighbors_spec ws : ∀ (d : Degrees) (q : list string),
  (∀ w, w ∈ ws → w ∈ map fst d) →
  ∃ d' l,
    visitNeighbors ws (d, q) = (d', q ++ l)
    ∧ map fst d' = map fst d
    ∧ (∀ v, degree d' v = (λ n, n - Z.of_nat (occurrences v ws))%Z <$> degree d v)
    ∧ NoDup l
    ∧ ∀ x, x ∈ l ↔ ∃ n, degree d x = Some n ∧ (0 < n ≤ Z.of_nat (occurrences x ws))%Z.
Proof.
  induction ws as [|w ws IH]; intros d q Hkeys.
  - exists d, []. unfold visitNeighbors. simpl. rewrite app_nil_r. split; [done|]. split; [done|].
    split.
    { intros v. unfold occurrences. simpl. destruct (degree d v); simpl; [f_equal; lia | done]. }
    split; [constructor|]. intros x. split; [inversion 1|].
    intros (n & _ & Hn). unfold occurrences in Hn. simpl in Hn. lia.
  - assert (Hw : w ∈ map fst d) by (apply Hkeys; by left).
    apply degree_Some_keys in Hw as [nw Hnw].
    rewrite visitNeighbors_cons, Hnw. change (default 0%Z (Some nw)) with nw.
    set (d1 := setDegree w (nw - 1)%Z d).
    assert (Hk1 : map fst d1 = map fst d).
    { apply keys_setDegree_in, degree_Some_keys. by eexists. }
    destruct (IH d1 (if (nw - 1 =? 0)%Z then q ++ [w] else q)) as (d' & l' & Hrun & Hk & Hd & Hnd & Hl).
    { intros x Hx. rewrite Hk1. apply Hkeys. by right. }
    assert (Hd1 : ∀ x, degree d1 x = if String.eqb w x then Some (nw - 1)%Z else degree d x).
    { intros x. apply degree_setDegree. }
    exists d', ((if (nw - 1 =? 0)%Z then [w] else []) ++ l').
    split.
    { etrans; [exact Hrun|]. f_equal. destruct (nw - 1 =? 0)%Z; simpl; [by rewrite <- app_assoc | done]. }
    split; [congruence|]. split.
    { intros v. rewrite Hd, Hd1, occurrences_cons.
      destruct (String.eqb_spec w v) as [<-|Hne]; simpl.
      - rewrite Hnw. simpl. f_equal. lia.
      - destruct (degree d v); simpl; [f_equal; lia | done]. }
    assert (Hmem : ∀ x, x ∈ (if (nw - 1 =? 0)%Z then [w] else []) ++ l'
                        ↔ ∃ n, degree d x = Some n
                               ∧ (0 < n ≤ Z.of_nat (occurrences x (w :: ws)))%Z).
    { intros x. rewrite elem_of_app, Hl, Hd1, occurrences_cons.
      destruct (String.eqb_spec w x) as [<-|Hne].
      - split.
        + intros [Hx|(n & Hn & Hr)].
          * destruct (Z.eqb_spec (nw - 1) 0) as [Hz|]; [|inversion Hx].
            exists nw. split; [done | lia].
          * inversion Hn; subst. exists nw. split; [done | lia].
        + intros (n & Hn & Hr). rewrite Hnw in Hn. inversion Hn; subst.
          destruct (Z.eqb_spec (n - 1) 0) as [Hz|Hz]; [left; by left|].
          right. exists (n - 1)%Z. split; [done | lia].
      - split.
        + intros [Hx|H]; [|exact H].
          destruct (nw - 1 =? 0)%Z; [|inversion Hx].
          apply list_elem_of_singleton in Hx. congruence.
        + intros H. right. exact H. }
    split; [|exact Hmem].
    destruct (Z.eqb_spec (nw - 1) 0) as [Hz|Hz]; [|done].
    simpl. apply NoDup_cons. split; [|done].
    intros Hin. apply Hl in Hin as (n & Hn & Hr). rewrite Hd1, String.eqb_refl in Hn.
    inversion Hn. lia.
Qed.

Lemma remaining_snoc edges v c result :
  c ∉ result →
  remaining edges v result
  = remaining edges v (result ++ [c]) + occurrences v (outgoing edges c).
Proof.
  intros Hc. unfold remaining, occurrences, outgoing.
  induction edges as [|e edges IH]; simpl; [done|].
  destruct (String.eqb_spec (efrom e) c) as [Hf|Hf]; simpl.
  - rewrite Hf. rewrite (bool_decide_eq_false_2 (c ∈ result)) by done.
    rewrite (bool_decide_eq_true_2 (c ∈ result ++ [c])) by (apply elem_of_app; right; by left).
    destruct (String.eqb (eto e) v); simpl; lia.
  - destruct (decide (efrom e ∈ result)) as [Hin|Hin].
    + rewrite (bool_decide_eq_true_2 _ Hin).
      rewrite (bool_decide_eq_true_2 (efrom e ∈ result ++ [c])) by (apply elem_of_app; by left).
      rewrite andb_false_r. done.
    + rewrite (bool_decide_eq_false_2 _ Hin).
      rewrite (bool_decide_eq_false_2 (efrom e ∈ result ++ [c])).
      2:{ intros [?|?%list_elem_of_singleton]%elem_of_app; congruence. }
      destruct (String.eqb (eto e) v); simpl; lia.
Qed.

Lemma remaining_zero edges v result :
  remaining edges v result = 0
  ↔ ∀ edge, edge ∈ edges → eto edge = v → efrom edge ∈ result.
Proof.
  unfold remaining. rewrite length_zero_iff_nil, filter_nil_iff. split.
  - intros H edge Hin Ht. specialize (H edge Hin).
    rewrite <- Ht, String.eqb_refl in H. simpl in H.
    by apply negb_false_iff, bool_decide_eq_true in H.
  - intros H edge Hin. destruct (String.eqb_spec (eto edge) v) as [Ht|]; [|done].
    simpl. apply negb_false_iff, bool_decide_eq_true. by apply H.
Qed.


Section Kahn.
Context (edges : list WorkflowEdge) (graph : AdjList) (K : list string).
Hypothesis Hgraph : ∀ x, neighbors graph x = outgoing edges x.
Hypothesis Htargets : ∀ edge, edge ∈ edges → eto edge ∈ K.

Lemma outgoing_targets c w : w ∈ outgoing edges c → w ∈ K.
Proof.
  unfold outgoing. intros (e & -> & He)%list_elem_of_fmap.
  apply Htargets. apply list_elem_of_In, filter_In in He as [He _].
  by apply list_elem_of_In.
Qed.

(** Inside the loop [inDegree.get(neighbor)] is never [undefined]. *)
Lemma degree_neighbors (inDegree : Degrees) queue result current w :
  kahnInvariant edges K inDegree queue result →
  w ∈ neighbors graph current → is_Some (degree inDegree w).
Proof.
  intros (Hkeys & _) Hw. apply degree_Some_keys. rewrite Hkeys.
  rewrite Hgraph in Hw. by eapply outgoing_targets.
Qed.

Lemma kahn_step (inDegree : Degrees) current rest result :
  kahnInvariant edges K inDegree (current :: rest) result →
  let state := visitNeighbors (neighbors graph current) (inDegree, rest) in
  kahnInvariant edges K (fst state) (snd state) (result ++ [current]).
Proof.
  intros (Hkeys & Hnd & Hdeg & Hzero & Hsub & Hord) state. subst state.
  rewrite Hgraph.
  destruct (visitNeighbors_spec (outgoing edges current) inDegree rest)
    as (d' & l & -> & Hk' & Hd' & Hndl & Hl).
  { intros w Hw. rewrite Hkeys. by eapply outgoing_targets. }
  cbn [fst snd].
  assert (Hcur : current ∉ result).
  { apply NoDup_app in Hnd as (_ & Hdisj & _). intros Hin. apply (Hdisj _ Hin). by left. }
  assert (Hrem : ∀ v, remaining edges v result
                      = remaining edges v (result ++ [current])
                        + occurrences v (outgoing edges current)).
  { intros v. by apply remaining_snoc. }
  assert (Hlk : ∀ x, x ∈ l → x ∈ K ∧ 0 < remaining edges x result
                             ∧ remaining edges x (result ++ [current]) = 0).
  { intros x (n & Hn & Hr)%Hl.
    assert (HxK : x ∈ K).
    { rewrite <- Hkeys. apply degree_Some_keys. by eexists. }
    rewrite (Hdeg x HxK) in Hn. inversion Hn; subst. specialize (Hrem x).
    split; [done|]. lia. }
  assert (Hshape : (result ++ [current]) ++ rest ++ l = (result ++ current :: rest) ++ l).
  { rewrite <- !app_assoc. done. }
  split; [congruence|]. split; [|split; [|split; [|split]]].
  - rewrite Hshape. apply NoDup_app. split; [done|]. split; [|done].
    intros x Hx Hxl. apply Hlk in Hxl as (HxK & Hpos & _).
    apply (Hzero x HxK) in Hx. lia.
  - intros v Hv. rewrite Hd', (Hdeg v Hv). simpl. f_equal. specialize (Hrem v). lia.
  - intros v Hv. rewrite Hshape, elem_of_app.
    specialize (Hrem v). split.
    + intros [Hin|Hin]; [apply (Hzero v Hv) in Hin; lia|].
      by apply Hlk in Hin as (_ & _ & ?).
    + intros Hz. destruct (decide (remaining edges v result = 0)) as [H0|H0].
      * left. by apply Hzero.
      * right. apply Hl. eexists. split; [by apply Hdeg | lia].
  - intros x. rewrite Hshape, elem_of_app.
    intros [Hin|Hin]; [by apply Hsub | by apply Hlk in Hin as (? & _)].
  - intros l1 v l2 Heq edge Hedge Hto.
    destruct l2 as [|z l2 _] using rev_ind.
    + apply app_inj_tail in Heq as [-> ->].
      assert (Hc : remaining edges v l1 = 0).
      { apply Hzero; [apply Hsub|]; apply elem_of_app; right; by left. }
      by eapply remaining_zero.
    + rewrite app_comm_cons, app_assoc in Heq. apply app_inj_tail in Heq as [-> ->].
      by eapply Hord.
Qed.

Lemma kahnLoop_spec (HK : NoDup K) : ∀ fuel inDegree queue result,
  kahnInvariant edges K inDegree queue result →
  length K ≤ length result + fuel →
  ∃ order inDegree',
    kahnLoop fuel graph inDegree queue result = Some order
    ∧ kahnInvariant edges K inDegree' [] order.
Proof.
  induction fuel as [|fuel IH]; intros inDegree queue result Hinv Hfuel.
  - destruct queue as [|c rest]; [by exists result, inDegree|].
    exfalso. destruct Hinv as (_ & Hnd & _ & _ & Hsub & _).
    assert (Hle : length (result ++ c :: rest) ≤ length K).
    { apply submseteq_length, NoDup_submseteq; done. }
    rewrite length_app in Hle. simpl in Hle. lia.
  - destruct queue as [|c rest]; [by exists result, inDegree|].
    cbn [kahnLoop]. apply IH.
    + by apply kahn_step.
    + rewrite length_app. simpl. lia.
Qed.

End Kahn.


Lemma remaining_nil edges v : remaining edges v [] = indegree edges v.
Proof.
  unfold remaining, indegree. f_equal. apply filter_ext. intros e.
  rewrite bool_decide_eq_false_2; [by rewrite andb_true_r | inversion 1].
Qed.

Lemma indegree_pos edges v : 0 < indegree edges v ↔ v ∈ map eto edges.
Proof.
  unfold indegree. induction edges as [|e edges IH]; simpl.
  - split; [lia | inversion 1].
  - destruct (String.eqb_spec (eto e) v) as [->|Hne]; simpl.
    + split; [intros _; by left | lia].
    + rewrite IH. split; [by right | intros [?|?]%elem_of_cons; [congruence | done]].
Qed.

Lemma elem_of_degree (d : Degrees) x n :
  NoDup (map fst d) → (x, n) ∈ d ↔ degree d x = Some n.
Proof.
  induction d as [|[k m] d IH]; simpl; intros Hnd.
  - split; [inversion 1 | done].
  - apply NoDup_cons in Hnd as [Hk Hnd]. rewrite elem_of_cons, (IH Hnd).
    destruct (String.eqb_spec k x) as [->|Hne].
    + split.
      * intros [Heq|Hd]; [by inversion Heq|].
        destruct Hk. apply degree_Some_keys. by eexists.
      * intros Heq. inversion Heq. by left.
    + split; [intros [Heq|?]; [inversion Heq; congruence | done] | by right].
Qed.

Lemma NoDup_fst_filter {A B} (p : A * B → bool) (l : list (A * B)) :
  NoDup (map fst l) → NoDup (map fst (List.filter p l)).
Proof.
  induction l as [|a l IH]; simpl; [done|].
  intros [Ha Hnd]%NoDup_cons. destruct (p a); simpl; [|by apply IH].
  apply NoDup_cons. split; [|by apply IH].
  intros Hin. apply Ha. apply list_elem_of_fmap in Hin as (y & -> & Hy).
  apply list_elem_of_fmap. exists y. split; [done|].
  apply list_elem_of_In, filter_In in Hy as [Hy _]. by apply list_elem_of_In.
Qed.

(** The state in which [getTopologicalOrder] enters its loop. *)
Lemma getTopologicalOrder_setup nodes edges (d : Degrees) (g : AdjList) :
  countEdges edges (initialMaps nodes) = Some (d, g) →
  NoDup (map fst d)
  ∧ (∀ x, x ∈ map fst d ↔ x ∈ map id nodes ∨ x ∈ map eto edges)
  ∧ (∀ x, neighbors g x = outgoing edges x)
  ∧ (∀ edge, edge ∈ edges → efrom edge ∈ map id nodes)
  ∧ kahnInvariant edges (map fst d) d
      (map fst (List.filter (λ entry, Z.eqb (snd entry) 0) d)) [].
Proof.
  intros Hrun.
  destruct (initialMaps_spec nodes) as (Hnd0 & Hd0 & Hn0 & Hk0).
  destruct (initialMaps nodes) as [d0 g0] eqn:E0. cbn [fst snd] in *.
  destruct (countEdges_spec _ _ _ _ _ Hrun Hnd0) as (Hk & Hn & Hnd & Hd).
  assert (Hdeg : ∀ x, degree d x
                      = if bool_decide (x ∈ map id nodes ∨ x ∈ map eto edges)
                        then Some (Z.of_nat (indegree edges x)) else None).
  { intros x. rewrite Hd, Hd0. pose proof (indegree_pos edges x) as Hp.
    destruct (indegree edges x) as [|c] eqn:Ec.
    - destruct (decide (x ∈ map id nodes)) as [H1|H1].
      + rewrite (bool_decide_eq_true_2 _ H1).
        rewrite (bool_decide_eq_true_2 (x ∈ map id nodes ∨ x ∈ map eto edges));
          [done | by left].
      + rewrite (bool_decide_eq_false_2 _ H1).
        rewrite (bool_decide_eq_false_2 (x ∈ map id nodes ∨ x ∈ map eto edges)); [done|].
        intros [?|H2]; [done|]. apply Hp in H2. lia.
    - rewrite (bool_decide_eq_true_2 (x ∈ map id nodes ∨ x ∈ map eto edges))
        by (right; apply Hp; lia).
      f_equal. case_bool_decide; simpl; lia. }
  assert (HK : ∀ x, x ∈ map fst d ↔ x ∈ map id nodes ∨ x ∈ map eto edges).
  { intros x. rewrite <- degree_Some_keys, Hdeg.
    case_bool_decide; split; (done || (intros [? ?]; done) || by eexists). }
  assert (Hclosed : ∀ edge, edge ∈ edges → efrom edge ∈ map id nodes).
  { intros edge Hin. apply Hk0.
    destruct (decide (efrom edge ∈ keys g0)) as [?|Hno]; [done|].
    assert (Hnone : countEdges edges (d0, g0) = None).
    { apply countEdges_None. eauto. }
    congruence. }
  split; [done|]. split; [done|]. split.
  { intros x. by rewrite Hn, Hn0. }
  split; [done|].
  assert (Hq : ∀ x, x ∈ map fst (List.filter (λ entry, Z.eqb (snd entry) 0) d)
                    ↔ degree d x = Some 0%Z).
  { intros x. rewrite list_elem_of_fmap. split.
    - intros ([k n] & -> & Hin). apply ConnectionFacts.elem_of_filter_list in Hin as [Hin Hz].
      simpl in *. apply Z.eqb_eq in Hz. subst n. by apply elem_of_degree.
    - intros Hx. exists (x, 0%Z). split; [done|].
      apply ConnectionFacts.elem_of_filter_list. split; [by apply elem_of_degree | done]. }
  split; [done|]. cbn [app]. split; [by apply NoDup_fst_filter|].
  split.
  { intros v Hv. rewrite Hdeg, remaining_nil.
    rewrite bool_decide_eq_true_2; [done | by apply HK]. }
  split.
  { intros v Hv. rewrite Hq, Hdeg, remaining_nil.
    rewrite bool_decide_eq_true_2 by (by apply HK).
    split; [intros H; inversion H; lia | intros ->; done]. }
  split.
  { intros x Hx. apply Hq in Hx. apply degree_Some_keys. by eexists. }
  intros l1 v l2 Heq. by destruct l1.
Qed.

(** What [getTopologicalOrder] has when it returns. *)
Lemma getTopologicalOrder_final nodes edges order :
  getTopologicalOrder nodes edges = Ordered order →
  ∃ (K : list string) (d : Degrees),
    (∀ x, x ∈ K ↔ x ∈ map id nodes ∨ x ∈ map eto edges)
    ∧ (∀ edge, edge ∈ edges → efrom edge ∈ map id nodes)
    ∧ kahnInvariant edges K d [] order.
Proof.
  unfold getTopologicalOrder.
  destruct (countEdges edges (initialMaps nodes)) as [[d g]|] eqn:Hrun; [|done].
  destruct (getTopologicalOrder_setup _ _ _ _ Hrun) as (Hnd & HK & Hg & Hcl & Hinv).
  destruct (kahnLoop_spec edges g (map fst d) Hg) with
    (fuel := length d) (inDegree := d)
    (queue := map fst (List.filter (λ entry, Z.eqb (snd entry) 0) d))
    (result := @nil string) as (order' & d' & Hloop & Hfinal).
  - intros edge Hin. apply HK. right. apply list_elem_of_fmap. eauto.
  - done.
  - done.
  - rewrite length_map. simpl. lia.
  - rewrite Hloop. intros H. inversion H; subst. eauto.
Qed.

(** X7. [getTopologicalOrder] throws exactly when an edge leaves an id
    that no node has, and otherwise returns. *)
Theorem getTopologicalOrder_returns nodes edges :
  (getTopologicalOrder nodes edges = ThrowsTypeError
   ↔ ∃ edge, edge ∈ edges ∧ efrom edge ∉ map id nodes)
  ∧ ((∀ edge, edge ∈ edges → efrom edge ∈ map id nodes)
     → ∃ order, getTopologicalOrder nodes edges = Ordered order).
Proof.
  assert (Hthrow : countEdges edges (initialMaps nodes) = None
                   ↔ ∃ edge, edge ∈ edges ∧ efrom edge ∉ map id nodes).
  { destruct (initialMaps_spec nodes) as (_ & _ & _ & Hk0).
    destruct (initialMaps nodes) as [d0 g0]. rewrite countEdges_None.
    cbn [snd] in Hk0. split; intros (edge & Hin & Hno); exists edge; (split; [done|]);
      intros Hx; apply Hno, Hk0, Hx. }
  assert (Hloop : ∀ d g, countEdges edges (initialMaps nodes) = Some (d, g) →
            ∃ order, kahnLoop (length d) g d
                       (map fst (List.filter (λ entry, Z.eqb (snd entry) 0) d)) []
                     = Some order).
  { intros d g Hrun.
    destruct (getTopologicalOrder_setup _ _ _ _ Hrun) as (Hnd & HK & Hg & Hcl & Hinv).
    destruct (kahnLoop_spec edges g (map fst d) Hg) with
      (fuel := length d) (inDegree := d)
      (queue := map fst (List.filter (λ entry, Z.eqb (snd entry) 0) d))
      (result := @nil string) as (order' & d' & Hl & _); [| done | done | | by eauto].
    - intros edge Hin. apply HK. right. apply list_elem_of_fmap. eauto.
    - rewrite length_map. simpl. lia. }
  unfold getTopologicalOrder. split.
  - rewrite <- Hthrow.
    destruct (countEdges edges (initialMaps nodes)) as [[d g]|] eqn:Hrun; [|done].
    destruct (Hloop d g eq_refl) as [order ->]. done.
  - intros Hcl.
    destruct (countEdges edges (initialMaps nodes)) as [[d g]|] eqn:Hrun.
    + destruct (Hloop d g eq_refl) as [order ->]. eauto.
    + destruct (proj1 Hthrow eq_refl) as (edge & Hin & Hno). destruct Hno. by apply Hcl.
Qed.

Lemma getTopologicalOrder_spec nodes edges order :
  getTopologicalOrder nodes edges = Ordered order →
  NoDup order
  ∧ (∀ x, x ∈ order → x ∈ map id nodes ∨ x ∈ map eto edges)
  ∧ (∀ edge, edge ∈ edges → eto edge ∈ order →
             before order (efrom edge) (eto edge)).
Proof.
  intros (K & d & HK & _ & (_ & Hnd & _ & _ & Hsub & Hord))%getTopologicalOrder_final.
  rewrite app_nil_r in Hnd. split; [done|]. split.
  - intros x Hx. apply HK, Hsub. by rewrite app_nil_r.
  - intros edge Hedge Hin. apply list_elem_of_split in Hin as (l1 & l2 & Heq).
    exists l1, l2. split; [done|]. by eapply Hord.
Qed.

(** X8. The order returned by [getTopologicalOrder] lists no id twice and
    puts the source of every edge before its target. *)
Theorem getTopologicalOrder_sorted nodes edges order :
  getTopologicalOrder nodes edges = Ordered order →
  NoDup order
  ∧ (∀ x, x ∈ order → x ∈ map id nodes ∨ x ∈ map eto edges)
  ∧ (∀ edge, edge ∈ edges → eto edge ∈ order →
             before order (efrom edge) (eto edge)).
Proof. apply getTopologicalOrder_spec. Qed.


(** In a finite set each of whose members has a predecessor in the set,
    every member lies behind a cycle. *)
Lemma predecessors_cycle (R : string → string → Prop) (M : list string) :
  (∀ x, x ∈ M → ∃ p, p ∈ M ∧ R p x) →
  ∀ n seen x t,
    NoDup seen → (∀ s, s ∈ seen → s ∈ M) → x ∈ M →
    (∀ s, s ∈ seen → rtc R x s) → rtc R x t →
    length M ≤ length seen + n →
    behindCycle R t.
Proof.
  intros Hpred. induction n as [|n IH]; intros seen x t Hnd Hsub Hx Hseen Hxt Hlen.
  - destruct (Hpred x Hx) as (p & Hp & Hpx).
    destruct (decide (p ∈ seen)) as [Hin|Hout].
    + exists p. split.
      * eapply tc_rtc_r; [by apply tc_once | by apply Hseen].
      * by eapply rtc_l.
    + exfalso.
      assert (Hle : length (p :: seen) ≤ length M).
      { apply submseteq_length, NoDup_submseteq.
        - by apply NoDup_cons.
        - intros y [->|?]%elem_of_cons; [done | by apply Hsub]. }
      simpl in Hle. lia.
  - destruct (Hpred x Hx) as (p & Hp & Hpx).
    destruct (decide (p ∈ seen)) as [Hin|Hout].
    + exists p. split.
      * eapply tc_rtc_r; [by apply tc_once | by apply Hseen].
      * by eapply rtc_l.
    + apply (IH (p :: seen) p t).
      * by apply NoDup_cons.
      * intros y [->|?]%elem_of_cons; [done | by apply Hsub].
      * done.
      * intros y [->|Hy]%elem_of_cons; [apply rtc_refl|].
        eapply rtc_l; [exact Hpx | by apply Hseen].
      * by eapply rtc_l.
      * simpl. lia.
Qed.

Lemma before_uniq (order : list string) l1 v l2 a b :
  NoDup order → order = l1 ++ v :: l2 → order = a ++ v :: b → l1 = a.
Proof.
  intros Hnd H1 H2. subst order. revert a H2 Hnd.
  induction l1 as [|x l1 IH]; intros a H2 Hnd.
  - destruct a as [|y a]; [done|]. simpl in H2. inversion H2; subst.
    apply NoDup_cons in Hnd as [Hn _]. destruct Hn.
    apply elem_of_app. right. by left.
  - destruct a as [|y a].
    + simpl in H2. inversion H2; subst. simpl in Hnd.
      apply NoDup_cons in Hnd as [Hn _]. destruct Hn.
      apply elem_of_app. right. by left.
    + simpl in H2. inversion H2; subst. f_equal. simpl in Hnd.
      apply NoDup_cons in Hnd as [_ Hnd]. by apply IH.
Qed.

Lemma before_trans (order : list string) u v w :
  NoDup order → before order u v → before order v w → before order u w.
Proof.
  intros Hnd (l1 & l2 & H1 & Hu) (l1' & l2' & H2 & Hv).
  exists l1', l2'. split; [done|].
  apply list_elem_of_split in Hv as (a & b & ->).
  rewrite <- app_assoc in H2. simpl in H2.
  rewrite (before_uniq order l1 v l2 a (b ++ w :: l2') Hnd H1 H2) in Hu.
  apply elem_of_app. by left.
Qed.

Lemma before_irrefl (order : list string) v : NoDup order → ¬ before order v v.
Proof.
  intros Hnd (l1 & l2 & -> & Hv). apply NoDup_app in Hnd as (_ & Hdisj & _).
  apply (Hdisj v Hv). by left.
Qed.

(** X9. The order returned by [getTopologicalOrder] holds every id of a
    node or of an edge target, except those on a cycle or behind one. *)
Theorem getTopologicalOrder_complete nodes edges order :
  getTopologicalOrder nodes edges = Ordered order →
  (∀ x, x ∈ order
        ↔ (x ∈ map id nodes ∨ x ∈ map eto edges) ∧ ¬ behindCycle (wired edges) x)
  ∧ (¬ hasDirectedCycle (wired edges) → ∀ node, node ∈ nodes → id node ∈ order).
Proof.
  intros Hrun. pose proof (getTopologicalOrder_spec _ _ _ Hrun) as (Hnd & Hsub & Hbefore).
  apply getTopologicalOrder_final in Hrun
    as (K & d & HK & Hclosed & (_ & _ & _ & Hzero & _ & _)).
  assert (Hstep : ∀ u v, wired edges u v → v ∈ order → before order u v).
  { intros u v (edge & Hin & <- & <-). by apply Hbefore. }
  assert (Hin_before : ∀ u v, before order u v → u ∈ order).
  { intros u v (l1 & l2 & -> & Hu). apply elem_of_app. by left. }
  assert (Htc : ∀ u v, tc (wired edges) u v → v ∈ order → before order u v).
  { intros u v Huv. induction Huv as [u v Huv|u w v Huw Hwv IH]; intros Hv.
    - by apply Hstep.
    - specialize (IH Hv). eapply before_trans; [done| |exact IH].
      apply Hstep; [done|]. by eapply Hin_before. }
  assert (Hchar : ∀ x, x ∈ order
                       ↔ (x ∈ map id nodes ∨ x ∈ map eto edges)
                         ∧ ¬ behindCycle (wired edges) x).
  { intros x. split.
    - intros Hx. split; [by apply Hsub|]. intros (c & Hcycle & Hcx).
      assert (Hc : c ∈ order).
      { apply rtc_tc in Hcx as [->|Hcx]; [done|]. eapply Hin_before. by apply Htc. }
      eapply before_irrefl; [done|]. by apply Htc.
    - intros [Hx Hno]. destruct (decide (x ∈ order)) as [?|Hout]; [done|]. exfalso.
      apply Hno.
      apply (predecessors_cycle (wired edges)
               (List.filter (λ y, negb (bool_decide (y ∈ order))) K))
        with (n := length K) (seen := []) (x := x).
      + intros y [Hy Hyo]%ConnectionFacts.elem_of_filter_list.
        apply negb_true_iff, bool_decide_eq_false in Hyo.
        assert (Hr : remaining edges y order ≠ 0).
        { intros Hz. apply Hyo. apply Hzero in Hz; [|done]. by rewrite app_nil_r in Hz. }
        unfold remaining in Hr.
        destruct (List.filter _ edges) as [|e es] eqn:Ef; [done|].
        assert (He : e ∈ List.filter
                       (λ edge, String.eqb (eto edge) y
                                && negb (bool_decide (efrom edge ∈ order))) edges).
        { rewrite Ef. by left. }
        apply ConnectionFacts.elem_of_filter_list in He as [He [Ht Hf]%andb_true_iff].
        apply String.eqb_eq in Ht. exists (efrom e). split.
        * apply ConnectionFacts.elem_of_filter_list. split; [|done].
          apply HK. left. by apply Hclosed.
        * exists e. done.
      + constructor.
      + inversion 1.
      + apply ConnectionFacts.elem_of_filter_list. split; [by apply HK|].
        by apply negb_true_iff, bool_decide_eq_false.
      + inversion 1.
      + apply rtc_refl.
      + simpl. apply List.filter_length_le. }
  split; [done|].
  intros Hacyclic node Hnode. apply Hchar. split.
  - left. apply list_elem_of_fmap. eauto.
  - intros (c & Hc & _). apply Hacyclic. by exists c.
Qed.

End OrderFacts.

(** ** Part XII.  The canvas *)

Module CanvasFacts.
Import WorkflowUtils TreeValidator Notions CycleDetection TreeFacts.

Lemma flows_snoc edges edge x y :
  flows (edges ++ [edge]) x y ↔ flows edges x y ∨ (x = source edge ∧ y = target edge).
Proof.
  unfold flows. split.
  - intros (e & [Hin| ->%list_elem_of_singleton]%elem_of_app & <- & <-).
    + left. eauto.
    + by right.
  - intros [(e & Hin & Hs & Ht)|[-> ->]].
    + exists e. split; [apply elem_of_app; by left | done].
    + exists edge. split; [apply elem_of_app; right; by left | done].
Qed.

Lemma canvas_cycle_check_spec edges sourceId targetId handle :
  TreeValidator.wouldCreateCycle edges sourceId targetId = true
  ↔ hasDirectedCycle
      (flows (edges ++ [{| source := sourceId; target := targetId;
                           sourceHandle := handle |}])).
Proof.
  unfold TreeValidator.wouldCreateCycle.
  set (graph := graph_push _ sourceId targetId).
  assert (Hadj : ∀ x y, adj graph x y
                        ↔ flows (edges ++ [{| source := sourceId; target := targetId;
                                              sourceHandle := handle |}]) x y).
  { intros x y. subst graph. rewrite flows_snoc. simpl. unfold adj.
    rewrite neighbors_graph_push.
    pose proof (adj_pushes edges [] x y) as Hp. unfold adj in Hp. simpl in Hp.
    destruct (String.eqb_spec sourceId x) as [->|Hne].
    - rewrite elem_of_app, list_elem_of_singleton.
      pose proof (adj_pushes edges [] x y) as Hx. unfold adj in Hx. simpl in Hx.
      rewrite Hx. split.
      + intros [[?|H]| ->]; [by left | inversion H | by right].
      + intros [?|[_ ->]]; [left; by left | by right].
    - rewrite Hp. split.
      + intros [?|H]; [by left | inversion H].
      + intros [?|[? _]]; [by left | congruence]. }
  rewrite <- (hasDirectedCycle_iff _ _ Hadj).
  destruct (checkAll_total graph) as [[[] s] E]; rewrite E.
  - split; [intros _; by eapply checkAll_true | done].
  - split; [done | intros H; by apply checkAll_false in E].
Qed.

(** X10. [TreeValidator.wouldCreateCycle] answers [true] exactly when the
    edges together with the proposed one contain a directed cycle. *)
Theorem canvas_cycle_check_exact edges sourceId targetId handle :
  TreeValidator.wouldCreateCycle edges sourceId targetId = true
  ↔ hasDirectedCycle
      (flows (edges ++ [{| source := sourceId; target := targetId;
                           sourceHandle := handle |}])).
Proof. apply canvas_cycle_check_spec. Qed.

Lemma hasParent_parents edges targetId :
  hasParent edges targetId = true ↔ 0 < parents targetId edges.
Proof.
  unfold hasParent, parents. induction edges as [|e edges IH]; simpl; [lia|].
  destruct (String.eqb (target e) targetId); simpl; [lia | exact IH].
Qed.

Lemma hasParent_iff edges targetId :
  hasParent edges targetId = true ↔ ∃ edge, edge ∈ edges ∧ target edge = targetId.
Proof.
  unfold hasParent. rewrite existsb_elem_of. split; intros (e & He & Ht); exists e;
    (split; [done|]); by apply String.eqb_eq.
Qed.

(** X11. The roots are the nodes without a parent, and a canvas without
    cycles whose edges all leave nodes has one. *)
Theorem findRootNodes_roots nodes edges :
  (∀ x, x ∈ findRootNodes nodes edges
        ↔ x ∈ map nodeId nodes ∧ hasParent edges x = false)
  ∧ (nodes ≠ [] →
     (∀ edge, edge ∈ edges → source edge ∈ map nodeId nodes) →
     detectCycles nodes edges = false →
     findRootNodes nodes edges ≠ []).
Proof.
  assert (Hchar : ∀ x, x ∈ findRootNodes nodes edges
                       ↔ x ∈ map nodeId nodes ∧ hasParent edges x = false).
  { intros x. unfold findRootNodes. rewrite !list_elem_of_fmap. split.
    - intros (n & -> & [Hn Hp]%ConnectionFacts.elem_of_filter_list).
      split; [eauto|]. apply negb_true_iff, bool_decide_eq_false in Hp.
      apply not_true_iff_false. intros (e & He & Ht)%hasParent_iff.
      apply Hp. apply elem_of_list_to_set, list_elem_of_fmap. eauto.
    - intros [(n & -> & Hn) Hp]. exists n. split; [done|].
      apply ConnectionFacts.elem_of_filter_list. split; [done|].
      apply negb_true_iff, bool_decide_eq_false.
      intros (e & Ht & He)%elem_of_list_to_set%list_elem_of_fmap.
      apply not_true_iff_false in Hp. apply Hp. apply hasParent_iff. eauto. }
  split; [done|].
  intros Hne Hclosed Hacyclic Hnone.
  assert (Hcyc : hasDirectedCycle (flows edges)).
  { destruct nodes as [|n0 nodes']; [done|].
    destruct (OrderFacts.predecessors_cycle (flows edges) (map nodeId (n0 :: nodes')))
      with (n := length (map nodeId (n0 :: nodes'))) (seen := @nil string)
           (x := nodeId n0) (t := nodeId n0) as (c & Hc & _).
    - intros x Hx. destruct (hasParent edges x) eqn:Hp.
      + apply hasParent_iff in Hp as (e & He & Ht). exists (source e).
        split; [by apply Hclosed|]. exists e. done.
      + exfalso. assert (Hr : x ∈ findRootNodes (n0 :: nodes') edges) by (by apply Hchar).
        rewrite Hnone in Hr. inversion Hr.
    - constructor.
    - inversion 1.
    - by left.
    - inversion 1.
    - apply rtc_refl.
    - simpl. lia.
    - by exists c. }
  apply (detectCycles_iff_cycle nodes edges) in Hcyc. congruence.
Qed.


Lemma parents_snoc t edges edge :
  parents t (edges ++ [edge])
  = parents t edges + (if String.eqb (target edge) t then 1 else 0).
Proof.
  unfold parents. rewrite List.filter_app, length_app. simpl.
  by destruct (String.eqb (target edge) t).
Qed.

Lemma app_nil_4 {A} (a b c d : list A) :
  a ++ b ++ c ++ d = [] → a = [] ∧ b = [] ∧ c = [] ∧ d = [].
Proof.
  intros [-> H]%app_eq_nil. apply app_eq_nil in H as [-> H].
  apply app_eq_nil in H as [-> ->]. done.
Qed.

(** X12. On a canvas that [validateTree] finds valid, a connection that
    [onConnect] passes on to [onEdgeAdd] joins two different nodes, and
    the canvas with the new edge is valid again. *)
Theorem onConnect_keeps_tree_valid nodes edges params generated
    fromNodeId outputHandle toNodeId inputHandle :
  treeValid (validateTree nodes edges) = true →
  WorkflowCanvas.onConnect nodes edges params
  = WorkflowCanvas.EdgeAdd fromNodeId outputHandle toNodeId inputHandle →
  fromNodeId ≠ toNodeId
  ∧ treeValid
      (validateTree nodes
         (edges ++ [WorkflowCanvas.toFlowEdge
                      (createEdge generated fromNodeId outputHandle
                         toNodeId inputHandle)])) = true.
Proof.
  intros Hvalid Hrun. unfold WorkflowCanvas.onConnect in Hrun.
  destruct (negb _ || negb _); [done|].
  set (s := WorkflowCanvas.orDefault (WorkflowCanvas.source params) "") in *.
  set (t := WorkflowCanvas.orDefault (WorkflowCanvas.target params) "") in *.
  set (handle := WorkflowCanvas.sourceHandle params) in *.
  destruct (WorkflowCanvas.connectionErrors nodes edges s t handle) eqn:Herr; [|done].
  inversion Hrun; subst fromNodeId outputHandle toNodeId inputHandle. clear Hrun.
  unfold WorkflowCanvas.connectionErrors in Herr.
  apply app_nil_4 in Herr as (Hparent & Hcycle & Hself & _).
  assert (Hst : s ≠ t).
  { destruct (String.eqb_spec s t); [done | done]. }
  split; [done|].
  set (new := WorkflowCanvas.toFlowEdge _).
  apply validateTree_valid.
  destruct nodes as [|n0 nodes']; [done|].
  set (nodes := n0 :: nodes') in *.
  destruct (treeErrors (validateTree nodes (edges ++ [new]))) as [|e es] eqn:Hafter; [done|].
  exfalso.
  assert (He : e ∈ treeErrors (validateTree nodes (edges ++ [new]))) by (rewrite Hafter; by left).
  apply validateTree_errors in He; [|done].
  apply validateTree_valid in Hvalid.
  destruct He as [(t' & -> & Hgt & Hnone)|[_ Hcyc]].
  - rewrite parents_snoc in Hgt.
    assert (Hold : ¬ (1 < parents t' edges)).
    { intros Hgt'.
      assert (Hin : multipleParentsError nodes t' ∈ treeErrors (validateTree nodes edges)).
      { apply validateTree_errors; [done|]. left. exists t'. split; [done|].
        split; [done|]. intros edge Hedge. apply Hnone. apply elem_of_app. by left. }
      rewrite Hvalid in Hin. inversion Hin. }
    change (target new) with t in Hgt.
    destruct (String.eqb_spec t t') as [<-|Hne]; [|lia].
    assert (Hp : hasParent edges t = true) by (apply hasParent_parents; lia).
    rewrite Hp in Hparent.
    destruct (WorkflowCanvas.isConditionNode _ && WorkflowCanvas.isBranch handle) eqn:Hc;
      [|done].
    apply andb_true_iff in Hc as [Hcn Hbr].
    assert (Hnew : fromConditionBranch nodes new = true).
    { unfold fromConditionBranch. change (source new) with s.
      unfold WorkflowCanvas.isConditionNode in Hcn.
      destruct (List.find _ nodes) as [sn|]; [|done]. rewrite Hcn. simpl.
      unfold WorkflowCanvas.isBranch in Hbr. unfold WorkflowCanvas.orDefault.
      destruct handle as [h|]; [|done].
      destruct (String.eqb_spec h "") as [->|]; [done | exact Hbr]. }
    rewrite Hnone in Hnew; [done | apply elem_of_app; right; by left | done].
  - destruct (TreeValidator.wouldCreateCycle edges s t) eqn:Hw; [done|].
    apply not_true_iff_false in Hw. apply Hw.
    by apply (canvas_cycle_check_spec edges s t
                (Some (WorkflowCanvas.orDefault handle "out"))).
Qed.

End CanvasFacts.

(** ** Part XIII.  Statuses, paths and handlers *)

Section Accounting.
Context (rt : Runtime) (world : World) (executor : Executor)
        (workflowConfig : BackendJobsConfig).

Local Abbreviation executeFromNode := (Engine.executeFromNode rt world executor workflowConfig).
Local Abbreviation startNext := (Engine.startNext rt world executor workflowConfig).
Local Abbreviation continue := (Engine.continue rt world executor workflowConfig).
Local Abbreviation resume := (Engine.resume rt world executor workflowConfig).
Local Abbreviation accounted := (Notions.accounted workflowConfig).

Lemma sameStatuses_statusOf st st' :
  sameStatuses st st' ↔ ∀ x, statusOf st' x = statusOf st x.
Proof. done. Qed.

Lemma setsStatus_onJob id s f st :
  (∀ r, status (f r) = s) → setsStatus id s st (onJob id f st).
Proof.
  intros Hf x. unfold statusOf. simpl. case_decide as Hx.
  - subst x. rewrite mapGet_mapUpdate. destruct (mapGet id _); simpl; [by rewrite Hf | done].
  - by rewrite mapGet_mapUpdate_ne.
Qed.

Lemma sameStatuses_onJob id f st :
  (∀ r, status (f r) = status r) → sameStatuses st (onJob id f st).
Proof.
  intros Hf x. simpl. destruct (decide (id = x)) as [->|Hne].
  - rewrite mapGet_mapUpdate. destruct (mapGet x _); simpl; [by rewrite Hf | done].
  - by rewrite mapGet_mapUpdate_ne.
Qed.

Lemma status_handlerEffects run settled r : status (handlerEffects run settled r) = status r.
Proof.
  unfold handlerEffects. destruct settled, (awaits run), (written run); done.
Qed.

Lemma setsStatus_same id s st st' st'' :
  setsStatus id s st st' → sameStatuses st' st'' → setsStatus id s st st''.
Proof. intros H1 H2 x. rewrite <- (H1 x). apply H2. Qed.

Lemma same_setsStatus id s st st' st'' :
  sameStatuses st st' → setsStatus id s st' st'' → setsStatus id s st st''.
Proof.
  intros H1 H2 x. rewrite (H2 x). unfold statusOf. by rewrite (H1 x).
Qed.

Lemma setsStatus_again id s s' st st' st'' :
  setsStatus id s st st' → setsStatus id s' st' st'' → setsStatus id s' st st''.
Proof.
  intros H1 H2 x. rewrite (H2 x), (H1 x). case_decide; [|done].
  by destruct (statusOf st x).
Qed.

Lemma entered_taskJob job t : entered job t → taskJob t = job.
Proof. by intros [[run ->]|[e ->]]. Qed.

Lemma executeJob_call_statuses job st :
  let st' := executeJob_call rt world executor job st in
  (setsStatus (nodeId job) Running st st'
   ∧ ∃ run, tasks st' = tasks st ++ [AwaitHandler job run])
  ∨ setsStatus (nodeId job) Failed st st'.
Proof.
  unfold executeJob_call.
  set (st2 := onJob (nodeId job) (setStatus Running) st).
  set (st3 := onResult _ st2).
  assert (H3 : setsStatus (nodeId job) Running st st3).
  { apply (setsStatus_same _ _ st st2); [by apply setsStatus_onJob | done]. }
  destruct (runHandler _ _ _ _ _ _) as [run|].
  - left. split; [|by eexists].
    apply (setsStatus_same _ _ st st3); [done|].
    apply (sameStatuses_trans st3 (onJob (nodeId job) (handlerEffects run false) st3));
      [|done].
    apply sameStatuses_onJob. intros r. apply status_handlerEffects.
  - right. set (failed := λ r, setError _ (setStatus Failed r)).
    apply (setsStatus_again _ Running Failed st st3); [done|].
    apply (setsStatus_same _ _ st3 (onJob (nodeId job) failed st3)); [|done].
    by apply setsStatus_onJob.
Qed.

(** What a visit does to the statuses. *)
Lemma executeFromNode_statuses id st st' r :
  executeFromNode id st = (st', r) →
  match r with
  | Started =>
      (setsStatus id Running st st'
       ∧ ∃ job run, nodeId job = id ∧ tasks st' = tasks st ++ [AwaitHandler job run])
      ∨ setsStatus id Failed st st'
  | _ => sameStatuses st st'
  end.
Proof.
  unfold Engine.executeFromNode.
  set (st0 := onResult _ st).
  case_bool_decide as Hex; [intros H; by inversion H|].
  destruct (findJob _ id) as [job|] eqn:Hjob; [|intros H; by inversion H].
  pose proof (findJob_nodeId _ _ _ Hjob) as [Hid _].
  set (st1 := warnFailedDependencies job (logDependencies job st0)).
  assert (H1 : sameStatuses st st1).
  { apply (sameStatuses_trans st st0); [done|].
    eapply sameStatuses_trans; [apply sameStatuses_logDependencies
                               |apply sameStatuses_warnFailedDependencies]. }
  assert (Ht1 : tasks st1 = tasks st).
  { assert (Hc : sameControl st st1); [|by destruct Hc as (_ & ? & _)].
    apply (sameControl_trans st st0); [apply sameControl_onResult|].
    eapply sameControl_trans; [apply sameControl_logDependencies
                              |apply sameControl_warnFailedDependencies]. }
  destruct (pendingDependencies st0 job) as [|d ds] eqn:Hpend.
  - intros H; inversion H; subst st' r; clear H. rewrite <- Hid.
    destruct (executeJob_call_statuses job st1) as [[Hs (run & Ht)]|Hs].
    + left. split; [by eapply same_setsStatus|]. exists job, run. by rewrite Ht, Ht1.
    + right. by eapply same_setsStatus.
  - intros H; inversion H; subst st' r; clear H.
    eapply sameStatuses_trans; [exact H1 | apply sameStatuses_waitForDependencies].
Qed.

Lemma accounted_ext st st' :
  sameStatuses st st' → tasks st' = tasks st → dispatched st' = dispatched st →
  accounted st → accounted st'.
Proof.
  intros Hs Ht Hd (H1 & H2 & H3). unfold Notions.accounted.
  rewrite Ht, Hd. split; [|split; [done|]].
  - intros id s Hst. apply H1. unfold statusOf in *. by rewrite <- (Hs id).
  - intros job Hjob. unfold statusOf. rewrite (Hs (nodeId job)). by apply H3.
Qed.

Lemma accounted_executeFromNode id st :
  accounted st → accounted (fst (executeFromNode id st)).
Proof.
  intros Hacc. destruct (executeFromNode id st) as [st' r] eqn:E. simpl.
  pose proof (executeFromNode_control rt world executor workflowConfig _ _ _ _ E) as [_ Hc].
  pose proof (executeFromNode_statuses _ _ _ _ E) as Hs.
  destruct r; try (destruct Hc as [Ht Hd]; by apply (accounted_ext st)).
  destruct Hc as (job & t & Hjob & _ & _ & Hent & Ht & Hd).
  pose proof (findJob_nodeId _ _ _ Hjob) as [Hid _].
  destruct Hacc as (H1 & H2 & H3). unfold Notions.accounted. rewrite Hd.
  assert (Hrest : ∀ s0, setsStatus id s0 st st' →
            ∀ x s, x ≠ id → statusOf st' x = Some s →
              (s = Running → ∃ job run, AwaitHandler job run ∈ tasks st' ∧ nodeId job = x)
              ∧ s ≠ Skipped ∧ (s ≠ Pending ↔ x ∈ dispatched st ++ [id])).
  { intros s0 Hs0 x s Hxid Hx. rewrite (Hs0 x) in Hx. rewrite decide_False in Hx by done.
    destruct (H1 x s Hx) as (Hrun & Hskip & Hdisp). split; [|split; [done|]].
    - intros Hr. destruct (Hrun Hr) as (j & rn & Hin & Hj). exists j, rn.
      rewrite Ht. split; [apply elem_of_app; by left | done].
    - rewrite Hdisp, elem_of_app, list_elem_of_singleton. naive_solver. }
  split; [|split].
  - intros x s Hx. destruct (decide (x = id)) as [->|Hxid].
    + destruct Hs as [[Hs (job' & run & Hid' & Ht')]|Hs];
        rewrite (Hs id) in Hx; rewrite decide_True in Hx by done;
        (destruct (statusOf st id); [|done]); inversion Hx; subst s.
      * split; [intros _; exists job', run; rewrite Ht';
                split; [apply elem_of_app; right; by left | done]|].
        split; [done|]. split; [intros _; apply elem_of_app; right; by left | done].
      * split; [done|].
        split; [done|]. split; [intros _; apply elem_of_app; right; by left | done].
    + destruct Hs as [[Hs _]|Hs]; by apply (Hrest _ Hs).
  - rewrite Ht. intros t' [Hin| ->%list_elem_of_singleton]%elem_of_app.
    + apply elem_of_app. left. by apply H2.
    + rewrite (entered_taskJob job t Hent), Hid. apply elem_of_app. right. by left.
  - intros j Hj. destruct (H3 j Hj) as [s Hsome].
    destruct Hs as [[Hs _]|Hs]; rewrite (Hs (nodeId j)), Hsome; case_decide; by eexists.
Qed.

Lemma accounted_startNext nextJobs : ∀ st, accounted st → accounted (startNext nextJobs st).
Proof.
  unfold Engine.startNext. induction nextJobs as [|n ns IH]; intros st Hg; simpl; [done|].
  by apply IH, accounted_executeFromNode.
Qed.

Lemma elem_of_delete_ne {A} (l : list A) i (t t' : A) :
  l !! i = Some t → t' ∈ l → t' ≠ t → t' ∈ delete i l.
Proof.
  intros Hi Hin Hne. apply list_elem_of_lookup in Hin as [j Hj].
  destruct (decide (j = i)) as [->|Hji]; [congruence|].
  apply list_elem_of_lookup.
  destruct (decide (j < i)) as [Hlt|Hge].
  - exists j. by rewrite list_lookup_delete_lt.
  - exists (pred j). rewrite list_lookup_delete_ge by lia.
    replace (S (pred j)) with j by lia. done.
Qed.

Lemma elem_of_delete_sub {A} (l : list A) i (t : A) : t ∈ delete i l → t ∈ l.
Proof.
  revert i. induction l as [|a l IH]; intros i; [by destruct i|].
  destruct i as [|i]; simpl.
  - intros ?. by right.
  - intros [->|H]%elem_of_cons; [by left | right; by eapply IH].
Qed.

(** Taking a task other than a handler wait out of the pool keeps the
    account. *)
Lemma accounted_take i t st (s : option (string * JobStatus)) st' :
  accounted st → tasks st !! i = Some t →
  tasks st' = delete i (tasks st) → dispatched st' = dispatched st →
  match s with
  | Some (id, new) =>
      setsStatus id new st st' ∧ id = nodeId (taskJob t)
      ∧ new ≠ Running ∧ new ≠ Skipped ∧ new ≠ Pending
  | None => sameStatuses st st' ∧ ∀ job run, t ≠ AwaitHandler job run
  end →
  accounted st'.
Proof.
  intros (H1 & H2 & H3) Hi Ht Hd Hs. unfold Notions.accounted. rewrite Ht, Hd.
  assert (Htin : t ∈ tasks st) by (apply list_elem_of_lookup; eauto).
  split; [|split].
  - intros x sx Hx. destruct s as [[id new]|].
    + destruct Hs as (Hset & -> & Hn1 & Hn2 & Hn3). rewrite (Hset x) in Hx.
      case_decide as Hxid.
      * subst x. destruct (statusOf st _); [|done]. inversion Hx; subst sx.
        split; [done|]. split; [done|]. split; [intros _; by apply H2 | done].
      * destruct (H1 x sx Hx) as (Hrun & Hskip & Hdisp). split; [|done].
        intros Hr. destruct (Hrun Hr) as (j & rn & Hin & Hj). exists j, rn.
        split; [|done]. eapply elem_of_delete_ne; [exact Hi | done|].
        intros <-. simpl in Hxid. congruence.
    + destruct Hs as [Hsame Hnot].
      assert (Hx' : statusOf st x = Some sx) by (unfold statusOf in *; by rewrite <- (Hsame x)).
      destruct (H1 x sx Hx') as (Hrun & Hskip & Hdisp). split; [|done].
      intros Hr. destruct (Hrun Hr) as (j & rn & Hin & Hj). exists j, rn.
      split; [|done]. eapply elem_of_delete_ne; [exact Hi | done|].
      intros <-. by eapply Hnot.
  - intros t' Hin. apply H2. by eapply elem_of_delete_sub.
  - intros j Hj. destruct (H3 j Hj) as [sj Hsj]. destruct s as [[id new]|].
    + destruct Hs as (Hset & _). rewrite (Hset (nodeId j)), Hsj. case_decide; by eexists.
    + destruct Hs as [Hsame _]. unfold statusOf in *. rewrite (Hsame (nodeId j)). by eexists.
Qed.

Lemma accounted_suspend t st :
  accounted st → nodeId (taskJob t) ∈ dispatched st → accounted (suspend t st).
Proof.
  intros (H1 & H2 & H3) Hin. split; [|split; [|done]].
  - intros x s Hx. destruct (H1 x s Hx) as (Hrun & Hskip & Hdisp). split; [|done].
    intros Hr. destruct (Hrun Hr) as (j & rn & Hj & Hid). exists j, rn.
    split; [simpl; apply elem_of_app; by left | done].
  - intros t' [?| ->%list_elem_of_singleton]%elem_of_app; [by apply H2 | done].
Qed.

Lemma accounted_resume i st : accounted st → accounted (resume i st).
Proof.
  intros Hacc. unfold Engine.resume. destruct (tasks st !! i) as [t|] eqn:Hi; [|done].
  set (st0 := withTasks (delete i (tasks st)) st).
  assert (Hdisp : nodeId (taskJob t) ∈ dispatched st).
  { destruct Hacc as (_ & H2 & _). apply H2. apply list_elem_of_lookup. eauto. }
  destruct t as [job run|job caught|job nextJobs].
  - simpl. set (st1 := onJob (nodeId job) (handlerEffects run true) st0).
    assert (Hs1 : sameStatuses st st1).
    { apply (sameStatuses_onJob _ _ st0). intros r. apply status_handlerEffects. }
    destruct (thrown run) as [e|].
    + apply accounted_suspend; [|done].
      apply (accounted_take i (AwaitHandler job run) st (Some (nodeId job, Failed)));
        [done..|].
      split; [|done].
      eapply same_setsStatus; [exact Hs1|].
      eapply setsStatus_same;
        [apply (setsStatus_onJob (nodeId job) Failed
                  (λ r, setError (errorText rt e) (setStatus Failed r)) st1); done
        |done].
    + apply accounted_suspend; [|done].
      apply (accounted_take i (AwaitHandler job run) st (Some (nodeId job, Completed)));
        [done..|].
      split; [|done].
      eapply same_setsStatus; [exact Hs1|].
      eapply setsStatus_same;
        [apply (setsStatus_onJob (nodeId job) Completed (setStatus Completed) st1); done
        |done].
  - simpl. destruct caught as [e|].
    + apply accounted_suspend; [|done].
      apply (accounted_take i (AwaitJob job (Some e)) st (Some (nodeId job, Failed)));
        [done..|].
      split; [|done].
      eapply setsStatus_same;
        [apply (setsStatus_onJob (nodeId job) Failed
                  (λ r, setError (errorText rt e) (setStatus Failed r)) st0); done
        |done].
    + apply accounted_suspend; [|done].
      by apply (accounted_take i (AwaitJob job None) st None).
  - apply accounted_startNext.
    by apply (accounted_take i (AwaitNext job nextJobs) st None).
Qed.

Lemma accounted_reaches st0 st :
  reaches rt world executor workflowConfig st0 st → accounted st0 → accounted st.
Proof. induction 1; intros Hg; [done|]. by apply accounted_resume, IHreaches. Qed.

Lemma mapGet_mapSet id r m x :
  mapGet x (mapSet id r m) = if String.eqb id x then Some r else mapGet x m.
Proof.
  induction m as [|[k r'] m IH]; simpl.
  - by destruct (String.eqb id x).
  - destruct (String.eqb_spec k id) as [->|Hne]; simpl.
    + by destruct (String.eqb id x).
    + rewrite IH. destruct (String.eqb_spec k x) as [->|]; [|done].
      by destruct (String.eqb_spec id x) as [->|].
Qed.

Lemma initial_records (js : list BackendJob) : ∀ w,
  let w' := fold_left (λ w job, withJobs (mapSet (nodeId job) (initialJobResult job)) w)
              js w in
  (∀ id r, mapGet id (jobResults w) = Some r → status r = Pending) →
  (∀ id r, mapGet id (jobResults w') = Some r → status r = Pending)
  ∧ (∀ job, job ∈ js → is_Some (mapGet (nodeId job) (jobResults w')))
  ∧ (∀ id, is_Some (mapGet id (jobResults w)) → is_Some (mapGet id (jobResults w'))).
Proof.
  induction js as [|j js IH]; intros w; simpl.
  - intros H. split; [done|]. split; [inversion 1 | done].
  - intros H.
    destruct (IH (withJobs (mapSet (nodeId j) (initialJobResult j)) w)) as (H1 & H2 & H3).
    { intros id r. simpl. rewrite mapGet_mapSet.
      destruct (String.eqb (nodeId j) id); [intros Hr; by inversion Hr | apply H]. }
    split; [done|]. split.
    + intros job [->|Hin]%elem_of_cons; [|by apply H2].
      apply H3. simpl. rewrite mapGet_mapSet, String.eqb_refl. by eexists.
    + intros id Hid. apply H3. simpl. rewrite mapGet_mapSet.
      destruct (String.eqb (nodeId j) id); [by eexists | done].
Qed.

Lemma accounted_begin st0 :
  begin rt world executor workflowConfig = inl st0 → accounted st0.
Proof.
  unfold begin.
  destruct (startNode _) as [[|c s]|]; [discriminate| |discriminate].
  match goal with |- context [Engine.executeFromNode _ _ _ _ ?i ?s] =>
    pose proof (accounted_executeFromNode i s) as Hg;
    destruct (Engine.executeFromNode rt world executor workflowConfig i s) as [st r]
  end.
  simpl in Hg. intros H.
  assert (st = st0) as <- by (destruct r; by inversion H).
  apply Hg. clear Hg H.
  destruct (initial_records (jobs workflowConfig)
              (log ("🚀 Starting REAL workflow execution with "
                      +:+ countText (length (jobs workflowConfig)) +:+ " jobs")
                 (initialResult rt))) as (H1 & H2 & _); [done|].
  split; [|split].
  - intros id s0 Hs. unfold statusOf in Hs. simpl in Hs.
    destruct (mapGet id _) as [r0|] eqn:Hr; [|done]. simpl in Hs. inversion Hs; subst s0.
    rewrite (H1 id r0 Hr). split; [done|]. split; [done|].
    split; [done | inversion 1].
  - inversion 1.
  - intros job Hjob. unfold statusOf. simpl. destruct (H2 job Hjob) as [r0 ->]. by eexists.
Qed.

End Accounting.

Lemma resolved_statuses rt world executor workflowConfig schedule w :
  executeWorkflow rt world executor workflowConfig schedule = Resolved w →
  (∀ job, job ∈ jobs workflowConfig →
     is_Some (mapGet (nodeId job) (jobResults w)))
  ∧ ∀ id r, mapGet id (jobResults w) = Some r →
      (status r = Pending ∨ status r = Completed ∨ status r = Failed)
      ∧ (status r = Pending
         ↔ id ∉ dispatchedJobs rt world executor workflowConfig schedule).
Proof.
  unfold executeWorkflow, dispatchedJobs.
  destruct (begin rt world executor workflowConfig) as [st0|[e w']] eqn:Hb; [|done].
  destruct (traverse_terminates rt world executor workflowConfig schedule st0)
    as (st & Htr & Hnil & Hreach).
  rewrite Htr. intros H. inversion H; subst w. clear H. simpl.
  destruct (finish_completed (workflowResult st)) as [_ ->].
  pose proof (accounted_reaches rt world executor workflowConfig st0 st Hreach
                (accounted_begin rt world executor workflowConfig st0 Hb)) as (H1 & _ & H3).
  split.
  - intros job Hjob. destruct (H3 job Hjob) as [s Hs]. unfold statusOf in Hs.
    destruct (mapGet _ _); [by eexists | done].
  - intros id r Hr.
    destruct (H1 id (status r)) as (Hrun & Hskip & Hdisp).
    { unfold statusOf. by rewrite Hr. }
    split.
    + destruct (status r) eqn:Es; eauto.
      * destruct Hrun as (j & rn & Hin & _); [done|]. rewrite Hnil in Hin. inversion Hin.
      * done.
    + split.
      * intros Hp Hin. apply Hdisp in Hin. done.
      * intros Hout. destruct (status r) eqn:Es; [done|..];
          exfalso; apply Hout, Hdisp; done.
Qed.

(** X13. When a run resolves, every job of the document has a record whose
    status is pending, completed or failed, and the jobs that are not
    pending are those that were dispatched. *)
Theorem final_statuses rt world executor workflowConfig schedule w :
  executeWorkflow rt world executor workflowConfig schedule = Resolved w →
  (∀ job, job ∈ jobs workflowConfig →
     is_Some (mapGet (nodeId job) (jobResults w)))
  ∧ ∀ id r, mapGet id (jobResults w) = Some r →
      (status r = Pending ∨ status r = Completed ∨ status r = Failed)
      ∧ (status r = Pending
         ↔ id ∉ dispatchedJobs rt world executor workflowConfig schedule).
Proof. apply resolved_statuses. Qed.

Section Rooted.
Context (rt : Runtime) (world : World) (executor : Executor)
        (workflowConfig : BackendJobsConfig) (start : string).

Local Abbreviation executeFromNode := (Engine.executeFromNode rt world executor workflowConfig).
Local Abbreviation startNext := (Engine.startNext rt world executor workflowConfig).
Local Abbreviation resume := (Engine.resume rt world executor workflowConfig).
Local Abbreviation rooted := (Notions.rooted workflowConfig start).
Local Abbreviation onPath := (rtc (follows workflowConfig) start).

Lemma getNextJobs_targets job r n :
  n ∈ getNextJobs job r → n ∈ map targetJobId (connections job).
Proof.
  unfold getNextJobs.
  destruct (isConditional job && _);
    intros (c & -> & Hc)%list_elem_of_fmap; apply list_elem_of_fmap; exists c;
    (split; [done|]); apply list_elem_of_In, filter_In in Hc as [Hc _];
    by apply list_elem_of_In.
Qed.

Lemma rooted_executeFromNode id st :
  onPath id → rooted st → rooted (fst (executeFromNode id st)).
Proof.
  intros Hid [H1 H2]. destruct (executeFromNode id st) as [st' r] eqn:E. simpl.
  pose proof (executeFromNode_control rt world executor workflowConfig _ _ _ _ E) as [_ Hc].
  destruct r; try (destruct Hc as [Ht Hd]; split; [by rewrite Hd | by rewrite Ht]).
  destruct Hc as (job & t & Hjob & _ & _ & Hent & Ht & Hd).
  pose proof (findJob_nodeId _ _ _ Hjob) as [Hn _].
  split.
  - rewrite Hd. intros x [?| ->%list_elem_of_singleton]%elem_of_app; [by apply H1 | done].
  - rewrite Ht. intros t' [?| Heq%list_elem_of_singleton]%elem_of_app; [by apply H2|].
    subst t'. destruct Hent as [[run ->]|[e ->]]; rewrite Hn; done.
Qed.

Lemma rooted_startNext nextJobs : ∀ st,
  (∀ n, n ∈ nextJobs → onPath n) → rooted st → rooted (startNext nextJobs st).
Proof.
  unfold Engine.startNext. induction nextJobs as [|n ns IH]; intros st Hn Hr; simpl; [done|].
  apply IH.
  - intros x Hx. apply Hn. by right.
  - apply rooted_executeFromNode; [apply Hn; by left | done].
Qed.

Lemma rooted_resume i st : rooted st → rooted (resume i st).
Proof.
  intros [H1 H2]. unfold Engine.resume. destruct (tasks st !! i) as [t|] eqn:Hi; [|done].
  set (st0 := withTasks (delete i (tasks st)) st).
  assert (H0 : rooted st0).
  { split; [done|]. intros t' Ht'. exact (H2 t' (elem_of_delete_sub (tasks st) i t' Ht')). }
  assert (Ht : t ∈ tasks st) by (apply list_elem_of_lookup; eauto).
  specialize (H2 t Ht).
  destruct t as [job run|job caught|job nextJobs].
  - destruct (continue_AwaitHandler_control rt world executor workflowConfig job run st0)
      as (_ & Hd & caught & Hts).
    destruct H0 as [H01 H02]. split; [by rewrite Hd|]. rewrite Hts.
    intros t' [?| ->%list_elem_of_singleton]%elem_of_app; [by apply H02 | done].
  - destruct (continue_AwaitJob_control rt world executor workflowConfig job caught st0)
      as (_ & Hd & jobResult & Hts).
    destruct H0 as [H01 H02]. split; [by rewrite Hd|]. rewrite Hts.
    intros t' [?| ->%list_elem_of_singleton]%elem_of_app; [by apply H02|].
    intros n Hn%getNextJobs_targets. destruct H2 as [Hjob Hpath].
    eapply rtc_r; [exact Hpath|]. by exists job.
  - by apply rooted_startNext.
Qed.

Lemma rooted_reaches st0 st :
  reaches rt world executor workflowConfig st0 st → rooted st0 → rooted st.
Proof. induction 1; intros Hg; [done|]. by apply rooted_resume, IHreaches. Qed.

End Rooted.

Lemma rooted_begin rt world executor workflowConfig start st0 :
  begin rt world executor workflowConfig = inl st0 →
  startNode (executionFlow workflowConfig) = Some start →
  rooted workflowConfig start st0.
Proof.
  unfold begin. intros Hb Hstart. rewrite Hstart in Hb.
  destruct start as [|c s]; [discriminate|].
  match type of Hb with context [Engine.executeFromNode _ _ _ _ ?first ?init] =>
    pose proof (rooted_executeFromNode rt world executor workflowConfig (String c s)
                  first init) as Hg;
    destruct (Engine.executeFromNode rt world executor workflowConfig first init) as [st r]
  end.
  simpl in Hg.
  assert (st = st0) as <- by (destruct r; by inversion Hb).
  apply Hg; [apply rtc_refl|]. split; [inversion 1 | inversion 1].
Qed.

Lemma begin_start rt world executor workflowConfig st0 :
  begin rt world executor workflowConfig = inl st0 →
  ∃ start, startNode (executionFlow workflowConfig) = Some start.
Proof.
  unfold begin. destruct (startNode _) as [s|]; [eauto | discriminate].
Qed.

Lemma dispatchedJobs_rooted rt world executor workflowConfig schedule id :
  id ∈ dispatchedJobs rt world executor workflowConfig schedule →
  ∃ start, startNode (executionFlow workflowConfig) = Some start
           ∧ rtc (follows workflowConfig) start id.
Proof.
  unfold dispatchedJobs.
  destruct (begin rt world executor workflowConfig) as [st0|[e w']] eqn:Hb; [|inversion 1].
  destruct (begin_start _ _ _ _ _ Hb) as [start Hstart].
  destruct (traverse_terminates rt world executor workflowConfig schedule st0)
    as (st & -> & _ & Hreach).
  simpl. intros Hid. exists start. split; [done|].
  pose proof (rooted_reaches rt world executor workflowConfig start st0 st Hreach
                (rooted_begin rt world executor workflowConfig start st0 Hb Hstart))
    as [H1 _].
  by apply H1.
Qed.

(** X14. Only jobs on a path of connections from the start node are ever
    dispatched; every other job is still pending when the run resolves. *)
Theorem unreachable_jobs_stay_pending rt world executor workflowConfig schedule w :
  executeWorkflow rt world executor workflowConfig schedule = Resolved w →
  ∃ start,
    startNode (executionFlow workflowConfig) = Some start
    ∧ (∀ id, id ∈ dispatchedJobs rt world executor workflowConfig schedule →
             rtc (follows workflowConfig) start id)
    ∧ (∀ id r, mapGet id (jobResults w) = Some r →
               ¬ rtc (follows workflowConfig) start id → status r = Pending).
Proof.
  intros Hrun. pose proof (resolved_statuses _ _ _ _ _ _ Hrun) as [_ Hst].
  revert Hrun Hst. unfold executeWorkflow, dispatchedJobs.
  destruct (begin rt world executor workflowConfig) as [st0|[e w']] eqn:Hb; [|done].
  destruct (begin_start _ _ _ _ _ Hb) as [start Hstart].
  destruct (traverse_terminates rt world executor workflowConfig schedule st0)
    as (st & Htr & Hnil & Hreach).
  rewrite Htr. intros _ Hst. simpl in Hst. exists start. split; [done|].
  pose proof (rooted_reaches rt world executor workflowConfig start st0 st Hreach
                (rooted_begin rt world executor workflowConfig start st0 Hb Hstart))
    as [H1 _].
  split; [exact H1|].
  intros id r Hr Hno. apply (Hst id r Hr). intros Hin. by apply Hno, H1.
Qed.



(** X16. When the timer set for the request's timeout does not fire
    before the server answers, and the answer's status is not ok, the
    API call assigns no result and throws: the status line wrapped
    twice, or, when the status line contains [Failed to fetch], the
    network error message. *)
Theorem api_error_status rt world executor job response :
  truthy (attr job "url") = true →
  PrimFloat.ltb (timerDelay rt (requestTimeoutOf executor job))
    (latency (apiFetch rt world job)) = false →
  settle (apiFetch rt world job) = Responds response →
  ok response = false →
  let failure :=
    "API call failed with status " +:+ ToString rt (JNumber (statusCode response))
      +:+ ": " +:+ statusText_ response in
  let run := executeAPICallJob rt world executor job in
  written run = None
  ∧ failure ∈ later run
  ∧ (includes failure "Failed to fetch" = false →
     thrown run = Some (newError ("API call failed: " +:+ failure))
     ∧ ("API call error: " +:+ failure) ∈ later run)
  ∧ (includes failure "Failed to fetch" = true →
     thrown run
     = Some (newError ("Network error: Possible CORS issue or server unreachable. URL: "
                       +:+ ToString rt (attr job "url")))).
Proof.
  intros Hurl Htime Hsettle Hok failure run. subst run.
  unfold executeAPICallJob. rewrite Hurl. cbn [negb]. rewrite Htime, Hsettle.
  match goal with
  | |- context [let '(_, _) := ?x in _] => destruct x as [parsing responseData]
  end.
  rewrite Hok. cbn [negb].
  unfold apiCallCatch, newError. cbn [name message].
  change (String.eqb "Error" "AbortError") with false. cbn iota.
  fold failure. destruct (includes failure "Failed to fetch");
    cbn [thrown written later]; (split; [done|]);
    (split; [rewrite !elem_of_app; left; right; right; by left|]).
  - split; [done|]. intros _. done.
  - split; [|done]. intros _. split; [done|]. rewrite !elem_of_app. right. left.
Qed.





Lemma executeFromNode_missing rt world executor workflowConfig id st :
  id ∉ executedNodes st →
  match findJob (jobs workflowConfig) id with
  | None =>
      executeFromNode rt world executor workflowConfig id st
      = (onResult (log ("❌ " +:+ notFoundMessage workflowConfig id))
           (onResult (log ("🎯 Attempting to execute node: " +:+ id)) st),
         JobNotFound (notFoundMessage workflowConfig id))
  | Some _ =>
      ∀ msg, snd (executeFromNode rt world executor workflowConfig id st) ≠ JobNotFound msg
  end.
Proof.
  intros Hid. unfold executeFromNode.
  rewrite (bool_decide_eq_false_2 (id ∈ executedNodes _)) by done.
  destruct (findJob _ id) as [job|]; [|done].
  intros msg. by destruct (pendingDependencies _ job).
Qed.

Lemma executeWorkflow_outcome rt world executor workflowConfig schedule :
  match executeWorkflow rt world executor workflowConfig schedule with
  | Resolved w =>
      wstatus w = WCompleted
      ∧ ∃ start, startNode (executionFlow workflowConfig) = Some start ∧ start ≠ ""
                 ∧ is_Some (findJob (jobs workflowConfig) start)
  | Rejected e w =>
      wstatus w = WFailed
      ∧ (∀ id r, mapGet id (jobResults w) = Some r → status r = Pending)
      ∧ (((startNode (executionFlow workflowConfig) = None
           ∨ startNode (executionFlow workflowConfig) = Some "")
          ∧ e = newError "No start node found in workflow")
         ∨ ∃ start, startNode (executionFlow workflowConfig) = Some start ∧ start ≠ ""
                    ∧ findJob (jobs workflowConfig) start = None
                    ∧ e = newError (notFoundMessage workflowConfig start))
  | Unfinished => False
  end.
Proof.
  unfold executeWorkflow.
  destruct (begin rt world executor workflowConfig) as [st0|[e w]] eqn:Hb.
  - destruct (traverse_terminates rt world executor workflowConfig schedule st0)
      as (st & -> & _ & _).
    destruct (finish_completed (workflowResult st)) as [Hs _]. split; [done|].
    revert Hb. unfold begin.
    destruct (startNode _) as [[|c s]|]; [discriminate| |discriminate].
    match goal with |- context [Engine.executeFromNode _ _ _ _ ?first ?init] =>
      pose proof (executeFromNode_missing rt world executor workflowConfig first init) as Hm
    end.
    intros Hb. exists (String c s). split; [done|]. split; [done|].
    destruct (findJob _ (String c s)) as [job|]; [by eexists|].
    rewrite Hm in Hb by set_solver. done.
  - revert Hb. unfold begin.
    destruct (initial_records (jobs workflowConfig)
                (log ("🚀 Starting REAL workflow execution with "
                        +:+ countText (length (jobs workflowConfig)) +:+ " jobs")
                   (initialResult rt))) as (Hpending & _); [done|].
    destruct (startNode _) as [[|c s]|].
    + intros H. inversion H; subst. split; [done|]. split; [exact Hpending|].
      left. split; [by right | done].
    + match goal with |- context [Engine.executeFromNode _ _ _ _ ?first ?init] =>
        pose proof (executeFromNode_missing rt world executor workflowConfig first init) as Hm
      end.
      destruct (findJob _ (String c s)) as [job|] eqn:Hjob.
      * intros H. exfalso.
        destruct (Engine.executeFromNode _ _ _ _ _ _) as [st r].
        destruct r; try discriminate. by eapply (Hm ltac:(set_solver)).
      * rewrite Hm by set_solver. intros H. inversion H; subst.
        split; [done|]. split; [exact Hpending|].
        right. exists (String c s). done.
    + intros H. inversion H; subst. split; [done|]. split; [exact Hpending|].
      left. split; [by left | done].
Qed.

(** X17. A run that settles is rejected only when the document names no
    start node or the start node names no job, with status failed and
    every job still pending; otherwise it resolves with status
    completed.  Whether a run settles is left open here. *)
Theorem run_outcome rt world executor workflowConfig schedule :
  match executeWorkflow rt world executor workflowConfig schedule with
  | Resolved w =>
      wstatus w = WCompleted
      ∧ ∃ start, startNode (executionFlow workflowConfig) = Some start ∧ start ≠ ""
                 ∧ is_Some (findJob (jobs workflowConfig) start)
  | Rejected e w =>
      wstatus w = WFailed
      ∧ (∀ id r, mapGet id (jobResults w) = Some r → status r = Pending)
      ∧ (((startNode (executionFlow workflowConfig) = None
           ∨ startNode (executionFlow workflowConfig) = Some "")
          ∧ e = newError "No start node found in workflow")
         ∨ ∃ start, startNode (executionFlow workflowConfig) = Some start ∧ start ≠ ""
                    ∧ findJob (jobs workflowConfig) start = None
                    ∧ e = newError (notFoundMessage workflowConfig start))
  | Unfinished => True
  end.
Proof.
  pose proof (executeWorkflow_outcome rt world executor workflowConfig schedule) as H.
  by destruct (executeWorkflow rt world executor workflowConfig schedule).
Qed.

(** ** Part XIV.  The dispatch trace *)

Section Chronology.
Context (rt : Runtime) (world : World) (executor : Executor)
        (workflowConfig : BackendJobsConfig).

Local Abbreviation executeFromNode := (Engine.executeFromNode rt world executor workflowConfig).
Local Abbreviation startNext := (Engine.startNext rt world executor workflowConfig).
Local Abbreviation resume := (Engine.resume rt world executor workflowConfig).
Local Abbreviation chronological := (Notions.chronological workflowConfig).
Local Abbreviation accounted := (Notions.accounted workflowConfig).

Lemma chronological_executeFromNode id st :
  chronological st → chronological (fst (executeFromNode id st)).
Proof.
  intros [H1 H2]. destruct (executeFromNode id st) as [st' r] eqn:E. simpl.
  pose proof (executeFromNode_control rt world executor workflowConfig _ _ _ _ E) as [He Hc].
  destruct r; try (destruct Hc as [Ht Hd]; split; rewrite ?He, Hd; done).
  destruct Hc as (job & t & Hjob & _ & Hpend & _ & _ & Hd).
  split.
  - rewrite He, Hd. intros x Hx. apply elem_of_app. left. by apply H1.
  - rewrite Hd. intros l1 b l2 job' dep Heq Hjob' Hdep.
    destruct l2 as [|z l2 _] using rev_ind.
    + apply app_inj_tail in Heq as [<- <-].
      assert (job' = job) as -> by congruence.
      apply H1. by destruct (pendingDependencies_nil st job dep Hpend Hdep).
    + rewrite app_comm_cons, app_assoc in Heq. apply app_inj_tail in Heq as [Heq _].
      by eapply H2.
Qed.

Lemma chronological_startNext nextJobs : ∀ st,
  chronological st → chronological (startNext nextJobs st).
Proof.
  unfold Engine.startNext. induction nextJobs as [|n ns IH]; intros st Hg; simpl; [done|].
  by apply IH, chronological_executeFromNode.
Qed.

Lemma chronological_resume i st :
  accounted st → chronological st → chronological (resume i st).
Proof.
  intros (_ & Htasks & _) [H1 H2]. unfold Engine.resume.
  destruct (tasks st !! i) as [t|] eqn:Hi; [|done].
  set (st0 := withTasks (delete i (tasks st)) st).
  assert (Hdisp : nodeId (taskJob t) ∈ dispatched st).
  { apply Htasks. apply list_elem_of_lookup. eauto. }
  destruct t as [job run|job caught|job nextJobs].
  - destruct (continue_AwaitHandler_control rt world executor workflowConfig job run st0)
      as (He & Hd & _).
    split; rewrite ?He, Hd; done.
  - destruct (continue_AwaitJob_control rt world executor workflowConfig job caught st0)
      as (He & Hd & _).
    split; rewrite ?He, Hd; [|done].
    intros x [->%elem_of_singleton|Hx]%elem_of_union; [done | by apply H1].
  - by apply chronological_startNext.
Qed.

Lemma chronological_reaches st0 st :
  reaches rt world executor workflowConfig st0 st →
  accounted st0 → chronological st0 → accounted st ∧ chronological st.
Proof.
  induction 1 as [|st i Hr IH Hi]; intros Ha Hc; [done|].
  destruct (IH Ha Hc) as [Ha' Hc']. split.
  - by apply accounted_resume.
  - by apply chronological_resume.
Qed.

Lemma chronological_begin st0 :
  begin rt world executor workflowConfig = inl st0 → chronological st0.
Proof.
  unfold begin.
  destruct (startNode _) as [[|c s]|]; [discriminate| |discriminate].
  match goal with |- context [Engine.executeFromNode _ _ _ _ ?first ?init] =>
    pose proof (chronological_executeFromNode first init) as Hg;
    destruct (Engine.executeFromNode rt world executor workflowConfig first init) as [st r]
  end.
  simpl in Hg. intros H.
  assert (st = st0) as <- by (destruct r; by inversion H).
  apply Hg. split; [set_solver|]. intros l1 b l2 job dep Heq. by destruct l1.
Qed.

End Chronology.

(** X18. In the trace of a run every job is dispatched after all its
    dependencies. *)
Theorem dependencies_dispatched_first rt world executor workflowConfig schedule
    l1 b l2 job dep :
  dispatchedJobs rt world executor workflowConfig schedule = l1 ++ b :: l2 →
  findJob (jobs workflowConfig) b = Some job →
  dep ∈ dependencies job →
  sourceJobId dep ∈ l1.
Proof.
  unfold dispatchedJobs.
  destruct (begin rt world executor workflowConfig) as [st0|[e w']] eqn:Hb;
    [|intros H; by destruct l1].
  destruct (traverse_terminates rt world executor workflowConfig schedule st0)
    as (st & -> & _ & Hreach).
  simpl. intros Heq Hjob Hdep.
  destruct (chronological_reaches rt world executor workflowConfig st0 st Hreach)
    as [_ [_ H2]].
  - by apply (accounted_begin rt world executor).
  - by apply (chronological_begin rt world executor).
  - by eapply H2.
Qed.

Lemma NoDup_flat_map_inj {A} (f : A → list string) (l : list A) a b x :
  NoDup (flat_map f l) → a ∈ l → b ∈ l → x ∈ f a → x ∈ f b → a = b.
Proof.
  induction l as [|c l IH]; simpl; [inversion 2|].
  intros (Hc & Hdisj & Hl)%NoDup_app [->|Ha]%elem_of_cons [->|Hb]%elem_of_cons Hxa Hxb.
  - done.
  - exfalso. apply (Hdisj x Hxa). apply ConnectionFacts.elem_of_flat_map. eauto.
  - exfalso. apply (Hdisj x Hxb). apply ConnectionFacts.elem_of_flat_map. eauto.
  - by apply IH.
Qed.

Lemma elem_of_concat_map {A} (f : A → list string) (l : list A) x :
  x ∈ concat (map f l) ↔ ∃ a, a ∈ l ∧ x ∈ f a.
Proof.
  induction l as [|c l IH]; simpl.
  - split; [inversion 1 | intros (? & H & _); inversion H].
  - rewrite elem_of_app, IH. split.
    + intros [?|(a & Ha & Hx)]; [exists c; split; [by left | done]|].
      exists a. split; [by right | done].
    + intros (a & [->|Ha]%elem_of_cons & Hx); [by left | right; eauto].
Qed.

Lemma NoDup_flat_map_part {A} (f : A → list string) (l : list A) a :
  NoDup (flat_map f l) → a ∈ l → NoDup (f a).
Proof.
  induction l as [|c l IH]; simpl; [inversion 2|].
  intros (Hc & _ & Hl)%NoDup_app [->|Ha]%elem_of_cons; [done | by apply IH].
Qed.

Section Tree.
Context (rt : Runtime) (world : World) (executor : Executor)
        (workflowConfig : BackendJobsConfig) (start : string).
Hypothesis Htree : treeShaped workflowConfig start.

Local Abbreviation executeFromNode := (Engine.executeFromNode rt world executor workflowConfig).
Local Abbreviation startNext := (Engine.startNext rt world executor workflowConfig).
Local Abbreviation resume := (Engine.resume rt world executor workflowConfig).
Local Abbreviation single := (Notions.single workflowConfig start).
Local Abbreviation follows := (Notions.follows workflowConfig).

Lemma follows_target p x : follows p x → x ∈ allTargets workflowConfig.
Proof.
  intros (job & Hjob & Hx). apply findJob_nodeId in Hjob as [_ Hin].
  apply ConnectionFacts.elem_of_flat_map. eauto.
Qed.

Lemma follows_unique p p' x : follows p x → follows p' x → p = p'.
Proof.
  intros (job & Hjob & Hx) (job' & Hjob' & Hx').
  apply findJob_nodeId in Hjob as [<- Hin]. apply findJob_nodeId in Hjob' as [<- Hin'].
  destruct Htree as [Hnd _].
  by rewrite (NoDup_flat_map_inj _ _ job job' x Hnd Hin Hin' Hx Hx').
Qed.

Lemma follows_not_start p : ¬ follows p start.
Proof. intros H%follows_target. by destruct Htree as [_ Hs]. Qed.

Lemma single_visit n pend st :
  single (n :: pend) st → single pend (fst (executeFromNode n st)).
Proof.
  intros (Hnd & Hpar & Htasks). destruct (executeFromNode n st) as [st' r] eqn:E. simpl.
  pose proof (executeFromNode_control rt world executor workflowConfig _ _ _ _ E) as [_ Hc].
  assert (Hdrop : tasks st' = tasks st → dispatched st' = dispatched st → single pend st').
  { intros Ht Hd. unfold Notions.single. rewrite Ht, Hd. split; [|split; [|done]].
    - assert (Hp : dispatched st ++ concat (map futures (tasks st)) ++ n :: pend
                   ≡ₚ n :: dispatched st ++ concat (map futures (tasks st)) ++ pend)
        by solve_Permutation.
      rewrite Hp in Hnd. by apply NoDup_cons in Hnd as [_ ?].
    - intros x Hx. apply Hpar. rewrite elem_of_app in *.
      destruct Hx as [?|?]; [by left | right; by right]. }
  destruct r; try (destruct Hc as [Ht Hd]; by apply Hdrop).
  destruct Hc as (job & t0 & Hjob & _ & _ & Hent & Ht & Hd).
  pose proof (findJob_nodeId _ _ _ Hjob) as [Hn Hin].
  assert (Hfut : futures t0 = map targetJobId (connections job))
    by (by destruct Hent as [[run ->]|[e ->]]).
  pose proof (entered_taskJob job t0 Hent) as Htj.
  assert (Hfol : ∀ y, y ∈ map targetJobId (connections job) → follows n y).
  { intros y Hy. by exists job. }
  assert (Hn_fresh : n ∉ dispatched st).
  { apply NoDup_app in Hnd as (_ & Hdisj & _). intros Hx. apply (Hdisj n Hx).
    apply elem_of_app. right. by left. }
  assert (Hparent : ∀ y, follows n y →
            y ∉ dispatched st ++ concat (map futures (tasks st)) ++ n :: pend).
  { intros y Hy Hin'.
    assert (Hbad : ∀ p, p ∈ dispatched st → follows p y → False).
    { intros p Hp Hpy. rewrite (follows_unique _ _ _ Hpy Hy) in Hp. done. }
    apply elem_of_app in Hin' as [Hd'|Hin'].
    { destruct (Hpar y) as [->|(p & Hp & Hpy)]; [apply elem_of_app; by left | |by eauto].
      by eapply follows_not_start. }
    apply elem_of_app in Hin' as [Hf|Hp].
    { apply elem_of_concat_map in Hf as (t & Ht' & Hy').
      destruct (Htasks t Ht') as (Hfind & Hdisp & Hsub).
      apply (Hbad (nodeId (taskJob t)) Hdisp). exists (taskJob t). split; [done|].
      by apply Hsub. }
    destruct (Hpar y) as [->|(p & Hp' & Hpy)]; [apply elem_of_app; by right | |by eauto].
    by eapply follows_not_start. }
  unfold Notions.single. rewrite Ht, Hd. split; [|split].
  - rewrite map_app, concat_app. cbn [map concat]. rewrite Hfut, app_nil_r.
    assert (Hp : (dispatched st ++ [n])
                 ++ (concat (map futures (tasks st)) ++ map targetJobId (connections job))
                 ++ pend
                 ≡ₚ (dispatched st ++ concat (map futures (tasks st)) ++ n :: pend)
                    ++ map targetJobId (connections job)) by solve_Permutation.
    rewrite Hp. apply NoDup_app. split; [done|]. split.
    + intros y Hy Hy'. by apply (Hparent y (Hfol y Hy')).
    + destruct Htree as [Hall _].
      by apply (NoDup_flat_map_part (λ job, map targetJobId (connections job))
                  (jobs workflowConfig) job).
  - intros x Hx.
    assert (Hx' : x = n ∨ x ∈ dispatched st ++ n :: pend).
    { rewrite !elem_of_app, list_elem_of_singleton in Hx. rewrite elem_of_app, elem_of_cons.
      naive_solver. }
    destruct (Hpar x) as [?|(p & Hp & Hpx)].
    { destruct Hx' as [->|?]; [apply elem_of_app; right; by left | done]. }
    + by left.
    + right. exists p. split; [apply elem_of_app; by left | done].
  - intros t [Hin'| ->%list_elem_of_singleton]%elem_of_app.
    + destruct (Htasks t Hin') as (? & ? & ?). split; [done|].
      split; [apply elem_of_app; by left | done].
    + rewrite Htj, Hfut, Hn. split; [done|].
      split; [apply elem_of_app; right; by left | done].
Qed.

Lemma single_startNext nextJobs : ∀ rest st,
  single (nextJobs ++ rest) st → single rest (startNext nextJobs st).
Proof.
  unfold Engine.startNext. induction nextJobs as [|n ns IH]; intros rest st Hs; simpl; [done|].
  apply IH. by apply single_visit.
Qed.

Lemma getNextJobs_sublist job r :
  getNextJobs job r `sublist_of` map targetJobId (connections job).
Proof.
  assert (H : ∀ (p : JobConnection → bool) (cs : list JobConnection),
            map targetJobId (List.filter p cs) `sublist_of` map targetJobId cs).
  { intros p cs. induction cs as [|c cs IH]; simpl; [done|].
    destruct (p c); simpl; [by apply sublist_skip | by apply sublist_cons]. }
  unfold getNextJobs. destruct (isConditional job && _); apply H.
Qed.

Lemma single_resume i st : single [] st → single [] (resume i st).
Proof.
  intros (Hnd & Hpar & Htasks). unfold Engine.resume.
  destruct (tasks st !! i) as [t|] eqn:Hi; [|done].
  set (st0 := withTasks (delete i (tasks st)) st).
  assert (Hperm : concat (map futures (tasks st))
                  ≡ₚ futures t ++ concat (map futures (delete i (tasks st)))).
  { rewrite (delete_Permutation _ _ _ Hi) at 1. done. }
  assert (Htin : t ∈ tasks st) by (apply list_elem_of_lookup; eauto).
  destruct (Htasks t Htin) as (Hfind & Hdisp & Hsub).
  assert (Hrest : ∀ t', t' ∈ delete i (tasks st) →
            findJob (jobs workflowConfig) (nodeId (taskJob t')) = Some (taskJob t')
            ∧ nodeId (taskJob t') ∈ dispatched st
            ∧ ∀ x, x ∈ futures t' → x ∈ map targetJobId (connections (taskJob t'))).
  { intros t' Ht'. apply Htasks. by eapply elem_of_delete_sub. }
  rewrite app_nil_r in Hnd. rewrite Hperm in Hnd.
  assert (Hpar0 : ∀ x, x ∈ dispatched st →
            x = start ∨ ∃ p, p ∈ dispatched st ∧ follows p x).
  { intros x Hx. apply Hpar. rewrite app_nil_r. done. }
  assert (Hkeep : ∀ (t' : Task) (st' : ExecState),
            dispatched st' = dispatched st →
            tasks st' = delete i (tasks st) ++ [t'] →
            taskJob t' = taskJob t →
            futures t' `sublist_of` futures t →
            single [] st').
  { intros t' st' Hd Ht Hjob Hfut. unfold Notions.single. rewrite Hd, Ht.
    split; [|split].
    - rewrite app_nil_r, map_app, concat_app. simpl. rewrite app_nil_r.
      assert (Hp : dispatched st ++ concat (map futures (delete i (tasks st))) ++ futures t'
                   ≡ₚ futures t' ++ dispatched st
                      ++ concat (map futures (delete i (tasks st)))) by solve_Permutation.
      rewrite Hp.
      assert (Hp' : dispatched st ++ futures t ++ concat (map futures (delete i (tasks st)))
                    ≡ₚ futures t ++ dispatched st
                       ++ concat (map futures (delete i (tasks st)))) by solve_Permutation.
      rewrite Hp' in Hnd. eapply sublist_NoDup; [exact Hnd|].
      by apply sublist_app.
    - intros x Hx. rewrite app_nil_r in Hx. by apply Hpar0.
    - intros t'' [Hin| ->%list_elem_of_singleton]%elem_of_app; [by apply Hrest|].
      rewrite Hjob. split; [done|]. split; [done|].
      intros x Hx. apply Hsub. eapply elem_of_sublist; [exact Hx | done]. }
  destruct t as [job run|job caught|job nextJobs].
  - destruct (continue_AwaitHandler_control rt world executor workflowConfig job run st0)
      as (_ & Hd & caught & Hts).
    by apply (Hkeep (AwaitJob job caught)).
  - destruct (continue_AwaitJob_control rt world executor workflowConfig job caught st0)
      as (_ & Hd & jobResult & Hts).
    apply (Hkeep (AwaitNext job (getNextJobs job jobResult))); [done..|].
    apply getNextJobs_sublist.
  - apply single_startNext. rewrite app_nil_r. unfold Notions.single. simpl.
    split; [|split; [|done]].
    + assert (Hp : dispatched st ++ concat (map futures (delete i (tasks st))) ++ nextJobs
                   ≡ₚ dispatched st ++ nextJobs
                      ++ concat (map futures (delete i (tasks st)))) by solve_Permutation.
      by rewrite Hp.
    + intros x [Hx|Hx]%elem_of_app; [by apply Hpar0|].
      right. exists (nodeId job). split; [done|]. exists job. split; [done|].
      by apply Hsub.
Qed.

Lemma single_reaches st0 st :
  reaches rt world executor workflowConfig st0 st → single [] st0 → single [] st.
Proof. induction 1; intros Hg; [done|]. by apply single_resume, IHreaches. Qed.

End Tree.

Lemma single_begin rt world executor workflowConfig start st0 :
  treeShaped workflowConfig start →
  startNode (executionFlow workflowConfig) = Some start →
  begin rt world executor workflowConfig = inl st0 →
  single workflowConfig start [] st0.
Proof.
  intros Htree Hstart. unfold begin. rewrite Hstart.
  destruct start as [|c s]; [discriminate|].
  match goal with |- context [Engine.executeFromNode _ _ _ _ ?first ?init] =>
    pose proof (single_visit rt world executor workflowConfig (String c s) Htree
                  first [] init) as Hg;
    destruct (Engine.executeFromNode rt world executor workflowConfig first init) as [st r]
  end.
  simpl in Hg. intros H.
  assert (st = st0) as <- by (destruct r; by inversion H).
  apply Hg. split; [|split].
  - simpl. apply NoDup_singleton.
  - intros x Hx. simpl in Hx. apply list_elem_of_singleton in Hx. by left.
  - inversion 1.
Qed.

Lemma treeShaped_once rt world executor workflowConfig start schedule :
  treeShaped workflowConfig start →
  startNode (executionFlow workflowConfig) = Some start →
  NoDup (dispatchedJobs rt world executor workflowConfig schedule).
Proof.
  intros Htree Hstart. unfold dispatchedJobs.
  destruct (begin rt world executor workflowConfig) as [st0|[e w']] eqn:Hb; [|constructor].
  destruct (traverse_terminates rt world executor workflowConfig schedule st0)
    as (st & -> & _ & Hreach).
  simpl.
  destruct (single_reaches rt world executor workflowConfig start Htree st0 st Hreach)
    as (Hnd & _).
  - by apply (single_begin rt world executor).
  - by apply NoDup_app in Hnd as [? _].
Qed.

(** X19. In a document shaped like a tree no job is dispatched twice. *)
Theorem tree_dispatches_once rt world executor workflowConfig start schedule :
  treeShaped workflowConfig start →
  startNode (executionFlow workflowConfig) = Some start →
  NoDup (dispatchedJobs rt world executor workflowConfig schedule).
Proof. apply treeShaped_once. Qed.
(** *** Progress of the traversal *)

Section Progress.
Context (rt : Runtime) (world : World) (executor : Executor)
        (workflowConfig : BackendJobsConfig).

Local Abbreviation executeFromNode := (Engine.executeFromNode rt world executor workflowConfig).
Local Abbreviation startNext := (Engine.startNext rt world executor workflowConfig).
Local Abbreviation continue := (Engine.continue rt world executor workflowConfig).
Local Abbreviation resume := (Engine.resume rt world executor workflowConfig).
Local Abbreviation accounted := (Notions.accounted workflowConfig).
Local Abbreviation advancing := (Notions.advancing workflowConfig).
Local Abbreviation tracked := (Notions.tracked workflowConfig).
Local Abbreviation closed := (Notions.closed workflowConfig).
Local Abbreviation attended := (Notions.attended workflowConfig).

Lemma attended_mono j n st st' :
  (∀ x, x ∈ dispatched st → x ∈ dispatched st') → attended j n st → attended j n st'.
Proof. intros Hd [H|H]; [left; by apply Hd | by right]. Qed.

Lemma inFlight_mono j st st' :
  (∀ t, t ∈ tasks st → t ∈ tasks st') → inFlight j st → inFlight j st'.
Proof. intros Ht (t & Hin & H). exists t. split; [by apply Ht | done]. Qed.

(** Why a visit has not dispatched its job. *)
Lemma executeFromNode_visit id st st' r :
  executeFromNode id st = (st', r) →
  match r with
  | AlreadyExecuted => id ∈ executedNodes st
  | JobNotFound _ => findJob (jobs workflowConfig) id = None
  | Waiting =>
      ∃ job dep, findJob (jobs workflowConfig) id = Some job ∧ dep ∈ dependencies job
                 ∧ (sourceJobId dep ∉ executedNodes st
                    ∨ (statusOf st (sourceJobId dep) ≠ Some Completed
                       ∧ statusOf st (sourceJobId dep) ≠ Some Failed))
  | Started => id ∈ dispatched st'
  end.
Proof.
  unfold Engine.executeFromNode.
  set (st0 := onResult _ st).
  case_bool_decide as Hex; [intros H; by inversion H|].
  destruct (findJob _ id) as [job|] eqn:Hjob; [|intros H; by inversion H].
  pose proof (findJob_nodeId _ _ _ Hjob) as [Hid _].
  set (st1 := warnFailedDependencies job (logDependencies job st0)).
  destruct (pendingDependencies st0 job) as [|d ds] eqn:Hpend.
  - intros H; inversion H; subst st' r; clear H.
    destruct (executeJob_call_control rt world executor job st1) as (t & _ & _ & _ & ->).
    apply elem_of_app. right. rewrite Hid. by left.
  - intros H; inversion H; subst st' r; clear H.
    assert (Hd : d ∈ pendingDependencies st0 job) by (rewrite Hpend; by left).
    unfold pendingDependencies in Hd.
    apply list_elem_of_In, filter_In in Hd as [Hin Hp]. apply list_elem_of_In in Hin.
    exists job, d. split; [done|]. split; [done|].
    unfold isPendingDependency in Hp. apply orb_true_iff in Hp as [Hp|Hp].
    + left. apply negb_true_iff, bool_decide_eq_false in Hp. done.
    + right. apply andb_true_iff in Hp as [Hc Hf]. apply negb_true_iff in Hc, Hf.
      change (dependencyStatus st0 d) with (statusOf st (sourceJobId d)) in Hc, Hf.
      split; intros Hs; rewrite Hs in *; done.
Qed.

Lemma tracked_executeFromNode id st :
  tracked st → tracked (fst (executeFromNode id st)).
Proof.
  intros (H1 & H2 & H3). destruct (executeFromNode id st) as [st' r] eqn:E. simpl.
  pose proof (executeFromNode_control rt world executor workflowConfig _ _ _ _ E)
    as [He Hc].
  unfold Notions.tracked. rewrite He.
  destruct r; try (destruct Hc as [Htk Hdp]; rewrite Htk, Hdp; by split_and!).
  destruct Hc as (job & t & Hjob & _ & _ & Hent & Htk & Hdp).
  pose proof (findJob_nodeId _ _ _ Hjob) as [Hid _].
  pose proof (entered_taskJob job t Hent) as Htj.
  rewrite Htk, Hdp. split; [|split].
  - intros x [Hx| ->%list_elem_of_singleton]%elem_of_app.
    + destruct (H1 x Hx) as [Hsome [Hex|(t' & Hin & Hn & Hk)]]; split; try done.
      * by left.
      * right. exists t'. split; [apply elem_of_app; by left | done].
    + split; [by eexists|]. right. exists t.
      split; [apply elem_of_app; right; by left|]. rewrite Htj. split; [done|].
      by destruct Hent as [[run ->]|[e ->]].
  - intros x Hx. apply elem_of_app. left. by apply H2.
  - intros t' [Hin| ->%list_elem_of_singleton]%elem_of_app; [by apply H3|].
    by rewrite Htj, Hid.
Qed.

Lemma tracked_startNext nextJobs : ∀ st, tracked st → tracked (startNext nextJobs st).
Proof.
  unfold Engine.startNext. induction nextJobs as [|n ns IH]; intros st Hg; simpl; [done|].
  by apply IH, tracked_executeFromNode.
Qed.

Lemma closed_mono j st st' :
  (∀ x, x ∈ dispatched st → x ∈ dispatched st') → closed j st → closed j st'.
Proof.
  intros Hd (job & jr & Hjob & Hall). exists job, jr. split; [done|].
  intros n Hn. eapply attended_mono; eauto.
Qed.

Lemma startNext_grows nextJobs : ∀ st,
  let st' := startNext nextJobs st in
  executedNodes st' = executedNodes st
  ∧ (∀ t, t ∈ tasks st → t ∈ tasks st')
  ∧ (∀ x, x ∈ dispatched st → x ∈ dispatched st').
Proof.
  unfold Engine.startNext. induction nextJobs as [|n ns IH]; intros st; simpl; [done|].
  destruct (executeFromNode n st) as [st1 r] eqn:E. simpl.
  pose proof (executeFromNode_control rt world executor workflowConfig _ _ _ _ E)
    as [He Hc].
  destruct (IH st1) as (He' & Ht' & Hd'). split; [congruence|].
  destruct r; try (destruct Hc as [Htk Hdp]; rewrite Htk, Hdp in *; done).
  destruct Hc as (job & t & _ & _ & _ & _ & Htk & Hdp).
  split; intros ??; [apply Ht'; rewrite Htk | apply Hd'; rewrite Hdp];
    apply elem_of_app; by left.
Qed.

Lemma startNext_appends nextJobs : ∀ st,
  let st' := startNext nextJobs st in
  ∃ new, tasks st' = tasks st ++ new
         ∧ ∀ x, x ∈ dispatched st → x ∈ dispatched st'.
Proof.
  unfold Engine.startNext. induction nextJobs as [|n ns IH]; intros st; simpl.
  { exists []. by rewrite app_nil_r. }
  destruct (executeFromNode n st) as [st1 r] eqn:E. simpl.
  pose proof (executeFromNode_control rt world executor workflowConfig _ _ _ _ E)
    as [He Hc].
  destruct (IH st1) as (new & Hnew & Hd).
  destruct r; try (destruct Hc as [Htk Hdp]; rewrite Htk, Hdp in *; by exists new).
  destruct Hc as (job & t & _ & _ & _ & _ & Htk & Hdp).
  exists (t :: new). rewrite Hnew, Htk, <- app_assoc. split; [done|].
  intros x Hx. apply Hd. rewrite Hdp. apply elem_of_app. by left.
Qed.

(** The invocation of an executed job [j] deals with each of the next
    jobs it visits, unless [j] has been dispatched again and is
    running. *)
Lemma startNext_attends j nextJobs : ∀ st,
  accounted st → tracked st → j ∈ executedNodes st →
  let st' := startNext nextJobs st in
  (∃ job run, AwaitHandler job run ∈ tasks st' ∧ nodeId job = j)
  ∨ ∀ n, n ∈ nextJobs → attended j n st'.
Proof.
  induction nextJobs as [|n ns IH]; intros st Hacc Hadv Hj; simpl.
  { right. intros n Hn. inversion Hn. }
  destruct (executeFromNode n st) as [st1 r] eqn:E.
  pose proof (accounted_executeFromNode rt world executor workflowConfig n st Hacc) as Hacc1.
  pose proof (tracked_executeFromNode n st Hadv) as Hadv1.
  pose proof (executeFromNode_control rt world executor workflowConfig _ _ _ _ E)
    as [He Hc].
  pose proof (executeFromNode_visit _ _ _ _ E) as Hv.
  rewrite E in Hacc1, Hadv1. simpl in Hacc1, Hadv1.
  change (Engine.startNext rt world executor workflowConfig (n :: ns) st)
    with (startNext ns st1).
  destruct (startNext_grows ns st1) as (_ & Hts & Hds).
  assert (Hone : (∃ job run, AwaitHandler job run ∈ tasks st1 ∧ nodeId job = j)
                 ∨ attended j n st1).
  { destruct Hadv as (H1 & H2 & H3). destruct Hadv1 as (_ & H2' & _).
    destruct r.
    - right. left. apply H2'. by rewrite He.
    - right. right. by left.
    - destruct Hv as (job & dep & Hjob & Hdep & Hwhy).
      destruct (decide (sourceJobId dep = j)) as [Hsrc|Hsrc];
        [|right; right; right; by exists job, dep].
      left. rewrite Hsrc in Hwhy. destruct Hwhy as [Hno|[Hcm Hf]]; [done|].
      destruct Hacc as (A1 & A2 & A3).
      destruct (H1 j (H2 j Hj)) as [[jobj Hjobj] _].
      pose proof (findJob_nodeId _ _ _ Hjobj) as [Hid Hin].
      destruct (A3 jobj Hin) as [s Hs]. rewrite Hid in Hs.
      destruct (A1 j s Hs) as (Hrun & Hskip & Hdisp).
      destruct s; try congruence.
      + exfalso. by apply (proj2 Hdisp (H2 j Hj)).
      + destruct (Hrun eq_refl) as (job' & run & Hin' & Hn'). exists job', run.
        split; [|done]. destruct Hc as [-> _]. done.
    - right. by left. }
  destruct Hone as [(job & run & Hin & Hn)|Hn].
  { left. exists job, run. split; [by apply Hts | done]. }
  destruct (IH st1 Hacc1 Hadv1 ltac:(by rewrite He)) as [Hl|Hr]; [by left|].
  right. intros x [->|Hx]%elem_of_cons; [|by apply Hr].
  eapply attended_mono; [exact Hds | done].
Qed.

Lemma elem_of_delete_or {A} (l : list A) i (t t' : A) :
  l !! i = Some t → t' ∈ l → t' = t ∨ t' ∈ delete i l.
Proof.
  intros Hi Hin. apply list_elem_of_lookup in Hin as [j Hj].
  destruct (decide (j = i)) as [->|Hji]; [left; congruence|]. right.
  apply list_elem_of_lookup.
  destruct (decide (j < i)) as [Hlt|Hge].
  - exists j. by rewrite list_lookup_delete_lt.
  - exists (pred j). rewrite list_lookup_delete_ge by lia.
    replace (S (pred j)) with j by lia. done.
Qed.

Lemma advancing_resume i st : accounted st → advancing st → advancing (resume i st).
Proof.
  intros Hacc [(H1 & H2 & H3) H4]. unfold Engine.resume.
  destruct (tasks st !! i) as [t|] eqn:Hi; [|done].
  set (st0 := withTasks (delete i (tasks st)) st).
  assert (Htin : t ∈ tasks st) by (apply list_elem_of_lookup; eauto).
  pose proof (H3 t Htin) as Hjob.
  assert (Hdisp : nodeId (taskJob t) ∈ dispatched st).
  { destruct Hacc as (_ & A2 & _). by apply A2. }
  assert (Hkeep : ∀ t', t' ∈ tasks st → t' = t ∨ t' ∈ delete i (tasks st)).
  { intros t' Hin. by eapply elem_of_delete_or. }
  assert (Hsub : ∀ t', t' ∈ delete i (tasks st) → t' ∈ tasks st).
  { intros t' Hin. by eapply elem_of_delete_sub. }
  destruct t as [job run|job caught|job nextJobs].
  - (* the handler has settled *)
    destruct (continue_AwaitHandler_control rt world executor workflowConfig job run st0)
      as (He & Hd & caught & Htk).
    cbn [taskJob] in *.
    unfold Notions.advancing, Notions.tracked. rewrite He, Hd, Htk.
    change (executedNodes st0) with (executedNodes st).
    change (dispatched st0) with (dispatched st).
    change (tasks st0) with (delete i (tasks st)).
    split; [split; [|split]|].
    + intros id Hid. destruct (H1 id Hid) as [Hsome [Hex|(t' & Hin & Hn & Hk)]].
      { split; [done | by left]. }
      split; [done|]. right. destruct (Hkeep t' Hin) as [->|Hne].
      * exists (AwaitJob job caught). split; [apply elem_of_app; right; by left | done].
      * exists t'. split; [apply elem_of_app; by left | done].
    + done.
    + intros t' [Hin| ->%list_elem_of_singleton]%elem_of_app; [by apply H3, Hsub | done].
    + intros j Hj. destruct (H4 j Hj) as [(t' & Hin & Hn & Hk)|Hcl];
        [left | right; apply (closed_mono j st); [by rewrite Hd | done]].
      destruct (Hkeep t' Hin) as [->|Hne].
      * exists (AwaitJob job caught). rewrite Htk.
        split; [apply elem_of_app; right; by left | done].
      * exists t'. rewrite Htk. split; [apply elem_of_app; by left | done].
  - (* [executeJob] has settled *)
    destruct (continue_AwaitJob_control rt world executor workflowConfig job caught st0)
      as (He & Hd & jr & Htk).
    cbn [taskJob] in *.
    unfold Notions.advancing, Notions.tracked. rewrite He, Hd, Htk.
    change (executedNodes st0) with (executedNodes st).
    change (dispatched st0) with (dispatched st).
    change (tasks st0) with (delete i (tasks st)).
    split; [split; [|split]|].
    + intros id Hid. destruct (H1 id Hid) as [Hsome [Hex|(t' & Hin & Hn & Hk)]].
      { split; [done | left; set_solver]. }
      split; [done|]. destruct (Hkeep t' Hin) as [->|Hne].
      * left. simpl in Hn. set_solver.
      * right. exists t'. split; [apply elem_of_app; by left | done].
    + intros id [->%elem_of_singleton|Hid]%elem_of_union; [done | by apply H2].
    + intros t' [Hin| ->%list_elem_of_singleton]%elem_of_app; [by apply H3, Hsub | done].
    + assert (Hnew : inFlight (nodeId job)
                       (continue (AwaitJob job caught) st0)).
      { exists (AwaitNext job (getNextJobs job jr)). rewrite Htk.
        split; [apply elem_of_app; right; by left|]. split; [done | by eexists]. }
      intros j [->%elem_of_singleton|Hj]%elem_of_union; [by left|].
      destruct (H4 j Hj) as [(t' & Hin & Hn & Hk)|Hcl];
        [|right; apply (closed_mono j st); [by rewrite Hd | done]].
      destruct (Hkeep t' Hin) as [->|Hne]; [left; simpl in Hn; by subst j|]. left.
      exists t'. rewrite Htk. split; [apply elem_of_app; by left | done].
  - (* the next jobs are started *)
    cbn [taskJob] in *.
    assert (Hacc0 : accounted st0).
    { by apply (accounted_take workflowConfig i (AwaitNext job nextJobs) st None). }
    assert (Htr0 : tracked st0).
    { split; [|split].
      - intros id Hid. destruct (H1 id Hid) as [Hsome [Hex|(t' & Hin & Hn & Hk)]].
        { split; [done | by left]. }
        split; [done|]. right. exists t'. split; [|done].
        by destruct (Hkeep t' Hin) as [->|Hne].
      - done.
      - intros t' Hin. by apply H3, Hsub. }
    change (Engine.continue rt world executor workflowConfig (AwaitNext job nextJobs) st0)
      with (startNext nextJobs st0).
    split; [by apply tracked_startNext|].
    destruct (startNext_grows nextJobs st0) as (He & Hts & Hds).
    intros j Hj. rewrite He in Hj. change (executedNodes st0) with (executedNodes st) in Hj.
    destruct (H4 j Hj) as [(t' & Hin & Hn & Hk)|Hcl];
      [|right; by apply (closed_mono j st0)].
    destruct (Hkeep t' Hin) as [->|Hne].
    + simpl in Hn, Hk. destruct Hk as [jr ->]. subst j.
      destruct (startNext_attends (nodeId job) (getNextJobs job jr) st0 Hacc0 Htr0 Hj)
        as [(job' & run & Hin' & Hn')|Hall].
      * left. exists (AwaitHandler job' run). by split.
      * right. by exists job, jr.
    + left. exists t'. split; [by apply Hts | done].
Qed.

Lemma advancing_reaches st0 st :
  reaches rt world executor workflowConfig st0 st →
  accounted st0 → advancing st0 → accounted st ∧ advancing st.
Proof.
  induction 1 as [|st i Hr IH Hi]; intros Hacc Hadv; [done|].
  destruct (IH Hacc Hadv) as [Ha Hb]. split.
  - by apply accounted_resume.
  - by apply advancing_resume.
Qed.

Lemma advancing_begin st0 :
  begin rt world executor workflowConfig = inl st0 → advancing st0.
Proof.
  unfold begin.
  destruct (startNode _) as [[|c s]|]; [discriminate| |discriminate].
  match goal with |- context [Engine.executeFromNode _ _ _ _ ?i ?s] =>
    pose proof (tracked_executeFromNode i s) as Hg;
    pose proof (executeFromNode_control rt world executor workflowConfig i s) as Hc;
    destruct (Engine.executeFromNode rt world executor workflowConfig i s) as [st r]
  end.
  simpl in Hg. intros H.
  assert (st = st0) as <- by (destruct r; by inversion H).
  destruct (Hc st r eq_refl) as [He _]. split.
  - apply Hg. split; [|split]; simpl; intros ? Hin; by inversion Hin || set_solver.
  - intros j Hj. rewrite He in Hj. simpl in Hj. set_solver.
Qed.

End Progress.

Section Continuation.
Context (rt : Runtime) (world : World) (executor : Executor)
        (workflowConfig : BackendJobsConfig).

Local Abbreviation executeFromNode := (Engine.executeFromNode rt world executor workflowConfig).
Local Abbreviation startNext := (Engine.startNext rt world executor workflowConfig).
Local Abbreviation continue := (Engine.continue rt world executor workflowConfig).

(** A failed job is marked executed and its invocation goes on to its
    next jobs. *)
Lemma continue_caught job e st :
  let st' := continue (AwaitJob job (Some e)) st in
  nodeId job ∈ executedNodes st'
  ∧ tasks st' = tasks st ++ [AwaitNext job (getNextJobs job (jobResultOf st' job))]
  ∧ wstatus (workflowResult st') = wstatus (workflowResult st).
Proof. simpl. split; [set_solver | done]. Qed.

(** A visit leaves the statuses of the executed jobs as they are. *)
Lemma executeFromNode_executed id st st' r x :
  executeFromNode id st = (st', r) → x ∈ executedNodes st →
  statusOf st' x = statusOf st x.
Proof.
  intros E Hx.
  pose proof (executeFromNode_control rt world executor workflowConfig _ _ _ _ E)
    as [_ Hc].
  pose proof (executeFromNode_statuses rt world executor workflowConfig _ _ _ _ E) as Hs.
  destruct r; try exact (Hs x).
  destruct Hc as (job & t & _ & Hno & _).
  assert (Hne : x ≠ id) by (intros ->; done).
  destruct Hs as [[Hs _]|Hs]; rewrite (Hs x); by rewrite decide_False.
Qed.

(** The next jobs that can run are started: each one that names a job,
    is not executed and has its dependencies executed, completed or
    failed, gets a new invocation. *)
Lemma startNext_starts nextJobs : ∀ st n jobN,
  n ∈ nextJobs → findJob (jobs workflowConfig) n = Some jobN → n ∉ executedNodes st →
  (∀ dep, dep ∈ dependencies jobN →
     sourceJobId dep ∈ executedNodes st
     ∧ (dependencyStatus st dep = Some Completed ∨ dependencyStatus st dep = Some Failed)) →
  let st' := startNext nextJobs st in
  n ∈ dispatched st'
  ∧ ∃ new t, tasks st' = tasks st ++ new ∧ t ∈ new ∧ entered jobN t.
Proof.
  induction nextJobs as [|m ns IH]; intros st n jobN Hn Hjob Hno Hdeps; [inversion Hn|].
  destruct (executeFromNode m st) as [st1 r] eqn:E.
  assert (Hstep : startNext (m :: ns) st = startNext ns st1).
  { unfold Engine.startNext. simpl. by rewrite E. }
  cbv zeta. rewrite Hstep. clear Hstep.
  pose proof (executeFromNode_control rt world executor workflowConfig _ _ _ _ E)
    as [He Hc].
  destruct (decide (m = n)) as [->|Hmn].
  - destruct (executeFromNode_starts rt world executor workflowConfig n jobN st Hjob Hno Hdeps)
      as (st1' & E' & _).
    rewrite E in E'. inversion E'; subst st1' r. clear E'.
    destruct Hc as (job & t & Hjob' & _ & _ & Hent & Htk & Hdp).
    rewrite Hjob in Hjob'. inversion Hjob'; subst job.
    destruct (startNext_appends rt world executor workflowConfig ns st1) as (new & Hnew & Hd).
    split.
    + apply Hd. rewrite Hdp. apply elem_of_app. right. by left.
    + exists (t :: new), t. rewrite Hnew, Htk, <- app_assoc. split; [done|].
      split; [by left | done].
  - apply elem_of_cons in Hn as [->|Hn]; [done|].
    destruct (IH st1 n jobN Hn Hjob ltac:(by rewrite He)) as (Hd & new & t & Hnew & Hin & Hent).
    { intros dep Hdep. destruct (Hdeps dep Hdep) as [Hex Hst]. split; [by rewrite He|].
      change (dependencyStatus st1 dep) with (statusOf st1 (sourceJobId dep)).
      by rewrite (executeFromNode_executed _ _ _ _ _ E Hex). }
    split; [done|].
    assert (Hpre : ∃ pre, tasks st1 = tasks st ++ pre).
    { destruct r; try (destruct Hc as [-> _]; exists []; by rewrite app_nil_r).
      destruct Hc as (job & t' & _ & _ & _ & _ & -> & _). by eexists. }
    destruct Hpre as [pre Hpre]. exists (pre ++ new), t.
    rewrite Hnew, Hpre, <- app_assoc. split; [done|]. split; [|done].
    apply elem_of_app. by right.
Qed.

End Continuation.

(** When the run has resolved, no job is left running, and every job
    that was started, failed or not, has dealt with its next jobs. *)
Lemma executeWorkflow_goes_on rt world executor workflowConfig schedule st0 :
  begin rt world executor workflowConfig = inl st0 →
  ∃ w, executeWorkflow rt world executor workflowConfig schedule = Resolved w
       ∧ wstatus w = WCompleted
       ∧ (∀ id r, (id, r) ∈ jobResults w → status r = Failed →
                  failedJobLine r ∈ executionLogs w)
       ∧ (∀ id r, mapGet id (jobResults w) = Some r →
            status r = Pending ∨ status r = Completed ∨ status r = Failed)
       ∧ (∀ j job r,
            findJob (jobs workflowConfig) j = Some job →
            mapGet j (jobResults w) = Some r → status r ≠ Pending →
            ∃ jobResult, ∀ n, n ∈ getNextJobs job jobResult →
              (∃ r', mapGet n (jobResults w) = Some r' ∧ status r' ≠ Pending)
              ∨ findJob (jobs workflowConfig) n = None
              ∨ ∃ jobN dep, findJob (jobs workflowConfig) n = Some jobN
                            ∧ dep ∈ dependencies jobN ∧ sourceJobId dep ≠ j).
Proof.
  intros Hb.
  destruct (executeWorkflow_resolves rt world executor workflowConfig schedule st0 Hb)
    as (st & Hreach & Hnil & ->).
  eexists. split; [done|].
  destruct (finish_completed (workflowResult st)) as [Hs Hj].
  split; [done|]. split; [intros id r; rewrite Hj; apply finish_enumerates|].
  rewrite Hj.
  destruct (advancing_reaches rt world executor workflowConfig st0 st Hreach
              (accounted_begin rt world executor workflowConfig st0 Hb)
              (advancing_begin rt world executor workflowConfig st0 Hb))
    as [(A1 & A2 & A3) [(T1 & T2 & T3) Hadv]].
  assert (Hstat : ∀ id r, mapGet id (jobResults (workflowResult st)) = Some r →
            statusOf st id = Some (status r)).
  { intros id r Hr. unfold statusOf. by rewrite Hr. }
  split.
  - intros id r Hr. destruct (A1 id (status r) (Hstat id r Hr)) as (Hrun & Hskip & _).
    destruct (status r) eqn:Es; eauto; [|done].
    destruct Hrun as (job & run & Hin & _); [done|]. rewrite Hnil in Hin. inversion Hin.
  - intros j job r Hjob Hr Hne.
    destruct (A1 j (status r) (Hstat j r Hr)) as (_ & _ & Hdisp).
    apply Hdisp in Hne.
    destruct (T1 j Hne) as [_ [Hex|(t & Hin & _)]]; [|rewrite Hnil in Hin; inversion Hin].
    destruct (Hadv j Hex) as [(t & Hin & _)|(job' & jr & Hjob' & Hall)];
      [rewrite Hnil in Hin; inversion Hin|].
    rewrite Hjob in Hjob'. inversion Hjob'; subst job'. exists jr. intros n Hn.
    destruct (Hall n Hn) as [Hd|[Hnone|Hdep]]; [left | right; by left | right; by right].
    destruct (T1 n Hd) as [[jobN HjobN] _].
    pose proof (findJob_nodeId _ _ _ HjobN) as [Hid Hin].
    destruct (A3 jobN Hin) as [s Hsn]. rewrite Hid in Hsn. unfold statusOf in Hsn.
    destruct (mapGet n _) as [r'|] eqn:Hr'; [|done]. exists r'. split; [done|].
    destruct (A1 n (status r') (Hstat n r' Hr')) as (_ & _ & Hdn). by apply Hdn.
Qed.

(** While at most one invocation is suspended, the order of the
    resumptions is of no account. *)
Lemma drain_alone rt world executor workflowConfig schedule schedule' : ∀ fuel turn st,
  (∀ k, length (tasks (Nat.iter k (resume rt world executor workflowConfig 0) st)) ≤ 1) →
  drain rt world executor workflowConfig schedule fuel turn st
  = drain rt world executor workflowConfig schedule' fuel turn st.
Proof.
  induction fuel as [|fuel IH]; intros turn st Hone; [done|].
  pose proof (Hone 0) as H0. simpl in H0.
  assert (Hstep : ∀ s, drain rt world executor workflowConfig s (S fuel) turn st
                       = match tasks st with
                         | [] => Some st
                         | _ :: _ =>
                             drain rt world executor workflowConfig s fuel (S turn)
                               (resume rt world executor workflowConfig
                                  (s turn `mod` length (tasks st)) st)
                         end) by done.
  rewrite !Hstep.
  destruct (tasks st) as [|t [|t' ts]] eqn:Ht; [done| |simpl in H0; lia].
  cbn [length]. rewrite !Nat.mod_1_r. apply IH. intros k.
  specialize (Hone (S k)). by rewrite Nat.iter_succ_r in Hone.
Qed.

Lemma resume_idle rt world executor workflowConfig st k :
  tasks st = [] → Nat.iter k (resume rt world executor workflowConfig 0) st = st.
Proof.
  intros Hnil. induction k as [|k IH]; simpl; [done|]. rewrite IH.
  unfold resume. by rewrite Hnil.
Qed.

Lemma alone_by_steps rt world executor workflowConfig st n :
  forallb (λ k, length (tasks (Nat.iter k (resume rt world executor workflowConfig 0) st))
                <=? 1) (seq 0 n) = true →
  tasks (Nat.iter n (resume rt world executor workflowConfig 0) st) = [] →
  ∀ k, length (tasks (Nat.iter k (resume rt world executor workflowConfig 0) st)) ≤ 1.
Proof.
  intros Hall Hnil k. destruct (decide (k < n)) as [Hlt|Hge].
  - rewrite forallb_forall in Hall. apply Nat.leb_le, Hall, in_seq. lia.
  - replace k with ((k - n) + n) by lia. rewrite Nat.iter_add.
    rewrite resume_idle by done. rewrite Hnil. simpl. lia.
Qed.

(** Start → APICall (unreachable) → End, under every order of the
    resumptions. *)
Lemma unreachable_api_continues schedule :
  ∃ w, executeWorkflow Demo.host Demo.offline (newExecutor None) Demo.unreachable schedule
       = Resolved w
       ∧ wstatus w = WCompleted
       ∧ (status <$> mapGet "api" (jobResults w)) = Some Failed
       ∧ (status <$> mapGet "e" (jobResults w)) = Some Completed.
Proof.
  assert (Hsame : executeWorkflow Demo.host Demo.offline (newExecutor None)
                    Demo.unreachable schedule
                  = executeWorkflow Demo.host Demo.offline (newExecutor None)
                      Demo.unreachable Demo.inOrder).
  { unfold executeWorkflow.
    destruct (begin Demo.host Demo.offline (newExecutor None) Demo.unreachable)
      as [st0|[e w]] eqn:Hb; [|done].
    unfold traverse. rewrite (drain_alone _ _ _ _ schedule Demo.inOrder); [done|].
    assert (Hst : st0 = Demo.unreachableStart).
    { unfold Demo.unreachableStart. by rewrite Hb. }
    rewrite Hst. apply (alone_by_steps _ _ _ _ _ 9); vm_compute; reflexivity. }
  rewrite Hsame. eexists. split; [vm_compute; reflexivity|].
  vm_compute. repeat split; reflexivity.
Qed.

(** C3. A failing handler never aborts the run.  Its exception becomes
    the job's failed status and error while the invocation stays alive;
    the invocation then marks the job executed and goes on to the job's
    next jobs, as after a success; each next job that names a job, is
    not executed and whose dependencies are executed, completed or
    failed, is started.  Every run whose start job is found resolves,
    under every order of the resumptions, with status completed and a
    log line for each failed job; no job is left running, and every job
    that was started, failed or not, has dealt with all its next jobs:
    each has been started, or names no job, or depends on another job.
    So Start → APICall (unreachable URL) → End resolves, under every
    order, as completed with the API call failed and the End job
    completed. *)
Theorem job_failure_never_aborts_run rt world executor workflowConfig :
  (∀ job run e st r,
     thrown run = Some e →
     mapGet (nodeId job) (jobResults (workflowResult st)) = Some r →
     let st' := continue rt world executor workflowConfig (AwaitHandler job run) st in
     (∃ r', mapGet (nodeId job) (jobResults (workflowResult st')) = Some r'
            ∧ status r' = Failed ∧ error r' = Some (errorText rt e))
     ∧ tasks st' = tasks st ++ [AwaitJob job (Some e)]
     ∧ wstatus (workflowResult st') = wstatus (workflowResult st))
  ∧ (∀ job e st,
       let st' := continue rt world executor workflowConfig (AwaitJob job (Some e)) st in
       nodeId job ∈ executedNodes st'
       ∧ tasks st' = tasks st ++ [AwaitNext job (getNextJobs job (jobResultOf st' job))]
       ∧ wstatus (workflowResult st') = wstatus (workflowResult st))
  ∧ (∀ job nextJobs st n jobN,
       n ∈ nextJobs → findJob (jobs workflowConfig) n = Some jobN →
       n ∉ executedNodes st →
       (∀ dep, dep ∈ dependencies jobN →
          sourceJobId dep ∈ executedNodes st
          ∧ (dependencyStatus st dep = Some Completed
             ∨ dependencyStatus st dep = Some Failed)) →
       let st' := continue rt world executor workflowConfig (AwaitNext job nextJobs) st in
       n ∈ dispatched st'
       ∧ ∃ new t, tasks st' = tasks st ++ new ∧ t ∈ new ∧ entered jobN t)
  ∧ (∀ schedule st0,
       begin rt world executor workflowConfig = inl st0 →
       ∃ w, executeWorkflow rt world executor workflowConfig schedule = Resolved w
            ∧ wstatus w = WCompleted
            ∧ (∀ id r, (id, r) ∈ jobResults w → status r = Failed →
                       failedJobLine r ∈ executionLogs w)
            ∧ (∀ id r, mapGet id (jobResults w) = Some r →
                 status r = Pending ∨ status r = Completed ∨ status r = Failed)
            ∧ (∀ j job r,
                 findJob (jobs workflowConfig) j = Some job →
                 mapGet j (jobResults w) = Some r → status r ≠ Pending →
                 ∃ jobResult, ∀ n, n ∈ getNextJobs job jobResult →
                   (∃ r', mapGet n (jobResults w) = Some r' ∧ status r' ≠ Pending)
                   ∨ findJob (jobs workflowConfig) n = None
                   ∨ ∃ jobN dep, findJob (jobs workflowConfig) n = Some jobN
                                 ∧ dep ∈ dependencies jobN ∧ sourceJobId dep ≠ j))
  ∧ (∀ schedule,
       ∃ w, executeWorkflow Demo.host Demo.offline (newExecutor None) Demo.unreachable
              schedule = Resolved w
            ∧ wstatus w = WCompleted
            ∧ (status <$> mapGet "api" (jobResults w)) = Some Failed
            ∧ (status <$> mapGet "e" (jobResults w)) = Some Completed).
Proof.
  split; [apply continue_thrown|].
  split; [apply continue_caught|].
  split; [intros job nextJobs; apply startNext_starts|].
  split; [intros schedule st0; apply executeWorkflow_goes_on|].
  apply unreachable_api_continues.
Qed.

Lemma job_failure_never_aborts_run_witness :
  ∃ w, executeWorkflow Demo.host Demo.offline (newExecutor None) Demo.unreachable
         Demo.inOrder = Resolved w
       ∧ wstatus w = WCompleted
       ∧ (status <$> mapGet "api" (jobResults w)) = Some Failed
       ∧ (status <$> mapGet "e" (jobResults w)) = Some Completed.
Proof.
  destruct (job_failure_never_aborts_run Demo.host Demo.offline (newExecutor None)
              Demo.unreachable) as (_ & _ & _ & _ & H).
  exact (H Demo.inOrder).
Defined.

(** ** Part XV.  From the canvas to the run *)

Module ExportFacts.
Import WorkflowUtils ExportJobs.
Import JS Engine Notions.

Lemma setField_keeps_head k v acc k0 v0 :
  k0 ≠ k → setField k v ((k0, v0) :: acc) = (k0, v0) :: setField k v acc.
Proof. intros Hne. simpl. by destruct (String.eqb_spec k0 k). Qed.

Lemma fold_setField_heads (cfg rest : list (string * JSValue)) h1 h2 :
  h1.1 ∉ map fst cfg → h2.1 ∉ map fst cfg →
  ∃ rest', fold_left (λ acc kv, setField kv.1 kv.2 acc) cfg (h1 :: h2 :: rest)
           = h1 :: h2 :: rest'.
Proof.
  revert rest. induction cfg as [|[k v] cfg IH]; intros rest Hn Hl.
  - by eexists.
  - cbn [fold_left fst snd].
    destruct h1 as [k1 v1], h2 as [k2 v2].
    rewrite (setField_keeps_head k v _ k1 v1), (setField_keeps_head k v _ k2 v2).
    + apply IH; intros ?; [apply Hn | apply Hl]; by right.
    + intros <-. apply Hl. by left.
    + intros <-. apply Hn. by left.
Qed.

Lemma attributesOf_plain n :
  plain n →
  ∃ rest, attributesOf n
          = ("nodeId", JString (id (node n))) :: ("label", JString (nlabel (node n))) :: rest.
Proof. intros [Hn Hl]. unfold attributesOf. by apply fold_setField_heads. Qed.

Lemma jobOf_plain ty fallback edges n job :
  plain n → jobOf ty fallback edges n = Some job →
  nodeId job = id (node n)
  ∧ connections job = connectionsOf fallback edges n
  ∧ dependencies job = dependenciesOf fallback edges n.
Proof.
  intros Hp. unfold jobOf. destruct (attributesOf_plain n Hp) as [rest ->].
  destruct ty; [|done]. intros H. by inversion H.
Qed.

Lemma jobOf_shape ty fallback edges n job :
  jobOf ty fallback edges n = Some job →
  connections job = connectionsOf fallback edges n
  ∧ dependencies job = dependenciesOf fallback edges n
  ∧ isConditional job = String.eqb (ntype (node n)) "ConditionNode".
Proof.
  unfold jobOf. destruct ty; [|done].
  destruct (attributesOf n) as [|[? []] [|[? []] ?]]; try done.
  intros H. by inversion H.
Qed.

Lemma mapJobs_Forall2 f nodes jobs :
  mapJobs f nodes = Some jobs → Forall2 (λ n j, f n = Some j) nodes jobs.
Proof.
  revert jobs. induction nodes as [|n nodes IH]; intros jobs; simpl.
  - intros H. inversion H. constructor.
  - destruct (f n) as [j|] eqn:Hj; [|done].
    destruct (mapJobs f nodes) as [js|]; [|done].
    intros H. inversion H; subst. constructor; [done | by apply IH].
Qed.

Lemma connectionsOf_iff fallback edges n c :
  c ∈ connectionsOf fallback edges n
  ↔ ∃ edge, edge ∈ edges ∧ efrom edge = id (node n)
            ∧ c = {| targetJobId := eto edge; condition := conditionOf fallback edge |}.
Proof.
  unfold connectionsOf. rewrite list_elem_of_fmap. split.
  - intros (e & -> & [He Hf]%ConnectionFacts.elem_of_filter_list). exists e.
    split; [done|]. split; [by apply String.eqb_eq | done].
  - intros (e & He & Hf & ->). exists e. split; [done|].
    apply ConnectionFacts.elem_of_filter_list. split; [done | by apply String.eqb_eq].
Qed.

Lemma dependenciesOf_iff fallback edges n d :
  d ∈ dependenciesOf fallback edges n
  ↔ ∃ edge, edge ∈ edges ∧ eto edge = id (node n)
            ∧ d = {| sourceJobId := efrom edge; dependsOn := conditionOf fallback edge |}.
Proof.
  unfold dependenciesOf. rewrite list_elem_of_fmap. split.
  - intros (e & -> & [He Hf]%ConnectionFacts.elem_of_filter_list). exists e.
    split; [done|]. split; [by apply String.eqb_eq | done].
  - intros (e & He & Hf & ->). exists e. split; [done|].
    apply ConnectionFacts.elem_of_filter_list. split; [done | by apply String.eqb_eq].
Qed.

(** X20. [exportJobsConfig] builds one job for every node, whatever its
    type: the type is the mapped name, or [undefined] for a type that the
    mapping does not list, such as [runVM] and [runServer].  [totalJobs]
    is the number of nodes, [hasConditionalFlow] holds exactly when some
    node is a [ConditionNode], and the connections of one job are the
    dependencies of the other. *)
Theorem exportJobsConfig_dual nodes edges :
  let exported := exportJobsConfig nodes edges in
  length (jobConfigs exported) = length nodes
  ∧ totalJobs (flow exported) = length nodes
  ∧ (hasConditionalFlow (flow exported) = true
     ↔ ∃ n, n ∈ nodes ∧ ntype (node n) = "ConditionNode")
  ∧ (∀ i a ja,
       nodes !! i = Some a → jobConfigs exported !! i = Some ja →
       jtype ja = mappedType (ntype (node a))
       ∧ (ntype (node a) = "runVM" ∨ ntype (node a) = "runServer" → jtype ja = None)
       ∧ jattributes ja = attributesOf a)
  ∧ ∀ i j a b ja jb k,
      nodes !! i = Some a → jobConfigs exported !! i = Some ja →
      nodes !! j = Some b → jobConfigs exported !! j = Some jb →
      {| targetJobId := id (node b); condition := k |} ∈ jconnections ja
      ↔ {| sourceJobId := id (node a); dependsOn := k |} ∈ jdependencies jb.
Proof.
  intros exported. subst exported. unfold exportJobsConfig. cbn [jobConfigs flow totalJobs hasConditionalFlow].
  assert (Hjob : ∀ i a ja, nodes !! i = Some a →
            map (jobConfigOf edges) nodes !! i = Some ja → ja = jobConfigOf edges a).
  { intros i a ja Ha Hja. rewrite list_lookup_fmap, Ha in Hja. by inversion Hja. }
  split; [by rewrite length_map|]. split; [by rewrite length_map|]. split; [|split].
  - rewrite existsb_elem_of. split.
    + intros (j & (n & -> & Hn)%list_elem_of_fmap & Hc). exists n. split; [done|].
      by apply String.eqb_eq.
    + intros (n & Hn & Hty). exists (jobConfigOf edges n).
      split; [apply list_elem_of_fmap; by exists n|]. simpl. by apply String.eqb_eq.
  - intros i a ja Ha Hja. rewrite (Hjob i a ja Ha Hja). simpl.
    split; [done|]. split; [|done]. by intros [-> | ->].
  - intros i j a b ja jb k Ha Hja Hb Hjb.
    rewrite (Hjob i a ja Ha Hja), (Hjob j b jb Hb Hjb). simpl.
    rewrite connectionsOf_iff, dependenciesOf_iff. split.
    + intros (e & He & Hf & Heq). inversion Heq. exists e. split; [done|].
      split; [done|]. by rewrite Hf.
    + intros (e & He & Ht & Heq). inversion Heq. exists e. split; [done|].
      split; [done|]. by rewrite Ht.
Qed.


Section Modal.
Context (nodes : list ConfiguredNode) (edges : list WorkflowEdge)
        (workflowConfig : BackendJobsConfig).
Hypothesis Hconfig : ExecutionModal.workflowConfig nodes edges = Some workflowConfig.

Lemma modal_jobs :
  Forall2 (λ n j, jobOf (Some (ExecutionModal.removeFirst "Node" (ntype (node n))))
                    "out" edges n = Some j)
    nodes (jobs workflowConfig).
Proof.
  revert Hconfig. unfold ExecutionModal.workflowConfig.
  destruct (mapJobs _ nodes) as [js|] eqn:Hmap; [|done].
  intros H. inversion H. simpl. by apply mapJobs_Forall2.
Qed.

Lemma modal_startNode :
  startNode (executionFlow workflowConfig) = startNodeOf nodes.
Proof.
  revert Hconfig. unfold ExecutionModal.workflowConfig.
  destruct (mapJobs _ nodes) as [js|]; [|done]. intros H. by inversion H.
Qed.

Lemma modal_job_node job :
  job ∈ jobs workflowConfig →
  ∃ n, n ∈ nodes ∧ connections job = connectionsOf "out" edges n
       ∧ (plain n → nodeId job = id (node n)).
Proof.
  intros [i Hi]%list_elem_of_lookup.
  destruct (Forall2_lookup_r _ _ _ _ _ modal_jobs Hi) as (n & Hn & Hjob).
  exists n. split; [apply list_elem_of_lookup; eauto|].
  split; [by apply jobOf_shape in Hjob as (? & _)|].
  intros Hp. by apply (jobOf_plain _ _ _ _ _ Hp) in Hjob as (? & _).
Qed.

Lemma modal_follows_wired a b :
  Forall plain nodes → follows workflowConfig a b → wired edges a b.
Proof.
  intros Hplain (job & Hfind & Hb). apply find_some in Hfind as [Hin Hid].
  apply String.eqb_eq in Hid. apply list_elem_of_In in Hin.
  destruct (modal_job_node job Hin) as (n & Hn & Hconn & Hnode).
  rewrite Forall_forall in Hplain. rewrite (Hnode (Hplain n Hn)) in Hid.
  rewrite Hconn in Hb. apply list_elem_of_fmap in Hb as (c & -> & Hc).
  apply connectionsOf_iff in Hc as (edge & Hedge & Hfrom & ->).
  exists edge. split; [done|]. split; [congruence | done].
Qed.

Lemma startNodeOf_Some start :
  startNodeOf nodes = Some start →
  start ≠ "" ∧ ∃ n, n ∈ nodes ∧ isStartNode (node n) = true ∧ id (node n) = start.
Proof.
  unfold startNodeOf. destruct (List.find _ nodes) as [n|] eqn:Hfind; [|done].
  apply find_some in Hfind as [Hin Hstart]. apply list_elem_of_In in Hin.
  destruct (String.eqb_spec (id (node n)) "") as [|Hne]; [done|].
  intros H. inversion H; subst. eauto.
Qed.

Lemma modal_allTargets :
  allTargets workflowConfig = flat_map (λ n, outgoing edges (id (node n))) nodes.
Proof.
  unfold allTargets. generalize modal_jobs. generalize (jobs workflowConfig).
  clear Hconfig. intros js Hjobs.
  induction Hjobs as [|n j ns js Hj _ IH]; [done|]. simpl. rewrite IH. f_equal.
  apply jobOf_shape in Hj as (-> & _). unfold connectionsOf, outgoing.
  by rewrite map_map.
Qed.

End Modal.

Lemma NoDup_outgoing_parts (edges : list WorkflowEdge) (ids : list string) :
  NoDup ids → NoDup (map eto edges) → NoDup (flat_map (outgoing edges) ids).
Proof.
  intros Hids Hto. induction Hids as [|i ids Hi _ IH]; simpl; [constructor|].
  apply NoDup_app. split; [|split; [|done]].
  - unfold outgoing. clear -Hto. induction edges as [|e edges IHe]; simpl; [constructor|].
    simpl in Hto. apply NoDup_cons in Hto as [Hne Hto].
    destruct (String.eqb _ _); simpl; [|by apply IHe].
    apply NoDup_cons. split; [|by apply IHe].
    intros (e' & Heq & [Hin _]%ConnectionFacts.elem_of_filter_list)%list_elem_of_fmap.
    apply Hne. apply list_elem_of_fmap. eauto.
  - intros x Hx (j & Hj & Hxj)%ConnectionFacts.elem_of_flat_map.
    unfold outgoing in Hx, Hxj.
    apply list_elem_of_fmap in Hx as (e1 & -> & [He1 Hf1]%ConnectionFacts.elem_of_filter_list).
    apply list_elem_of_fmap in Hxj as (e2 & Heq & [He2 Hf2]%ConnectionFacts.elem_of_filter_list).
    apply String.eqb_eq in Hf1, Hf2.
    assert (e1 = e2) as ->.
    { clear -Hto He1 He2 Heq. induction edges as [|e edges IHe]; [inversion He1|].
      simpl in Hto. apply NoDup_cons in Hto as [Hne Hto].
      apply elem_of_cons in He1 as [->|He1]; apply elem_of_cons in He2 as [->|He2].
      - done.
      - exfalso. apply Hne. rewrite Heq. apply list_elem_of_fmap. eauto.
      - exfalso. apply Hne. rewrite <- Heq. apply list_elem_of_fmap. eauto.
      - by apply IHe. }
    apply Hi. congruence.
Qed.

(** X21. A run started from the execution modal dispatches only nodes that
    [getReachableNodes] finds from the Start nodes of the canvas. *)
Theorem modal_run_within_reachable rt world executor nodes edges workflowConfig schedule x :
  ExecutionModal.workflowConfig nodes edges = Some workflowConfig →
  Forall plain nodes →
  x ∈ dispatchedJobs rt world executor workflowConfig schedule →
  x ∈ getReachableNodes (List.filter isStartNode (map node nodes)) edges.
Proof.
  intros Hconfig Hplain (start & Hstart & Hpath)%dispatchedJobs_rooted.
  rewrite (modal_startNode _ _ _ Hconfig) in Hstart.
  apply startNodeOf_Some in Hstart as (_ & n & Hn & Hty & <-).
  apply ReachFacts.getReachableNodes_spec. exists (node n). split.
  - apply ConnectionFacts.elem_of_filter_list. split; [|done].
    apply list_elem_of_fmap. eauto.
  - clear -Hpath Hconfig Hplain. induction Hpath as [|a b c Hab _ IH]; [done|].
    eapply rtc_l; [|exact IH]. by eapply modal_follows_wired.
Qed.

(** X22. On a canvas where no node is the target of two edges and no edge
    enters the Start node, a run from the execution modal dispatches no
    node twice. *)
Theorem modal_run_dispatches_once rt world executor nodes edges workflowConfig schedule :
  ExecutionModal.workflowConfig nodes edges = Some workflowConfig →
  NoDup (map (λ n, id (node n)) nodes) →
  NoDup (map eto edges) →
  (∀ n edge, n ∈ nodes → isStartNode (node n) = true → edge ∈ edges →
             eto edge ≠ id (node n)) →
  NoDup (dispatchedJobs rt world executor workflowConfig schedule).
Proof.
  intros Hconfig Hids Hto Hroot.
  destruct (startNode (executionFlow workflowConfig)) as [start|] eqn:Hstart.
  2:{ unfold dispatchedJobs, begin. rewrite Hstart. constructor. }
  apply (treeShaped_once rt world executor workflowConfig start); [|done].
  unfold treeShaped. rewrite (modal_allTargets _ _ _ Hconfig).
  replace (flat_map (λ n, outgoing edges (id (node n))) nodes)
    with (flat_map (outgoing edges) (map (λ n, id (node n)) nodes))
    by (clear; induction nodes as [|n ns IH]; simpl; [done | by rewrite IH]).
  split; [by apply NoDup_outgoing_parts|].
  rewrite (modal_startNode _ _ _ Hconfig) in Hstart.
  apply startNodeOf_Some in Hstart as (_ & n & Hn & Hty & <-).
  intros (i & _ & Hx)%ConnectionFacts.elem_of_flat_map.
  unfold outgoing in Hx.
  apply list_elem_of_fmap in Hx as (e & Heq & [He _]%ConnectionFacts.elem_of_filter_list).
  by apply (Hroot n e).
Qed.


(** X23. A run started from the execution modal that settles is rejected
    only for want of a Start node; with one it resolves as completed. *)
Theorem modal_run_outcome rt world executor nodes edges workflowConfig schedule :
  ExecutionModal.workflowConfig nodes edges = Some workflowConfig →
  Forall plain nodes →
  match executeWorkflow rt world executor workflowConfig schedule with
  | Resolved w =>
      wstatus w = WCompleted
      ∧ ∃ n, n ∈ nodes ∧ ntype (node n) = "StartNode"
  | Rejected e w =>
      e = newError "No start node found in workflow" ∧ wstatus w = WFailed
      ∧ ∀ n, List.find (λ n, isStartNode (node n)) nodes = Some n → id (node n) = ""
  | Unfinished => True
  end.
Proof.
  intros Hconfig Hplain.
  pose proof (executeWorkflow_outcome rt world executor workflowConfig schedule) as Hout.
  rewrite (modal_startNode _ _ _ Hconfig) in Hout.
  destruct (executeWorkflow _ _ _ _ _) as [w|e w|]; [| |done].
  - destruct Hout as (Hs & start & (_ & n & Hn & Hty & _)%startNodeOf_Some & _).
    split; [done|]. exists n. split; [done|]. by apply String.eqb_eq.
  - destruct Hout as (Hs & _ & [[Hnone He]|(start & Hstart & _ & Hfind & _)]).
    + split; [done|]. split; [done|]. intros n Hn.
      destruct Hnone as [Hnone|Hnone].
      * revert Hnone. unfold startNodeOf. rewrite Hn.
        by destruct (String.eqb_spec (id (node n)) "").
      * by apply startNodeOf_Some in Hnone as [? _].
    + exfalso. apply startNodeOf_Some in Hstart as (_ & n & Hn & _ & <-).
      apply list_elem_of_lookup in Hn as [i Hi].
      destruct (Forall2_lookup_l _ _ _ _ _ (modal_jobs _ _ _ Hconfig) Hi)
        as (j & Hj & Hjob).
      rewrite Forall_forall in Hplain.
      apply jobOf_plain in Hjob as (Hid & _);
        [|apply Hplain, list_elem_of_lookup; eauto].
      assert (Hin : In j (jobs workflowConfig))
        by (apply list_elem_of_In, list_elem_of_lookup; eauto).
      pose proof (find_none _ _ Hfind j Hin) as Hno. simpl in Hno.
      rewrite Hid, String.eqb_refl in Hno. done.
Qed.

End ExportFacts.

(** ** Part XVI.  The operations of the hook *)

Module HookFacts.
Import WorkflowUtils UseWorkflow Notions CycleDetection ConnectionFacts.

Lemma findNode_Some ns nodeId n :
  findNode ns nodeId = Some n → n ∈ ns ∧ id n = nodeId.
Proof.
  intros [Hin Heq]%find_some. split; [by apply list_elem_of_In | by apply String.eqb_eq].
Qed.



(** X24. [addEdge], called on refs that are up to date, keeps the canvas
    well formed; it adds one edge when it returns true and changes
    nothing when it returns false. *)
Theorem addEdge_keeps_wellFormed generated fromNodeId outputHandle toNodeId inputHandle st :
  wellFormed (nodes st) (edges st) →
  let '(added, st') :=
    addEdge (rendered st) generated fromNodeId outputHandle toNodeId inputHandle st in
  wellFormed (nodes st') (edges st')
  ∧ added = canConnect (rendered st) fromNodeId outputHandle toNodeId inputHandle
  ∧ nodes st' = nodes st
  ∧ edges st' = (if added
                 then edges st ++ [createEdge generated fromNodeId outputHandle
                                     toNodeId inputHandle]
                 else edges st).
Proof.
  intros Hwf. unfold addEdge, canConnect. cbn [rendered nodesRef edgesRef].
  destruct (findNode (nodes st) fromNodeId) as [s|] eqn:Hs; [|done].
  destruct (findNode (nodes st) toNodeId) as [t|] eqn:Ht; [|done].
  destruct (WorkflowUtils.canConnect _) eqn:Hok; [|done].
  split; [|done]. cbn [nodes edges].
  apply findNode_Some in Hs as [Hsin Hsid], Ht as [Htin Htid].
  destruct Hwf as (Hends & Hnd & Hacyc).
  pose proof Hok as Hok'.
  apply validateConnection_spec in Hok' as (Hout & Hinp & _ & Hfree & Hnew).
  rewrite Hsid, Htid in *.
  split; [|split].
  - intros edge [Hin| ->%list_elem_of_singleton]%elem_of_app; [by apply Hends|].
    simpl. split; [exists s | exists t]; done.
  - rewrite map_app. apply NoDup_app. split; [done|]. split; [|apply NoDup_singleton].
    intros a Ha ->%list_elem_of_singleton.
    apply list_elem_of_fmap in Ha as (edge & Harr & Hedge).
    by apply (Hfree edge Hedge).
  - intros Hc. apply Hnew. eapply hasDirectedCycle_iff; [|exact Hc].
    intros x y. apply augmented_wired.
Qed.


End HookFacts.

(** ** Part XVII.  Concrete instances *)

Module Instances.
Import WorkflowUtils JS Engine Notions Demo.

Lemma by_compute (P : Prop) `{Decision P} : bool_decide P = true → P.
Proof. apply bool_decide_eq_true. Qed.

Local Ltac decided :=
  match goal with |- ?P => apply (by_compute P); vm_compute; reflexivity end.

Lemma wellFormed_halfChain :
  wellFormed (UseWorkflow.nodes halfChain) (UseWorkflow.edges halfChain).
Proof.
  split; [|split].
  - intros edge ->%list_elem_of_singleton. split.
    + eexists. split; [apply list_elem_of_here|].
      split; [reflexivity|]. eexists. split; [apply list_elem_of_here|]. by split.
    + exists (task "a"). split; [apply list_elem_of_further, list_elem_of_here|].
      split; [reflexivity|]. eexists. split; [apply list_elem_of_here|]. by split.
  - apply NoDup_singleton.
  - assert (Hacyclic : wouldCreateCycle "s" "a" [] = false) by (vm_compute; reflexivity).
    apply ConnectionFacts.wouldCreateCycle_false in Hacyclic.
    intros Hc. apply Hacyclic. eapply CycleDetection.hasDirectedCycle_iff; [|exact Hc].
    intros x y. apply (ConnectionFacts.augmented_wired "s" "a" [] "e1" "out" "in").
Qed.


Lemma plain_chainNodes : Forall plain chainNodes.
Proof. repeat constructor; inversion 1. Qed.

Lemma accepted_connection_keeps_dag_witness :
  ¬ hasDirectedCycle (wired ([wire "e1" "s" "a"] ++ [createEdge "e2" "a" "out" "b" "in"]))
  ∧ NoDup (map arrival ([wire "e1" "s" "a"] ++ [createEdge "e2" "a" "out" "b" "in"])).
Proof.
  apply (ConnectionFacts.accepted_connection_keeps_dag (task "a") "out" (task "b") "in"
           [wire "e1" "s" "a"] "e2").
  - vm_compute. reflexivity.
  - apply NoDup_singleton.
Defined.

Lemma getTopologicalOrder_sorted_witness :
  NoDup ["s"; "a"; "b"]
  ∧ (∀ x, x ∈ ["s"; "a"; "b"] → x ∈ map id loopNodes ∨ x ∈ map eto chainEdges)
  ∧ (∀ edge, edge ∈ chainEdges → eto edge ∈ ["s"; "a"; "b"] →
             before ["s"; "a"; "b"] (efrom edge) (eto edge)).
Proof.
  apply (OrderFacts.getTopologicalOrder_sorted loopNodes chainEdges). vm_compute. reflexivity.
Defined.

Lemma getTopologicalOrder_complete_witness :
  (∀ x, x ∈ ["s"; "a"; "b"]
        ↔ (x ∈ map id loopNodes ∨ x ∈ map eto chainEdges)
          ∧ ¬ behindCycle (wired chainEdges) x)
  ∧ (¬ hasDirectedCycle (wired chainEdges) →
     ∀ node, node ∈ loopNodes → id node ∈ ["s"; "a"; "b"]).
Proof.
  apply (OrderFacts.getTopologicalOrder_complete loopNodes chainEdges). vm_compute. reflexivity.
Defined.

Lemma onConnect_keeps_tree_valid_witness :
  "a" ≠ "b"
  ∧ TreeValidator.treeValid
      (TreeValidator.validateTree chainOnCanvas
         ([WorkflowCanvas.toFlowEdge (wire "e1" "s" "a")]
          ++ [WorkflowCanvas.toFlowEdge (createEdge "e2" "a" "out" "b" "in")])) = true.
Proof.
  apply (CanvasFacts.onConnect_keeps_tree_valid chainOnCanvas
           [WorkflowCanvas.toFlowEdge (wire "e1" "s" "a")]
           {| WorkflowCanvas.source := Some "a"; WorkflowCanvas.target := Some "b";
              WorkflowCanvas.sourceHandle := Some "out";
              WorkflowCanvas.targetHandle := Some "in" |}).
  - vm_compute. reflexivity.
  - vm_compute. reflexivity.
Defined.

Lemma final_statuses_witness :
  (∀ job, job ∈ jobs orphaned → is_Some (mapGet (nodeId job) (jobResults orphanedResult)))
  ∧ ∀ id r, mapGet id (jobResults orphanedResult) = Some r →
      (status r = Pending ∨ status r = Completed ∨ status r = Failed)
      ∧ (status r = Pending
         ↔ id ∉ dispatchedJobs host offline (newExecutor None) orphaned inOrder).
Proof.
  apply (final_statuses host offline (newExecutor None) orphaned inOrder orphanedResult).
  vm_compute. reflexivity.
Defined.

Lemma unreachable_jobs_stay_pending_witness :
  ∃ start,
    startNode (executionFlow orphaned) = Some start
    ∧ (∀ id, id ∈ dispatchedJobs host offline (newExecutor None) orphaned inOrder →
             rtc (follows orphaned) start id)
    ∧ (∀ id r, mapGet id (jobResults orphanedResult) = Some r →
               ¬ rtc (follows orphaned) start id → status r = Pending).
Proof.
  apply (unreachable_jobs_stay_pending host offline (newExecutor None) orphaned inOrder
           orphanedResult).
  vm_compute. reflexivity.
Defined.

Lemma api_error_status_witness :
  written (executeAPICallJob host failing (newExecutor None) apiJob) = None
  ∧ thrown (executeAPICallJob host failing (newExecutor None) apiJob)
    = Some (newError
              "API call failed: API call failed with status 500: Internal Server Error").
Proof.
  destruct (api_error_status host failing (newExecutor None) apiJob serverError)
    as (Hw & _ & Hfail & _).
  - vm_compute. reflexivity.
  - vm_compute. reflexivity.
  - vm_compute. reflexivity.
  - vm_compute. reflexivity.
  - split; [exact Hw|]. destruct Hfail as [Ht _]; [vm_compute; reflexivity|]. exact Ht.
Defined.

Lemma dependencies_dispatched_first_witness : "s" ∈ ["s"].
Proof.
  apply (dependencies_dispatched_first host offline (newExecutor None) unreachable inOrder
           ["s"] "api" ["e"]
           (job "APICall" "api" [("url", JString "http://unreachable.invalid/")]
              [out "e"] [after "s"])
           (after "s")).
  - vm_compute. reflexivity.
  - vm_compute. reflexivity.
  - apply list_elem_of_here.
Defined.

Lemma tree_dispatches_once_witness :
  NoDup (dispatchedJobs host offline (newExecutor None) unreachable inOrder).
Proof.
  apply (tree_dispatches_once host offline (newExecutor None) unreachable "s" inOrder).
  - split; decided.
  - reflexivity.
Defined.

Lemma modal_run_within_reachable_witness :
  "b" ∈ getReachableNodes (List.filter isStartNode (map ExportJobs.node chainNodes))
          chainEdges.
Proof.
  apply (ExportFacts.modal_run_within_reachable host offline (newExecutor None)
           chainNodes chainEdges chainDocument inOrder "b").
  - vm_compute. reflexivity.
  - exact plain_chainNodes.
  - decided.
Defined.

Lemma modal_run_dispatches_once_witness :
  NoDup (dispatchedJobs host offline (newExecutor None) chainDocument inOrder).
Proof.
  apply (ExportFacts.modal_run_dispatches_once host offline (newExecutor None)
           chainNodes chainEdges chainDocument inOrder).
  - vm_compute. reflexivity.
  - decided.
  - decided.
  - intros n edge Hn Hstart Hedge.
    apply elem_of_cons in Hn as [->|Hn].
    + apply elem_of_cons in Hedge as [->|Hedge]; [discriminate|].
      apply list_elem_of_singleton in Hedge as ->. discriminate.
    + apply elem_of_cons in Hn as [->|Hn]; [discriminate|].
      apply list_elem_of_singleton in Hn as ->. discriminate.
Defined.

Lemma modal_run_outcome_witness :
  match executeWorkflow host offline (newExecutor None) chainDocument inOrder with
  | Resolved w =>
      wstatus w = WCompleted
      ∧ ∃ n, n ∈ chainNodes ∧ ntype (ExportJobs.node n) = "StartNode"
  | Rejected e w =>
      e = newError "No start node found in workflow" ∧ wstatus w = WFailed
      ∧ ∀ n, List.find (λ n, isStartNode (ExportJobs.node n)) chainNodes = Some n →
             id (ExportJobs.node n) = ""
  | Unfinished => True
  end.
Proof.
  apply (ExportFacts.modal_run_outcome host offline (newExecutor None)
           chainNodes chainEdges chainDocument inOrder).
  - vm_compute. reflexivity.
  - exact plain_chainNodes.
Defined.

Lemma addEdge_keeps_wellFormed_witness :
  let '(added, st') :=
    UseWorkflow.addEdge (UseWorkflow.rendered halfChain) "e2" "a" "out" "b" "in" halfChain in
  wellFormed (UseWorkflow.nodes st') (UseWorkflow.edges st')
  ∧ added = UseWorkflow.canConnect (UseWorkflow.rendered halfChain) "a" "out" "b" "in"
  ∧ UseWorkflow.nodes st' = UseWorkflow.nodes halfChain
  ∧ UseWorkflow.edges st'
    = (if added
       then UseWorkflow.edges halfChain ++ [createEdge "e2" "a" "out" "b" "in"]
       else UseWorkflow.edges halfChain).
Proof.
  apply (HookFacts.addEdge_keeps_wellFormed "e2" "a" "out" "b" "in" halfChain).
  exact wellFormed_halfChain.
Defined.


End Instances.
